(** * A shallow embedding of the cpp-btree engine

    Nodes live in an explicit store (address -> node record); a node
    pointer is an address, the NULL pointer is address 0.  Every method of
    [btree_node], [btree_iterator] and [btree] is a function on that store,
    written statement by statement after the C++ source.  [int] values are
    in [Z]; the count fields ([count], [max_count], [position]) are stored
    through [field_wrap], the truncation to [node_count_type]. *)

From Stdlib Require Import ZArith Lia Bool.
From stdpp Require Import base list gmap.
Local Open Scope Z_scope.

(** ** Template parameters *)

(** [Params] gathers what the C++ template parameters fix at instantiation
    time: the key and value types, [params_type::key], the comparator
    functor (with its possible internal state), and the sizes from which
    [kNodeValues] is computed. *)
Class Params := {
  key_type : Type;
  value_type : Type;
  key_compare : Type;
  params_key : value_type -> key_type;
  value_type_default : value_type;
  is_key_compare_to : bool;
  key_is_arithmetic : bool;
  plain_compare : key_compare -> key_type -> key_type -> bool;
  compare_to : key_compare -> key_type -> key_type -> Z;
  key_compare_default : key_compare;
  kTargetNodeSize : Z;
  kValueSize : Z;
  sizeof_void_ptr : Z;
}.

Section Sizes.
Context `{P : Params}.

(** [size_t] arithmetic: [sizeof] has type [size_t], so the subtraction and
    the division of [kNodeTargetValues] are unsigned. *)
Definition size_t_modulus : Z := 2 ^ (8 * sizeof_void_ptr).
Definition size_t_wrap (x : Z) : Z := x mod size_t_modulus.

(** [btree_common_params]: [kNodeValueSpace] and [node_count_type]. *)
Definition kNodeValueSpace : Z := size_t_wrap (kTargetNodeSize - 2 * sizeof_void_ptr).
Definition sizeof_node_count_type : Z :=
  if 256 <=? kNodeValueSpace / size_t_wrap kValueSize then 2 else 1.

(** Layout of [btree_base_fields]: [bool leaf], three [field_type] members
    and one pointer, each aligned to its own size, the struct padded to the
    pointer alignment. *)
Definition align_up (off a : Z) : Z := ((off + a - 1) / a) * a.
Definition sizeof_base_fields : Z :=
  let w := sizeof_node_count_type in
  let off_position := align_up 1 w in
  let off_max_count := off_position + w in
  let off_count := off_max_count + w in
  let off_parent := align_up (off_count + w) sizeof_void_ptr in
  align_up (off_parent + sizeof_void_ptr) sizeof_void_ptr.

(** The enum of [btree_node]. *)
Definition kNodeTargetValues : Z :=
  size_t_wrap (kTargetNodeSize - sizeof_base_fields) / size_t_wrap kValueSize.
Definition kNodeValues : Z :=
  if 3 <=? kNodeTargetValues then kNodeTargetValues else 3.
Definition kExactMatch : Z := Z.shiftl 1 30.
Definition kMatchMask : Z := kExactMatch - 1.

(** The enum of [btree]. *)
Definition kMinNodeValues : Z := kNodeValues / 2.

(** Truncation of an [int] stored into a [field_type] member. *)
Definition field_modulus : Z := 2 ^ (8 * sizeof_node_count_type).
Definition field_wrap (x : Z) : Z := x mod field_modulus.

End Sizes.

(** ** Comparators (btree_compare.h) *)

Section Compare.
Context `{P : Params}.

(** [btree_compare_keys]: dispatches on [btree_is_key_compare_to]. *)
Definition btree_compare_keys (comp : key_compare) (x y : key_type) : bool :=
  if is_key_compare_to then compare_to comp x y <? 0 else plain_compare comp x y.

(** [btree_upper_bound_adapter]: [upper(a, b) := !comp(b, a)]. *)
Definition btree_upper_bound_adapter (comp : key_type -> key_type -> bool)
    (a b : key_type) : bool :=
  negb (comp b a).

End Compare.

(** ** Nodes *)

Section Node.
Context `{P : Params}.

(** One record for the three node shapes.  [values] has [max_count] slots,
    a slot is [None] until a value is constructed in it; [children] is
    empty for a leaf and has [kNodeValues + 1] slots otherwise;
    [rightmost] and [size] are meaningful on the root only. *)
Record btree_node := mk_node {
  leaf : bool;
  position : Z;
  max_count : Z;
  count : Z;
  parent : nat;
  values : list (option value_type);
  children : list nat;
  rightmost : nat;
  size : Z;
}.

#[export] Instance btree_node_inhabited : Inhabited btree_node :=
  populate (mk_node false 0 0 0 0%nat [] [] 0%nat 0).

Definition with_leaf (b : bool) (n : btree_node) : btree_node :=
  mk_node b (position n) (max_count n) (count n) (parent n) (values n)
    (children n) (rightmost n) (size n).
Definition with_position (v : Z) (n : btree_node) : btree_node :=
  mk_node (leaf n) (field_wrap v) (max_count n) (count n) (parent n) (values n)
    (children n) (rightmost n) (size n).
Definition with_count (v : Z) (n : btree_node) : btree_node :=
  mk_node (leaf n) (position n) (max_count n) (field_wrap v) (parent n) (values n)
    (children n) (rightmost n) (size n).
Definition with_parent (p : nat) (n : btree_node) : btree_node :=
  mk_node (leaf n) (position n) (max_count n) (count n) p (values n)
    (children n) (rightmost n) (size n).
Definition with_values (vs : list (option value_type)) (n : btree_node) : btree_node :=
  mk_node (leaf n) (position n) (max_count n) (count n) (parent n) vs
    (children n) (rightmost n) (size n).
Definition with_children (cs : list nat) (n : btree_node) : btree_node :=
  mk_node (leaf n) (position n) (max_count n) (count n) (parent n) (values n)
    cs (rightmost n) (size n).
Definition with_rightmost (r : nat) (n : btree_node) : btree_node :=
  mk_node (leaf n) (position n) (max_count n) (count n) (parent n) (values n)
    (children n) r (size n).
Definition with_size (s : Z) (n : btree_node) : btree_node :=
  mk_node (leaf n) (position n) (max_count n) (count n) (parent n) (values n)
    (children n) (rightmost n) s.

(** Accessors of a node value ([const] methods). *)
Definition slot (n : btree_node) (i : Z) : option value_type :=
  values n !!! Z.to_nat i.
Definition value (n : btree_node) (i : Z) : value_type :=
  default value_type_default (slot n i).
Definition key (n : btree_node) (i : Z) : key_type := params_key (value n i).
Definition child (n : btree_node) (i : Z) : nat := children n !!! Z.to_nat i.

(** *** Searches within a node *)

Fixpoint linear_search_plain_compare_loop (fuel : nat) (n : btree_node)
    (k : key_type) (s e : Z) (comp : key_type -> key_type -> bool) : Z :=
  match fuel with
  | O => s
  | S fuel' =>
      if s <? e then
        if negb (comp (key n s) k) then s
        else linear_search_plain_compare_loop fuel' n k (s + 1) e comp
      else s
  end.
Definition linear_search_plain_compare (n : btree_node) (k : key_type)
    (s e : Z) (comp : key_type -> key_type -> bool) : Z :=
  linear_search_plain_compare_loop (Z.to_nat (e - s)) n k s e comp.

Fixpoint linear_search_compare_to_loop (fuel : nat) (n : btree_node)
    (k : key_type) (s e : Z) (comp : key_type -> key_type -> Z) : Z :=
  match fuel with
  | O => s
  | S fuel' =>
      if s <? e then
        let c := comp (key n s) k in
        if c =? 0 then Z.lor s kExactMatch
        else if 0 <? c then s
        else linear_search_compare_to_loop fuel' n k (s + 1) e comp
      else s
  end.
Definition linear_search_compare_to (n : btree_node) (k : key_type)
    (s e : Z) (comp : key_type -> key_type -> Z) : Z :=
  linear_search_compare_to_loop (Z.to_nat (e - s)) n k s e comp.

Fixpoint binary_search_plain_compare_loop (fuel : nat) (n : btree_node)
    (k : key_type) (s e : Z) (comp : key_type -> key_type -> bool) : Z :=
  match fuel with
  | O => s
  | S fuel' =>
      if negb (s =? e) then
        let mid := (s + e) / 2 in
        if comp (key n mid) k
        then binary_search_plain_compare_loop fuel' n k (mid + 1) e comp
        else binary_search_plain_compare_loop fuel' n k s mid comp
      else s
  end.
Definition binary_search_plain_compare (n : btree_node) (k : key_type)
    (s e : Z) (comp : key_type -> key_type -> bool) : Z :=
  binary_search_plain_compare_loop (Z.to_nat (e - s)) n k s e comp.

Fixpoint binary_search_compare_to_loop (fuel : nat) (n : btree_node)
    (k : key_type) (s e : Z) (comp : key_type -> key_type -> Z) : Z :=
  match fuel with
  | O => s
  | S fuel' =>
      if negb (s =? e) then
        let mid := (s + e) / 2 in
        let c := comp (key n mid) k in
        if c <? 0 then binary_search_compare_to_loop fuel' n k (mid + 1) e comp
        else if 0 <? c then binary_search_compare_to_loop fuel' n k s mid comp
        else
          let s' := binary_search_compare_to_loop fuel' n k s mid comp in
          Z.lor s' kExactMatch
      else s
  end.
Definition binary_search_compare_to (n : btree_node) (k : key_type)
    (s e : Z) (comp : key_type -> key_type -> Z) : Z :=
  binary_search_compare_to_loop (Z.to_nat (e - s)) n k s e comp.

(** *** The dispatch helper classes and [search_type] *)

Definition btree_linear_search_plain_compare_lower_bound
    (k : key_type) (n : btree_node) (comp : key_compare) : Z :=
  linear_search_plain_compare n k 0 (count n) (btree_compare_keys comp).
Definition btree_linear_search_plain_compare_upper_bound
    (k : key_type) (n : btree_node) (comp : key_compare) : Z :=
  linear_search_plain_compare n k 0 (count n)
    (btree_upper_bound_adapter (btree_compare_keys comp)).

Definition btree_linear_search_compare_to_lower_bound
    (k : key_type) (n : btree_node) (comp : key_compare) : Z :=
  linear_search_compare_to n k 0 (count n) (compare_to comp).
Definition btree_linear_search_compare_to_upper_bound
    (k : key_type) (n : btree_node) (comp : key_compare) : Z :=
  linear_search_plain_compare n k 0 (count n)
    (btree_upper_bound_adapter (fun x y => compare_to comp x y <? 0)).

Definition btree_binary_search_plain_compare_lower_bound
    (k : key_type) (n : btree_node) (comp : key_compare) : Z :=
  binary_search_plain_compare n k 0 (count n) (btree_compare_keys comp).
Definition btree_binary_search_plain_compare_upper_bound
    (k : key_type) (n : btree_node) (comp : key_compare) : Z :=
  binary_search_plain_compare n k 0 (count n)
    (btree_upper_bound_adapter (btree_compare_keys comp)).

(** The compare-to binary search builds its comparator with [CompareTo()];
    the argument [comp] is not used. *)
Definition btree_binary_search_compare_to_lower_bound
    (k : key_type) (n : btree_node) (comp : key_compare) : Z :=
  binary_search_compare_to n k 0 (count n) (compare_to key_compare_default).
Definition btree_binary_search_compare_to_upper_bound
    (k : key_type) (n : btree_node) (comp : key_compare) : Z :=
  linear_search_plain_compare n k 0 (count n)
    (btree_upper_bound_adapter (fun x y => compare_to comp x y <? 0)).

(** [btree_node::lower_bound] and [upper_bound] through [search_type]:
    linear for arithmetic keys, binary otherwise; compare-to when the
    comparator derives from [btree_key_compare_to_tag]. *)
Definition lower_bound (n : btree_node) (k : key_type) (comp : key_compare) : Z :=
  if key_is_arithmetic then
    if is_key_compare_to then btree_linear_search_compare_to_lower_bound k n comp
    else btree_linear_search_plain_compare_lower_bound k n comp
  else
    if is_key_compare_to then btree_binary_search_compare_to_lower_bound k n comp
    else btree_binary_search_plain_compare_lower_bound k n comp.
Definition upper_bound (n : btree_node) (k : key_type) (comp : key_compare) : Z :=
  if key_is_arithmetic then
    if is_key_compare_to then btree_linear_search_compare_to_upper_bound k n comp
    else btree_linear_search_plain_compare_upper_bound k n comp
  else
    if is_key_compare_to then btree_binary_search_compare_to_upper_bound k n comp
    else btree_binary_search_plain_compare_upper_bound k n comp.

End Node.


(** ** The node store *)

Section Memory.
Context `{P : Params}.

(** The byte allocator hands out addresses that were never used before;
    address 0 stands for NULL and is never allocated. *)
Record memory := mk_memory {
  cells : gmap nat btree_node;
  next_addr : nat;
}.

Definition nd (m : memory) (a : nat) : btree_node := cells m !!! a.
Definition upd (a : nat) (f : btree_node -> btree_node) (m : memory) : memory :=
  mk_memory (<[a := f (nd m a)]> (cells m)) (next_addr m).

(** [allocate]: a fresh region with room for [nvalues] values and
    [nchildren] child pointers, nothing constructed in it yet. *)
Definition allocate (nvalues nchildren : Z) (m : memory) : nat * memory :=
  let a := next_addr m in
  let raw := mk_node false 0 0 0 0%nat (replicate (Z.to_nat nvalues) None)
               (replicate (Z.to_nat nchildren) 0%nat) 0%nat 0 in
  (a, mk_memory (<[a := raw]> (cells m)) (S a)).
Definition deallocate (a : nat) (m : memory) : memory :=
  mk_memory (delete a (cells m)) (next_addr m).

(** Loops [for (j = a; j < b; ++j)] and [for (j = a; j > b; --j)]. *)
Fixpoint for_loop {S : Type} (n : nat) (j step : Z) (body : Z -> S -> S) (s : S) : S :=
  match n with
  | O => s
  | S n' => for_loop n' (j + step) step body (body j s)
  end.
Definition for_up {S : Type} (a b : Z) (body : Z -> S -> S) (s : S) : S :=
  for_loop (Z.to_nat (b - a)) a 1 body s.
Definition for_down {S : Type} (a b : Z) (body : Z -> S -> S) (s : S) : S :=
  for_loop (Z.to_nat (a - b)) a (-1) body s.

(** *** Field setters *)

Definition set_position (a : nat) (v : Z) (m : memory) : memory :=
  upd a (with_position v) m.
Definition set_count (a : nat) (v : Z) (m : memory) : memory :=
  upd a (with_count v) m.
Definition is_root (a : nat) (m : memory) : bool :=
  leaf (nd m (parent (nd m a))).
Definition make_root (a : nat) (m : memory) : memory :=
  upd a (with_parent (parent (nd m (parent (nd m a))))) m.

Definition set_slot (a : nat) (i : Z) (v : option value_type) (m : memory) : memory :=
  upd a (fun n => with_values (<[Z.to_nat i := v]> (values n)) n) m.
Definition value_init (a : nat) (i : Z) (m : memory) : memory :=
  set_slot a i (Some value_type_default) m.
Definition value_init_copy (a : nat) (i : Z) (x : value_type) (m : memory) : memory :=
  set_slot a i (Some x) m.
Definition value_destroy (a : nat) (i : Z) (m : memory) : memory :=
  set_slot a i None m.

(** [value_swap(i, x, j)]: swap value [i] of this node with value [j] of [x]. *)
Definition value_swap (a : nat) (i : Z) (x : nat) (j : Z) (m : memory) : memory :=
  let va := slot (nd m a) i in
  let vx := slot (nd m x) j in
  set_slot x j va (set_slot a i vx m).

(** [*mutable_child(i) = c] and [set_child(i, c)]. *)
Definition assign_child (a : nat) (i : Z) (c : nat) (m : memory) : memory :=
  upd a (fun n => with_children (<[Z.to_nat i := c]> (children n)) n) m.
Definition set_child (a : nat) (i : Z) (c : nat) (m : memory) : memory :=
  let m := assign_child a i c m in
  let m := upd c (with_parent a) m in
  upd c (with_position i) m.

(** *** Node creation *)

Definition init_leaf (f : nat) (parent : nat) (max_count : Z) (m : memory) : memory :=
  upd f (fun n => mk_node true 0 (field_wrap max_count) 0 parent (values n)
                    (children n) (rightmost n) (size n)) m.
Definition init_internal (f : nat) (parent : nat) (m : memory) : memory :=
  let m := init_leaf f parent kNodeValues m in
  upd f (with_leaf false) m.
Definition init_root (f : nat) (parent : nat) (m : memory) : memory :=
  let m := init_internal f parent m in
  let m := upd f (with_rightmost parent) m in
  upd f (with_size (count (nd m parent))) m.
Definition destroy (a : nat) (m : memory) : memory :=
  for_up 0 (count (nd m a)) (fun i m => value_destroy a i m) m.

(** *** insert_value, remove_value *)

Definition insert_value (a : nat) (i : Z) (x : value_type) (m : memory) : memory :=
  let m := value_init_copy a (count (nd m a)) x m in
  let m := for_down (count (nd m a)) i
             (fun j m => value_swap a j a (j - 1) m) m in
  let m := set_count a (count (nd m a) + 1) m in
  if negb (leaf (nd m a)) then
    let i := i + 1 in
    let m := for_down (count (nd m a)) i
               (fun j m =>
                  let m := assign_child a j (child (nd m a) (j - 1)) m in
                  set_position (child (nd m a) j) j m) m in
    assign_child a i 0%nat m
  else m.

Definition remove_value (a : nat) (i : Z) (m : memory) : memory :=
  let m :=
    if negb (leaf (nd m a)) then
      let m := for_up (i + 1) (count (nd m a))
                 (fun j m =>
                    let m := assign_child a j (child (nd m a) (j + 1)) m in
                    set_position (child (nd m a) j) j m) m in
      assign_child a (count (nd m a)) 0%nat m
    else m in
  let m := set_count a (count (nd m a) - 1) m in
  let n := Z.to_nat (count (nd m a) - i) in
  let m := for_up i (count (nd m a))
             (fun i m => value_swap a i a (i + 1) m) m in
  (* the loop variable [i] survives the loop *)
  let i := i + Z.of_nat n in
  value_destroy a i m.

(** *** Rebalancing between siblings *)

Definition rebalance_right_to_left (a : nat) (src : nat) (to_move : Z)
    (m : memory) : memory :=
  (* Make room in the left node for the new values. *)
  let m := for_up 0 to_move (fun i m => value_init a (i + count (nd m a)) m) m in
  (* Move the delimiting value to the left node and the new delimiting
     value from the right node. *)
  let m := value_swap a (count (nd m a)) (parent (nd m a)) (position (nd m a)) m in
  let m := value_swap (parent (nd m a)) (position (nd m a)) src (to_move - 1) m in
  (* Move the values from the right to the left node. *)
  let m := for_up 1 to_move
             (fun i m => value_swap a (count (nd m a) + i) src (i - 1) m) m in
  (* Shift the values in the right node to their correct position. *)
  let m := for_up to_move (count (nd m src))
             (fun i m => value_swap src (i - to_move) src i m) m in
  let m := for_up 1 (to_move + 1)
             (fun i m => value_destroy src (count (nd m src) - i) m) m in
  let m :=
    if negb (leaf (nd m a)) then
      (* Move the child pointers from the right to the left node. *)
      let m := for_up 0 to_move
                 (fun i m => set_child a (1 + count (nd m a) + i)
                               (child (nd m src) i) m) m in
      for_up 0 (count (nd m src) - to_move + 1)
        (fun i m =>
           let m := set_child src i (child (nd m src) (i + to_move)) m in
           assign_child src (i + to_move) 0%nat m) m
    else m in
  (* Fixup the counts on the src and dest nodes. *)
  let m := set_count a (count (nd m a) + to_move) m in
  set_count src (count (nd m src) - to_move) m.

Definition rebalance_left_to_right (a : nat) (dest : nat) (to_move : Z)
    (m : memory) : memory :=
  (* Make room in the right node for the new values. *)
  let m := for_up 0 to_move
             (fun i m => value_init dest (i + count (nd m dest)) m) m in
  let m := for_down (count (nd m dest) - 1) (-1)
             (fun i m => value_swap dest i dest (i + to_move) m) m in
  (* Move the delimiting value to the right node and the new delimiting
     value from the left node. *)
  let m := value_swap dest (to_move - 1) (parent (nd m a)) (position (nd m a)) m in
  let m := value_swap (parent (nd m a)) (position (nd m a)) a
             (count (nd m a) - to_move) m in
  let m := value_destroy a (count (nd m a) - to_move) m in
  (* Move the values from the left to the right node. *)
  let m := for_up 1 to_move
             (fun i m =>
                let m := value_swap a (count (nd m a) - to_move + i) dest (i - 1) m in
                value_destroy a (count (nd m a) - to_move + i) m) m in
  let m :=
    if negb (leaf (nd m a)) then
      (* Move the child pointers from the left to the right node. *)
      let m := for_down (count (nd m dest)) (-1)
                 (fun i m =>
                    let m := set_child dest (i + to_move) (child (nd m dest) i) m in
                    assign_child dest i 0%nat m) m in
      for_up 1 (to_move + 1)
        (fun i m =>
           let m := set_child dest (i - 1)
                      (child (nd m a) (count (nd m a) - to_move + i)) m in
           assign_child a (count (nd m a) - to_move + i) 0%nat m) m
    else m in
  (* Fixup the counts on the src and dest nodes. *)
  let m := set_count a (count (nd m a) - to_move) m in
  set_count dest (count (nd m dest) + to_move) m.

(** *** split, merge, swap *)

Definition split (a : nat) (dest : nat) (insert_position : Z) (m : memory) : memory :=
  let m :=
    if insert_position =? 0 then set_count dest (count (nd m a) - 1) m
    else if insert_position =? max_count (nd m a) then set_count dest 0 m
    else set_count dest (count (nd m a) / 2) m in
  let m := set_count a (count (nd m a) - count (nd m dest)) m in
  (* Move values from the left sibling to the right sibling. *)
  let m := for_up 0 (count (nd m dest))
             (fun i m =>
                let m := value_init dest i m in
                let m := value_swap a (count (nd m a) + i) dest i m in
                value_destroy a (count (nd m a) + i) m) m in
  (* The split key is the largest value in the left sibling. *)
  let m := set_count a (count (nd m a) - 1) m in
  let m := insert_value (parent (nd m a)) (position (nd m a)) value_type_default m in
  let m := value_swap a (count (nd m a)) (parent (nd m a)) (position (nd m a)) m in
  let m := value_destroy a (count (nd m a)) m in
  let m := set_child (parent (nd m a)) (position (nd m a) + 1) dest m in
  if negb (leaf (nd m a)) then
    for_up 0 (count (nd m dest) + 1)
      (fun i m =>
         let m := set_child dest i (child (nd m a) (count (nd m a) + i + 1)) m in
         assign_child a (count (nd m a) + i + 1) 0%nat m) m
  else m.

Definition merge (a : nat) (src : nat) (m : memory) : memory :=
  (* Move the delimiting value to the left node. *)
  let m := value_init a (count (nd m a)) m in
  let m := value_swap a (count (nd m a)) (parent (nd m a)) (position (nd m a)) m in
  (* Move the values from the right to the left node. *)
  let m := for_up 0 (count (nd m src))
             (fun i m =>
                let m := value_init a (1 + count (nd m a) + i) m in
                let m := value_swap a (1 + count (nd m a) + i) src i m in
                value_destroy src i m) m in
  let m :=
    if negb (leaf (nd m a)) then
      (* Move the child pointers from the right to the left node. *)
      for_up 0 (count (nd m src) + 1)
        (fun i m =>
           let m := set_child a (1 + count (nd m a) + i) (child (nd m src) i) m in
           assign_child src i 0%nat m) m
    else m in
  (* Fixup the counts on the src and dest nodes. *)
  let m := set_count a (1 + count (nd m a) + count (nd m src)) m in
  let m := set_count src 0 m in
  (* Remove the value on the parent node. *)
  remove_value (parent (nd m a)) (position (nd m a)) m.

Definition swap (a : nat) (x : nat) (m : memory) : memory :=
  (* Swap the values. *)
  let m := for_up (count (nd m a)) (count (nd m x)) (fun i m => value_init a i m) m in
  let m := for_up (count (nd m x)) (count (nd m a)) (fun i m => value_init x i m) m in
  let n := Z.max (count (nd m a)) (count (nd m x)) in
  let m := for_up 0 n (fun i m => value_swap a i x i m) m in
  let m := for_up (count (nd m a)) (count (nd m x)) (fun i m => value_destroy x i m) m in
  let m := for_up (count (nd m x)) (count (nd m a)) (fun i m => value_destroy a i m) m in
  let m :=
    if negb (leaf (nd m a)) then
      (* Swap the child pointers. *)
      let m := for_up 0 (n + 1)
                 (fun i m =>
                    let ca := child (nd m a) i in
                    let cx := child (nd m x) i in
                    assign_child x i ca (assign_child a i cx m)) m in
      let m := for_up 0 (count (nd m a) + 1)
                 (fun i m => upd (child (nd m x) i) (with_parent x) m) m in
      for_up 0 (count (nd m x) + 1)
        (fun i m => upd (child (nd m a) i) (with_parent a) m) m
    else m in
  (* Swap the counts. *)
  let ca := count (nd m a) in
  let cx := count (nd m x) in
  set_count x ca (set_count a cx m).

End Memory.

(** ** Iterators (btree_iterator.h) *)

Section Iterator.
Context `{P : Params}.

(** The pair (node, position); [pos] is the member [position]. *)
Record iterator := mk_iterator { node : nat; pos : Z }.

Definition iterator_eq (x y : iterator) : bool :=
  (node x =? node y)%nat && (pos x =? pos y).

Definition iter_key (it : iterator) (m : memory) : key_type :=
  key (nd m (node it)) (pos it).

(** [while (position == node->count() && !node->is_root())] *)
Fixpoint increment_slow_climb (fuel : nat) (it : iterator) (m : memory) : iterator :=
  match fuel with
  | O => it
  | S fuel' =>
      if (pos it =? count (nd m (node it))) && negb (is_root (node it) m) then
        increment_slow_climb fuel'
          (mk_iterator (parent (nd m (node it))) (position (nd m (node it)))) m
      else it
  end.

(** [while (!node->leaf()) node = node->child(0)] *)
Fixpoint descend_first (fuel : nat) (a : nat) (m : memory) : nat :=
  match fuel with
  | O => a
  | S fuel' =>
      if negb (leaf (nd m a)) then descend_first fuel' (child (nd m a) 0) m else a
  end.

(** [while (!node->leaf()) node = node->child(node->count())] *)
Fixpoint descend_last (fuel : nat) (a : nat) (m : memory) : nat :=
  match fuel with
  | O => a
  | S fuel' =>
      if negb (leaf (nd m a))
      then descend_last fuel' (child (nd m a) (count (nd m a))) m else a
  end.

(** The walks visit pairwise distinct nodes, so the number of addresses
    handed out so far bounds every loop over the tree. *)
Definition fuel_of (m : memory) : nat := S (next_addr m).

Definition increment_slow (it : iterator) (m : memory) : iterator :=
  if leaf (nd m (node it)) then
    let save := it in
    let it := increment_slow_climb (fuel_of m) it m in
    if pos it =? count (nd m (node it)) then save else it
  else
    let a := child (nd m (node it)) (pos it + 1) in
    let a := descend_first (fuel_of m) a m in
    mk_iterator a 0.

Definition increment (it : iterator) (m : memory) : iterator :=
  if leaf (nd m (node it)) then
    let it := mk_iterator (node it) (pos it + 1) in
    if pos it <? count (nd m (node it)) then it else increment_slow it m
  else increment_slow it m.

(** [while (position < 0 && !node->is_root())] *)
Fixpoint decrement_slow_climb (fuel : nat) (it : iterator) (m : memory) : iterator :=
  match fuel with
  | O => it
  | S fuel' =>
      if (pos it <? 0) && negb (is_root (node it) m) then
        decrement_slow_climb fuel'
          (mk_iterator (parent (nd m (node it))) (position (nd m (node it)) - 1)) m
      else it
  end.

Definition decrement_slow (it : iterator) (m : memory) : iterator :=
  if leaf (nd m (node it)) then
    let save := it in
    let it := decrement_slow_climb (fuel_of m) it m in
    if pos it <? 0 then save else it
  else
    let a := child (nd m (node it)) (pos it) in
    let a := descend_last (fuel_of m) a m in
    mk_iterator a (count (nd m a) - 1).

Definition decrement (it : iterator) (m : memory) : iterator :=
  if leaf (nd m (node it)) then
    let it := mk_iterator (node it) (pos it - 1) in
    if 0 <=? pos it then it else decrement_slow it m
  else decrement_slow it m.

End Iterator.


(** ** The tree (btree.h) *)

Section Btree.
Context `{P : Params}.

(** A [btree] object: the comparator base subobject and the root pointer,
    together with the node store its methods read and write. *)
Record btree := mk_btree {
  heap : memory;
  key_comp : key_compare;
  root : nat;
}.

Definition with_heap (m : memory) (t : btree) : btree :=
  mk_btree m (key_comp t) (root t).
Definition with_root (r : nat) (t : btree) : btree :=
  mk_btree (heap t) (key_comp t) r.
Definition on_heap (f : memory -> memory) (t : btree) : btree :=
  with_heap (f (heap t)) t.

Definition btree_new (comp : key_compare) (m : memory) : btree := mk_btree m comp 0%nat.

Definition compare_keys (t : btree) (x y : key_type) : bool :=
  btree_compare_keys (key_comp t) x y.

Definition empty (t : btree) : bool := (root t =? 0)%nat.
Definition btree_rightmost (t : btree) : nat :=
  if (root t =? 0)%nat || leaf (nd (heap t) (root t)) then root t
  else rightmost (nd (heap t) (root t)).
Definition btree_leftmost (t : btree) : nat :=
  if negb (root t =? 0)%nat then parent (nd (heap t) (root t)) else 0%nat.
Definition btree_size (t : btree) : Z :=
  if empty t then 0
  else if leaf (nd (heap t) (root t)) then count (nd (heap t) (root t))
  else size (nd (heap t) (root t)).

Definition btree_begin (t : btree) : iterator := mk_iterator (btree_leftmost t) 0.
Definition btree_end (t : btree) : iterator :=
  mk_iterator (btree_rightmost t)
    (if negb (btree_rightmost t =? 0)%nat
     then count (nd (heap t) (btree_rightmost t)) else 0).
Definition internal_end (iter : iterator) (t : btree) : iterator :=
  if negb (node iter =? 0)%nat then iter else btree_end t.

(** [*mutable_size() += d] and [*mutable_rightmost() = r], on the root. *)
Definition add_size (d : Z) (t : btree) : btree :=
  on_heap (fun m => upd (root t) (with_size (size (nd m (root t)) + d)) m) t.
Definition set_rightmost (r : nat) (t : btree) : btree :=
  on_heap (upd (root t) (with_rightmost r)) t.

(** *** Node creation and deletion *)

Definition new_internal_node (parent : nat) (t : btree) : nat * btree :=
  let '(p, m) := allocate kNodeValues (kNodeValues + 1) (heap t) in
  (p, with_heap (init_internal p parent m) t).
Definition new_internal_root_node (t : btree) : nat * btree :=
  let '(p, m) := allocate kNodeValues (kNodeValues + 1) (heap t) in
  (p, with_heap (init_root p (parent (nd m (root t))) m) t).
Definition new_leaf_node (parent : nat) (t : btree) : nat * btree :=
  let '(p, m) := allocate kNodeValues 0 (heap t) in
  (p, with_heap (init_leaf p parent kNodeValues m) t).
Definition new_leaf_root_node (max_count : Z) (t : btree) : nat * btree :=
  let '(p, m) := allocate max_count 0 (heap t) in
  (p, with_heap (init_leaf p p max_count m) t).
Definition delete_internal_node (a : nat) (t : btree) : btree :=
  on_heap (fun m => deallocate a (destroy a m)) t.
Definition delete_internal_root_node (t : btree) : btree :=
  on_heap (fun m => deallocate (root t) (destroy (root t) m)) t.
Definition delete_leaf_node (a : nat) (t : btree) : btree :=
  on_heap (fun m => deallocate a (destroy a m)) t.

(** *** Lookup *)

Fixpoint internal_last_loop (fuel : nat) (iter : iterator) (m : memory) : iterator :=
  match fuel with
  | O => iter
  | S fuel' =>
      if negb (node iter =? 0)%nat && (pos iter =? count (nd m (node iter))) then
        let position' := position (nd m (node iter)) in
        let node' := parent (nd m (node iter)) in
        let node' := if leaf (nd m node') then 0%nat else node' in
        internal_last_loop fuel' (mk_iterator node' position') m
      else iter
  end.
Definition internal_last (iter : iterator) (m : memory) : iterator :=
  internal_last_loop (fuel_of m) iter m.

Fixpoint internal_locate_plain_compare_loop (fuel : nat) (k : key_type)
    (a : nat) (t : btree) : iterator :=
  let m := heap t in
  let position := lower_bound (nd m a) k (key_comp t) in
  match fuel with
  | O => mk_iterator a position
  | S fuel' =>
      if leaf (nd m a) then mk_iterator a position
      else internal_locate_plain_compare_loop fuel' k (child (nd m a) position) t
  end.
Definition internal_locate_plain_compare (k : key_type) (iter : iterator)
    (t : btree) : iterator * Z :=
  (internal_locate_plain_compare_loop (fuel_of (heap t)) k (node iter) t, 0).

Fixpoint internal_locate_compare_to_loop (fuel : nat) (k : key_type)
    (a : nat) (t : btree) : iterator * Z :=
  let m := heap t in
  let res := lower_bound (nd m a) k (key_comp t) in
  let position := Z.land res kMatchMask in
  if negb (Z.land res kExactMatch =? 0) then (mk_iterator a position, kExactMatch)
  else
    match fuel with
    | O => (mk_iterator a position, - kExactMatch)
    | S fuel' =>
        if leaf (nd m a) then (mk_iterator a position, - kExactMatch)
        else internal_locate_compare_to_loop fuel' k (child (nd m a) position) t
    end.
Definition internal_locate_compare_to (k : key_type) (iter : iterator)
    (t : btree) : iterator * Z :=
  internal_locate_compare_to_loop (fuel_of (heap t)) k (node iter) t.

Definition internal_locate (k : key_type) (iter : iterator) (t : btree) : iterator * Z :=
  if is_key_compare_to then internal_locate_compare_to k iter t
  else internal_locate_plain_compare k iter t.

Fixpoint internal_lower_bound_loop (fuel : nat) (k : key_type)
    (a : nat) (t : btree) : iterator :=
  let m := heap t in
  let position := Z.land (lower_bound (nd m a) k (key_comp t)) kMatchMask in
  match fuel with
  | O => mk_iterator a position
  | S fuel' =>
      if leaf (nd m a) then mk_iterator a position
      else internal_lower_bound_loop fuel' k (child (nd m a) position) t
  end.
Definition internal_lower_bound (k : key_type) (iter : iterator) (t : btree) : iterator :=
  if negb (node iter =? 0)%nat then
    internal_last
      (internal_lower_bound_loop (fuel_of (heap t)) k (node iter) t) (heap t)
  else iter.

Fixpoint internal_upper_bound_loop (fuel : nat) (k : key_type)
    (a : nat) (t : btree) : iterator :=
  let m := heap t in
  let position := upper_bound (nd m a) k (key_comp t) in
  match fuel with
  | O => mk_iterator a position
  | S fuel' =>
      if leaf (nd m a) then mk_iterator a position
      else internal_upper_bound_loop fuel' k (child (nd m a) position) t
  end.
Definition internal_upper_bound (k : key_type) (iter : iterator) (t : btree) : iterator :=
  if negb (node iter =? 0)%nat then
    internal_last
      (internal_upper_bound_loop (fuel_of (heap t)) k (node iter) t) (heap t)
  else iter.

Definition internal_find_unique (k : key_type) (iter : iterator) (t : btree) : iterator :=
  if negb (node iter =? 0)%nat then
    let res := internal_locate k iter t in
    if snd res =? kExactMatch then fst res
    else if snd res =? 0 then
      let iter := internal_last (fst res) (heap t) in
      if negb (node iter =? 0)%nat && negb (compare_keys t k (iter_key iter (heap t)))
      then iter else mk_iterator 0%nat 0
    else mk_iterator 0%nat 0
  else mk_iterator 0%nat 0.

Definition internal_find_multi (k : key_type) (iter : iterator) (t : btree) : iterator :=
  if negb (node iter =? 0)%nat then
    let iter := internal_lower_bound k iter t in
    if negb (node iter =? 0)%nat then
      let iter := internal_last iter (heap t) in
      if negb (node iter =? 0)%nat && negb (compare_keys t k (iter_key iter (heap t)))
      then iter else mk_iterator 0%nat 0
    else mk_iterator 0%nat 0
  else mk_iterator 0%nat 0.

Definition btree_lower_bound (k : key_type) (t : btree) : iterator :=
  internal_end (internal_lower_bound k (mk_iterator (root t) 0) t) t.
Definition btree_upper_bound (k : key_type) (t : btree) : iterator :=
  internal_end (internal_upper_bound k (mk_iterator (root t) 0) t) t.
Definition find_unique (k : key_type) (t : btree) : iterator :=
  internal_end (internal_find_unique k (mk_iterator (root t) 0) t) t.
Definition find_multi (k : key_type) (t : btree) : iterator :=
  internal_end (internal_find_multi k (mk_iterator (root t) 0) t) t.

(** *** Insertion *)

(** The first, rebalancing half of [rebalance_or_split]: [Some] stands for
    the early [return]. *)
Definition rebalance_with_left (iter : iterator) (t : btree) : option (iterator * btree) :=
  let m := heap t in
  let nodep := node iter in
  let insert_position := pos iter in
  let parentp := parent (nd m nodep) in
  if 0 <? position (nd m nodep) then
    let left := child (nd m parentp) (position (nd m nodep) - 1) in
    if count (nd m left) <? max_count (nd m left) then
      let to_move := (max_count (nd m left) - count (nd m left)) /
                     (1 + (if insert_position <? max_count (nd m left) then 1 else 0)) in
      let to_move := Z.max 1 to_move in
      if (0 <=? insert_position - to_move) ||
         (count (nd m left) + to_move <? max_count (nd m left)) then
        let m := rebalance_right_to_left left nodep to_move m in
        let insert_position := insert_position - to_move in
        if insert_position <? 0 then
          Some (mk_iterator left (insert_position + count (nd m left) + 1),
                with_heap m t)
        else Some (mk_iterator nodep insert_position, with_heap m t)
      else None
    else None
  else None.

Definition rebalance_with_right (iter : iterator) (t : btree) : option (iterator * btree) :=
  let m := heap t in
  let nodep := node iter in
  let insert_position := pos iter in
  let parentp := parent (nd m nodep) in
  if position (nd m nodep) <? count (nd m parentp) then
    let right := child (nd m parentp) (position (nd m nodep) + 1) in
    if count (nd m right) <? max_count (nd m right) then
      let to_move := (max_count (nd m right) - count (nd m right)) /
                     (1 + (if 0 <? insert_position then 1 else 0)) in
      let to_move := Z.max 1 to_move in
      if (insert_position <=? count (nd m nodep) - to_move) ||
         (count (nd m right) + to_move <? max_count (nd m right)) then
        let m := rebalance_left_to_right nodep right to_move m in
        if count (nd m nodep) <? insert_position then
          Some (mk_iterator right (insert_position - count (nd m nodep) - 1),
                with_heap m t)
        else Some (mk_iterator nodep insert_position, with_heap m t)
      else None
    else None
  else None.

(** The splitting tail of [rebalance_or_split], entered with the local
    variables [node], [insert_position] and [parent]. *)
Definition split_tail (nodep : nat) (insert_position : Z) (parentp : nat)
    (t : btree) : iterator * btree :=
  let '(split_node, t) :=
    if leaf (nd (heap t) nodep) then
      let '(split_node, t) := new_leaf_node parentp t in
      let t := on_heap (split nodep split_node insert_position) t in
      let t := if (btree_rightmost t =? nodep)%nat then set_rightmost split_node t else t in
      (split_node, t)
    else
      let '(split_node, t) := new_internal_node parentp t in
      (split_node, on_heap (split nodep split_node insert_position) t) in
  if count (nd (heap t) nodep) <? insert_position then
    (mk_iterator split_node (insert_position - count (nd (heap t) nodep) - 1), t)
  else (mk_iterator nodep insert_position, t).

Fixpoint rebalance_or_split (fuel : nat) (iter : iterator) (t : btree) : iterator * btree :=
  match fuel with
  | O => (iter, t)
  | S fuel' =>
      let nodep := node iter in
      let insert_position := pos iter in
      (* First try to make room on the node by rebalancing. *)
      let parentp := parent (nd (heap t) nodep) in
      if negb (nodep =? root t)%nat then
        match rebalance_with_left iter t with
        | Some r => r
        | None =>
            match rebalance_with_right iter t with
            | Some r => r
            | None =>
                (* Rebalancing failed, make sure there is room on the parent
                   node for a new value. *)
                let t :=
                  if count (nd (heap t) parentp) =? max_count (nd (heap t) parentp) then
                    let parent_iter :=
                      mk_iterator (parent (nd (heap t) nodep))
                                  (position (nd (heap t) nodep)) in
                    snd (rebalance_or_split fuel' parent_iter t)
                  else t in
                split_tail nodep insert_position parentp t
            end
        end
      else
        (* Rebalancing not possible because this is the root node. *)
        if leaf (nd (heap t) (root t)) then
          let '(parentp, t) := new_internal_root_node t in
          let t := on_heap (set_child parentp 0 (root t)) t in
          let t := with_root parentp t in
          split_tail nodep insert_position parentp t
        else
          let '(parentp, t) := new_internal_node parentp t in
          let t := on_heap (set_child parentp 0 parentp) t in
          let t := on_heap (swap parentp (root t)) t in
          let nodep := parentp in
          split_tail nodep insert_position parentp t
  end.

Definition internal_insert (iter : iterator) (v : value_type) (t : btree) : iterator * btree :=
  let iter :=
    if negb (leaf (nd (heap t) (node iter))) then
      let iter := decrement iter (heap t) in
      mk_iterator (node iter) (pos iter + 1)
    else iter in
  let '(iter, t) :=
    if count (nd (heap t) (node iter)) =? max_count (nd (heap t) (node iter)) then
      if max_count (nd (heap t) (node iter)) <? kNodeValues then
        let '(p, t) := new_leaf_root_node
                         (Z.min kNodeValues (2 * max_count (nd (heap t) (node iter)))) t in
        let iter := mk_iterator p (pos iter) in
        let t := on_heap (swap (node iter) (root t)) t in
        let t := delete_leaf_node (root t) t in
        let t := with_root (node iter) t in
        (iter, t)
      else
        let '(iter, t) := rebalance_or_split (fuel_of (heap t)) iter t in
        (iter, add_size 1 t)
    else if negb (leaf (nd (heap t) (root t))) then (iter, add_size 1 t)
    else (iter, t) in
  (iter, on_heap (insert_value (node iter) (pos iter) v) t).

Definition insert_unique (k : key_type) (v : value_type) (t : btree)
    : (iterator * bool) * btree :=
  let t := if empty t then let '(p, t) := new_leaf_root_node 1 t in with_root p t
           else t in
  let res := internal_locate k (mk_iterator (root t) 0) t in
  let iter := fst res in
  if snd res =? kExactMatch then
    ((internal_last iter (heap t), false), t)
  else
    let last := internal_last iter (heap t) in
    if (snd res =? 0) && negb (node last =? 0)%nat &&
       negb (compare_keys t k (iter_key last (heap t)))
    then ((last, false), t)
    else
      let '(it, t) := internal_insert iter v t in
      ((it, true), t).

Definition insert_multi (k : key_type) (v : value_type) (t : btree) : iterator * btree :=
  let t := if empty t then let '(p, t) := new_leaf_root_node 1 t in with_root p t
           else t in
  let iter := internal_upper_bound k (mk_iterator (root t) 0) t in
  let iter := if (node iter =? 0)%nat then btree_end t else iter in
  internal_insert iter v t.

(** *** Erasure *)

Definition merge_nodes (left right : nat) (t : btree) : btree :=
  let t := on_heap (merge left right) t in
  if leaf (nd (heap t) right) then
    let t := if (btree_rightmost t =? right)%nat then set_rightmost left t else t in
    delete_leaf_node right t
  else delete_internal_node right t.

Definition try_merge_or_rebalance (iter : iterator) (t : btree)
    : bool * iterator * btree :=
  let m := heap t in
  let a := node iter in
  let parentp := parent (nd m a) in
  let try_left_rebalance (_ : unit) : bool * iterator * btree :=
    if 0 <? position (nd m a) then
      let left := child (nd m parentp) (position (nd m a) - 1) in
      if (kMinNodeValues <? count (nd m left)) &&
         ((count (nd m a) =? 0) || (pos iter <? count (nd m a))) then
        let to_move := (count (nd m left) - count (nd m a)) / 2 in
        let to_move := Z.min to_move (count (nd m left) - 1) in
        let t := on_heap (rebalance_left_to_right left a to_move) t in
        (false, mk_iterator a (pos iter + to_move), t)
      else (false, iter, t)
    else (false, iter, t) in
  let try_right (_ : unit) : bool * iterator * btree :=
    if position (nd m a) <? count (nd m parentp) then
      let right := child (nd m parentp) (position (nd m a) + 1) in
      if 1 + count (nd m a) + count (nd m right) <=? max_count (nd m right) then
        (true, iter, merge_nodes a right t)
      else if (kMinNodeValues <? count (nd m right)) &&
              ((count (nd m a) =? 0) || (0 <? pos iter)) then
        let to_move := (count (nd m right) - count (nd m a)) / 2 in
        let to_move := Z.min to_move (count (nd m right) - 1) in
        (false, iter, on_heap (rebalance_right_to_left a right to_move) t)
      else try_left_rebalance tt
    else try_left_rebalance tt in
  if 0 <? position (nd m a) then
    let left := child (nd m parentp) (position (nd m a) - 1) in
    if 1 + count (nd m left) + count (nd m a) <=? max_count (nd m left) then
      let iter' := mk_iterator left (pos iter + (1 + count (nd m left))) in
      (true, iter', merge_nodes left a t)
    else try_right tt
  else try_right tt.

Definition try_shrink (t : btree) : btree :=
  if 0 <? count (nd (heap t) (root t)) then t
  else if leaf (nd (heap t) (root t)) then
    let t := delete_leaf_node (root t) t in
    with_root 0%nat t
  else
    let c := child (nd (heap t) (root t)) 0 in
    if leaf (nd (heap t) c) then
      let t := on_heap (make_root c) t in
      let t := delete_internal_root_node t in
      with_root c t
    else
      let t := on_heap (swap c (root t)) t in
      delete_internal_node c t.

(** The [for (;;)] of [erase]; the boolean tells that the loop left
    through [return end()]. *)
Fixpoint erase_loop (fuel : nat) (iter res : iterator) (t : btree)
    : bool * iterator * btree :=
  match fuel with
  | O => (false, res, t)
  | S fuel' =>
      if (node iter =? root t)%nat then
        let t := try_shrink t in
        if empty t then (true, btree_end t, t) else (false, res, t)
      else if kMinNodeValues <=? count (nd (heap t) (node iter)) then (false, res, t)
      else
        let '(merged, iter, t) := try_merge_or_rebalance iter t in
        let res := if leaf (nd (heap t) (node iter)) then iter else res in
        if negb merged then (false, res, t)
        else
          let iter := mk_iterator (parent (nd (heap t) (node iter))) (pos iter) in
          erase_loop fuel' iter res t
  end.

Definition erase (iter : iterator) (t : btree) : iterator * btree :=
  let internal_delete := negb (leaf (nd (heap t) (node iter))) in
  let '(iter, t) :=
    if negb (leaf (nd (heap t) (node iter))) then
      let tmp_iter := iter in
      let iter := decrement iter (heap t) in
      let t := on_heap (value_swap (node iter) (pos iter)
                          (node tmp_iter) (pos tmp_iter)) t in
      (iter, add_size (-1) t)
    else if negb (leaf (nd (heap t) (root t))) then (iter, add_size (-1) t)
    else (iter, t) in
  (* Delete the key from the leaf. *)
  let t := on_heap (remove_value (node iter) (pos iter)) t in
  (* Merge/rebalance as we walk back up the tree. *)
  let '(returned, res, t) := erase_loop (fuel_of (heap t)) iter iter t in
  if returned then (res, t)
  else
    let res :=
      if pos res =? count (nd (heap t) (node res)) then
        increment (mk_iterator (node res) (count (nd (heap t) (node res)) - 1)) (heap t)
      else res in
    let res := if internal_delete then increment res (heap t) else res in
    (res, t).

Definition erase_unique (k : key_type) (t : btree) : Z * btree :=
  let iter := internal_find_unique k (mk_iterator (root t) 0) t in
  if (node iter =? 0)%nat then (0, t)
  else (1, snd (erase iter t)).

(** *** clear, assign *)

Fixpoint internal_clear (fuel : nat) (a : nat) (t : btree) : btree :=
  match fuel with
  | O => t
  | S fuel' =>
      if negb (leaf (nd (heap t) a)) then
        let t := for_up 0 (count (nd (heap t) a) + 1)
                   (fun i t => internal_clear fuel' (child (nd (heap t) a) i) t) t in
        if (a =? root t)%nat then delete_internal_root_node t
        else delete_internal_node a t
      else delete_leaf_node a t
  end.

Definition clear (t : btree) : btree :=
  let t := if negb (root t =? 0)%nat
           then internal_clear (fuel_of (heap t)) (root t) t else t in
  with_root 0%nat t.

End Btree.


(** * Searches within a node *)

Section SearchSpec.
Context `{P : Params}.

(** A lawful three-way comparator: the sign flips with the arguments and
    "not greater" is transitive. *)
Record three_way (comp : key_type -> key_type -> Z) : Prop := {
  tw_antisym : forall a b, Z.sgn (comp b a) = - Z.sgn (comp a b);
  tw_trans : forall a b c, comp a b <= 0 -> comp b c <= 0 -> comp a c <= 0;
}.

(** The first [count] keys of the node are non-decreasing. *)
Definition sorted_under (comp : key_type -> key_type -> Z) (n : btree_node) : Prop :=
  forall i j, 0 <= i -> i <= j -> j < count n -> comp (key n i) (key n j) <= 0.

(** What a compare-to search over [s, e) may return: the position [p] of
    the first key not less than [k], tagged when that key equals [k]. *)
Definition search_post (comp : key_type -> key_type -> Z) (n : btree_node)
    (k : key_type) (s e r : Z) : Prop :=
  exists p, s <= p <= e /\
    (forall q, s <= q < p -> comp (key n q) k < 0) /\
    ((r = p /\ (p < e -> 0 < comp (key n p) k)) \/
     (r = Z.lor p kExactMatch /\ p < e /\ comp (key n p) k = 0)).

(** The claim of the specification about a compare-to search result. *)
Definition first_match_spec (comp : key_type -> key_type -> Z) (n : btree_node)
    (k : key_type) (r : Z) : Prop :=
  (forall p, 0 <= p < count n -> comp (key n p) k = 0 ->
     (forall q, 0 <= q < p -> comp (key n q) k <> 0) ->
     r = Z.lor p kExactMatch) /\
  ((forall p, 0 <= p < count n -> comp (key n p) k <> 0) ->
     0 <= r <= count n /\
     (forall q, 0 <= q < r -> comp (key n q) k < 0) /\
     (r < count n -> 0 < comp (key n r) k) /\
     Z.land r kExactMatch = 0).

Lemma kExactMatch_eq : kExactMatch = 2 ^ 30.
Proof. reflexivity. Qed.

Lemma land_kExactMatch_small p : 0 <= p < 2 ^ 30 -> Z.land p kExactMatch = 0.
Proof.
  intros Hp. rewrite kExactMatch_eq. apply Z.bits_inj'. intros i Hi.
  rewrite Z.land_spec, Z.bits_0, Z.pow2_bits_eqb by lia.
  destruct (Z.eqb_spec 30 i) as [<-|]; [|apply andb_false_r].
  rewrite andb_true_r. apply Z.testbit_false; [lia|].
  rewrite Z.div_small by lia. reflexivity.
Qed.

Lemma lor_kExactMatch_idemp p :
  Z.lor (Z.lor p kExactMatch) kExactMatch = Z.lor p kExactMatch.
Proof. rewrite <- Z.lor_assoc, Z.lor_diag. reflexivity. Qed.

Lemma land_lor_kExactMatch p : 0 <= p < 2 ^ 30 ->
  Z.land (Z.lor p kExactMatch) kExactMatch = kExactMatch.
Proof.
  intros Hp. rewrite Z.land_lor_distr_l, land_kExactMatch_small, Z.land_diag by done.
  reflexivity.
Qed.

Lemma land_lor_kMatchMask p : 0 <= p < 2 ^ 30 ->
  Z.land (Z.lor p kExactMatch) kMatchMask = p.
Proof.
  intros Hp. unfold kMatchMask. rewrite kExactMatch_eq.
  change (2 ^ 30 - 1) with (Z.ones 30).
  rewrite Z.land_ones by lia.
  rewrite <- Z.add_nocarry_lor.
  - rewrite Z.add_mod, Z.mod_same, Z.add_0_r, Z.mod_mod, Z.mod_small by lia. done.
  - rewrite <- kExactMatch_eq. by apply land_kExactMatch_small.
Qed.

Lemma land_kMatchMask_small p : 0 <= p < 2 ^ 30 -> Z.land p kMatchMask = p.
Proof.
  intros Hp. unfold kMatchMask. rewrite kExactMatch_eq.
  change (2 ^ 30 - 1) with (Z.ones 30).
  rewrite Z.land_ones, Z.mod_small by lia. done.
Qed.

Lemma linear_search_compare_to_loop_post comp n k e fuel s :
  s <= e -> (Z.to_nat (e - s) <= fuel)%nat ->
  search_post comp n k s e (linear_search_compare_to_loop fuel n k s e comp).
Proof.
  revert s. induction fuel as [|fuel IH]; intros s Hse Hfuel; simpl.
  - exists s. split; [lia|]. split; [intros; lia|]. left. split; [done|lia].
  - destruct (Z.ltb_spec s e) as [Hlt|Hge].
    + destruct (Z.eqb_spec (comp (key n s) k) 0) as [Heq|Hne].
      * exists s. split; [lia|]. split; [intros; lia|]. right. done.
      * destruct (Z.ltb_spec 0 (comp (key n s) k)) as [Hpos|Hneg].
        -- exists s. split; [lia|]. split; [intros; lia|]. left. done.
        -- destruct (IH (s + 1)) as (p & Hp & Hbelow & Hres); [lia|lia|].
           exists p. split; [lia|]. split; [|done].
           intros q Hq. destruct (Z.eq_dec q s) as [->|]; [lia|].
           apply Hbelow. lia.
    + exists s. split; [lia|]. split; [intros; lia|]. left. split; [done|lia].
Qed.

Lemma binary_search_compare_to_loop_post comp n k :
  three_way comp -> sorted_under comp n ->
  forall fuel s e, 0 <= s -> s <= e -> e <= count n ->
  (Z.to_nat (e - s) <= fuel)%nat ->
  search_post comp n k s e (binary_search_compare_to_loop fuel n k s e comp).
Proof.
  intros Htw Hsorted. induction fuel as [|fuel IH]; intros s e Hs Hse He Hfuel; simpl.
  - exists s. split; [lia|]. split; [intros; lia|]. left. split; [done|lia].
  - destruct (Z.eqb_spec s e) as [->|Hne]; simpl.
    { exists e. split; [lia|]. split; [intros; lia|]. left. split; [done|lia]. }
    assert (Hmid : s <= (s + e) / 2 < e).
    { split; [apply Z.div_le_lower_bound; lia|apply Z.div_lt_upper_bound; lia]. }
    set (mid := (s + e) / 2) in *.
    destruct (Z.ltb_spec (comp (key n mid) k) 0) as [Hlt|Hge].
    + (* key(mid) < k: everything up to mid is less than k *)
      destruct (IH (mid + 1) e) as (p & Hp & Hbelow & Hres); [lia..|].
      exists p. split; [lia|]. split; [|done].
      intros q Hq. destruct (Z.ltb_spec q (mid + 1)) as [Hq'|Hq']; [|apply Hbelow; lia].
      assert (comp (key n q) (key n mid) <= 0) by (apply Hsorted; lia).
      assert (Hle : comp (key n q) k <= 0) by (eapply tw_trans; [done..|lia]).
      destruct (Z.eq_dec (comp (key n q) k) 0) as [Hz|]; [|lia].
      (* q equal to k and q <= mid < k is impossible *)
      assert (comp k (key n q) <= 0).
      { pose proof (tw_antisym _ Htw (key n q) k) as Ha. rewrite Hz in Ha.
        simpl in Ha. apply Z.sgn_null_iff in Ha. lia. }
      assert (comp k (key n mid) <= 0) by (eapply tw_trans; done).
      pose proof (tw_antisym _ Htw (key n mid) k) as Ha.
      assert (Z.sgn (comp (key n mid) k) = -1) as Hs1 by (apply Z.sgn_neg_iff; lia).
      rewrite Hs1 in Ha. simpl in Ha. apply Z.sgn_pos_iff in Ha. lia.
    + destruct (Z.ltb_spec 0 (comp (key n mid) k)) as [Hgt|Hle].
      * (* key(mid) > k *)
        destruct (IH s mid) as (p & Hp & Hbelow & Hres); [lia..|].
        exists p. split; [lia|]. split; [done|].
        destruct Hres as [[-> Hres]|[-> [Hpm Hres]]].
        -- left. split; [done|]. intros Hpe.
           destruct (Z.eq_dec p mid) as [->|]; [done|]. apply Hres. lia.
        -- right. split; [done|]. split; [lia|done].
      * (* key(mid) = k: continue on the left half, then tag *)
        assert (Heq : comp (key n mid) k = 0) by lia.
        destruct (IH s mid) as (p & Hp & Hbelow & Hres); [lia..|].
        exists p. split; [lia|]. split; [done|]. right.
        destruct Hres as [[-> Hres]|[-> [Hpm Hres]]].
        -- split; [done|]. split; [lia|].
           destruct (Z.eq_dec p mid) as [->|Hpm]; [done|].
           assert (0 < comp (key n p) k) by (apply Hres; lia).
           assert (comp (key n p) (key n mid) <= 0) by (apply Hsorted; lia).
           assert (comp (key n p) k <= 0) by (eapply tw_trans; [done..|lia]).
           lia.
        -- rewrite lor_kExactMatch_idemp. split; [done|]. split; [lia|done].
Qed.

Lemma search_post_first_match comp n k r :
  three_way comp -> sorted_under comp n -> 0 <= count n < 2 ^ 30 ->
  search_post comp n k 0 (count n) r -> first_match_spec comp n k r.
Proof.
  intros Htw Hsorted Hcount (p & Hp & Hbelow & Hres). split.
  - intros p0 Hp0 Hmatch Hfirst.
    assert (p <= p0).
    { destruct (Z.le_gt_cases p p0); [done|].
      specialize (Hbelow p0). lia. }
    destruct Hres as [[-> Hres]|[-> [Hpe Hpk]]].
    + assert (0 < comp (key n p) k) by (apply Hres; lia).
      assert (comp (key n p) (key n p0) <= 0) by (apply Hsorted; lia).
      assert (comp (key n p) k <= 0) by (eapply tw_trans; [done..|lia]).
      lia.
    + destruct (Z.eq_dec p p0) as [->|]; [done|].
      exfalso. apply (Hfirst p); [lia|done].
  - intros Hnone. destruct Hres as [[-> Hres]|[-> [Hpe Hpk]]].
    + split; [lia|]. split; [done|]. split; [done|].
      apply land_kExactMatch_small. lia.
    + exfalso. apply (Hnone p); [lia|done].
Qed.

(** C6: on a node whose keys are sorted under a three-way comparator, both
    compare-to searches over [0, count) return [p | kExactMatch] for the
    smallest index [p] whose key equals [k] when there is one, and otherwise
    the index of the first key not less than [k] with the kExactMatch bit
    clear. *)
Theorem compare_to_search_first_match (comp : key_type -> key_type -> Z)
    (n : btree_node) (k : key_type) :
  three_way comp -> sorted_under comp n -> 0 <= count n < 2 ^ 30 ->
  first_match_spec comp n k (linear_search_compare_to n k 0 (count n) comp) /\
  first_match_spec comp n k (binary_search_compare_to n k 0 (count n) comp).
Proof.
  intros Htw Hsorted Hcount. split; apply search_post_first_match; try done.
  - apply linear_search_compare_to_loop_post; lia.
  - apply binary_search_compare_to_loop_post; try done; lia.
Qed.

(** C9: with a non-arithmetic key and a compare-to comparator the per-node
    [lower_bound] is [binary_search_compare_to] run with the
    default-constructed comparator, so it returns the same result for any
    two comparator instances. *)
Theorem lower_bound_ignores_comparator (n : btree_node) (k : key_type)
    (c1 c2 : key_compare) :
  key_is_arithmetic = false -> is_key_compare_to = true ->
  lower_bound n k c1 =
    binary_search_compare_to n k 0 (count n) (compare_to key_compare_default) /\
  lower_bound n k c1 = lower_bound n k c2.
Proof.
  intros Harith Hcmp. unfold lower_bound. rewrite Harith, Hcmp. done.
Qed.

End SearchSpec.


(** * Tree objects at addresses: assignment *)

Section World.
Context `{P : Params}.

(** Several [btree] objects share the node store; an object is named by
    its address, which is what [operator=] compares. *)
Record world := mk_world {
  w_heap : memory;
  w_trees : gmap nat (key_compare * nat);
}.

#[export] Instance key_compare_inhabited : Inhabited key_compare :=
  populate key_compare_default.

Definition load (w : world) (a : nat) : btree :=
  mk_btree (w_heap w) (fst (w_trees w !!! a)) (snd (w_trees w !!! a)).
Definition store (a : nat) (t : btree) (w : world) : world :=
  mk_world (heap t) (<[a := (key_comp t, root t)]> (w_trees w)).

(** The loop of [assign]: [x] is read through its address at every turn. *)
Fixpoint assign_loop (fuel : nat) (this x : nat) (iter : iterator) (w : world) : world :=
  match fuel with
  | O => w
  | S fuel' =>
      if negb (iterator_eq iter (btree_end (load w x))) then
        let v := value (nd (w_heap w) (node iter)) (pos iter) in
        let t := load w this in
        let t :=
          if empty t then snd (insert_multi (params_key v) v t)
          else snd (internal_insert (btree_end t) v t) in
        let w := store this t w in
        assign_loop fuel' this x (increment iter (w_heap w)) w
      else w
  end.

Definition assign (this x : nat) (w : world) : world :=
  let w := store this (clear (load w this)) w in
  let t := load w this in
  let w := store this (mk_btree (heap t) (key_comp (load w x)) (root t)) w in
  assign_loop (S (Z.to_nat (btree_size (load w x)))) this x
    (btree_begin (load w x)) w.

Definition operator_assign (this x : nat) (w : world) : world :=
  if (x =? this)%nat then w else assign this x w.

Lemma load_store a t w : load (store a t w) a = t.
Proof.
  unfold load, store; simpl. rewrite lookup_total_insert_eq. by destruct t.
Qed.

Lemma assign_self_empties (a : nat) (w : world) :
  root (load (assign a a w) a) = 0%nat.
Proof.
  unfold assign. rewrite !load_store.
  set (t := clear (load w a)).
  assert (Hroot : root t = 0%nat) by reflexivity.
  set (t' := mk_btree (heap t) (key_comp t) (root t)).
  assert (Hroot' : root t' = 0%nat) by reflexivity.
  assert (Heq : iterator_eq (btree_begin t') (btree_end t') = true).
  { unfold btree_end, btree_begin, btree_leftmost, btree_rightmost.
    rewrite Hroot'. reflexivity. }
  cbn [assign_loop]. rewrite !load_store, Heq. cbn [negb].
  rewrite load_store. exact Hroot'.
Qed.

(** C10: assigning a tree to itself leaves the whole state, and so the
    tree's contents, size and structure, as they were: [operator=] returns
    before [assign], and [assign] on the same object would have emptied
    it. *)
Theorem operator_assign_self (a : nat) (w : world) :
  operator_assign a a w = w /\ root (load (assign a a w) a) = 0%nat.
Proof.
  split; [|apply assign_self_empties].
  unfold operator_assign. by rewrite Nat.eqb_refl.
Qed.

End World.

(** * The node capacity *)

Section Capacity.
Context `{P : Params}.

Lemma kNodeValues_min : 3 <= kNodeValues.
Proof. unfold kNodeValues. destruct (Z.leb_spec 3 kNodeTargetValues); lia. Qed.

(** C8: when the node is at least as large as its header, [kNodeValues] is
    the quotient [(kTargetNodeSize - sizeof(base_fields)) / kValueSize] if
    that is at least 3, and 3 otherwise; for 8-byte values and a target of
    256 bytes this is at least 28 with 4-byte and with 8-byte pointers. *)
Theorem kNodeValues_formula :
  (0 < kValueSize < size_t_modulus ->
   0 <= sizeof_base_fields <= kTargetNodeSize -> kTargetNodeSize < size_t_modulus ->
   kNodeValues =
     if 3 <=? (kTargetNodeSize - sizeof_base_fields) / kValueSize
     then (kTargetNodeSize - sizeof_base_fields) / kValueSize else 3) /\
  (kTargetNodeSize = 256 -> kValueSize = 8 ->
   sizeof_void_ptr = 4 \/ sizeof_void_ptr = 8 -> 28 <= kNodeValues).
Proof.
  split.
  - intros Hv Hs Ht. unfold kNodeValues, kNodeTargetValues, size_t_wrap.
    rewrite !Z.mod_small by lia. done.
  - intros Ht Hv Hp.
    unfold kNodeValues, kNodeTargetValues, sizeof_base_fields,
      sizeof_node_count_type, kNodeValueSpace, size_t_wrap, size_t_modulus, align_up.
    rewrite Ht, Hv. destruct Hp as [-> | ->]; vm_compute; discriminate.
Qed.

End Capacity.

(** * Concrete instantiations *)

(** [btree_map<int32, int32>] with [std::less] on an LP64 target. *)
Definition map_int32_params (target : Z) : Params := {|
  key_type := Z; value_type := Z * Z; key_compare := unit;
  params_key := fst; value_type_default := (0, 0);
  is_key_compare_to := false; key_is_arithmetic := true;
  plain_compare := fun _ => Z.ltb; compare_to := fun _ _ _ => 0;
  key_compare_default := tt;
  kTargetNodeSize := target; kValueSize := 8; sizeof_void_ptr := 8 |}.

(** A set of strings ordered by a compare-to functor that carries a flag:
    the flag reverses the order.  Keys are modelled by their rank. *)
Definition flagged_compare_params : Params := {|
  key_type := Z; value_type := Z; key_compare := bool;
  params_key := fun v => v; value_type_default := 0;
  is_key_compare_to := true; key_is_arithmetic := false;
  plain_compare := fun _ _ _ => false;
  compare_to := fun (rev : bool) x y => if rev then y - x else x - y;
  key_compare_default := false;
  kTargetNodeSize := 256; kValueSize := 32; sizeof_void_ptr := 8 |}.

Definition sample_node : @btree_node flagged_compare_params :=
  @mk_node flagged_compare_params false 0 7 4 0%nat
    [Some 1; Some 3; Some 3; Some 5; None; None; None] [] 0%nat 0.

Lemma three_way_minus : @three_way flagged_compare_params (fun x y => x - y).
Proof.
  split.
  - intros a b. simpl in a, b. lia.
  - intros a b c. simpl in a, b, c. lia.
Qed.

Lemma sample_node_sorted :
  @sorted_under flagged_compare_params (fun x y => x - y) sample_node.
Proof.
  intros i j Hi Hij Hj. simpl in Hj.
  assert (Hc : (i = 0 \/ i = 1 \/ i = 2 \/ i = 3) /\ (j = 0 \/ j = 1 \/ j = 2 \/ j = 3)) by lia.
  destruct Hc as [[->|[->|[->| ->]]] [->|[->|[->| ->]]]]; vm_compute; try discriminate; lia.
Qed.

Lemma compare_to_search_first_match_witness :
  @first_match_spec flagged_compare_params (fun x y => x - y) sample_node 3
    (linear_search_compare_to sample_node 3 0 (count sample_node) (fun x y => x - y)) /\
  @first_match_spec flagged_compare_params (fun x y => x - y) sample_node 3
    (binary_search_compare_to sample_node 3 0 (count sample_node) (fun x y => x - y)).
Proof.
  apply compare_to_search_first_match.
  - exact three_way_minus.
  - exact sample_node_sorted.
  - simpl. lia.
Defined.

Lemma lower_bound_ignores_comparator_witness :
  lower_bound sample_node 3 true =
    binary_search_compare_to sample_node 3 0 (count sample_node)
      (@compare_to flagged_compare_params key_compare_default) /\
  lower_bound sample_node 3 true = lower_bound sample_node 3 false.
Proof.
  apply (@lower_bound_ignores_comparator flagged_compare_params); reflexivity.
Defined.

Lemma kNodeValues_formula_witness :
  @kNodeValues (map_int32_params 256) = 30 /\ 28 <= @kNodeValues (map_int32_params 256).
Proof.
  destruct (@kNodeValues_formula (map_int32_params 256)) as [H1 H2].
  split.
  - rewrite H1; [reflexivity|..]; vm_compute; try split; congruence.
  - apply H2; [reflexivity|reflexivity|right; reflexivity].
Defined.


(** * Arrays indexed by [int] *)

Section ZList.
Context {A : Type}.
Implicit Types l : list A.

Definition zlen l : Z := Z.of_nat (length l).
Definition zget l (q : Z) : option A :=
  if q <? 0 then None else l !! Z.to_nat q.
Definition ztake (n : Z) l : list A := take (Z.to_nat n) l.
Definition zdrop (n : Z) l : list A := drop (Z.to_nat n) l.
(** The list with [x] placed before position [i]. *)
Definition insert_at (i : Z) (x : A) l : list A := ztake i l ++ x :: zdrop i l.
(** The list without its element at position [i]. *)
Definition remove_at (i : Z) l : list A := ztake i l ++ zdrop (i + 1) l.
(** [f 0; f 1; ...; f (n - 1)] *)
Definition tabZ (n : Z) (f : Z -> A) : list A :=
  (fun q : nat => f (Z.of_nat q)) <$> seq 0 (Z.to_nat n).

Lemma zlen_nonneg l : 0 <= zlen l.
Proof. unfold zlen. lia. Qed.

Lemma zget_lt_0 l q : q < 0 -> zget l q = None.
Proof. unfold zget. destruct (Z.ltb_spec q 0); [done|lia]. Qed.

Lemma zget_ge l q : zlen l <= q -> zget l q = None.
Proof.
  unfold zget, zlen. intros. destruct (Z.ltb_spec q 0); [done|].
  apply lookup_ge_None. lia.
Qed.

Lemma zget_is_Some l q : 0 <= q < zlen l -> exists x, zget l q = Some x.
Proof.
  unfold zget, zlen. intros. destruct (Z.ltb_spec q 0); [lia|].
  destruct (lookup_lt_is_Some_2 l (Z.to_nat q)) as [x Hx]; [lia|]. eauto.
Qed.

Lemma zget_Some_lt l q x : zget l q = Some x -> 0 <= q < zlen l.
Proof.
  unfold zget, zlen. destruct (Z.ltb_spec q 0); [done|].
  intros Hq%lookup_lt_Some. lia.
Qed.

Lemma zget_nil q : zget (@nil A) q = None.
Proof. unfold zget. by destruct (q <? 0). Qed.

Lemma zget_cons x l q :
  zget (x :: l) q = if q =? 0 then Some x else zget l (q - 1).
Proof.
  unfold zget. destruct (Z.eqb_spec q 0) as [->|]; [done|].
  destruct (Z.ltb_spec q 0), (Z.ltb_spec (q - 1) 0); try lia; [done|].
  replace (Z.to_nat q) with (S (Z.to_nat (q - 1))) by lia. done.
Qed.

Lemma zget_app l1 l2 q :
  zget (l1 ++ l2) q = if q <? zlen l1 then zget l1 q else zget l2 (q - zlen l1).
Proof.
  unfold zget, zlen.
  destruct (Z.ltb_spec q 0).
  { destruct (Z.ltb_spec q (Z.of_nat (length l1))); [done|].
    destruct (Z.ltb_spec (q - Z.of_nat (length l1)) 0); [done|lia]. }
  destruct (Z.ltb_spec q (Z.of_nat (length l1))).
  - rewrite lookup_app_l by lia. done.
  - destruct (Z.ltb_spec (q - Z.of_nat (length l1)) 0); [lia|].
    rewrite lookup_app_r by lia. f_equal. lia.
Qed.

Lemma zget_take n l q :
  zget (ztake n l) q = if q <? n then zget l q else None.
Proof.
  unfold zget, ztake. destruct (Z.ltb_spec q 0).
  { by destruct (q <? n). }
  rewrite lookup_take. destruct (Z.ltb_spec q n); case_decide; try done; lia.
Qed.

Lemma zget_drop n l q :
  0 <= n -> zget (zdrop n l) q = if q <? 0 then None else zget l (q + n).
Proof.
  unfold zget, zdrop. intros. destruct (Z.ltb_spec q 0); [done|].
  destruct (Z.ltb_spec (q + n) 0); [lia|].
  rewrite lookup_drop. f_equal. lia.
Qed.

Lemma zget_tabZ n f q :
  zget (tabZ n f) q = if (0 <=? q) && (q <? n) then Some (f q) else None.
Proof.
  unfold zget, tabZ. destruct (Z.ltb_spec q 0).
  { destruct (Z.leb_spec 0 q); [lia|done]. }
  destruct (Z.leb_spec 0 q); [|lia]. simpl.
  rewrite list_lookup_fmap. destruct (Z.ltb_spec q n).
  - rewrite lookup_seq_lt by lia. simpl. do 2 f_equal. lia.
  - rewrite lookup_seq_ge by lia. done.
Qed.

Lemma zlen_tabZ n f : 0 <= n -> zlen (tabZ n f) = n.
Proof. intros. unfold zlen, tabZ. rewrite length_fmap, length_seq. lia. Qed.

Lemma length_tabZ n f : length (tabZ n f) = Z.to_nat n.
Proof. unfold tabZ. by rewrite length_fmap, length_seq. Qed.

Lemma zlen_app l1 l2 : zlen (l1 ++ l2) = zlen l1 + zlen l2.
Proof. unfold zlen. rewrite length_app. lia. Qed.

Lemma zlen_cons x l : zlen (x :: l) = 1 + zlen l.
Proof. unfold zlen. simpl. lia. Qed.

Lemma zlen_nil : zlen (@nil A) = 0.
Proof. done. Qed.

Lemma zlen_take n l : 0 <= n <= zlen l -> zlen (ztake n l) = n.
Proof. unfold zlen, ztake. intros. rewrite length_take. lia. Qed.

Lemma zlen_take_le n l : zlen (ztake n l) = Z.max 0 (Z.min n (zlen l)).
Proof. unfold zlen, ztake. rewrite length_take. lia. Qed.

Lemma zlen_drop n l : 0 <= n -> zlen (zdrop n l) = Z.max 0 (zlen l - n).
Proof. unfold zlen, zdrop. intros. rewrite length_drop. lia. Qed.

Lemma zlen_insert_at i x l : zlen (insert_at i x l) = zlen l + 1.
Proof.
  unfold insert_at, zlen, ztake, zdrop.
  rewrite length_app. simpl. rewrite length_take, length_drop. lia.
Qed.

Lemma zlen_remove_at i l : 0 <= i < zlen l -> zlen (remove_at i l) = zlen l - 1.
Proof.
  unfold remove_at, zlen, ztake, zdrop. intros.
  rewrite length_app, length_take, length_drop. lia.
Qed.

Lemma zget_ext l1 l2 : (forall q, zget l1 q = zget l2 q) -> l1 = l2.
Proof.
  intros H. apply list_eq. intros i. specialize (H (Z.of_nat i)).
  unfold zget in H. destruct (Z.ltb_spec (Z.of_nat i) 0); [lia|].
  by rewrite Nat2Z.id in H.
Qed.

Lemma tabZ_ext n f g : (forall q, 0 <= q < n -> f q = g q) -> tabZ n f = tabZ n g.
Proof.
  intros H. apply zget_ext. intros q. rewrite !zget_tabZ.
  destruct (Z.leb_spec 0 q), (Z.ltb_spec q n); simpl; try done.
  by rewrite H by lia.
Qed.

Lemma lookup_total_tabZ `{Inhabited A} n f q :
  0 <= q < n -> tabZ n f !!! Z.to_nat q = f q.
Proof.
  intros. rewrite list_lookup_total_alt.
  pose proof (zget_tabZ n f q) as Hq. unfold zget in Hq.
  destruct (Z.ltb_spec q 0); [lia|]. rewrite Hq.
  destruct (Z.leb_spec 0 q), (Z.ltb_spec q n); simpl; try lia. done.
Qed.

Lemma insert_tabZ n f i x :
  0 <= i ->
  <[Z.to_nat i := x]> (tabZ n f) = tabZ n (fun q => if q =? i then x else f q).
Proof.
  intros Hi. apply list_eq. intros j.
  rewrite list_lookup_insert, length_tabZ.
  pose proof (zget_tabZ n f (Z.of_nat j)) as H1.
  pose proof (zget_tabZ n (fun q => if q =? i then x else f q) (Z.of_nat j)) as H2.
  unfold zget in H1, H2. rewrite Nat2Z.id in H1, H2.
  destruct (Z.ltb_spec (Z.of_nat j) 0); [lia|]. rewrite H1, H2.
  destruct (Z.leb_spec 0 (Z.of_nat j)); [|lia]. simpl.
  destruct (Z.ltb_spec (Z.of_nat j) n), (Z.eqb_spec (Z.of_nat j) i);
    case_decide; try done; lia.
Qed.

Lemma replicate_tabZ n (x : A) : 0 <= n -> replicate (Z.to_nat n) x = tabZ n (fun _ => x).
Proof.
  intros. apply zget_ext. intros q. rewrite zget_tabZ. unfold zget.
  destruct (Z.ltb_spec q 0), (Z.leb_spec 0 q); try lia; [done|]. simpl.
  destruct (Z.ltb_spec q n).
  - apply lookup_replicate. split; [done|lia].
  - apply lookup_ge_None. rewrite length_replicate. lia.
Qed.

Lemma zget_insert i x l q :
  0 <= i ->
  zget (<[Z.to_nat i := x]> l) q =
    if (q =? i) && (i <? zlen l) then Some x else zget l q.
Proof.
  intros Hi. unfold zget, zlen. destruct (Z.ltb_spec q 0).
  { destruct (Z.eqb_spec q i); simpl; try done. lia. }
  rewrite list_lookup_insert.
  destruct (Z.eqb_spec q i), (Z.ltb_spec i (Z.of_nat (length l)));
    simpl; case_decide; try done; lia.
Qed.

Lemma zlen_insert i x l : zlen (<[i := x]> l) = zlen l.
Proof. unfold zlen. by rewrite length_insert. Qed.

Lemma zget_insert_at i x l q :
  0 <= i <= zlen l ->
  zget (insert_at i x l) q =
    if q <? i then zget l q else if q =? i then Some x else zget l (q - 1).
Proof.
  intros Hi. unfold insert_at. rewrite zget_app, zlen_take by lia.
  destruct (Z.ltb_spec q i).
  - rewrite zget_take. destruct (Z.ltb_spec q i); [done|lia].
  - rewrite zget_cons. destruct (Z.eqb_spec (q - i) 0), (Z.eqb_spec q i); try lia; [done|].
    rewrite zget_drop by lia. destruct (Z.ltb_spec (q - i - 1) 0); [lia|].
    f_equal. lia.
Qed.

Lemma zget_remove_at i l q :
  0 <= i < zlen l ->
  zget (remove_at i l) q = if q <? i then zget l q else zget l (q + 1).
Proof.
  intros Hi. unfold remove_at. rewrite zget_app, zlen_take by lia.
  destruct (Z.ltb_spec q i).
  - rewrite zget_take. destruct (Z.ltb_spec q i); [done|lia].
  - rewrite zget_drop by lia. destruct (Z.ltb_spec (q - i) 0); [lia|].
    f_equal. lia.
Qed.

End ZList.

Lemma zget_fmap {A B} (f : A -> B) (l : list A) q : zget (f <$> l) q = f <$> zget l q.
Proof. unfold zget. destruct (q <? 0); [done|]. apply list_lookup_fmap. Qed.

Lemma zlen_fmap {A B} (f : A -> B) (l : list A) : zlen (f <$> l) = zlen l.
Proof. unfold zlen. by rewrite length_fmap. Qed.

Lemma zget_elem_of {A} (l : list A) q x : zget l q = Some x -> x ∈ l.
Proof.
  unfold zget. destruct (q <? 0); [done|]. apply list_elem_of_lookup_2.
Qed.

Lemma elem_of_zget {A} (l : list A) x : x ∈ l -> exists q, zget l q = Some x.
Proof.
  intros [i Hi]%list_elem_of_lookup_1. exists (Z.of_nat i). unfold zget.
  destruct (Z.ltb_spec (Z.of_nat i) 0); [lia|]. by rewrite Nat2Z.id.
Qed.

(** * Reading and writing cells *)

Section MemLemmas.
Context `{P : Params}.

(** [set_cell a n m]: the store [m] with the cell at [a] replaced by [n]. *)
Definition set_cell (a : nat) (n : btree_node) (m : memory) : memory :=
  mk_memory (<[a := n]> (cells m)) (next_addr m).

Lemma upd_set_cell a f m : upd a f m = set_cell a (f (nd m a)) m.
Proof. done. Qed.

Lemma nd_lookup m a n : cells m !! a = Some n -> nd m a = n.
Proof. intros. unfold nd. by apply lookup_total_correct. Qed.

Lemma nd_set_cell_eq a n m : nd (set_cell a n m) a = n.
Proof. unfold nd, set_cell; simpl. apply lookup_total_insert_eq. Qed.

Lemma nd_set_cell_ne a b n m : a <> b -> nd (set_cell a n m) b = nd m b.
Proof. intros. unfold nd, set_cell; simpl. by apply lookup_total_insert_ne. Qed.

Lemma lookup_set_cell_eq a n m : cells (set_cell a n m) !! a = Some n.
Proof. apply lookup_insert_eq. Qed.

Lemma lookup_set_cell_ne a b n m :
  a <> b -> cells (set_cell a n m) !! b = cells m !! b.
Proof. intros. by apply lookup_insert_ne. Qed.

Lemma next_addr_set_cell a n m : next_addr (set_cell a n m) = next_addr m.
Proof. done. Qed.

Lemma set_cell_set_cell a n n' m : set_cell a n (set_cell a n' m) = set_cell a n m.
Proof. unfold set_cell; simpl. by rewrite insert_insert_eq. Qed.

Lemma set_cell_comm a b na nb m :
  a <> b -> set_cell a na (set_cell b nb m) = set_cell b nb (set_cell a na m).
Proof. intros. unfold set_cell; simpl. f_equal. by apply insert_insert_ne. Qed.

Lemma set_cell_id a n m : cells m !! a = Some n -> set_cell a n m = m.
Proof. intros. unfold set_cell. rewrite insert_id by done. by destruct m. Qed.

(** Loops. *)
Lemma for_loop_S {S : Type} n j step (body : Z -> S -> S) s :
  for_loop (Datatypes.S n) j step body s =
    body (j + Z.of_nat n * step) (for_loop n j step body s).
Proof.
  revert j s. induction n as [|n IH]; intros j s.
  - simpl. f_equal. lia.
  - change (for_loop (Datatypes.S (Datatypes.S n)) j step body s)
      with (for_loop (Datatypes.S n) (j + step) step body (body j s)).
    rewrite IH. simpl. f_equal. lia.
Qed.

Lemma for_up_nil {S : Type} a b (body : Z -> S -> S) s : b <= a -> for_up a b body s = s.
Proof. intros. unfold for_up. replace (Z.to_nat (b - a)) with O by lia. done. Qed.

Lemma for_up_snoc {S : Type} a b (body : Z -> S -> S) s :
  a <= b -> for_up a (b + 1) body s = body b (for_up a b body s).
Proof.
  intros. unfold for_up. replace (Z.to_nat (b + 1 - a)) with (Datatypes.S (Z.to_nat (b - a))) by lia.
  rewrite for_loop_S. f_equal. lia.
Qed.

Lemma for_down_nil {S : Type} a b (body : Z -> S -> S) s : a <= b -> for_down a b body s = s.
Proof. intros. unfold for_down. replace (Z.to_nat (a - b)) with O by lia. done. Qed.

Lemma for_down_snoc {S : Type} a b (body : Z -> S -> S) s :
  b < a -> for_down a b body s = body (b + 1) (for_down a (b + 1) body s).
Proof.
  intros. unfold for_down.
  replace (Z.to_nat (a - b)) with (Datatypes.S (Z.to_nat (a - (b + 1)))) by lia.
  rewrite for_loop_S. f_equal. lia.
Qed.

(** Induction over the iterations of an upward loop. *)
Lemma for_up_ind {S : Type} (I : Z -> S -> Prop) a b (body : Z -> S -> S) s :
  a <= b -> I a s ->
  (forall k s, a <= k < b -> I k s -> I (k + 1) (body k s)) ->
  I b (for_up a b body s).
Proof.
  intros Hab H0 Hstep.
  assert (forall n : nat, a + Z.of_nat n <= b ->
            I (a + Z.of_nat n) (for_up a (a + Z.of_nat n) body s)) as Hn.
  { induction n as [|n IH]; intros Hle.
    - rewrite for_up_nil by lia. by replace (a + Z.of_nat 0) with a by lia.
    - replace (a + Z.of_nat (Datatypes.S n)) with (a + Z.of_nat n + 1) by lia.
      rewrite for_up_snoc by lia. apply Hstep; [lia|]. apply IH. lia. }
  specialize (Hn (Z.to_nat (b - a))).
  replace (a + Z.of_nat (Z.to_nat (b - a))) with b in Hn by lia. apply Hn. lia.
Qed.

(** Induction over the iterations of a downward loop: [I k] holds when the
    iterations [a, a - 1, ..., k + 1] are done. *)
Lemma for_down_ind {S : Type} (I : Z -> S -> Prop) a b (body : Z -> S -> S) s :
  b <= a -> I a s ->
  (forall k s, b < k <= a -> I k s -> I (k - 1) (body k s)) ->
  I b (for_down a b body s).
Proof.
  intros Hab H0 Hstep.
  assert (forall n : nat, b <= a - Z.of_nat n ->
            I (a - Z.of_nat n) (for_down a (a - Z.of_nat n) body s)) as Hn.
  { induction n as [|n IH]; intros Hle.
    - rewrite for_down_nil by lia. by replace (a - Z.of_nat 0) with a by lia.
    - rewrite for_down_snoc by lia.
      replace (a - Z.of_nat (Datatypes.S n) + 1) with (a - Z.of_nat n) by lia.
      replace (a - Z.of_nat (Datatypes.S n)) with (a - Z.of_nat n - 1) by lia.
      apply Hstep; [lia|]. apply IH. lia. }
  specialize (Hn (Z.to_nat (a - b))).
  replace (a - Z.of_nat (Z.to_nat (a - b))) with b in Hn by lia. apply Hn. lia.
Qed.

End MemLemmas.


(** * Cells in canonical form *)

Section Cells.
Context `{P : Params}.

(** The static assertion of [btree]: [kNodeValues] fits [field_type]. *)
Definition static_assert_field : Prop := kNodeValues < field_modulus.

(** The [values] array of a node holding [vs] in its first slots. *)
Definition slots (mc : Z) (vs : list value_type) : list (option value_type) :=
  tabZ mc (zget vs).
Definition leaf_cell (par : nat) (pos mc : Z) (vs : list value_type) : btree_node :=
  mk_node true pos mc (zlen vs) par (slots mc vs) [] 0%nat 0.
(** [g q] is the content of slot [q] of the [children] array: the slots
    after the last child hold whatever was left there. *)
Definition internal_cell (par : nat) (pos : Z) (vs : list value_type)
    (g : Z -> nat) (rm : nat) (sz : Z) : btree_node :=
  mk_node false pos kNodeValues (zlen vs) par (slots kNodeValues vs)
    (tabZ (kNodeValues + 1) g) rm sz.

(** [wv n f]: the node [n] with slot [q] of its values array set to [f q]. *)
Definition wv (n : btree_node) (f : Z -> option value_type) : btree_node :=
  with_values (tabZ (zlen (values n)) f) n.
(** [wc n g]: the node [n] with slot [q] of its children array set to [g q]. *)
Definition wc (n : btree_node) (g : Z -> nat) : btree_node :=
  with_children (tabZ (zlen (children n)) g) n.

Lemma field_wrap_small v : 0 <= v < field_modulus -> field_wrap v = v.
Proof. intros. unfold field_wrap. by apply Z.mod_small. Qed.

Lemma kNodeValues_pos : 3 <= kNodeValues.
Proof. unfold kNodeValues. destruct (Z.leb_spec 3 kNodeTargetValues); lia. Qed.

Lemma zlen_values_wv n f : zlen (values (wv n f)) = zlen (values n).
Proof. unfold wv; simpl. apply zlen_tabZ, zlen_nonneg. Qed.

Lemma wv_wv n f g : wv (wv n f) g = wv n g.
Proof. unfold wv at 1. rewrite zlen_values_wv. done. Qed.

Lemma wv_ext n f g :
  (forall q, 0 <= q < zlen (values n) -> f q = g q) -> wv n f = wv n g.
Proof. intros H. unfold wv. f_equal. by apply tabZ_ext. Qed.

Lemma slot_wv n f i : 0 <= i < zlen (values n) -> slot (wv n f) i = f i.
Proof. intros. unfold slot, wv; simpl. by apply lookup_total_tabZ. Qed.

Lemma set_value_wv n f i v :
  0 <= i ->
  with_values (<[Z.to_nat i := v]> (values (wv n f))) (wv n f) =
    wv n (fun q => if q =? i then v else f q).
Proof. intros. unfold wv; simpl. by rewrite insert_tabZ. Qed.

Lemma with_count_wv c n f : with_count c (wv n f) = wv (with_count c n) f.
Proof. done. Qed.

Lemma count_wv n f : count (wv n f) = count n.
Proof. done. Qed.
Lemma parent_wv n f : parent (wv n f) = parent n.
Proof. done. Qed.
Lemma position_wv n f : position (wv n f) = position n.
Proof. done. Qed.
Lemma leaf_wv n f : leaf (wv n f) = leaf n.
Proof. done. Qed.
Lemma max_count_wv n f : max_count (wv n f) = max_count n.
Proof. done. Qed.
Lemma children_wv n f : children (wv n f) = children n.
Proof. done. Qed.

Lemma zlen_slots mc vs : 0 <= mc -> zlen (slots mc vs) = mc.
Proof. apply zlen_tabZ. Qed.

Lemma leaf_cell_wv par pos mc vs :
  0 <= mc -> leaf_cell par pos mc vs = wv (leaf_cell par pos mc vs) (zget vs).
Proof. intros. unfold wv; simpl. by rewrite zlen_slots. Qed.

Lemma internal_cell_wv par pos vs cas rm sz :
  internal_cell par pos vs cas rm sz =
    wv (internal_cell par pos vs cas rm sz) (zget vs).
Proof.
  unfold wv; simpl. rewrite zlen_slots; [done|]. pose proof kNodeValues_pos. lia.
Qed.

Lemma zlen_children_wc n g : zlen (children (wc n g)) = zlen (children n).
Proof. unfold wc; simpl. apply zlen_tabZ, zlen_nonneg. Qed.

Lemma wc_wc n f g : wc (wc n f) g = wc n g.
Proof. unfold wc at 1. rewrite zlen_children_wc. done. Qed.

Lemma wc_ext n f g :
  (forall q, 0 <= q < zlen (children n) -> f q = g q) -> wc n f = wc n g.
Proof. intros H. unfold wc. f_equal. by apply tabZ_ext. Qed.

Lemma child_wc n g i : 0 <= i < zlen (children n) -> child (wc n g) i = g i.
Proof. intros. unfold child, wc; simpl. by apply lookup_total_tabZ. Qed.

Lemma set_child_wc n g i c :
  0 <= i ->
  with_children (<[Z.to_nat i := c]> (children (wc n g))) (wc n g) =
    wc n (fun q => if q =? i then c else g q).
Proof. intros. unfold wc; simpl. by rewrite insert_tabZ. Qed.

Lemma internal_cell_wc par pos vs g rm sz :
  internal_cell par pos vs g rm sz = wc (internal_cell par pos vs g rm sz) g.
Proof.
  pose proof kNodeValues_pos. unfold wc; simpl.
  rewrite zlen_tabZ by lia. done.
Qed.

Lemma count_wc n g : count (wc n g) = count n.
Proof. done. Qed.
Lemma parent_wc n g : parent (wc n g) = parent n.
Proof. done. Qed.
Lemma position_wc n g : position (wc n g) = position n.
Proof. done. Qed.
Lemma leaf_wc n g : leaf (wc n g) = leaf n.
Proof. done. Qed.
Lemma values_wc n g : values (wc n g) = values n.
Proof. done. Qed.
Lemma wv_wc n f g : wv (wc n g) f = wc (wv n f) g.
Proof. done. Qed.

End Cells.

(** Case analysis on the integer tests of a goal, closing what arithmetic
    closes; [zget] beyond the end of a list is rewritten to [None]. *)
Ltac ztests :=
  repeat (match goal with
    | |- context [Z.eqb ?a ?b] => destruct (Z.eqb_spec a b)
    | |- context [Z.ltb ?a ?b] => destruct (Z.ltb_spec a b)
    | |- context [Z.leb ?a ?b] => destruct (Z.leb_spec a b)
    end; simpl; try lia);
  try done.
Ltac znone :=
  repeat match goal with
    | |- context [zget ?l ?q] =>
        first [rewrite (zget_ge l q) by (rewrite ?zlen_app, ?zlen_cons; lia)
              |rewrite (zget_lt_0 l q) by lia]
    end.
Ltac pw := ztests; znone; try done; try (f_equal; lia); try (do 2 f_equal; lia).

(** * One cell at a time: [insert_value], [remove_value] on a leaf *)

Section OneCell.
Context `{P : Params}.
Variable a : nat.
Variable m0 : memory.

Lemma value_swap_same i j n f :
  0 <= i < zlen (values n) -> 0 <= j < zlen (values n) ->
  value_swap a i a j (set_cell a (wv n f) m0) =
    set_cell a (wv n (fun q => if q =? j then f i else if q =? i then f j else f q)) m0.
Proof.
  intros Hi Hj. unfold value_swap, set_slot. rewrite !upd_set_cell, !nd_set_cell_eq.
  rewrite !set_cell_set_cell, !slot_wv by done.
  by rewrite !set_value_wv by lia.
Qed.

Lemma set_slot_one i v n f :
  0 <= i ->
  set_slot a i v (set_cell a (wv n f) m0) =
    set_cell a (wv n (fun q => if q =? i then v else f q)) m0.
Proof.
  intros Hi. unfold set_slot. rewrite upd_set_cell, nd_set_cell_eq, set_cell_set_cell.
  by rewrite set_value_wv.
Qed.

Lemma set_count_one c n :
  set_count a c (set_cell a n m0) = set_cell a (with_count c n) m0.
Proof. unfold set_count. by rewrite upd_set_cell, nd_set_cell_eq, set_cell_set_cell. Qed.

(** The loop of [insert_value]: the new value, constructed in slot [c],
    is swapped down to slot [i]. *)
Lemma insert_value_shift n (vs : list value_type) x c i :
  c = zlen vs -> 0 <= i <= c -> c < zlen (values n) ->
  for_down c i (fun j m => value_swap a j a (j - 1) m)
    (set_cell a (wv n (fun q => if q =? c then Some x else zget vs q)) m0) =
  set_cell a (wv n (zget (insert_at i x vs))) m0.
Proof.
  intros Hc Hi Hlen.
  pose (F := fun k q => if q <? k then zget vs q else if q =? k then Some x
                        else if q <=? c then zget vs (q - 1) else None).
  assert (for_down c i (fun j m => value_swap a j a (j - 1) m)
            (set_cell a (wv n (fun q => if q =? c then Some x else zget vs q)) m0)
          = set_cell a (wv n (F i)) m0) as ->.
  { apply (for_down_ind (fun k m => m = set_cell a (wv n (F k)) m0)); [lia| |].
    - f_equal. apply wv_ext. intros q Hq. unfold F. pw.
    - intros k m Hk ->. rewrite value_swap_same by lia.
      f_equal. apply wv_ext. intros q Hq. unfold F. pw. }
  f_equal. apply wv_ext. intros q Hq. unfold F.
  rewrite zget_insert_at by lia. pw.
Qed.

Lemma insert_value_leaf par pos mc vs i x m :
  cells m !! a = Some (leaf_cell par pos mc vs) -> m0 = m ->
  zlen vs < mc -> mc < field_modulus -> 0 <= i <= zlen vs ->
  insert_value a i x m = set_cell a (leaf_cell par pos mc (insert_at i x vs)) m.
Proof.
  intros Ha <- Hroom Hmod Hi. pose proof (zlen_nonneg vs).
  rewrite <- (set_cell_id _ _ _ Ha) at 1.
  rewrite (leaf_cell_wv par pos mc vs) by lia.
  set (n := leaf_cell par pos mc vs).
  assert (Hlen : zlen (values n) = mc) by (apply zlen_slots; lia).
  unfold insert_value, value_init_copy.
  rewrite nd_set_cell_eq. change (count (wv n (zget vs))) with (zlen vs).
  rewrite set_slot_one by lia. rewrite nd_set_cell_eq.
  change (count (wv n _)) with (zlen vs).
  rewrite (insert_value_shift n vs x (zlen vs) i) by lia.
  rewrite set_count_one, !nd_set_cell_eq. simpl. f_equal.
  unfold leaf_cell, wv, with_count, with_values, slots; simpl.
  rewrite zlen_insert_at, field_wrap_small by lia.
  fold (slots mc vs). rewrite zlen_slots by lia. done.
Qed.

(** The loop of [remove_value]: slot [i] is swapped up to slot [c - 1]. *)
Lemma remove_value_shift n (vs : list value_type) c i :
  c = zlen vs -> 0 <= i < c -> c <= zlen (values n) ->
  for_up i (c - 1) (fun j m => value_swap a j a (j + 1) m)
    (set_cell a (wv n (zget vs)) m0) =
  set_cell a (wv n (fun q => if q =? c - 1 then zget vs i
                             else zget (remove_at i vs) q)) m0.
Proof.
  intros Hc Hi Hlen.
  pose (F := fun k q => if q <? i then zget vs q else if q <? k then zget vs (q + 1)
                        else if q =? k then zget vs i else zget vs q).
  assert (for_up i (c - 1) (fun j m => value_swap a j a (j + 1) m)
            (set_cell a (wv n (zget vs)) m0)
          = set_cell a (wv n (F (c - 1))) m0) as ->.
  { apply (for_up_ind (fun k m => m = set_cell a (wv n (F k)) m0)); [lia| |].
    - f_equal. apply wv_ext. intros q Hq. unfold F. pw.
    - intros k m Hk ->. rewrite value_swap_same by lia.
      f_equal. apply wv_ext. intros q Hq. unfold F. pw. }
  f_equal. apply wv_ext. intros q Hq. unfold F.
  rewrite zget_remove_at by lia. pw.
Qed.

Lemma remove_value_leaf par pos mc vs i m :
  cells m !! a = Some (leaf_cell par pos mc vs) -> m0 = m ->
  zlen vs <= mc -> mc < field_modulus -> 0 <= i < zlen vs ->
  remove_value a i m = set_cell a (leaf_cell par pos mc (remove_at i vs)) m.
Proof.
  intros Ha <- Hroom Hmod Hi.
  rewrite <- (set_cell_id _ _ _ Ha) at 1.
  rewrite (leaf_cell_wv par pos mc vs) by lia.
  set (n := leaf_cell par pos mc vs).
  assert (Hlen : zlen (values n) = mc) by (apply zlen_slots; lia).
  unfold remove_value. rewrite nd_set_cell_eq. simpl.
  rewrite set_count_one, !nd_set_cell_eq. simpl.
  rewrite with_count_wv, field_wrap_small by lia.
  rewrite (remove_value_shift _ vs (zlen vs) i);
    [|done|lia|change (zlen vs <= zlen (values n)); lia].
  unfold value_destroy. rewrite set_slot_one by lia. f_equal.
  unfold leaf_cell, wv, with_count, with_values, slots; simpl.
  rewrite zlen_remove_at, field_wrap_small by lia.
  fold (slots mc vs). rewrite zlen_slots by lia. f_equal.
  apply tabZ_ext. intros q Hq.
  rewrite zget_remove_at by lia. pw.
Qed.

End OneCell.


(** * Two siblings and their parent: the value arrays *)

(** The part of each node method that moves values, before the children
    pointers are touched. *)
Section ValuePhases.
Context `{P : Params}.

Definition rebalance_right_to_left_values (a src : nat) (to_move : Z) (m : memory) : memory :=
  let m := for_up 0 to_move (fun i m => value_init a (i + count (nd m a)) m) m in
  let m := value_swap a (count (nd m a)) (parent (nd m a)) (position (nd m a)) m in
  let m := value_swap (parent (nd m a)) (position (nd m a)) src (to_move - 1) m in
  let m := for_up 1 to_move
             (fun i m => value_swap a (count (nd m a) + i) src (i - 1) m) m in
  let m := for_up to_move (count (nd m src))
             (fun i m => value_swap src (i - to_move) src i m) m in
  for_up 1 (to_move + 1) (fun i m => value_destroy src (count (nd m src) - i) m) m.

Definition rebalance_left_to_right_values (a dest : nat) (to_move : Z) (m : memory) : memory :=
  let m := for_up 0 to_move
             (fun i m => value_init dest (i + count (nd m dest)) m) m in
  let m := for_down (count (nd m dest) - 1) (-1)
             (fun i m => value_swap dest i dest (i + to_move) m) m in
  let m := value_swap dest (to_move - 1) (parent (nd m a)) (position (nd m a)) m in
  let m := value_swap (parent (nd m a)) (position (nd m a)) a
             (count (nd m a) - to_move) m in
  let m := value_destroy a (count (nd m a) - to_move) m in
  for_up 1 to_move
    (fun i m =>
       let m := value_swap a (count (nd m a) - to_move + i) dest (i - 1) m in
       value_destroy a (count (nd m a) - to_move + i) m) m.

End ValuePhases.

Section ThreeCells.
Context `{P : Params}.
Variables l r p : nat.
Hypothesis Hlr : l <> r.
Hypothesis Hlp : l <> p.
Hypothesis Hrp : r <> p.
Variable m0 : memory.

(** The store with the cells of the left sibling, the right sibling and
    the parent replaced. *)
Definition set3 (L R Pn : btree_node) : memory :=
  set_cell p Pn (set_cell r R (set_cell l L m0)).

Lemma nd_set3_l L R Pn : nd (set3 L R Pn) l = L.
Proof. unfold set3. by rewrite !nd_set_cell_ne, nd_set_cell_eq by done. Qed.
Lemma nd_set3_r L R Pn : nd (set3 L R Pn) r = R.
Proof. unfold set3. by rewrite nd_set_cell_ne, nd_set_cell_eq by done. Qed.
Lemma nd_set3_p L R Pn : nd (set3 L R Pn) p = Pn.
Proof. unfold set3. by rewrite nd_set_cell_eq. Qed.

Lemma set_l_set3 L' L R Pn : set_cell l L' (set3 L R Pn) = set3 L' R Pn.
Proof.
  unfold set3. rewrite (set_cell_comm l p), (set_cell_comm l r) by done.
  by rewrite set_cell_set_cell.
Qed.
Lemma set_r_set3 R' L R Pn : set_cell r R' (set3 L R Pn) = set3 L R' Pn.
Proof. unfold set3. rewrite (set_cell_comm r p) by done. by rewrite set_cell_set_cell. Qed.
Lemma set_p_set3 Pn' L R Pn : set_cell p Pn' (set3 L R Pn) = set3 L R Pn'.
Proof. unfold set3. by rewrite set_cell_set_cell. Qed.

Lemma lookup_set3_other L R Pn y :
  y <> l -> y <> r -> y <> p -> cells (set3 L R Pn) !! y = cells m0 !! y.
Proof. intros. unfold set3. by rewrite !lookup_set_cell_ne by done. Qed.

Lemma set3_id m L R Pn :
  m0 = m -> cells m !! l = Some L -> cells m !! r = Some R -> cells m !! p = Some Pn ->
  set3 L R Pn = m.
Proof.
  intros <- Hl Hr Hp. unfold set3.
  rewrite (set_cell_id l L m0 Hl), (set_cell_id r R m0 Hr). by apply set_cell_id.
Qed.

Definition fupd {A} (f : Z -> A) (i : Z) (v : A) : Z -> A :=
  fun q => if q =? i then v else f q.

(** Single statements on the three cells. *)
Lemma set_slot_l i v L f R Pn :
  0 <= i -> set_slot l i v (set3 (wv L f) R Pn) = set3 (wv L (fupd f i v)) R Pn.
Proof.
  intros. unfold set_slot. rewrite upd_set_cell, nd_set3_l, set_l_set3.
  by rewrite set_value_wv.
Qed.
Lemma set_slot_r i v L R g Pn :
  0 <= i -> set_slot r i v (set3 L (wv R g) Pn) = set3 L (wv R (fupd g i v)) Pn.
Proof.
  intros. unfold set_slot. rewrite upd_set_cell, nd_set3_r, set_r_set3.
  by rewrite set_value_wv.
Qed.
Lemma set_slot_p i v L R Pn h :
  0 <= i -> set_slot p i v (set3 L R (wv Pn h)) = set3 L R (wv Pn (fupd h i v)).
Proof.
  intros. unfold set_slot. rewrite upd_set_cell, nd_set3_p, set_p_set3.
  by rewrite set_value_wv.
Qed.

Lemma value_destroy_l i L f R Pn :
  0 <= i -> value_destroy l i (set3 (wv L f) R Pn) = set3 (wv L (fupd f i None)) R Pn.
Proof. apply set_slot_l. Qed.
Lemma value_destroy_r i L R g Pn :
  0 <= i -> value_destroy r i (set3 L (wv R g) Pn) = set3 L (wv R (fupd g i None)) Pn.
Proof. apply set_slot_r. Qed.
Lemma value_init_l i L f R Pn :
  0 <= i ->
  value_init l i (set3 (wv L f) R Pn) =
    set3 (wv L (fupd f i (Some value_type_default))) R Pn.
Proof. apply set_slot_l. Qed.
Lemma value_init_r i L R g Pn :
  0 <= i ->
  value_init r i (set3 L (wv R g) Pn) =
    set3 L (wv R (fupd g i (Some value_type_default))) Pn.
Proof. apply set_slot_r. Qed.

Lemma value_swap_lr i j L f R g Pn :
  0 <= i < zlen (values L) -> 0 <= j < zlen (values R) ->
  value_swap l i r j (set3 (wv L f) (wv R g) Pn) =
    set3 (wv L (fupd f i (g j))) (wv R (fupd g j (f i))) Pn.
Proof.
  intros. unfold value_swap. rewrite nd_set3_l, nd_set3_r, !slot_wv by done.
  rewrite set_slot_l, set_slot_r by lia. done.
Qed.
Lemma value_swap_lp i j L f R Pn h :
  0 <= i < zlen (values L) -> 0 <= j < zlen (values Pn) ->
  value_swap l i p j (set3 (wv L f) R (wv Pn h)) =
    set3 (wv L (fupd f i (h j))) R (wv Pn (fupd h j (f i))).
Proof.
  intros. unfold value_swap. rewrite nd_set3_l, nd_set3_p, !slot_wv by done.
  rewrite set_slot_l, set_slot_p by lia. done.
Qed.
Lemma value_swap_pr i j L R g Pn h :
  0 <= i < zlen (values Pn) -> 0 <= j < zlen (values R) ->
  value_swap p i r j (set3 L (wv R g) (wv Pn h)) =
    set3 L (wv R (fupd g j (h i))) (wv Pn (fupd h i (g j))).
Proof.
  intros. unfold value_swap. rewrite nd_set3_r, nd_set3_p, !slot_wv by done.
  rewrite set_slot_p, set_slot_r by lia. done.
Qed.
Lemma value_swap_rp i j L R g Pn h :
  0 <= i < zlen (values R) -> 0 <= j < zlen (values Pn) ->
  value_swap r i p j (set3 L (wv R g) (wv Pn h)) =
    set3 L (wv R (fupd g i (h j))) (wv Pn (fupd h j (g i))).
Proof.
  intros. unfold value_swap. rewrite nd_set3_r, nd_set3_p, !slot_wv by done.
  rewrite set_slot_r, set_slot_p by lia. done.
Qed.
Lemma value_swap_pl i j L f R Pn h :
  0 <= i < zlen (values Pn) -> 0 <= j < zlen (values L) ->
  value_swap p i l j (set3 (wv L f) R (wv Pn h)) =
    set3 (wv L (fupd f j (h i))) R (wv Pn (fupd h i (f j))).
Proof.
  intros. unfold value_swap. rewrite nd_set3_l, nd_set3_p, !slot_wv by done.
  rewrite set_slot_p, set_slot_l by lia. done.
Qed.
Lemma value_swap_rr i j L R g Pn :
  0 <= i < zlen (values R) -> 0 <= j < zlen (values R) ->
  value_swap r i r j (set3 L (wv R g) Pn) =
    set3 L (wv R (fupd (fupd g i (g j)) j (g i))) Pn.
Proof.
  intros. unfold value_swap. rewrite nd_set3_r, !slot_wv by done.
  rewrite !set_slot_r by lia. done.
Qed.
Lemma set_count_l c L R Pn :
  set_count l c (set3 L R Pn) = set3 (with_count c L) R Pn.
Proof. unfold set_count. by rewrite upd_set_cell, nd_set3_l, set_l_set3. Qed.
Lemma set_count_r c L R Pn :
  set_count r c (set3 L R Pn) = set3 L (with_count c R) Pn.
Proof. unfold set_count. by rewrite upd_set_cell, nd_set3_r, set_r_set3. Qed.

Lemma set3_wv_ext L f f' R g g' Pn h h' :
  (forall q, 0 <= q < zlen (values L) -> f q = f' q) ->
  (forall q, 0 <= q < zlen (values R) -> g q = g' q) ->
  (forall q, 0 <= q < zlen (values Pn) -> h q = h' q) ->
  set3 (wv L f) (wv R g) (wv Pn h) = set3 (wv L f') (wv R g') (wv Pn h').
Proof. intros H1 H2 H3. by rewrite (wv_ext L f f'), (wv_ext R g g'), (wv_ext Pn h h'). Qed.

End ThreeCells.

Ltac pwf := unfold fupd; pw.

(** [loop3_is res]: the loop that runs next (its state is a [set3] term)
    yields [res]; leaves that equation to prove and rewrites with it. *)
Ltac loop3_is res :=
  match goal with
  | |- context [for_up ?a ?b ?body (set3 ?l ?r ?p ?m ?L ?R ?Pn)] =>
      let H := fresh "Hloop" in
      assert (for_up a b body (set3 l r p m L R Pn) = res) as H;
      [|rewrite H; clear H]
  | |- context [for_down ?a ?b ?body (set3 ?l ?r ?p ?m ?L ?R ?Pn)] =>
      let H := fresh "Hloop" in
      assert (for_down a b body (set3 l r p m L R Pn) = res) as H;
      [|rewrite H; clear H]
  end.

Section RebalanceValues.
Context `{P : Params}.
Variables l r p : nat.
Hypothesis Hlr : l <> r.
Hypothesis Hlp : l <> p.
Hypothesis Hrp : r <> p.
Variable m0 : memory.
Variables L R Pn : btree_node.
Variables lvs rvs pvs : list value_type.
Variable i : Z.
Variable d : value_type.
Hypothesis HLc : count L = zlen lvs.
Hypothesis HLp : parent L = p.
Hypothesis HLi : position L = i.
Hypothesis HRc : count R = zlen rvs.
Hypothesis HLlen : zlen lvs <= zlen (values L).
Hypothesis HRlen : zlen rvs <= zlen (values R).
Hypothesis HPlen : zlen pvs <= zlen (values Pn).
Hypothesis Hd : zget pvs i = Some d.

Local Abbreviation S3 := (set3 l r p m0).

(** Values of [rebalance_right_to_left]: the delimiter comes down to the
    left node followed by the first [n - 1] values of the right node, whose
    [n]-th value becomes the new delimiter. *)
Lemma rebalance_right_to_left_values_spec n x :
  1 <= n <= zlen rvs -> zlen lvs + n <= zlen (values L) ->
  zget rvs (n - 1) = Some x ->
  rebalance_right_to_left_values l r n
      (S3 (wv L (zget lvs)) (wv R (zget rvs)) (wv Pn (zget pvs))) =
    S3 (wv L (zget (lvs ++ d :: ztake (n - 1) rvs)))
       (wv R (zget (zdrop n rvs)))
       (wv Pn (zget (<[Z.to_nat i := x]> pvs))).
Proof using All.
  intros Hn Hroom Hx. unfold rebalance_right_to_left_values.
  pose proof (zlen_nonneg lvs). pose proof (zlen_nonneg rvs).
  apply zget_Some_lt in Hd as Hi.
  set (c := zlen lvs) in *. set (cr := zlen rvs) in *.
  (* make room *)
  pose (F1 := fun k q => if (c <=? q) && (q <? c + k) then Some value_type_default
                         else zget lvs q).
  assert (for_up 0 n (fun i m => value_init l (i + count (nd m l)) m)
            (S3 (wv L (zget lvs)) (wv R (zget rvs)) (wv Pn (zget pvs)))
          = S3 (wv L (F1 n)) (wv R (zget rvs)) (wv Pn (zget pvs))) as ->.
  { apply (for_up_ind (fun k m => m = S3 (wv L (F1 k)) (wv R (zget rvs)) (wv Pn (zget pvs))));
      [lia| |].
    - apply set3_wv_ext; try done; intros q Hq; unfold F1. pw.
    - intros k m Hk ->. unfold value_init. rewrite nd_set3_l by done.
      change (count (wv L (F1 k))) with (count L). rewrite HLc.
      rewrite set_slot_l by (try done; lia).
      apply set3_wv_ext; try done; intros q Hq; unfold F1; pwf. }
  (* the delimiters *)
  rewrite !nd_set3_l by done.
  change (count (wv L (F1 n))) with (count L).
  change (parent (wv L (F1 n))) with (parent L).
  change (position (wv L (F1 n))) with (position L).
  rewrite HLc, HLp, HLi.
  rewrite value_swap_lp by (try done; lia).
  rewrite !nd_set3_l by done.
  change (parent (wv L _)) with (parent L). change (position (wv L _)) with (position L).
  rewrite HLp, HLi.
  rewrite value_swap_pr by (try done; lia).
  set (fl2 := fupd (F1 n) c (zget pvs i)).
  set (fp2 := fupd (fupd (zget pvs) i (F1 n c)) i (zget rvs (n - 1))).
  set (fr2 := fupd (zget rvs) (n - 1) (fupd (zget pvs) i (F1 n c) i)).
  (* the values from the right *)
  pose (F3l := fun k q => if (c + 1 <=? q) && (q <? c + k) then zget rvs (q - c - 1)
                          else fl2 q).
  pose (F3r := fun k q => if (0 <=? q) && (q <? k - 1) then Some value_type_default
                          else fr2 q).
  assert (for_up 1 n (fun i m => value_swap l (count (nd m l) + i) r (i - 1) m)
            (S3 (wv L fl2) (wv R fr2) (wv Pn fp2))
          = S3 (wv L (F3l n)) (wv R (F3r n)) (wv Pn fp2)) as ->.
  { apply (for_up_ind (fun k m => m = S3 (wv L (F3l k)) (wv R (F3r k)) (wv Pn fp2)));
      [lia| |].
    - apply set3_wv_ext; try done; intros q Hq; unfold F3l, F3r; pw.
    - intros k m Hk ->. rewrite nd_set3_l by done.
      change (count (wv L (F3l k))) with (count L). rewrite HLc.
      rewrite value_swap_lr by (try done; lia).
      apply set3_wv_ext; try done; intros q Hq;
        unfold F3l, F3r, fl2, fr2, F1; pwf. }
  (* shift the right node *)
  rewrite nd_set3_r by done. change (count (wv R (F3r n))) with (count R). rewrite HRc.
  pose (F4 := fun k q => if q <? k - n then zget rvs (q + n)
                         else if q <? k then Some value_type_default
                         else zget rvs q).
  assert (for_up n cr (fun i m => value_swap r (i - n) r i m)
            (S3 (wv L (F3l n)) (wv R (F3r n)) (wv Pn fp2))
          = S3 (wv L (F3l n)) (wv R (F4 cr)) (wv Pn fp2)) as ->.
  { apply (for_up_ind (fun k m => m = S3 (wv L (F3l n)) (wv R (F4 k)) (wv Pn fp2)));
      [lia| |].
    - apply set3_wv_ext; try done; intros q Hq; unfold F4, F3r, fr2, F1. pwf.
    - intros k m Hk ->. rewrite value_swap_rr by (try done; lia).
      apply set3_wv_ext; try done; intros q Hq; unfold F4. pwf. }
  (* destroy the moved slots *)
  pose (F5 := fun k q => if q <? cr - n then zget rvs (q + n)
                         else if q <? cr - k + 1 then Some value_type_default
                         else None).
  assert (for_up 1 (n + 1) (fun i m => value_destroy r (count (nd m r) - i) m)
            (S3 (wv L (F3l n)) (wv R (F4 cr)) (wv Pn fp2))
          = S3 (wv L (F3l n)) (wv R (F5 (n + 1))) (wv Pn fp2)) as ->.
  { apply (for_up_ind (fun k m => m = S3 (wv L (F3l n)) (wv R (F5 k)) (wv Pn fp2)));
      [lia| |].
    - apply set3_wv_ext; try done; intros q Hq; unfold F5, F4. pw.
    - intros k m Hk ->. unfold value_destroy. rewrite nd_set3_r by done.
      change (count (wv R (F5 k))) with (count R). rewrite HRc.
      rewrite set_slot_r by (try done; lia).
      apply set3_wv_ext; try done; intros q Hq; unfold F5. pwf. }
  apply set3_wv_ext; try done; intros q Hq.
  - unfold F3l, fl2, F1. rewrite zget_app, zget_cons, zget_take. fold c. rewrite Hd.
    pwf.
  - unfold F5. rewrite zget_drop by lia. pw.
  - unfold fp2, F1. rewrite Hx, zget_insert by lia. pwf.
Qed.

End RebalanceValues.


Section RebalanceValues2.
Context `{P : Params}.
Variables l r p : nat.
Hypothesis Hlr : l <> r.
Hypothesis Hlp : l <> p.
Hypothesis Hrp : r <> p.
Variable m0 : memory.
Variables L R Pn : btree_node.
Variables lvs rvs pvs : list value_type.
Variable i : Z.
Variable d : value_type.
Hypothesis HLc : count L = zlen lvs.
Hypothesis HLp : parent L = p.
Hypothesis HLi : position L = i.
Hypothesis HRc : count R = zlen rvs.
Hypothesis HLlen : zlen lvs <= zlen (values L).
Hypothesis HRlen : zlen rvs <= zlen (values R).
Hypothesis HPlen : zlen pvs <= zlen (values Pn).
Hypothesis Hd : zget pvs i = Some d.

Local Abbreviation S3 := (set3 l r p m0).

(** Values of [rebalance_left_to_right]: the delimiter goes down to the
    front of the right node, preceded by the last [n - 1] values of the
    left node, whose [n]-th value from the end becomes the new delimiter. *)
Lemma rebalance_left_to_right_values_spec n x :
  1 <= n <= zlen lvs -> zlen rvs + n <= zlen (values R) ->
  zget lvs (zlen lvs - n) = Some x ->
  rebalance_left_to_right_values l r n
      (S3 (wv L (zget lvs)) (wv R (zget rvs)) (wv Pn (zget pvs))) =
    S3 (wv L (zget (ztake (zlen lvs - n) lvs)))
       (wv R (zget (zdrop (zlen lvs - n + 1) lvs ++ d :: rvs)))
       (wv Pn (zget (<[Z.to_nat i := x]> pvs))).
Proof using All.
  intros Hn Hroom Hx. unfold rebalance_left_to_right_values.
  pose proof (zlen_nonneg lvs). pose proof (zlen_nonneg rvs).
  apply zget_Some_lt in Hd as Hi.
  set (c := zlen lvs) in *. set (cr := zlen rvs) in *.
  (* make room *)
  pose (F1 := fun k q => if (cr <=? q) && (q <? cr + k) then Some value_type_default
                         else zget rvs q).
  assert (for_up 0 n (fun i m => value_init r (i + count (nd m r)) m)
            (S3 (wv L (zget lvs)) (wv R (zget rvs)) (wv Pn (zget pvs)))
          = S3 (wv L (zget lvs)) (wv R (F1 n)) (wv Pn (zget pvs))) as ->.
  { apply (for_up_ind (fun k m => m = S3 (wv L (zget lvs)) (wv R (F1 k)) (wv Pn (zget pvs))));
      [lia| |].
    - apply set3_wv_ext; try done; intros q Hq; unfold F1; pw.
    - intros k m Hk ->. unfold value_init. rewrite nd_set3_r by done.
      change (count (wv R (F1 k))) with (count R). rewrite HRc.
      rewrite set_slot_r by (try done; lia).
      apply set3_wv_ext; try done; intros q Hq; unfold F1; pwf. }
  (* shift the right node *)
  rewrite nd_set3_r by done. change (count (wv R (F1 n))) with (count R). rewrite HRc.
  pose (F2 := fun k q => if q <=? k then zget rvs q
                         else if q <=? k + n then Some value_type_default
                         else zget rvs (q - n)).
  assert (for_down (cr - 1) (-1) (fun i m => value_swap r i r (i + n) m)
            (S3 (wv L (zget lvs)) (wv R (F1 n)) (wv Pn (zget pvs)))
          = S3 (wv L (zget lvs)) (wv R (F2 (-1))) (wv Pn (zget pvs))) as ->.
  { apply (for_down_ind
             (fun k m => m = S3 (wv L (zget lvs)) (wv R (F2 k)) (wv Pn (zget pvs))));
      [lia| |].
    - apply set3_wv_ext; try done; intros q Hq; unfold F1, F2; pw.
    - intros k m Hk ->. rewrite value_swap_rr by (try done; lia).
      apply set3_wv_ext; try done; intros q Hq; unfold F2; pwf. }
  (* the delimiters *)
  rewrite !nd_set3_l by done. rewrite ?count_wv, ?parent_wv, ?position_wv.
  rewrite ?HLc, ?HLp, ?HLi.
  rewrite value_swap_rp by (try done; lia).
  rewrite !nd_set3_l by done. rewrite ?count_wv, ?parent_wv, ?position_wv.
  rewrite ?HLc, ?HLp, ?HLi.
  rewrite value_swap_pl by (try done; lia).
  rewrite !nd_set3_l by done.
  change (count (wv L _)) with (count L). rewrite HLc.
  rewrite value_destroy_l by (try done; lia).
  set (fl := fupd _ (c - n) None).
  set (fr := fupd (F2 (-1)) (n - 1) _).
  set (fp := fupd _ i _).
  (* the values from the left *)
  pose (F3l := fun k q => if (c - n <=? q) && (q <? c - n + k) then None else zget lvs q).
  pose (F3r := fun k q => if q <? k - 1 then zget lvs (c - n + 1 + q) else fr q).
  loop3_is (S3 (wv L (F3l n)) (wv R (F3r n)) (wv Pn fp)).
  { apply (for_up_ind (fun k m => m = S3 (wv L (F3l k)) (wv R (F3r k)) (wv Pn fp)));
      [lia| |].
    - apply set3_wv_ext; try done; intros q Hq; unfold F3l, F3r, fl; pwf.
    - intros k m Hk ->. cbv zeta. rewrite nd_set3_l by done.
      change (count (wv L (F3l k))) with (count L). rewrite HLc.
      rewrite value_swap_lr by (try done; lia).
      rewrite nd_set3_l by done.
      change (count (wv L _)) with (count L). rewrite HLc.
      unfold value_destroy. rewrite set_slot_l by (try done; lia).
      apply set3_wv_ext; try done; intros q Hq; unfold F3l, F3r; pwf. }
  apply set3_wv_ext; intros q Hq.
  - unfold F3l. rewrite zget_take. pw.
  - unfold F3r, fr, F2. rewrite zget_app, zget_cons, zget_drop by lia.
    rewrite zlen_drop by lia. fold c. rewrite Hd.
    replace (Z.max 0 (c - (c - n + 1))) with (n - 1) by lia. pwf.
  - unfold fp. rewrite Hx, zget_insert by lia. pwf.
Qed.

End RebalanceValues2.


(** * The tree a store represents *)

Section Abstract.
Context `{P : Params}.

(** A B-tree whose nodes carry their addresses.  A leaf also records its
    capacity (the small root has less than [kNodeValues]). *)
Inductive atree :=
  | ALeaf (a : nat) (mc : Z) (vs : list value_type)
  | ANode (a : nat) (vs : list value_type) (cs : list atree).

Definition addr (t : atree) : nat :=
  match t with ALeaf a _ _ => a | ANode a _ _ => a end.
Definition avals (t : atree) : list value_type :=
  match t with ALeaf _ _ vs => vs | ANode _ vs _ => vs end.
Definition akids (t : atree) : list atree :=
  match t with ALeaf _ _ _ => [] | ANode _ _ cs => cs end.
Definition is_leaf (t : atree) : bool :=
  match t with ALeaf _ _ _ => true | ANode _ _ _ => false end.
Definition acap (t : atree) : Z :=
  match t with ALeaf _ mc _ => mc | ANode _ _ _ => kNodeValues end.

(** [interleave [l0; l1; ...; ln] [v0; ...]] is [l0 ++ v0 :: l1 ++ v1 :: ... ++ ln]. *)
Fixpoint interleave (ls : list (list value_type)) (vs : list value_type)
    : list value_type :=
  match ls with
  | [] => []
  | l :: ls' =>
      l ++ match vs with
           | [] => concat ls'
           | v :: vs' => v :: interleave ls' vs'
           end
  end.

(** The values in order, and every address of the tree. *)
Fixpoint inorder (t : atree) : list value_type :=
  match t with
  | ALeaf _ _ vs => vs
  | ANode _ vs cs => interleave (map inorder cs) vs
  end.
Fixpoint addrs (t : atree) : list nat :=
  match t with
  | ALeaf a _ _ => [a]
  | ANode a _ cs => a :: concat (map addrs cs)
  end.
Fixpoint height (t : atree) : nat :=
  match t with
  | ALeaf _ _ _ => O
  | ANode _ _ cs => S (match cs with c :: _ => height c | [] => O end)
  end.
Fixpoint leftmost (t : atree) : nat :=
  match t with
  | ALeaf a _ _ => a
  | ANode a _ cs => match cs with c :: _ => leftmost c | [] => a end
  end.
Fixpoint rightmost_leaf (t : atree) : nat :=
  match t with
  | ALeaf a _ _ => a
  | ANode a _ cs =>
      (fix go (cs : list atree) (d : nat) : nat :=
         match cs with
         | [] => d
         | c :: cs' => go cs' (rightmost_leaf c)
         end) cs a
  end.

(** The cell of the top node of [t], as child number [pos] of [par]; [rm]
    and [sz] are the root fields. *)
Definition kids_fn (cs : list atree) (g : Z -> nat) : Prop :=
  forall q c, zget cs q = Some c -> g q = addr c.
Definition top_cell (par : nat) (pos : Z) (rm : nat) (sz : Z) (t : atree)
    (n : btree_node) : Prop :=
  match t with
  | ALeaf _ mc vs => n = leaf_cell par pos mc vs
  | ANode _ vs cs => exists g, n = internal_cell par pos vs g rm sz /\ kids_fn cs g
  end.
Definition has_top (m : memory) (par : nat) (pos : Z) (rm : nat) (sz : Z)
    (t : atree) : Prop :=
  exists n, cells m !! addr t = Some n /\ top_cell par pos rm sz t n.

(** [rep_at m par pos rm sz t]: every node of [t] has its canonical cell
    in the store [m]. *)
Fixpoint rep_at (m : memory) (par : nat) (pos : Z) (rm : nat) (sz : Z)
    (t : atree) {struct t} : Prop :=
  has_top m par pos rm sz t /\
  match t with
  | ALeaf _ _ _ => True
  | ANode a _ cs =>
      (fix go (j : Z) (cs : list atree) : Prop :=
         match cs with
         | [] => True
         | c :: cs' => rep_at m a j 0%nat 0 c /\ go (j + 1) cs'
         end) 0 cs
  end.

(** Shape: every node of [t] other than its top has between 1 and
    [kNodeValues] values, the top at least [minc]; an internal node with
    [n] values has [n + 1] children, all of height [h - 1]; leaves below
    the root have the full capacity. *)
Fixpoint wf (minc : Z) (h : nat) (t : atree) {struct t} : Prop :=
  match t with
  | ALeaf _ mc vs => h = O /\ mc = kNodeValues /\ minc <= zlen vs <= kNodeValues
  | ANode _ vs cs =>
      minc <= zlen vs <= kNodeValues /\ zlen cs = zlen vs + 1 /\
      match h with
      | O => False
      | S h' =>
          (fix go (cs : list atree) : Prop :=
             match cs with
             | [] => True
             | c :: cs' => wf 1 h' c /\ go cs'
             end) cs
      end
  end.

(** The root: a leaf of any capacity from 1 to [kNodeValues], or an
    internal node. *)
Definition wf_root (t : atree) : Prop :=
  match t with
  | ALeaf _ mc vs => 1 <= zlen vs <= mc /\ mc <= kNodeValues
  | ANode _ _ _ => exists h, wf 1 h t
  end.

(** ** Unfolding lemmas *)

Lemma rep_at_top m par pos rm sz t :
  rep_at m par pos rm sz t -> has_top m par pos rm sz t.
Proof. destruct t; simpl; tauto. Qed.

Lemma rep_go_iff m a cs : forall j,
  (fix go (j : Z) (cs : list atree) : Prop :=
     match cs with
     | [] => True
     | c :: cs' => rep_at m a j 0%nat 0 c /\ go (j + 1) cs'
     end) j cs <->
  (forall q c, zget cs q = Some c -> rep_at m a (j + q) 0%nat 0 c).
Proof.
  induction cs as [|c cs IH]; intros j.
  - split; [|done]. intros _ q c'. by rewrite zget_nil.
  - rewrite IH. split.
    + intros [Hc Hcs] q c'. rewrite zget_cons.
      destruct (Z.eqb_spec q 0) as [->|Hq].
      * intros [= <-]. by rewrite Z.add_0_r.
      * intros Hq'. specialize (Hcs _ _ Hq').
        by replace (j + 1 + (q - 1)) with (j + q) in Hcs by lia.
    + intros H. split.
      * specialize (H 0 c). rewrite Z.add_0_r in H. apply H. by rewrite zget_cons.
      * intros q c' Hq. apply zget_Some_lt in Hq as Hlt.
        replace (j + 1 + q) with (j + (q + 1)) by lia. apply H.
        rewrite zget_cons. destruct (Z.eqb_spec (q + 1) 0); [lia|].
        by replace (q + 1 - 1) with q by lia.
Qed.

Lemma rep_at_leaf m par pos rm sz a mc vs :
  rep_at m par pos rm sz (ALeaf a mc vs) <->
  cells m !! a = Some (leaf_cell par pos mc vs).
Proof.
  cbn [rep_at]. unfold has_top; simpl. split.
  - by intros [(n & Hn & ->) _].
  - intros H. split; [|done]. eauto.
Qed.

Lemma rep_at_node m par pos rm sz a vs cs :
  rep_at m par pos rm sz (ANode a vs cs) <->
  (exists g, cells m !! a = Some (internal_cell par pos vs g rm sz) /\ kids_fn cs g) /\
  (forall q c, zget cs q = Some c -> rep_at m a q 0%nat 0 c).
Proof.
  cbn [rep_at]. rewrite rep_go_iff. unfold has_top; simpl.
  split; intros [H1 H2]; split.
  - destruct H1 as (n & Hn & g & -> & Hg). eauto.
  - intros q c Hq. specialize (H2 q c Hq). by rewrite Z.add_0_l in H2.
  - destruct H1 as (g & Hn & Hg). eauto.
  - intros q c Hq. rewrite Z.add_0_l. by apply H2.
Qed.

Lemma wf_go_iff h cs :
  (fix go (cs : list atree) : Prop :=
     match cs with
     | [] => True
     | c :: cs' => wf 1 h c /\ go cs'
     end) cs <-> Forall (wf 1 h) cs.
Proof.
  induction cs as [|c cs IH]; [by split; [constructor|]|].
  rewrite IH, Forall_cons. done.
Qed.

Lemma wf_leaf minc h a mc vs :
  wf minc h (ALeaf a mc vs) <->
  h = O /\ mc = kNodeValues /\ minc <= zlen vs <= kNodeValues.
Proof. done. Qed.

Lemma wf_node minc h a vs cs :
  wf minc h (ANode a vs cs) <->
  minc <= zlen vs <= kNodeValues /\ zlen cs = zlen vs + 1 /\
  exists h', h = S h' /\ Forall (wf 1 h') cs.
Proof.
  cbn [wf]. destruct h as [|h'].
  - split; [tauto|]. intros (_ & _ & h' & [=] & _).
  - rewrite wf_go_iff. split.
    + intros (H1 & H2 & H3). eauto 6.
    + intros (H1 & H2 & h'' & [= <-] & H3). done.
Qed.

(** Induction on trees with the hypothesis for all children. *)
Lemma atree_ind' (Q : atree -> Prop) :
  (forall a mc vs, Q (ALeaf a mc vs)) ->
  (forall a vs cs, Forall Q cs -> Q (ANode a vs cs)) ->
  forall t, Q t.
Proof.
  intros Hleaf Hnode. fix IH 1. intros [a mc vs|a vs cs]; [apply Hleaf|].
  apply Hnode. induction cs as [|c cs IHcs]; constructor; [apply IH|apply IHcs].
Qed.

Lemma elem_of_concat {A} (x : A) (ls : list (list A)) :
  x ∈ concat ls <-> exists l, x ∈ l /\ l ∈ ls.
Proof.
  induction ls as [|l ls IH]; simpl.
  - split; [by intros ?%elem_of_nil|]. by intros (l & _ & ?%elem_of_nil).
  - rewrite elem_of_app, IH. split.
    + intros [Hx|(l' & Hx & Hl')].
      * exists l. split; [done|]. apply list_elem_of_here.
      * exists l'. split; [done|]. by apply list_elem_of_further.
    + intros (l' & Hx & [->|Hl']%elem_of_cons); [by left|]. right. eauto.
Qed.

Lemma addrs_node a vs cs : addrs (ANode a vs cs) = a :: concat (addrs <$> cs).
Proof. done. Qed.

Lemma addr_in_addrs t : addr t ∈ addrs t.
Proof. destruct t; simpl; apply list_elem_of_here. Qed.

Lemma addrs_child a vs cs q c y :
  zget cs q = Some c -> y ∈ addrs c -> y ∈ addrs (ANode a vs cs).
Proof.
  intros Hq Hy. rewrite addrs_node. apply list_elem_of_further.
  apply elem_of_concat. exists (addrs c). split; [done|].
  apply list_elem_of_fmap. exists c. split; [done|].
  unfold zget in Hq. destruct (q <? 0); [done|]. by eapply list_elem_of_lookup_2.
Qed.

(** ** Frame: cells outside a tree do not matter *)

Lemma rep_at_frame m m' t : forall par pos rm sz,
  rep_at m par pos rm sz t ->
  (forall y, y ∈ addrs t -> cells m' !! y = cells m !! y) ->
  rep_at m' par pos rm sz t.
Proof.
  induction t as [a mc vs|a vs cs IH] using atree_ind'; intros par pos rm sz Hrep Hfr.
  - apply rep_at_leaf. apply rep_at_leaf in Hrep. rewrite Hfr; [done|].
    simpl. apply list_elem_of_here.
  - apply rep_at_node. apply rep_at_node in Hrep as [(g & Htop & Hg) Hkids]. split.
    + exists g. rewrite Hfr; [done|]. apply (addr_in_addrs (ANode a vs cs)).
    + intros q c Hq. rewrite Forall_forall in IH.
      apply IH; [by eapply zget_elem_of|by apply Hkids|].
      intros y Hy. apply Hfr. by eapply addrs_child.
Qed.

(** The same tree hung at another place: only its top cell differs. *)
Lemma rep_at_move m m' t par pos rm sz par' pos' rm' sz' :
  rep_at m par pos rm sz t ->
  has_top m' par' pos' rm' sz' t ->
  (forall y, y ∈ addrs t -> y <> addr t -> cells m' !! y = cells m !! y) ->
  NoDup (addrs t) ->
  rep_at m' par' pos' rm' sz' t.
Proof.
  destruct t as [a mc vs|a vs cs]; intros Hrep Htop Hfr Hnd.
  - apply rep_at_leaf. by destruct Htop as (n & Hn & ->).
  - apply rep_at_node. apply rep_at_node in Hrep as [_ Hkids].
    split; [destruct Htop as (n & Hn & g & -> & Hg); eauto|].
    intros q c Hq. eapply rep_at_frame; [by apply Hkids|].
    intros y Hy. apply Hfr; [by eapply addrs_child|].
    rewrite addrs_node in Hnd. apply NoDup_cons in Hnd as [Hnotin _].
    intros ->. apply Hnotin. simpl.
    apply elem_of_concat. exists (addrs c). split; [done|].
    apply list_elem_of_fmap. exists c. split; [done|]. by eapply zget_elem_of.
Qed.

End Abstract.


(** * Children moving between nodes *)

Section ZListMore.
Context {A : Type}.
Implicit Types l : list A.

Lemma ztake_snoc l k y :
  0 <= k -> zget l k = Some y -> ztake (k + 1) l = ztake k l ++ [y].
Proof.
  intros Hk Hy. unfold ztake, zget in *. destruct (Z.ltb_spec k 0); [lia|].
  replace (Z.to_nat (k + 1)) with (S (Z.to_nat k)) by lia.
  by apply take_S_r.
Qed.

Lemma zdrop_cons l k y :
  0 <= k -> zget l k = Some y -> zdrop k l = y :: zdrop (k + 1) l.
Proof.
  intros Hk Hy. unfold zdrop, zget in *. destruct (Z.ltb_spec k 0); [lia|].
  replace (Z.to_nat (k + 1)) with (S (Z.to_nat k)) by lia.
  by apply drop_S.
Qed.

Lemma ztake_0 l : ztake 0 l = [].
Proof. done. Qed.

Lemma ztake_all l n : zlen l <= n -> ztake n l = l.
Proof. intros. unfold ztake, zlen in *. apply take_ge. lia. Qed.

Lemma zdrop_all l n : zlen l <= n -> zdrop n l = [].
Proof. intros. unfold zdrop, zlen in *. apply drop_ge. lia. Qed.

Lemma zdrop_0 l : zdrop 0 l = l.
Proof. done. Qed.

Lemma ztake_zdrop l n : ztake n l ++ zdrop n l = l.
Proof. apply take_drop. Qed.

Lemma elem_of_ztake l n x : x ∈ ztake n l -> x ∈ l.
Proof. unfold ztake. rewrite <- (take_drop (Z.to_nat n) l) at 2. set_solver. Qed.

Lemma elem_of_zdrop l n x : x ∈ zdrop n l -> x ∈ l.
Proof. unfold zdrop. rewrite <- (take_drop (Z.to_nat n) l) at 2. set_solver. Qed.

Lemma NoDup_ztake l n : NoDup l -> NoDup (ztake n l).
Proof.
  unfold ztake. rewrite <- (take_drop (Z.to_nat n) l) at 1.
  by intros [? _]%NoDup_app.
Qed.

Lemma NoDup_zdrop l n : NoDup l -> NoDup (zdrop n l).
Proof.
  unfold zdrop. rewrite <- (take_drop (Z.to_nat n) l) at 1.
  by intros (_ & _ & ?)%NoDup_app.
Qed.

Lemma NoDup_ztake_zdrop l n x : NoDup l -> x ∈ ztake n l -> x ∉ zdrop n l.
Proof.
  unfold ztake, zdrop. rewrite <- (take_drop (Z.to_nat n) l) at 1.
  intros (_ & H & _)%NoDup_app. apply H.
Qed.

Lemma NoDup_zget_inj l i j x :
  NoDup l -> zget l i = Some x -> zget l j = Some x -> i = j.
Proof.
  intros Hnd Hi Hj. apply zget_Some_lt in Hi as Hi'. apply zget_Some_lt in Hj as Hj'.
  unfold zget in *. destruct (Z.ltb_spec i 0), (Z.ltb_spec j 0); try lia.
  pose proof (NoDup_lookup _ _ _ _ Hnd Hi Hj). lia.
Qed.

End ZListMore.

Section Kids.
Context `{P : Params}.

(** The kids [ks] receive [F ofs], [F (ofs + 1)], ... in turn. *)
Fixpoint upd_kids (F : Z -> btree_node -> btree_node) (ofs : Z) (ks : list nat)
    (m : memory) : memory :=
  match ks with
  | [] => m
  | k :: ks' => upd_kids F (ofs + 1) ks' (upd k (F ofs) m)
  end.

(** What [set_child] does to the child. *)
Definition reparent (par : nat) (j : Z) (n : btree_node) : btree_node :=
  with_position j (with_parent par n).

Lemma upd_upd a f g m : upd a f (upd a g m) = upd a (fun n => f (g n)) m.
Proof. by rewrite !upd_set_cell, nd_set_cell_eq, set_cell_set_cell. Qed.

Lemma upd_comm a b f g m : a <> b -> upd a f (upd b g m) = upd b g (upd a f m).
Proof.
  intros. rewrite !upd_set_cell, !nd_set_cell_ne by done. by apply set_cell_comm.
Qed.

Lemma next_addr_upd_kids F ks : forall ofs m,
  next_addr (upd_kids F ofs ks m) = next_addr m.
Proof. induction ks as [|k ks IH]; intros; simpl; [done|]. by rewrite IH. Qed.

Lemma upd_kids_snoc F ks y : forall ofs m,
  upd_kids F ofs (ks ++ [y]) m = upd y (F (ofs + zlen ks)) (upd_kids F ofs ks m).
Proof.
  induction ks as [|k ks IH]; intros ofs m; simpl.
  - by rewrite Z.add_0_r.
  - rewrite IH, zlen_cons. do 2 f_equal. lia.
Qed.

Lemma upd_kids_comm F ks y f : forall ofs m,
  y ∉ ks -> upd y f (upd_kids F ofs ks m) = upd_kids F ofs ks (upd y f m).
Proof.
  induction ks as [|k ks IH]; intros ofs m Hy; simpl; [done|].
  apply not_elem_of_cons in Hy as [Hyk Hy]. rewrite IH by done.
  by rewrite upd_comm.
Qed.

Lemma lookup_upd_kids_notin F ks y : forall ofs m,
  y ∉ ks -> cells (upd_kids F ofs ks m) !! y = cells m !! y.
Proof.
  induction ks as [|k ks IH]; intros ofs m Hy; simpl; [done|].
  apply not_elem_of_cons in Hy as [Hyk Hy]. rewrite IH by done.
  rewrite upd_set_cell. by apply lookup_set_cell_ne.
Qed.

Lemma lookup_upd_kids_in F ks : forall ofs m j y,
  NoDup ks -> zget ks j = Some y ->
  cells (upd_kids F ofs ks m) !! y = Some (F (ofs + j) (nd m y)).
Proof.
  induction ks as [|k ks IH]; intros ofs m j y Hnd Hj; simpl.
  - by rewrite zget_nil in Hj.
  - apply NoDup_cons in Hnd as [Hk Hnd]. rewrite zget_cons in Hj.
    destruct (Z.eqb_spec j 0) as [->|Hj0].
    + injection Hj as ->. rewrite lookup_upd_kids_notin by done.
      rewrite upd_set_cell, lookup_set_cell_eq, Z.add_0_r. done.
    + rewrite (IH _ _ (j - 1) y) by done.
      assert (y <> k) by (intros ->; apply Hk; by eapply zget_elem_of).
      rewrite upd_set_cell, nd_set_cell_ne by done. do 2 f_equal. lia.
Qed.

End Kids.

Section ThreeCellsKids.
Context `{P : Params}.
Variables l r p : nat.
Hypothesis Hlr : l <> r.
Hypothesis Hlp : l <> p.
Hypothesis Hrp : r <> p.

Lemma upd_other_set3 y f M L R Pn :
  y <> l -> y <> r -> y <> p ->
  upd y f (set3 l r p M L R Pn) = set3 l r p (upd y f M) L R Pn.
Proof using Type.
  intros. unfold set3. rewrite !upd_set_cell, !nd_set_cell_ne by done.
  rewrite (set_cell_comm y p), (set_cell_comm y r), (set_cell_comm y l) by done.
  done.
Qed.

Lemma assign_child_l i c M L g R Pn :
  0 <= i ->
  assign_child l i c (set3 l r p M (wc L g) R Pn) =
    set3 l r p M (wc L (fupd g i c)) R Pn.
Proof using All.
  intros. unfold assign_child. rewrite upd_set_cell, nd_set3_l, set_l_set3 by done.
  by rewrite set_child_wc.
Qed.
Lemma assign_child_r i c M L R h Pn :
  0 <= i ->
  assign_child r i c (set3 l r p M L (wc R h) Pn) =
    set3 l r p M L (wc R (fupd h i c)) Pn.
Proof using All.
  intros. unfold assign_child. rewrite upd_set_cell, nd_set3_r, set_r_set3 by done.
  by rewrite set_child_wc.
Qed.
Lemma assign_child_p i c M L R Pn h :
  0 <= i ->
  assign_child p i c (set3 l r p M L R (wc Pn h)) =
    set3 l r p M L R (wc Pn (fupd h i c)).
Proof using All.
  intros. unfold assign_child. rewrite upd_set_cell, nd_set3_p, set_p_set3 by done.
  by rewrite set_child_wc.
Qed.

Lemma set_child_l i y M L g R Pn :
  0 <= i -> y <> l -> y <> r -> y <> p ->
  set_child l i y (set3 l r p M (wc L g) R Pn) =
    set3 l r p (upd y (reparent l i) M) (wc L (fupd g i y)) R Pn.
Proof using All.
  intros. unfold set_child. rewrite assign_child_l by done.
  rewrite !upd_other_set3 by done. by rewrite upd_upd.
Qed.
Lemma set_child_r i y M L R h Pn :
  0 <= i -> y <> l -> y <> r -> y <> p ->
  set_child r i y (set3 l r p M L (wc R h) Pn) =
    set3 l r p (upd y (reparent r i) M) L (wc R (fupd h i y)) Pn.
Proof using All.
  intros. unfold set_child. rewrite assign_child_r by done.
  rewrite !upd_other_set3 by done. by rewrite upd_upd.
Qed.

Lemma set3_wc_ext M L g g' R h h' Pn :
  (forall q, 0 <= q < zlen (children L) -> g q = g' q) ->
  (forall q, 0 <= q < zlen (children R) -> h q = h' q) ->
  set3 l r p M (wc L g) (wc R h) Pn = set3 l r p M (wc L g') (wc R h') Pn.
Proof using Type. intros H1 H2. by rewrite (wc_ext L g g'), (wc_ext R h h'). Qed.

End ThreeCellsKids.

Section ChildrenPhases.
Context `{P : Params}.

Definition rebalance_right_to_left_children (a src : nat) (to_move : Z) (m : memory)
    : memory :=
  if negb (leaf (nd m a)) then
    let m := for_up 0 to_move
               (fun i m => set_child a (1 + count (nd m a) + i)
                             (child (nd m src) i) m) m in
    for_up 0 (count (nd m src) - to_move + 1)
      (fun i m =>
         let m := set_child src i (child (nd m src) (i + to_move)) m in
         assign_child src (i + to_move) 0%nat m) m
  else m.

Definition rebalance_left_to_right_children (a dest : nat) (to_move : Z) (m : memory)
    : memory :=
  if negb (leaf (nd m a)) then
    let m := for_down (count (nd m dest)) (-1)
               (fun i m =>
                  let m := set_child dest (i + to_move) (child (nd m dest) i) m in
                  assign_child dest i 0%nat m) m in
    for_up 1 (to_move + 1)
      (fun i m =>
         let m := set_child dest (i - 1)
                    (child (nd m a) (count (nd m a) - to_move + i)) m in
         assign_child a (count (nd m a) - to_move + i) 0%nat m) m
  else m.

Lemma rebalance_right_to_left_phases a src n m :
  rebalance_right_to_left a src n m =
    let m := rebalance_right_to_left_children a src n
               (rebalance_right_to_left_values a src n m) in
    let m := set_count a (count (nd m a) + n) m in
    set_count src (count (nd m src) - n) m.
Proof. done. Qed.

Lemma rebalance_left_to_right_phases a dest n m :
  rebalance_left_to_right a dest n m =
    let m := rebalance_left_to_right_children a dest n
               (rebalance_left_to_right_values a dest n m) in
    let m := set_count a (count (nd m a) - n) m in
    set_count dest (count (nd m dest) + n) m.
Proof. done. Qed.

Variables l r p : nat.
Hypothesis Hlr : l <> r.
Hypothesis Hlp : l <> p.
Hypothesis Hrp : r <> p.
Variables L R Pn : btree_node.
Variables lks rks : list nat.
Variables g h : Z -> nat.
Hypothesis HLleaf : leaf L = false.
Hypothesis HLlen : zlen (children L) = kNodeValues + 1.
Hypothesis HRlen : zlen (children R) = kNodeValues + 1.
Hypothesis Hg : forall q y, zget lks q = Some y -> g q = y.
Hypothesis Hh : forall q y, zget rks q = Some y -> h q = y.
Hypothesis Hlks : zlen lks = count L + 1.
Hypothesis Hrks : zlen rks = count R + 1.
Hypothesis Hl_lks : l ∉ lks.
Hypothesis Hr_lks : r ∉ lks.
Hypothesis Hp_lks : p ∉ lks.
Hypothesis Hl_rks : l ∉ rks.
Hypothesis Hr_rks : r ∉ rks.
Hypothesis Hp_rks : p ∉ rks.
Hypothesis Hnd_l : NoDup lks.
Hypothesis Hnd_r : NoDup rks.

Local Abbreviation S3 := (set3 l r p).

Lemma rks_other q y : zget rks q = Some y -> y <> l /\ y <> r /\ y <> p.
Proof using Hl_rks Hr_rks Hp_rks.
  intros Hq%zget_elem_of. repeat split; intros ->; done.
Qed.
Lemma lks_other q y : zget lks q = Some y -> y <> l /\ y <> r /\ y <> p.
Proof using Hl_lks Hr_lks Hp_lks.
  intros Hq%zget_elem_of. repeat split; intros ->; done.
Qed.

(** Children of [rebalance_right_to_left]: the first [n] children of the
    right node are appended to the left node, the others move to the
    front of the right node. *)
Lemma rebalance_right_to_left_children_spec M n :
  1 <= n <= count R -> count L + n <= kNodeValues -> 0 <= count L ->
  count R <= kNodeValues ->
  rebalance_right_to_left_children l r n (S3 M (wc L g) (wc R h) Pn) =
    S3 (upd_kids (reparent r) 0 (zdrop n rks)
          (upd_kids (reparent l) (1 + count L) (ztake n rks) M))
       (wc L (fun q => if (1 + count L <=? q) && (q <? 1 + count L + n)
                       then h (q - 1 - count L) else g q))
       (wc R (fun q => if q <=? count R - n then h (q + n)
                       else if (n <=? q) && (q <=? count R) then 0%nat else h q))
       Pn.
Proof using All.
  intros Hn Hroom Hc HcR. unfold rebalance_right_to_left_children.
  rewrite nd_set3_l by done. rewrite leaf_wc, HLleaf. cbn [negb].
  set (c := count L) in *. set (cr := count R) in *.
  pose (G := fun k q => if (1 + c <=? q) && (q <? 1 + c + k)
                        then h (q - 1 - c) else g q).
  loop3_is (S3 (upd_kids (reparent l) (1 + c) (ztake n rks) M)
               (wc L (G n)) (wc R h) Pn).
  { apply (for_up_ind (fun k m => m = S3 (upd_kids (reparent l) (1 + c) (ztake k rks) M)
                                         (wc L (G k)) (wc R h) Pn)); [lia| |].
    - apply set3_wc_ext; try done. intros q Hq. unfold G. pw.
    - intros k m Hk ->. rewrite nd_set3_l, nd_set3_r by done.
      rewrite count_wc. fold c. rewrite child_wc by lia.
      destruct (zget_is_Some rks k) as [y Hy]; [lia|].
      pose proof (Hh _ _ Hy) as Hhk.
      rewrite Hhk. destruct (rks_other _ _ Hy) as (? & ? & ?).
      rewrite set_child_l by (try done; lia).
      rewrite (ztake_snoc rks k y), upd_kids_snoc by (try done; lia).
      rewrite zlen_take by lia.
      apply set3_wc_ext; try done. intros q Hq. unfold G.
      pwf; rewrite <- Hhk; f_equal; lia. }
  rewrite nd_set3_r by done. rewrite count_wc. fold cr.
  pose (H := fun k q => if q <? k then h (q + n)
                        else if (n <=? q) && (q <? n + k) then 0%nat else h q).
  set (M1 := upd_kids (reparent l) (1 + c) (ztake n rks) M).
  loop3_is (S3 (upd_kids (reparent r) 0 (ztake (cr - n + 1) (zdrop n rks)) M1)
               (wc L (G n)) (wc R (H (cr - n + 1))) Pn).
  { apply (for_up_ind (fun k m => m = S3 (upd_kids (reparent r) 0
                                            (ztake k (zdrop n rks)) M1)
                                         (wc L (G n)) (wc R (H k)) Pn)); [lia| |].
    - apply set3_wc_ext; try done. intros q Hq. unfold H. pw.
    - intros k m Hk ->. cbv zeta. rewrite nd_set3_r by done.
      rewrite child_wc by lia.
      destruct (zget_is_Some rks (k + n)) as [y Hy]; [lia|].
      pose proof (Hh _ _ Hy) as Hhk.
      assert (H k (k + n) = y) as ->.
      { unfold H. rewrite <- Hhk. pw. }
      destruct (rks_other _ _ Hy) as (? & ? & ?).
      rewrite set_child_r by (try done; lia).
      rewrite assign_child_r by (try done; lia).
      assert (zget (zdrop n rks) k = Some y) as Hy'.
      { rewrite zget_drop by lia. destruct (Z.ltb_spec k 0); [lia|done]. }
      rewrite (ztake_snoc _ k y), upd_kids_snoc by (try done; lia).
      rewrite zlen_take by (rewrite zlen_drop by lia; lia).
      rewrite Z.add_0_l.
      apply set3_wc_ext; try done. intros q Hq. unfold H.
      pwf; rewrite <- Hhk; f_equal; lia. }
  rewrite (ztake_all (zdrop n rks)) by (rewrite zlen_drop by lia; lia).
  apply set3_wc_ext; try done; intros q Hq; unfold G, H; pw.
Qed.

(** Children of [rebalance_left_to_right]: the last [n] children of the
    left node are put in front of the children of the right node. *)
Lemma rebalance_left_to_right_children_spec M n :
  1 <= n <= count L -> count R + n <= kNodeValues -> 0 <= count R ->
  count L <= kNodeValues ->
  rebalance_left_to_right_children l r n (S3 M (wc L g) (wc R h) Pn) =
    S3 (upd_kids (reparent r) 0 (zdrop (count L - n + 1) lks)
          (upd_kids (reparent r) n rks M))
       (wc L (fun q => if (count L - n + 1 <=? q) && (q <=? count L)
                       then 0%nat else g q))
       (wc R (fun q => if q <? n then g (count L - n + 1 + q)
                       else if q <=? count R + n then h (q - n) else h q))
       Pn.
Proof using All.
  intros Hn Hroom Hc HcL. unfold rebalance_left_to_right_children.
  rewrite nd_set3_l by done. rewrite leaf_wc, HLleaf. cbn [negb].
  rewrite nd_set3_r by done. rewrite count_wc.
  set (c := count L) in *. set (cr := count R) in *.
  pose (H := fun k q => if (k + n <? q) && (q <=? cr + n) then h (q - n)
                        else if (k <? q) && (q <=? cr) then 0%nat else h q).
  loop3_is (S3 (upd_kids (reparent r) (-1 + 1 + n) (zdrop (-1 + 1) rks) M)
               (wc L g) (wc R (H (-1))) Pn).
  { apply (for_down_ind
             (fun k m => m = S3 (upd_kids (reparent r) (k + 1 + n) (zdrop (k + 1) rks) M)
                                (wc L g) (wc R (H k)) Pn)); [lia| |].
    - rewrite zdrop_all by lia. apply set3_wc_ext; try done.
      intros q Hq. unfold H. pw.
    - intros k m Hk ->. cbv zeta. rewrite nd_set3_r by done.
      rewrite child_wc by lia.
      destruct (zget_is_Some rks k) as [y Hy]; [lia|].
      pose proof (Hh _ _ Hy) as Hhk.
      assert (H k k = y) as ->.
      { unfold H. rewrite <- Hhk. pw. }
      destruct (rks_other _ _ Hy) as (? & ? & ?).
      rewrite set_child_r by (try done; lia).
      rewrite assign_child_r by (try done; lia).
      replace (k - 1 + 1) with k by lia.
      rewrite (zdrop_cons rks k y) by (try done; lia). cbn [upd_kids].
      rewrite <- upd_kids_comm.
      2:{ intros Hin. pose proof (NoDup_zdrop rks k Hnd_r) as Hnd'.
          rewrite (zdrop_cons rks k y) in Hnd' by (try done; lia).
          by apply NoDup_cons in Hnd' as [? _]. }
      replace (k - 1 + 1 + n) with (k + n) by lia.
      replace (k + n + 1) with (k + 1 + n) by lia.
      apply set3_wc_ext; try done. intros q Hq. unfold H.
      pwf; rewrite <- Hhk; f_equal; lia. }
  replace (-1 + 1 + n) with n by lia. replace (-1 + 1) with 0 by lia.
  rewrite zdrop_0.
  set (M1 := upd_kids (reparent r) n rks M).
  pose (G := fun k q => if (c - n + 1 <=? q) && (q <? c - n + k) then 0%nat else g q).
  pose (H2 := fun k q => if q <? k - 1 then g (c - n + 1 + q) else H (-1) q).
  loop3_is (S3 (upd_kids (reparent r) 0 (ztake (n + 1 - 1) (zdrop (c - n + 1) lks)) M1)
               (wc L (G (n + 1))) (wc R (H2 (n + 1))) Pn).
  { apply (for_up_ind
             (fun k m => m = S3 (upd_kids (reparent r) 0
                                   (ztake (k - 1) (zdrop (c - n + 1) lks)) M1)
                                (wc L (G k)) (wc R (H2 k)) Pn)); [lia| |].
    - apply set3_wc_ext; try done; intros q Hq; unfold G, H2; pw.
    - intros k m Hk ->. cbv zeta. rewrite !nd_set3_l by done.
      rewrite count_wc. fold c. rewrite child_wc by lia.
      destruct (zget_is_Some lks (c - n + k)) as [y Hy]; [lia|].
      pose proof (Hg _ _ Hy) as Hgk.
      assert (G k (c - n + k) = y) as ->.
      { unfold G. rewrite <- Hgk. pw. }
      destruct (lks_other _ _ Hy) as (? & ? & ?).
      rewrite set_child_r by (try done; lia).
      rewrite nd_set3_l by done. rewrite count_wc. fold c.
      rewrite assign_child_l by (try done; lia).
      assert (zget (zdrop (c - n + 1) lks) (k - 1) = Some y) as Hy'.
      { rewrite zget_drop by lia. destruct (Z.ltb_spec (k - 1) 0); [lia|].
        rewrite <- Hy. f_equal. lia. }
      replace (k + 1 - 1) with (k - 1 + 1) by lia.
      rewrite (ztake_snoc _ (k - 1) y), upd_kids_snoc by (try done; lia).
      rewrite zlen_take by (rewrite zlen_drop by lia; lia).
      rewrite Z.add_0_l.
      apply set3_wc_ext; try done; intros q Hq; unfold G, H2;
        pwf; rewrite <- Hgk; f_equal; lia. }
  rewrite (ztake_all (zdrop (c - n + 1) lks)) by (rewrite zlen_drop by lia; lia).
  apply set3_wc_ext; try done; intros q Hq; unfold G, H2, H; pw.
Qed.

End ChildrenPhases.


(** * Trees and stores: moving subtrees around *)

Section RepHelpers.
Context `{P : Params}.
Hypothesis Hstatic : static_assert_field.

(** The node [t] with other values and children. *)
Definition set_content (t : atree) (vs : list value_type) (cs : list atree) : atree :=
  match t with
  | ALeaf a mc _ => ALeaf a mc vs
  | ANode a _ _ => ANode a vs cs
  end.

Lemma addr_set_content t vs cs : addr (set_content t vs cs) = addr t.
Proof. by destruct t. Qed.
Lemma avals_set_content t vs cs : avals (set_content t vs cs) = vs.
Proof. by destruct t. Qed.
Lemma is_leaf_set_content t vs cs : is_leaf (set_content t vs cs) = is_leaf t.
Proof. by destruct t. Qed.

Lemma zget_mid2 {A} (Ls Rs : list A) x y q :
  zget (Ls ++ x :: y :: Rs) q =
    if q <? zlen Ls then zget Ls q
    else if q =? zlen Ls then Some x
    else if q =? zlen Ls + 1 then Some y
    else zget Rs (q - zlen Ls - 2).
Proof.
  rewrite zget_app, !zget_cons. pose proof (zlen_nonneg Ls).
  ztests. f_equal. lia.
Qed.

Lemma zget_mid1 {A} (Ls Rs : list A) x q :
  zget (Ls ++ x :: Rs) q =
    if q <? zlen Ls then zget Ls q
    else if q =? zlen Ls then Some x
    else zget Rs (q - zlen Ls - 1).
Proof.
  rewrite zget_app, !zget_cons. pose proof (zlen_nonneg Ls).
  ztests.
Qed.

(** ** Distinct addresses *)

Lemma NoDup_concat_inv {A} (ls : list (list A)) :
  NoDup (concat ls) ->
  (forall q l, zget ls q = Some l -> NoDup l) /\
  (forall q1 q2 l1 l2 y, zget ls q1 = Some l1 -> zget ls q2 = Some l2 ->
     y ∈ l1 -> y ∈ l2 -> q1 = q2).
Proof.
  induction ls as [|l ls IH]; simpl; intros Hnd.
  - split; intros *; by rewrite zget_nil.
  - apply NoDup_app in Hnd as (Hl & Hdisj & Hls). destruct (IH Hls) as [IH1 IH2].
    split.
    + intros q l'. rewrite zget_cons. destruct (Z.eqb_spec q 0); [by intros [= <-]|].
      apply IH1.
    + intros q1 q2 l1 l2 y. rewrite !zget_cons.
      destruct (Z.eqb_spec q1 0) as [->|], (Z.eqb_spec q2 0) as [->|]; try done.
      * intros [= <-] H2 Hy1 Hy2. exfalso. apply (Hdisj y Hy1).
        apply elem_of_concat. exists l2. split; [done|]. by eapply zget_elem_of.
      * intros H1 [= <-] Hy1 Hy2. exfalso. apply (Hdisj y Hy2).
        apply elem_of_concat. exists l1. split; [done|]. by eapply zget_elem_of.
      * intros H1 H2 Hy1 Hy2. pose proof (IH2 _ _ _ _ _ H1 H2 Hy1 Hy2). lia.
Qed.

(** What distinct addresses mean for a node and its children. *)
Lemma NoDup_node_inv a vs cs :
  NoDup (addrs (ANode a vs cs)) ->
  (forall q c, zget cs q = Some c -> (a ∉ addrs c) /\ NoDup (addrs c)) /\
  (forall q1 q2 c1 c2 y, zget cs q1 = Some c1 -> zget cs q2 = Some c2 ->
     y ∈ addrs c1 -> y ∈ addrs c2 -> q1 = q2).
Proof.
  rewrite addrs_node. intros [Ha Hnd]%NoDup_cons.
  destruct (NoDup_concat_inv _ Hnd) as [H1 H2]. split.
  - intros q c Hq. split.
    + intros Hin. apply Ha, elem_of_concat. exists (addrs c). split; [done|].
      apply list_elem_of_fmap. exists c. split; [done|]. by eapply zget_elem_of.
    + apply (H1 q). by rewrite zget_fmap, Hq.
  - intros q1 q2 c1 c2 y Hq1 Hq2. apply H2; by rewrite zget_fmap, ?Hq1, ?Hq2.
Qed.

Lemma kid_addr_in a vs cs q c :
  zget cs q = Some c -> addr c ∈ addrs (ANode a vs cs).
Proof. intros. eapply addrs_child; [done|]. apply addr_in_addrs. Qed.

(** ** Hanging a subtree somewhere else *)

Lemma top_cell_reparent par pos rm sz t n par' j :
  top_cell par pos rm sz t n -> 0 <= j < field_modulus ->
  top_cell par' j rm sz t (reparent par' j n).
Proof.
  intros Htop Hj. destruct t as [a mc vs|a vs cs]; simpl in *.
  - subst n. unfold reparent, leaf_cell, with_position, with_parent; simpl.
    by rewrite field_wrap_small.
  - destruct Htop as (g & -> & Hg). exists g. split; [|done].
    unfold reparent, internal_cell, with_position, with_parent; simpl.
    by rewrite field_wrap_small.
Qed.

Lemma rep_at_reparent m m' k par pos par' j :
  rep_at m par pos 0%nat 0 k -> NoDup (addrs k) ->
  cells m' !! addr k = Some (reparent par' j (nd m (addr k))) ->
  0 <= j < field_modulus ->
  (forall y, y ∈ addrs k -> y <> addr k -> cells m' !! y = cells m !! y) ->
  rep_at m' par' j 0%nat 0 k.
Proof.
  intros Hrep Hnd Hcell Hj Hfr. eapply rep_at_move; [done| |done|done].
  destruct (rep_at_top _ _ _ _ _ _ Hrep) as (n & Hn & Htop).
  exists (reparent par' j n). rewrite Hcell, (nd_lookup _ _ _ Hn).
  split; [done|]. by eapply top_cell_reparent.
Qed.

(** ** Final form of a cell after its count is set *)

Lemma leaf_cell_final par pos mc vs vs' c :
  c = zlen vs' -> 0 <= mc -> zlen vs' < field_modulus ->
  with_count c (wv (leaf_cell par pos mc vs) (zget vs')) = leaf_cell par pos mc vs'.
Proof.
  intros -> Hmc Hlt. unfold with_count, wv, leaf_cell; simpl.
  rewrite zlen_slots by done. rewrite field_wrap_small; [done|].
  pose proof (zlen_nonneg vs'). lia.
Qed.

Lemma internal_cell_final par pos vs g rm sz vs' g' c :
  c = zlen vs' -> zlen vs' < field_modulus ->
  with_count c (wc (wv (internal_cell par pos vs g rm sz) (zget vs')) g') =
    internal_cell par pos vs' g' rm sz.
Proof.
  intros -> Hlt. pose proof kNodeValues_pos.
  unfold with_count, wc, wv, internal_cell; simpl.
  rewrite zlen_slots, zlen_tabZ by lia. rewrite field_wrap_small; [done|].
  pose proof (zlen_nonneg vs'). lia.
Qed.

End RepHelpers.

Section Siblings.
Context `{P : Params}.
Hypothesis Hstatic : static_assert_field.

Definition kaddrs (ks : list atree) : list nat := addr <$> ks.

(** A node below the root: full capacity, and one child more than values. *)
Definition node_ok (t : atree) : Prop :=
  acap t = kNodeValues /\ zlen (avals t) <= kNodeValues /\
  (is_leaf t = false -> zlen (akids t) = zlen (avals t) + 1).

Lemma zget_kaddrs ks q : zget (kaddrs ks) q = addr <$> zget ks q.
Proof. apply zget_fmap. Qed.

Lemma zlen_kaddrs ks : zlen (kaddrs ks) = zlen ks.
Proof. apply zlen_fmap. Qed.

Lemma kids_fn_kaddrs ks g q y :
  kids_fn ks g -> zget (kaddrs ks) q = Some y -> g q = y.
Proof.
  intros Hg. rewrite zget_kaddrs. destruct (zget ks q) as [k|] eqn:Hk; [|done].
  intros [= <-]. by apply Hg.
Qed.

Lemma elem_of_kaddrs ks y :
  y ∈ kaddrs ks -> exists q k, zget ks q = Some k /\ y = addr k.
Proof.
  intros (q & Hq)%elem_of_zget. rewrite zget_kaddrs in Hq.
  destruct (zget ks q) as [k|] eqn:Hk; [|done]. injection Hq as <-. eauto.
Qed.

(** Distinctness facts about the children of a node. *)
Lemma NoDup_kaddrs a vs ks :
  NoDup (addrs (ANode a vs ks)) ->
  NoDup (kaddrs ks) /\ a ∉ kaddrs ks /\
  (forall q k y, zget ks q = Some k -> y ∈ addrs k -> y <> addr k -> y ∉ kaddrs ks).
Proof.
  intros Hnd. destruct (NoDup_node_inv _ _ _ Hnd) as [H1 H2]. repeat split.
  - apply NoDup_alt. intros q1 q2 y Hq1 Hq2.
    unfold kaddrs in *. rewrite list_lookup_fmap in Hq1, Hq2.
    destruct (ks !! q1) as [k1|] eqn:Hk1; [|done].
    destruct (ks !! q2) as [k2|] eqn:Hk2; [|done].
    injection Hq1 as <-. injection Hq2 as Heq.
    assert (Z.of_nat q1 = Z.of_nat q2); [|lia].
    apply (H2 _ _ k1 k2 (addr k1)).
    + unfold zget. destruct (Z.ltb_spec (Z.of_nat q1) 0); [lia|]. by rewrite Nat2Z.id.
    + unfold zget. destruct (Z.ltb_spec (Z.of_nat q2) 0); [lia|]. by rewrite Nat2Z.id.
    + apply addr_in_addrs.
    + rewrite <- Heq. apply addr_in_addrs.
  - intros (q & k & Hk & ->)%elem_of_kaddrs.
    destruct (H1 _ _ Hk) as [Hno _]. apply Hno, addr_in_addrs.
  - intros q k y Hk Hy Hne (q' & k' & Hk' & ->)%elem_of_kaddrs.
    assert (q = q') as <- by (eapply H2; [done|done|done|apply addr_in_addrs]).
    congruence.
Qed.

Lemma kaddrs_sub a vs ks y : y ∈ kaddrs ks -> y ∈ addrs (ANode a vs ks).
Proof. intros (q & k & Hk & ->)%elem_of_kaddrs. by eapply kid_addr_in. Qed.

End Siblings.


(** * Rebalancing two siblings, on trees *)

Section SiblingFacts.
Context `{P : Params}.
Hypothesis Hstatic : static_assert_field.

Variables (m : memory) (par : nat) (pos : Z) (rm : nat) (sz : Z).
Variables (p : nat) (pvs : list value_type) (Ls Rs : list atree) (lt rt : atree).
Hypothesis Hrep : rep_at m par pos rm sz (ANode p pvs (Ls ++ lt :: rt :: Rs)).
Hypothesis Hnd : NoDup (addrs (ANode p pvs (Ls ++ lt :: rt :: Rs))).

Lemma sib_zget_l : zget (Ls ++ lt :: rt :: Rs) (zlen Ls) = Some lt.
Proof using Type. rewrite zget_mid2. pw. Qed.
Lemma sib_zget_r : zget (Ls ++ lt :: rt :: Rs) (zlen Ls + 1) = Some rt.
Proof using Type. rewrite zget_mid2. pw. Qed.

Lemma sib_rep_l : rep_at m p (zlen Ls) 0%nat 0 lt.
Proof using Hrep. apply rep_at_node in Hrep as [_ Hk]. apply Hk, sib_zget_l. Qed.
Lemma sib_rep_r : rep_at m p (zlen Ls + 1) 0%nat 0 rt.
Proof using Hrep. apply rep_at_node in Hrep as [_ Hk]. apply Hk, sib_zget_r. Qed.

Lemma sib_nodup_l : NoDup (addrs lt).
Proof using Hnd. by destruct (proj1 (NoDup_node_inv _ _ _ Hnd) _ _ sib_zget_l). Qed.
Lemma sib_nodup_r : NoDup (addrs rt).
Proof using Hnd. by destruct (proj1 (NoDup_node_inv _ _ _ Hnd) _ _ sib_zget_r). Qed.

Lemma sib_p_l : p ∉ addrs lt.
Proof using Hnd. by destruct (proj1 (NoDup_node_inv _ _ _ Hnd) _ _ sib_zget_l). Qed.
Lemma sib_p_r : p ∉ addrs rt.
Proof using Hnd. by destruct (proj1 (NoDup_node_inv _ _ _ Hnd) _ _ sib_zget_r). Qed.

Lemma sib_l_r y : y ∈ addrs lt -> y ∉ addrs rt.
Proof using Hnd.
  intros Hl Hr.
  pose proof (proj2 (NoDup_node_inv _ _ _ Hnd) _ _ _ _ _ sib_zget_l sib_zget_r Hl Hr).
  lia.
Qed.

(** The other children are apart from both siblings and the parent. *)
Lemma sib_other q c y :
  zget (Ls ++ lt :: rt :: Rs) q = Some c -> q <> zlen Ls -> q <> zlen Ls + 1 ->
  y ∈ addrs c -> y <> p /\ (y ∉ addrs lt) /\ (y ∉ addrs rt).
Proof using Hnd.
  intros Hq Hq1 Hq2 Hy. destruct (NoDup_node_inv _ _ _ Hnd) as [H1 H2].
  repeat split.
  - intros ->. by destruct (H1 _ _ Hq).
  - intros Hl. by pose proof (H2 _ _ _ _ _ Hq sib_zget_l Hy Hl).
  - intros Hr. by pose proof (H2 _ _ _ _ _ Hq sib_zget_r Hy Hr).
Qed.

Lemma sib_lr : addr lt <> addr rt.
Proof using Hnd. intros Heq. apply (sib_l_r (addr lt)); [|rewrite Heq]; apply addr_in_addrs. Qed.
Lemma sib_lp : addr lt <> p.
Proof using Hnd. intros Heq. apply sib_p_l. rewrite <- Heq. apply addr_in_addrs. Qed.
Lemma sib_rp : addr rt <> p.
Proof using Hnd. intros Heq. apply sib_p_r. rewrite <- Heq. apply addr_in_addrs. Qed.

Lemma sib_top_p :
  exists g, cells m !! p = Some (internal_cell par pos pvs g rm sz) /\
            kids_fn (Ls ++ lt :: rt :: Rs) g.
Proof using Hrep. by apply rep_at_node in Hrep as [? _]. Qed.

(** Rebuilding the parent: new values, new siblings, the other children
    untouched. *)
Lemma sib_rebuild m' pvs' lt' rt' g :
  cells m' !! p = Some (internal_cell par pos pvs' g rm sz) ->
  kids_fn (Ls ++ lt :: rt :: Rs) g ->
  addr lt' = addr lt -> addr rt' = addr rt ->
  rep_at m' p (zlen Ls) 0%nat 0 lt' ->
  rep_at m' p (zlen Ls + 1) 0%nat 0 rt' ->
  (forall y, y <> p -> y ∉ addrs lt -> y ∉ addrs rt -> cells m' !! y = cells m !! y) ->
  rep_at m' par pos rm sz (ANode p pvs' (Ls ++ lt' :: rt' :: Rs)).
Proof using Hrep Hnd.
  intros Hp Hg Hal Har Hl Hr Hfr. apply rep_at_node. split.
  - exists g. split; [done|]. intros q c Hq. rewrite zget_mid2 in Hq.
    specialize (Hg q). rewrite zget_mid2 in Hg.
    destruct (q <? zlen Ls); [by apply Hg|].
    destruct (q =? zlen Ls); [injection Hq as <-; rewrite Hal; by apply Hg|].
    destruct (q =? zlen Ls + 1); [injection Hq as <-; rewrite Har; by apply Hg|].
    by apply Hg.
  - intros q c Hq. rewrite zget_mid2 in Hq.
    destruct (Z.eqb_spec q (zlen Ls)) as [->|Hq1].
    { destruct (Z.ltb_spec (zlen Ls) (zlen Ls)); [lia|]. by injection Hq as <-. }
    destruct (Z.eqb_spec q (zlen Ls + 1)) as [->|Hq2].
    { destruct (Z.ltb_spec (zlen Ls + 1) (zlen Ls)); [lia|]. by injection Hq as <-. }
    assert (zget (Ls ++ lt :: rt :: Rs) q = Some c) as Hq'.
    { rewrite zget_mid2. destruct (q <? zlen Ls); [done|].
      destruct (Z.eqb_spec q (zlen Ls)); [done|].
      by destruct (Z.eqb_spec q (zlen Ls + 1)). }
    apply rep_at_node in Hrep as [_ Hk].
    eapply rep_at_frame; [by apply Hk|].
    intros y Hy. destruct (sib_other _ _ _ Hq' Hq1 Hq2 Hy) as (? & ? & ?).
    by apply Hfr.
Qed.

End SiblingFacts.


(** * [rebalance_right_to_left] and [rebalance_left_to_right] on canonical cells *)

Section CellForms.
Context `{P : Params}.

Lemma internal_cell_wv_same par pos vs g rm sz vs' :
  zlen vs' = zlen vs ->
  wv (internal_cell par pos vs g rm sz) (zget vs') = internal_cell par pos vs' g rm sz.
Proof.
  intros Hlen. pose proof kNodeValues_pos. unfold wv, internal_cell; simpl.
  rewrite zlen_slots by lia. by rewrite Hlen.
Qed.

Lemma leaf_cell_wv_same par pos mc vs vs' :
  zlen vs' = zlen vs -> 0 <= mc ->
  wv (leaf_cell par pos mc vs) (zget vs') = leaf_cell par pos mc vs'.
Proof.
  intros Hlen Hmc. unfold wv, leaf_cell; simpl.
  rewrite zlen_slots by lia. by rewrite Hlen.
Qed.

Lemma children_phase_leaf_r2l l r n m :
  leaf (nd m l) = true -> rebalance_right_to_left_children l r n m = m.
Proof. intros H. unfold rebalance_right_to_left_children. by rewrite H. Qed.

Lemma children_phase_leaf_l2r l r n m :
  leaf (nd m l) = true -> rebalance_left_to_right_children l r n m = m.
Proof. intros H. unfold rebalance_left_to_right_children. by rewrite H. Qed.

End CellForms.

Section RebalanceCells.
Context `{P : Params}.
Hypothesis Hstatic : static_assert_field.
Variables l r p : nat.
Hypothesis Hlr : l <> r.
Hypothesis Hlp : l <> p.
Hypothesis Hrp : r <> p.
Variable m : memory.
Variables (par : nat) (pos : Z) (rm : nat) (sz : Z).
Variables lvs rvs pvs : list value_type.
Variable gp : Z -> nat.
Variables (i : Z) (d : value_type).
Hypothesis Hd : zget pvs i = Some d.
Hypothesis Hpvs : zlen pvs <= kNodeValues.
Hypothesis Hlvs : zlen lvs <= kNodeValues.
Hypothesis Hrvs : zlen rvs <= kNodeValues.
Hypothesis Hcp : cells m !! p = Some (internal_cell par pos pvs gp rm sz).

Local Abbreviation Pn := (internal_cell par pos pvs gp rm sz).

Section Leaves.
Hypothesis Hcl : cells m !! l = Some (leaf_cell p i kNodeValues lvs).
Hypothesis Hcr : cells m !! r = Some (leaf_cell p (i + 1) kNodeValues rvs).

Lemma rebalance_right_to_left_leaf n x :
  1 <= n <= zlen rvs -> zlen lvs + n <= kNodeValues ->
  zget rvs (n - 1) = Some x ->
  rebalance_right_to_left l r n m =
    set3 l r p m
      (leaf_cell p i kNodeValues (lvs ++ d :: ztake (n - 1) rvs))
      (leaf_cell p (i + 1) kNodeValues (zdrop n rvs))
      (internal_cell par pos (<[Z.to_nat i := x]> pvs) gp rm sz).
Proof using All.
  intros Hn Hroom Hx. pose proof kNodeValues_pos as HkN.
  pose proof (zlen_nonneg lvs). pose proof (zlen_nonneg rvs).
  unfold static_assert_field in Hstatic.
  rewrite <- (set3_id l r p m m _ _ _ eq_refl Hcl Hcr Hcp) at 1.
  rewrite rebalance_right_to_left_phases. cbv zeta.
  rewrite (leaf_cell_wv p i kNodeValues lvs), (leaf_cell_wv p (i + 1) kNodeValues rvs),
    (internal_cell_wv par pos pvs) by lia.
  rewrite (rebalance_right_to_left_values_spec l r p Hlr Hlp Hrp m _ _ _
             lvs rvs pvs i d) with (x := x);
    try done; try (simpl; rewrite zlen_slots by lia; lia).
  rewrite children_phase_leaf_r2l by (by rewrite nd_set3_l).
  rewrite nd_set3_l by done. rewrite set_count_l by done.
  rewrite nd_set3_r by done. rewrite set_count_r by done.
  rewrite !count_wv. cbn [count leaf_cell].
  rewrite (leaf_cell_final p i kNodeValues lvs), (leaf_cell_final p (i + 1) kNodeValues rvs);
    rewrite ?zlen_app, ?zlen_cons, ?zlen_take, ?zlen_drop by lia; try lia.
  rewrite internal_cell_wv_same by apply zlen_insert. done.
Qed.

Lemma rebalance_left_to_right_leaf n x :
  1 <= n <= zlen lvs -> zlen rvs + n <= kNodeValues ->
  zget lvs (zlen lvs - n) = Some x ->
  rebalance_left_to_right l r n m =
    set3 l r p m
      (leaf_cell p i kNodeValues (ztake (zlen lvs - n) lvs))
      (leaf_cell p (i + 1) kNodeValues (zdrop (zlen lvs - n + 1) lvs ++ d :: rvs))
      (internal_cell par pos (<[Z.to_nat i := x]> pvs) gp rm sz).
Proof using All.
  intros Hn Hroom Hx. pose proof kNodeValues_pos as HkN.
  pose proof (zlen_nonneg lvs). pose proof (zlen_nonneg rvs).
  unfold static_assert_field in Hstatic.
  rewrite <- (set3_id l r p m m _ _ _ eq_refl Hcl Hcr Hcp) at 1.
  rewrite rebalance_left_to_right_phases. cbv zeta.
  rewrite (leaf_cell_wv p i kNodeValues lvs), (leaf_cell_wv p (i + 1) kNodeValues rvs),
    (internal_cell_wv par pos pvs) by lia.
  rewrite (rebalance_left_to_right_values_spec l r p Hlr Hlp Hrp m _ _ _
             lvs rvs pvs i d) with (x := x);
    try done; try (simpl; rewrite zlen_slots by lia; lia).
  rewrite children_phase_leaf_l2r by (by rewrite nd_set3_l).
  rewrite nd_set3_l by done. rewrite set_count_l by done.
  rewrite nd_set3_r by done. rewrite set_count_r by done.
  rewrite !count_wv. cbn [count leaf_cell].
  rewrite (leaf_cell_final p i kNodeValues lvs), (leaf_cell_final p (i + 1) kNodeValues rvs);
    rewrite ?zlen_app, ?zlen_cons, ?zlen_take, ?zlen_drop by lia; try lia.
  rewrite internal_cell_wv_same by apply zlen_insert. done.
Qed.

End Leaves.

Section Internals.
Variables g h : Z -> nat.
Variables lka rka : list nat.
Hypothesis Hcl : cells m !! l = Some (internal_cell p i lvs g 0%nat 0).
Hypothesis Hcr : cells m !! r = Some (internal_cell p (i + 1) rvs h 0%nat 0).
Hypothesis Hg : forall q y, zget lka q = Some y -> g q = y.
Hypothesis Hh : forall q y, zget rka q = Some y -> h q = y.
Hypothesis Hlka : zlen lka = zlen lvs + 1.
Hypothesis Hrka : zlen rka = zlen rvs + 1.
Hypothesis Hl_lka : l ∉ lka.
Hypothesis Hr_lka : r ∉ lka.
Hypothesis Hp_lka : p ∉ lka.
Hypothesis Hl_rka : l ∉ rka.
Hypothesis Hr_rka : r ∉ rka.
Hypothesis Hp_rka : p ∉ rka.
Hypothesis Hnd_l : NoDup lka.
Hypothesis Hnd_r : NoDup rka.

Lemma wv_internal_wc par' pos' vs g' rm' sz' f :
  wv (internal_cell par' pos' vs g' rm' sz') f =
    wc (wv (internal_cell par' pos' vs g' rm' sz') f) g'.
Proof using Type. by rewrite <- wv_wc, <- internal_cell_wc. Qed.

Lemma rebalance_right_to_left_internal n x :
  1 <= n <= zlen rvs -> zlen lvs + n <= kNodeValues ->
  zget rvs (n - 1) = Some x ->
  rebalance_right_to_left l r n m =
    set3 l r p
      (upd_kids (reparent r) 0 (zdrop n rka)
         (upd_kids (reparent l) (1 + zlen lvs) (ztake n rka) m))
      (internal_cell p i (lvs ++ d :: ztake (n - 1) rvs)
         (fun q => if (1 + zlen lvs <=? q) && (q <? 1 + zlen lvs + n)
                   then h (q - 1 - zlen lvs) else g q) 0%nat 0)
      (internal_cell p (i + 1) (zdrop n rvs)
         (fun q => if q <=? zlen rvs - n then h (q + n)
                   else if (n <=? q) && (q <=? zlen rvs) then 0%nat else h q) 0%nat 0)
      (internal_cell par pos (<[Z.to_nat i := x]> pvs) gp rm sz).
Proof using All.
  intros Hn Hroom Hx. pose proof kNodeValues_pos as HkN.
  pose proof (zlen_nonneg lvs). pose proof (zlen_nonneg rvs).
  unfold static_assert_field in Hstatic.
  rewrite <- (set3_id l r p m m _ _ _ eq_refl Hcl Hcr Hcp) at 1.
  rewrite rebalance_right_to_left_phases. cbv zeta.
  rewrite (internal_cell_wv p i lvs), (internal_cell_wv p (i + 1) rvs),
    (internal_cell_wv par pos pvs).
  rewrite (rebalance_right_to_left_values_spec l r p Hlr Hlp Hrp m _ _ _
             lvs rvs pvs i d) with (x := x);
    try done; try (simpl; rewrite zlen_slots by lia; lia).
  rewrite (wv_internal_wc p i lvs g), (wv_internal_wc p (i + 1) rvs h).
  rewrite (rebalance_right_to_left_children_spec l r p Hlr Hlp Hrp _ _ _ lka rka);
    try done; try (simpl; rewrite ?zlen_tabZ by lia; lia).
  rewrite nd_set3_l by done. rewrite set_count_l by done.
  rewrite nd_set3_r by done. rewrite set_count_r by done.
  rewrite !count_wc, !count_wv. cbn [count internal_cell].
  rewrite (internal_cell_final p i lvs), (internal_cell_final p (i + 1) rvs);
    rewrite ?zlen_app, ?zlen_cons, ?zlen_take, ?zlen_drop by lia; try lia.
  rewrite internal_cell_wv_same by apply zlen_insert. done.
Qed.

Lemma rebalance_left_to_right_internal n x :
  1 <= n <= zlen lvs -> zlen rvs + n <= kNodeValues ->
  zget lvs (zlen lvs - n) = Some x ->
  rebalance_left_to_right l r n m =
    set3 l r p
      (upd_kids (reparent r) 0 (zdrop (zlen lvs - n + 1) lka)
         (upd_kids (reparent r) n rka m))
      (internal_cell p i (ztake (zlen lvs - n) lvs)
         (fun q => if (zlen lvs - n + 1 <=? q) && (q <=? zlen lvs)
                   then 0%nat else g q) 0%nat 0)
      (internal_cell p (i + 1) (zdrop (zlen lvs - n + 1) lvs ++ d :: rvs)
         (fun q => if q <? n then g (zlen lvs - n + 1 + q)
                   else if q <=? zlen rvs + n then h (q - n) else h q) 0%nat 0)
      (internal_cell par pos (<[Z.to_nat i := x]> pvs) gp rm sz).
Proof using All.
  intros Hn Hroom Hx. pose proof kNodeValues_pos as HkN.
  pose proof (zlen_nonneg lvs). pose proof (zlen_nonneg rvs).
  unfold static_assert_field in Hstatic.
  rewrite <- (set3_id l r p m m _ _ _ eq_refl Hcl Hcr Hcp) at 1.
  rewrite rebalance_left_to_right_phases. cbv zeta.
  rewrite (internal_cell_wv p i lvs), (internal_cell_wv p (i + 1) rvs),
    (internal_cell_wv par pos pvs).
  rewrite (rebalance_left_to_right_values_spec l r p Hlr Hlp Hrp m _ _ _
             lvs rvs pvs i d) with (x := x);
    try done; try (simpl; rewrite zlen_slots by lia; lia).
  rewrite (wv_internal_wc p i lvs g), (wv_internal_wc p (i + 1) rvs h).
  rewrite (rebalance_left_to_right_children_spec l r p Hlr Hlp Hrp _ _ _ lka rka);
    try done; try (simpl; rewrite ?zlen_tabZ by lia; lia).
  rewrite nd_set3_l by done. rewrite set_count_l by done.
  rewrite nd_set3_r by done. rewrite set_count_r by done.
  rewrite !count_wc, !count_wv. cbn [count internal_cell].
  rewrite (internal_cell_final p i lvs), (internal_cell_final p (i + 1) rvs);
    rewrite ?zlen_app, ?zlen_cons, ?zlen_take, ?zlen_drop by lia; try lia.
  rewrite internal_cell_wv_same by apply zlen_insert. done.
Qed.

End Internals.

End RebalanceCells.


(** * Rebalancing two siblings, on trees *)

Section Set3Lookup.
Context `{P : Params}.
Variables l r p : nat.
Hypothesis Hlr : l <> r.
Hypothesis Hlp : l <> p.
Hypothesis Hrp : r <> p.

Lemma lookup_set3_l M L R Pn : cells (set3 l r p M L R Pn) !! l = Some L.
Proof using All.
  unfold set3. by rewrite !lookup_set_cell_ne, lookup_set_cell_eq by done.
Qed.
Lemma lookup_set3_r M L R Pn : cells (set3 l r p M L R Pn) !! r = Some R.
Proof using All.
  unfold set3. by rewrite lookup_set_cell_ne, lookup_set_cell_eq by done.
Qed.
Lemma lookup_set3_p M L R Pn : cells (set3 l r p M L R Pn) !! p = Some Pn.
Proof using All. unfold set3. by rewrite lookup_set_cell_eq. Qed.
Lemma next_addr_set3 M L R Pn : next_addr (set3 l r p M L R Pn) = next_addr M.
Proof using Type. done. Qed.

End Set3Lookup.

Section KidsMore.
Context `{P : Params}.

Lemma nd_upd_kids_notin F ks y ofs m :
  y ∉ ks -> nd (upd_kids F ofs ks m) y = nd m y.
Proof. intros Hy. unfold nd. by rewrite !lookup_total_alt, lookup_upd_kids_notin. Qed.

End KidsMore.

Section TwoInternal.
Context `{P : Params}.
Variables (p : nat) (pvs : list value_type) (Ls Rs : list atree).
Variables (l r : nat) (lvs rvs : list value_type) (lks rks : list atree).
Local Abbreviation lt := (ANode l lvs lks).
Local Abbreviation rt := (ANode r rvs rks).
Hypothesis Hnd : NoDup (addrs (ANode p pvs (Ls ++ lt :: rt :: Rs))).

Lemma kid_l_facts q c y :
  zget lks q = Some c -> y ∈ addrs c ->
  y <> l /\ y <> r /\ y <> p /\ (y ∉ kaddrs rks) /\
  (y <> addr c -> y ∉ kaddrs lks).
Proof using Hnd.
  intros Hq Hy.
  pose proof (sib_nodup_l _ _ _ _ _ _ Hnd) as Hndl.
  assert (y ∈ addrs lt) as Hyl by (by eapply addrs_child).
  repeat split.
  - intros ->. by destruct (proj1 (NoDup_node_inv _ _ _ Hndl) _ _ Hq).
  - intros ->. apply (sib_l_r _ _ _ _ _ _ Hnd _ Hyl). apply (addr_in_addrs rt).
  - intros ->. by apply (sib_p_l _ _ _ _ _ _ Hnd).
  - intros Hin. apply (sib_l_r _ _ _ _ _ _ Hnd _ Hyl). by apply kaddrs_sub.
  - intros Hne. by eapply (proj2 (proj2 (NoDup_kaddrs _ _ _ Hndl))).
Qed.

Lemma kid_r_facts q c y :
  zget rks q = Some c -> y ∈ addrs c ->
  y <> l /\ y <> r /\ y <> p /\ (y ∉ kaddrs lks) /\
  (y <> addr c -> y ∉ kaddrs rks).
Proof using Hnd.
  intros Hq Hy.
  pose proof (sib_nodup_r _ _ _ _ _ _ Hnd) as Hndr.
  assert (y ∈ addrs rt) as Hyr by (by eapply addrs_child).
  repeat split.
  - intros ->. apply (sib_l_r _ _ _ _ _ _ Hnd l); [apply (addr_in_addrs lt)|done].
  - intros ->. by destruct (proj1 (NoDup_node_inv _ _ _ Hndr) _ _ Hq).
  - intros ->. by apply (sib_p_r _ _ _ _ _ _ Hnd).
  - intros Hin. apply (sib_l_r _ _ _ _ _ _ Hnd y); [by apply kaddrs_sub|done].
  - intros Hne. by eapply (proj2 (proj2 (NoDup_kaddrs _ _ _ Hndr))).
Qed.

Lemma kaddrs_l_facts y : y ∈ kaddrs lks -> y <> l /\ y <> r /\ y <> p /\ (y ∉ kaddrs rks).
Proof using Hnd.
  intros (q & c & Hc & ->)%elem_of_kaddrs.
  destruct (kid_l_facts q c (addr c) Hc (addr_in_addrs c)) as (? & ? & ? & ? & _).
  done.
Qed.
Lemma kaddrs_r_facts y : y ∈ kaddrs rks -> y <> l /\ y <> r /\ y <> p /\ (y ∉ kaddrs lks).
Proof using Hnd.
  intros (q & c & Hc & ->)%elem_of_kaddrs.
  destruct (kid_r_facts q c (addr c) Hc (addr_in_addrs c)) as (? & ? & ? & ? & _).
  done.
Qed.

Lemma l_notin_lka : l ∉ kaddrs lks.
Proof using Hnd. intros H. by destruct (kaddrs_l_facts _ H) as (? & _). Qed.
Lemma r_notin_lka : r ∉ kaddrs lks.
Proof using Hnd. intros H. by destruct (kaddrs_l_facts _ H) as (_ & ? & _). Qed.
Lemma p_notin_lka : p ∉ kaddrs lks.
Proof using Hnd. intros H. by destruct (kaddrs_l_facts _ H) as (_ & _ & ? & _). Qed.
Lemma l_notin_rka : l ∉ kaddrs rks.
Proof using Hnd. intros H. by destruct (kaddrs_r_facts _ H) as (? & _). Qed.
Lemma r_notin_rka : r ∉ kaddrs rks.
Proof using Hnd. intros H. by destruct (kaddrs_r_facts _ H) as (_ & ? & _). Qed.
Lemma p_notin_rka : p ∉ kaddrs rks.
Proof using Hnd. intros H. by destruct (kaddrs_r_facts _ H) as (_ & _ & ? & _). Qed.
Lemma nodup_lka : NoDup (kaddrs lks).
Proof using Hnd.
  by destruct (NoDup_kaddrs _ _ _ (sib_nodup_l _ _ _ _ _ _ Hnd)).
Qed.
Lemma nodup_rka : NoDup (kaddrs rks).
Proof using Hnd.
  by destruct (NoDup_kaddrs _ _ _ (sib_nodup_r _ _ _ _ _ _ Hnd)).
Qed.

End TwoInternal.


Section NotIn.
Context `{P : Params}.

Lemma not_in_T p pvs Ls lt rt Rs y :
  y ∉ addrs (ANode p pvs (Ls ++ lt :: rt :: Rs)) ->
  y <> p /\ (y ∉ addrs lt) /\ (y ∉ addrs rt).
Proof.
  intros Hy. repeat split.
  - intros ->. apply Hy, (addr_in_addrs (ANode p pvs _)).
  - intros Hin. apply Hy. eapply addrs_child; [apply sib_zget_l|done].
  - intros Hin. apply Hy. eapply addrs_child; [apply sib_zget_r|done].
Qed.

End NotIn.

Section RebalanceRep.
Context `{P : Params}.
Hypothesis Hstatic : static_assert_field.

(** The siblings after [n] values went from the right one to the left one
    through the delimiter [d]. *)
Definition r2l_left (lt rt : atree) (d : value_type) (n : Z) : atree :=
  set_content lt (avals lt ++ d :: ztake (n - 1) (avals rt))
    (akids lt ++ ztake n (akids rt)).
Definition r2l_right (rt : atree) (n : Z) : atree :=
  set_content rt (zdrop n (avals rt)) (zdrop n (akids rt)).

(** The siblings after [n] values went from the left one to the right one. *)
Definition l2r_left (lt : atree) (n : Z) : atree :=
  set_content lt (ztake (zlen (avals lt) - n) (avals lt))
    (ztake (zlen (avals lt) - n + 1) (akids lt)).
Definition l2r_right (lt rt : atree) (d : value_type) (n : Z) : atree :=
  set_content rt (zdrop (zlen (avals lt) - n + 1) (avals lt) ++ d :: avals rt)
    (zdrop (zlen (avals lt) - n + 1) (akids lt) ++ akids rt).

Variables (m : memory) (par : nat) (pos : Z) (rm : nat) (sz : Z).
Variables (p : nat) (pvs : list value_type) (Ls Rs : list atree) (lt rt : atree).
Hypothesis Hrep : rep_at m par pos rm sz (ANode p pvs (Ls ++ lt :: rt :: Rs)).
Hypothesis Hnd : NoDup (addrs (ANode p pvs (Ls ++ lt :: rt :: Rs))).
Hypothesis Hokl : node_ok lt.
Hypothesis Hokr : node_ok rt.
Hypothesis Hkind : is_leaf lt = is_leaf rt.
Hypothesis Hpvs : zlen pvs <= kNodeValues.
Variable d : value_type.
Hypothesis Hd : zget pvs (zlen Ls) = Some d.

Local Abbreviation T := (ANode p pvs (Ls ++ lt :: rt :: Rs)).


Lemma rebalance_right_to_left_rep n x :
  1 <= n <= zlen (avals rt) -> zlen (avals lt) + n <= kNodeValues ->
  zget (avals rt) (n - 1) = Some x ->
  let m' := rebalance_right_to_left (addr lt) (addr rt) n m in
  rep_at m' par pos rm sz
    (ANode p (<[Z.to_nat (zlen Ls) := x]> pvs)
       (Ls ++ r2l_left lt rt d n :: r2l_right rt n :: Rs)) /\
  (forall y, y ∉ addrs T -> cells m' !! y = cells m !! y) /\
  next_addr m' = next_addr m.
Proof using All.
  intros Hn Hroom Hx.
  pose proof (sib_lr _ _ _ _ _ _ Hnd) as Hlr.
  pose proof (sib_lp _ _ _ _ _ _ Hnd) as Hlp.
  pose proof (sib_rp _ _ _ _ _ _ Hnd) as Hrp.
  pose proof (sib_rep_l _ _ _ _ _ _ _ _ _ _ _ Hrep) as Hrl.
  pose proof (sib_rep_r _ _ _ _ _ _ _ _ _ _ _ Hrep) as Hrr.
  destruct (sib_top_p _ _ _ _ _ _ _ _ _ _ _ Hrep) as (gp & Hcp & Hgp).
  pose proof kNodeValues_pos as HkN. pose proof Hstatic as Hst.
  unfold static_assert_field in Hst.
  destruct Hokl as (Hcapl & Hlenl & Hkl), Hokr as (Hcapr & Hlenr & Hkr).
  destruct lt as [l mcl lvs|l lvs lks], rt as [r mcr rvs|r rvs rks]; try done;
    unfold r2l_left, r2l_right, set_content;
    cbn [acap avals akids is_leaf addr] in *; cbv zeta.
  - (* two leaves *)
    subst mcl mcr. apply rep_at_leaf in Hrl, Hrr.
    rewrite (rebalance_right_to_left_leaf Hstatic l r p Hlr Hlp Hrp m par pos rm sz
               lvs rvs pvs gp (zlen Ls) d Hd Hpvs Hlenl Hlenr Hcp Hrl Hrr n x)
      by done.
    split; [|split; [|done]].
    + eapply (sib_rebuild _ _ _ _ _ _ _ _ _ _ _ Hrep Hnd); try done.
      * by apply lookup_set3_p.
      * apply rep_at_leaf. by apply lookup_set3_l.
      * apply rep_at_leaf. by apply lookup_set3_r.
      * intros y Hyp Hyl Hyr. apply lookup_set3_other; [| |done].
        -- intros ->. apply Hyl. simpl. apply list_elem_of_here.
        -- intros ->. apply Hyr. simpl. apply list_elem_of_here.
    + intros y (Hyp & Hyl & Hyr)%not_in_T. apply lookup_set3_other; [| |done].
      * intros ->. apply Hyl. simpl. apply list_elem_of_here.
      * intros ->. apply Hyr. simpl. apply list_elem_of_here.
  - (* two internal nodes *)
    specialize (Hkl eq_refl). specialize (Hkr eq_refl).
    apply rep_at_node in Hrl as [(g & Hcl & Hg) Hlkids].
    apply rep_at_node in Hrr as [(h & Hcr & Hh) Hrkids].
    pose proof (zlen_nonneg lvs). pose proof (zlen_nonneg rvs).
    rewrite (rebalance_right_to_left_internal Hstatic l r p Hlr Hlp Hrp m par pos rm sz
               lvs rvs pvs gp (zlen Ls) d Hd Hpvs Hlenl Hlenr Hcp g h
               (kaddrs lks) (kaddrs rks)) with (x := x);
      try done; rewrite ?zlen_kaddrs; try done;
      try (intros q y; by apply kids_fn_kaddrs);
      eauto using l_notin_lka, r_notin_lka, p_notin_lka, l_notin_rka, r_notin_rka,
        p_notin_rka, nodup_lka, nodup_rka.
    set (M := upd_kids _ _ (zdrop n _) (upd_kids _ _ (ztake n _) m)).
    assert (forall y, y ∉ kaddrs rks -> cells M !! y = cells m !! y) as HM.
    { intros y Hy. unfold M.
      rewrite !lookup_upd_kids_notin; [done| |].
      - intros Hin. by apply Hy, (elem_of_ztake _ n).
      - intros Hin. by apply Hy, (elem_of_zdrop _ n). }
    pose proof (nodup_rka _ _ _ _ _ _ _ _ _ _ Hnd) as Hndr.
    split; [|split].
    + eapply (sib_rebuild _ _ _ _ _ _ _ _ _ _ _ Hrep Hnd); try done.
      * by apply lookup_set3_p.
      * (* the left node *)
        apply rep_at_node. split.
        { eexists. split; [by apply lookup_set3_l|].
          intros q c. rewrite zget_app, zget_take. intros Hq.
          destruct (Z.ltb_spec q (zlen lks)).
          - apply zget_Some_lt in Hq as ?. rewrite <- (Hg q c Hq). pw.
          - destruct (Z.ltb_spec (q - zlen lks) n); [|done].
            apply zget_Some_lt in Hq as ?. rewrite <- (Hh _ c Hq). pw. }
        intros q c. rewrite zget_app, zget_take. intros Hq.
        destruct (Z.ltb_spec q (zlen lks)).
        { eapply rep_at_frame; [by apply Hlkids|]. intros y Hy.
          destruct (kid_l_facts _ _ _ _ _ _ _ _ _ _ Hnd _ _ _ Hq Hy)
            as (? & ? & ? & ? & _).
          rewrite lookup_set3_other by done. by apply HM. }
        destruct (Z.ltb_spec (q - zlen lks) n); [|done].
        apply zget_Some_lt in Hq as ?.
        eapply rep_at_reparent; [by apply Hrkids| | | |].
        -- by destruct (proj1 (NoDup_node_inv _ _ _ (sib_nodup_r _ _ _ _ _ _ Hnd)) _ _ Hq).
        -- destruct (kid_r_facts _ _ _ _ _ _ _ _ _ _ Hnd _ _ _ Hq (addr_in_addrs c))
             as (? & ? & ? & ? & _).
           rewrite lookup_set3_other by done. unfold M.
           rewrite lookup_upd_kids_notin.
           2:{ apply (NoDup_ztake_zdrop _ n _ Hndr).
               apply (zget_elem_of _ (q - zlen lks)).
               rewrite zget_take, zget_kaddrs, Hq.
               by destruct (Z.ltb_spec (q - zlen lks) n); [|lia]. }
           rewrite (lookup_upd_kids_in _ _ _ _ (q - zlen lks) (addr c)).
           ++ do 2 f_equal. lia.
           ++ by apply NoDup_ztake.
           ++ rewrite zget_take, zget_kaddrs, Hq.
              by destruct (Z.ltb_spec (q - zlen lks) n); [|lia].
        -- lia.
        -- intros y Hy Hne.
           destruct (kid_r_facts _ _ _ _ _ _ _ _ _ _ Hnd _ _ _ Hq Hy)
             as (? & ? & ? & ? & Hnot).
           rewrite lookup_set3_other by done. apply HM. by apply Hnot.
      * (* the right node *)
        apply rep_at_node. split.
        { eexists. split; [by apply lookup_set3_r|].
          intros q c. rewrite zget_drop by lia. intros Hq.
          destruct (Z.ltb_spec q 0); [done|].
          apply zget_Some_lt in Hq as ?. rewrite <- (Hh _ c Hq). pw. }
        intros q c. rewrite zget_drop by lia. intros Hq.
        destruct (Z.ltb_spec q 0); [done|].
        apply zget_Some_lt in Hq as ?.
        eapply rep_at_reparent; [by apply Hrkids| | | |].
        -- by destruct (proj1 (NoDup_node_inv _ _ _ (sib_nodup_r _ _ _ _ _ _ Hnd)) _ _ Hq).
        -- destruct (kid_r_facts _ _ _ _ _ _ _ _ _ _ Hnd _ _ _ Hq (addr_in_addrs c))
             as (? & ? & ? & ? & _).
           rewrite lookup_set3_other by done. unfold M.
           rewrite (lookup_upd_kids_in _ _ _ _ q (addr c)).
           ++ rewrite nd_upd_kids_notin; [do 2 f_equal; lia|].
              intros Hin. apply (NoDup_ztake_zdrop _ n _ Hndr Hin).
              apply (zget_elem_of _ q).
              rewrite zget_drop, zget_kaddrs, Hq by lia.
              by destruct (Z.ltb_spec q 0); [lia|].
           ++ by apply NoDup_zdrop.
           ++ rewrite zget_drop, zget_kaddrs, Hq by lia.
              by destruct (Z.ltb_spec q 0); [lia|].
        -- lia.
        -- intros y Hy Hne.
           destruct (kid_r_facts _ _ _ _ _ _ _ _ _ _ Hnd _ _ _ Hq Hy)
             as (? & ? & ? & ? & Hnot).
           rewrite lookup_set3_other by done. apply HM. by apply Hnot.
      * intros y Hyp Hyl Hyr. rewrite lookup_set3_other; [| | |done].
        -- apply HM. intros Hin. by apply Hyr, kaddrs_sub.
        -- intros ->. apply Hyl, list_elem_of_here.
        -- intros ->. apply Hyr, list_elem_of_here.
    + intros y (Hyp & Hyl & Hyr)%not_in_T. rewrite lookup_set3_other; [| | |done].
      * apply HM. intros Hin. by apply Hyr, kaddrs_sub.
      * intros ->. apply Hyl, list_elem_of_here.
      * intros ->. apply Hyr, list_elem_of_here.
    + unfold M. by rewrite next_addr_set3, !next_addr_upd_kids.
Qed.

End RebalanceRep.


Section RebalanceRep2.
Context `{P : Params}.
Hypothesis Hstatic : static_assert_field.

Variables (m : memory) (par : nat) (pos : Z) (rm : nat) (sz : Z).
Variables (p : nat) (pvs : list value_type) (Ls Rs : list atree) (lt rt : atree).
Hypothesis Hrep : rep_at m par pos rm sz (ANode p pvs (Ls ++ lt :: rt :: Rs)).
Hypothesis Hnd : NoDup (addrs (ANode p pvs (Ls ++ lt :: rt :: Rs))).
Hypothesis Hokl : node_ok lt.
Hypothesis Hokr : node_ok rt.
Hypothesis Hkind : is_leaf lt = is_leaf rt.
Hypothesis Hpvs : zlen pvs <= kNodeValues.
Variable d : value_type.
Hypothesis Hd : zget pvs (zlen Ls) = Some d.

Local Abbreviation T := (ANode p pvs (Ls ++ lt :: rt :: Rs)).

Lemma rebalance_left_to_right_rep n x :
  1 <= n <= zlen (avals lt) -> zlen (avals rt) + n <= kNodeValues ->
  zget (avals lt) (zlen (avals lt) - n) = Some x ->
  let m' := rebalance_left_to_right (addr lt) (addr rt) n m in
  rep_at m' par pos rm sz
    (ANode p (<[Z.to_nat (zlen Ls) := x]> pvs)
       (Ls ++ l2r_left lt n :: l2r_right lt rt d n :: Rs)) /\
  (forall y, y ∉ addrs T -> cells m' !! y = cells m !! y) /\
  next_addr m' = next_addr m.
Proof using All.
  intros Hn Hroom Hx.
  pose proof (sib_lr _ _ _ _ _ _ Hnd) as Hlr.
  pose proof (sib_lp _ _ _ _ _ _ Hnd) as Hlp.
  pose proof (sib_rp _ _ _ _ _ _ Hnd) as Hrp.
  pose proof (sib_rep_l _ _ _ _ _ _ _ _ _ _ _ Hrep) as Hrl.
  pose proof (sib_rep_r _ _ _ _ _ _ _ _ _ _ _ Hrep) as Hrr.
  destruct (sib_top_p _ _ _ _ _ _ _ _ _ _ _ Hrep) as (gp & Hcp & Hgp).
  pose proof kNodeValues_pos as HkN. pose proof Hstatic as Hst.
  unfold static_assert_field in Hst.
  destruct Hokl as (Hcapl & Hlenl & Hkl), Hokr as (Hcapr & Hlenr & Hkr).
  destruct lt as [l mcl lvs|l lvs lks], rt as [r mcr rvs|r rvs rks]; try done;
    unfold l2r_left, l2r_right, set_content;
    cbn [acap avals akids is_leaf addr] in *; cbv zeta.
  - (* two leaves *)
    subst mcl mcr. apply rep_at_leaf in Hrl, Hrr.
    rewrite (rebalance_left_to_right_leaf Hstatic l r p Hlr Hlp Hrp m par pos rm sz
               lvs rvs pvs gp (zlen Ls) d Hd Hpvs Hlenl Hlenr Hcp Hrl Hrr n x)
      by done.
    split; [|split; [|done]].
    + eapply (sib_rebuild _ _ _ _ _ _ _ _ _ _ _ Hrep Hnd); try done.
      * by apply lookup_set3_p.
      * apply rep_at_leaf. by apply lookup_set3_l.
      * apply rep_at_leaf. by apply lookup_set3_r.
      * intros y Hyp Hyl Hyr. apply lookup_set3_other; [| |done].
        -- intros ->. apply Hyl. simpl. apply list_elem_of_here.
        -- intros ->. apply Hyr. simpl. apply list_elem_of_here.
    + intros y (Hyp & Hyl & Hyr)%not_in_T. apply lookup_set3_other; [| |done].
      * intros ->. apply Hyl. simpl. apply list_elem_of_here.
      * intros ->. apply Hyr. simpl. apply list_elem_of_here.
  - (* two internal nodes *)
    specialize (Hkl eq_refl). specialize (Hkr eq_refl).
    apply rep_at_node in Hrl as [(g & Hcl & Hg) Hlkids].
    apply rep_at_node in Hrr as [(h & Hcr & Hh) Hrkids].
    pose proof (zlen_nonneg lvs). pose proof (zlen_nonneg rvs).
    rewrite (rebalance_left_to_right_internal Hstatic l r p Hlr Hlp Hrp m par pos rm sz
               lvs rvs pvs gp (zlen Ls) d Hd Hpvs Hlenl Hlenr Hcp g h
               (kaddrs lks) (kaddrs rks)) with (x := x);
      try done; rewrite ?zlen_kaddrs; try done;
      try (intros q y; by apply kids_fn_kaddrs);
      eauto using l_notin_lka, r_notin_lka, p_notin_lka, l_notin_rka, r_notin_rka,
        p_notin_rka, nodup_lka, nodup_rka.
    set (k := zlen lvs - n + 1).
    set (M := upd_kids _ _ (zdrop k _) (upd_kids _ _ (kaddrs rks) m)).
    assert (forall y, y ∉ kaddrs rks -> y ∉ zdrop k (kaddrs lks) ->
                      cells M !! y = cells m !! y) as HM.
    { intros y Hy1 Hy2. unfold M. by rewrite !lookup_upd_kids_notin. }
    pose proof (nodup_rka _ _ _ _ _ _ _ _ _ _ Hnd) as Hndr.
    pose proof (nodup_lka _ _ _ _ _ _ _ _ _ _ Hnd) as Hndl.
    assert (zlen (zdrop k lks) = n) as Hzd by (rewrite zlen_drop by lia; lia).
    split; [|split].
    + eapply (sib_rebuild _ _ _ _ _ _ _ _ _ _ _ Hrep Hnd); try done.
      * by apply lookup_set3_p.
      * (* the left node *)
        apply rep_at_node. split.
        { eexists. split; [by apply lookup_set3_l|].
          intros q c. rewrite zget_take. intros Hq.
          destruct (Z.ltb_spec q k); [|done].
          apply zget_Some_lt in Hq as ?. rewrite <- (Hg q c Hq). unfold k in *. pw. }
        intros q c. rewrite zget_take. intros Hq.
        destruct (Z.ltb_spec q k); [|done].
        eapply rep_at_frame; [by apply Hlkids|]. intros y Hy.
        destruct (kid_l_facts _ _ _ _ _ _ _ _ _ _ Hnd _ _ _ Hq Hy)
          as (? & ? & ? & ? & Hnot).
        rewrite lookup_set3_other by done. apply HM; [done|].
        destruct (decide (y = addr c)) as [->|Hne].
        -- apply (NoDup_ztake_zdrop _ k _ Hndl). apply (zget_elem_of _ q).
           rewrite zget_take, zget_kaddrs, Hq.
           by destruct (Z.ltb_spec q k); [|lia].
        -- intros Hin%elem_of_zdrop. by apply Hnot.
      * (* the right node *)
        apply rep_at_node. split.
        { eexists. split; [by apply lookup_set3_r|].
          intros q c. rewrite zget_app, zget_drop, Hzd by (unfold k; lia). intros Hq.
          destruct (Z.ltb_spec q n).
          - destruct (Z.ltb_spec q 0); [done|].
            rewrite <- (Hg _ c Hq). unfold k. pw.
          - apply zget_Some_lt in Hq as ?. rewrite <- (Hh _ c Hq). pw. }
        intros q c. rewrite zget_app, zget_drop, Hzd by (unfold k; lia). intros Hq.
        destruct (Z.ltb_spec q n).
        { destruct (Z.ltb_spec q 0); [done|].
          eapply rep_at_reparent; [by apply Hlkids| | | |].
          -- by destruct (proj1 (NoDup_node_inv _ _ _ (sib_nodup_l _ _ _ _ _ _ Hnd)) _ _ Hq).
          -- destruct (kid_l_facts _ _ _ _ _ _ _ _ _ _ Hnd _ _ _ Hq (addr_in_addrs c))
               as (? & ? & ? & ? & _).
             rewrite lookup_set3_other by done. unfold M.
             rewrite (lookup_upd_kids_in _ _ _ _ q (addr c)).
             ++ rewrite nd_upd_kids_notin by done. do 2 f_equal.
             ++ by apply NoDup_zdrop.
             ++ rewrite zget_drop, zget_kaddrs, Hq by (unfold k; lia).
                by destruct (Z.ltb_spec q 0); [lia|].
          -- lia.
          -- intros y Hy Hne.
             destruct (kid_l_facts _ _ _ _ _ _ _ _ _ _ Hnd _ _ _ Hq Hy)
               as (? & ? & ? & ? & Hnot).
             rewrite lookup_set3_other by done. apply HM; [done|].
             intros Hin%elem_of_zdrop. by apply Hnot. }
        apply zget_Some_lt in Hq as ?.
        eapply rep_at_reparent; [by apply Hrkids| | | |].
        -- by destruct (proj1 (NoDup_node_inv _ _ _ (sib_nodup_r _ _ _ _ _ _ Hnd)) _ _ Hq).
        -- destruct (kid_r_facts _ _ _ _ _ _ _ _ _ _ Hnd _ _ _ Hq (addr_in_addrs c))
             as (? & ? & ? & Hnl & _).
           rewrite lookup_set3_other by done. unfold M.
           rewrite lookup_upd_kids_notin by (by intros Hin%elem_of_zdrop).
           rewrite (lookup_upd_kids_in _ _ _ _ (q - n) (addr c)).
           ++ do 2 f_equal. lia.
           ++ done.
           ++ by rewrite zget_kaddrs, Hq.
        -- lia.
        -- intros y Hy Hne.
           destruct (kid_r_facts _ _ _ _ _ _ _ _ _ _ Hnd _ _ _ Hq Hy)
             as (? & ? & ? & Hnl & Hnot).
           rewrite lookup_set3_other by done. apply HM; [by apply Hnot|].
           by intros Hin%elem_of_zdrop.
      * intros y Hyp Hyl Hyr. rewrite lookup_set3_other; [| | |done].
        -- apply HM; [intros Hin; by apply Hyr, kaddrs_sub|].
           intros Hin%elem_of_zdrop. by apply Hyl, kaddrs_sub.
        -- intros ->. apply Hyl, list_elem_of_here.
        -- intros ->. apply Hyr, list_elem_of_here.
    + intros y (Hyp & Hyl & Hyr)%not_in_T. rewrite lookup_set3_other; [| | |done].
      * apply HM; [intros Hin; by apply Hyr, kaddrs_sub|].
        intros Hin%elem_of_zdrop. by apply Hyl, kaddrs_sub.
      * intros ->. apply Hyl, list_elem_of_here.
      * intros ->. apply Hyr, list_elem_of_here.
    + unfold M. by rewrite next_addr_set3, !next_addr_upd_kids.
Qed.

End RebalanceRep2.


(** * [insert_value] and [remove_value] on an internal node *)

(** [loop1_is res]: the loop that runs next (its state is a [set_cell]
    term) yields [res]. *)
Ltac loop1_is res :=
  match goal with
  | |- context [for_up ?a ?b ?body (set_cell ?x ?n ?M)] =>
      let H := fresh "Hloop" in
      assert (for_up a b body (set_cell x n M) = res) as H;
      [|rewrite H; clear H]
  | |- context [for_down ?a ?b ?body (set_cell ?x ?n ?M)] =>
      let H := fresh "Hloop" in
      assert (for_down a b body (set_cell x n M) = res) as H;
      [|rewrite H; clear H]
  end.

Section OneCellKids.
Context `{P : Params}.
Hypothesis Hstatic : static_assert_field.
Variable a : nat.

Lemma assign_child_one i c n g M :
  0 <= i ->
  assign_child a i c (set_cell a (wc n g) M) = set_cell a (wc n (fupd g i c)) M.
Proof using Type.
  intros. unfold assign_child.
  rewrite upd_set_cell, nd_set_cell_eq, set_cell_set_cell. by rewrite set_child_wc.
Qed.

Lemma upd_other_one y f n M :
  y <> a -> upd y f (set_cell a n M) = set_cell a n (upd y f M).
Proof using Type.
  intros. rewrite !upd_set_cell, nd_set_cell_ne by done. by apply set_cell_comm.
Qed.

Lemma wc_self n g : children n = tabZ (kNodeValues + 1) g -> n = wc n g.
Proof using Type.
  intros Hn. pose proof kNodeValues_pos. unfold wc. rewrite Hn, zlen_tabZ by lia.
  rewrite <- Hn. by destruct n.
Qed.

(** The positions of the nodes [ks] become [ofs], [ofs + 1], ... *)
Definition shift_kids (ofs : Z) (ks : list nat) (m : memory) : memory :=
  upd_kids (fun j => with_position j) ofs ks m.

Lemma insert_value_internal par pos vs g rm sz ka i x m :
  cells m !! a = Some (internal_cell par pos vs g rm sz) ->
  zlen vs < kNodeValues -> 0 <= i <= zlen vs ->
  zlen ka = zlen vs + 1 -> (forall q y, zget ka q = Some y -> g q = y) ->
  a ∉ ka -> NoDup ka ->
  insert_value a i x m =
    set_cell a
      (internal_cell par pos (insert_at i x vs)
         (fun q => if q <=? i then g q else if q =? i + 1 then 0%nat
                   else if q <=? zlen vs + 1 then g (q - 1) else g q) rm sz)
      (shift_kids (i + 2) (zdrop (i + 1) ka) m).
Proof using All.
  intros Ha Hroom Hi Hka Hg Hnotin Hnd.
  pose proof (zlen_nonneg vs). pose proof kNodeValues_pos.
  pose proof Hstatic as Hst. unfold static_assert_field in Hst.
  rewrite <- (set_cell_id _ _ _ Ha) at 1.
  rewrite (internal_cell_wv par pos vs).
  set (n := internal_cell par pos vs g rm sz).
  assert (Hlen : zlen (values n) = kNodeValues) by (apply zlen_slots; lia).
  unfold insert_value, value_init_copy.
  rewrite nd_set_cell_eq. change (count (wv n (zget vs))) with (zlen vs).
  rewrite set_slot_one by lia. rewrite nd_set_cell_eq.
  change (count (wv n _)) with (zlen vs).
  rewrite (insert_value_shift a m n vs x (zlen vs) i) by lia.
  rewrite set_count_one, !nd_set_cell_eq.
  change (leaf (with_count _ _)) with false. cbn [negb].
  change (count (wv n _)) with (zlen vs).
  set (c := zlen vs) in *.
  replace (count (with_count (c + 1) (wv n (zget (insert_at i x vs))))) with (c + 1)
    by (unfold with_count; simpl; by rewrite field_wrap_small by lia).
  set (X := with_count (c + 1) (wv n (zget (insert_at i x vs)))).
  rewrite (wc_self X g) by done.
  pose (G := fun k q => if q <=? k then g q else if q <=? c + 1 then g (q - 1) else g q).
  loop1_is (set_cell a (wc X (G (i + 1))) (shift_kids (i + 1 + 1) (zdrop (i + 1) ka) m)).
  { apply (for_down_ind
             (fun k m1 => m1 = set_cell a (wc X (G k)) (shift_kids (k + 1) (zdrop k ka) m)));
      [lia| |].
    - rewrite zdrop_all by lia. unfold shift_kids; simpl. f_equal.
      apply wc_ext. intros q Hq. unfold G. pw.
    - intros k m1 Hk ->. cbv zeta. rewrite nd_set_cell_eq.
      assert (zlen (children X) = kNodeValues + 1) as HlenX
        by (simpl; apply zlen_tabZ; lia).
      rewrite child_wc by lia.
      destruct (zget_is_Some ka (k - 1)) as [y Hy]; [lia|].
      pose proof (Hg _ _ Hy) as Hgy.
      assert (G k (k - 1) = y) as -> by (unfold G; rewrite <- Hgy; pw).
      rewrite assign_child_one by lia. rewrite nd_set_cell_eq.
      rewrite child_wc by (rewrite HlenX; lia).
      assert (fupd (G k) k y k = y) as -> by (unfold fupd; pw).
      assert (y <> a) by (intros ->; apply Hnotin; by eapply zget_elem_of).
      unfold set_position. rewrite upd_other_one by done.
      rewrite (zdrop_cons ka (k - 1) y) by (try done; lia).
      replace (k - 1 + 1) with k by lia. unfold shift_kids. cbn [upd_kids].
      rewrite <- upd_kids_comm.
      2:{ intros Hin. pose proof (NoDup_zdrop ka (k - 1) Hnd) as Hnd'.
          rewrite (zdrop_cons ka (k - 1) y) in Hnd' by (try done; lia).
          replace (k - 1 + 1) with k in Hnd' by lia.
          by apply NoDup_cons in Hnd' as [? _]. }
      f_equal. apply wc_ext. intros q Hq. unfold G.
      pwf; rewrite <- Hgy; f_equal; lia. }
  rewrite assign_child_one by lia.
  replace (i + 1 + 1) with (i + 2) by lia. f_equal.
  unfold X, n, internal_cell, wc, wv, with_count, with_children, with_values, slots;
    simpl.
  rewrite zlen_insert_at, field_wrap_small by (fold c; lia).
  rewrite !zlen_tabZ by lia. f_equal.
  apply tabZ_ext. intros q Hq. unfold G. pwf.
Qed.

Lemma wv_self n mc vs : values n = slots mc vs -> 0 <= mc -> n = wv n (zget vs).
Proof using Type.
  intros Hn Hmc. unfold wv. rewrite Hn, zlen_slots by lia.
  fold (slots mc vs). rewrite <- Hn. by destruct n.
Qed.

Lemma remove_value_internal par pos vs g rm sz ka i m :
  cells m !! a = Some (internal_cell par pos vs g rm sz) ->
  zlen vs <= kNodeValues -> 0 <= i < zlen vs ->
  zlen ka = zlen vs + 1 -> (forall q y, zget ka q = Some y -> g q = y) ->
  a ∉ ka -> NoDup ka ->
  remove_value a i m =
    set_cell a
      (internal_cell par pos (remove_at i vs)
         (fun q => if q =? zlen vs then 0%nat
                   else if (i + 1 <=? q) && (q <? zlen vs) then g (q + 1) else g q) rm sz)
      (shift_kids (i + 1) (zdrop (i + 2) ka) m).
Proof using All.
  intros Ha Hroom Hi Hka Hg Hnotin Hnd.
  pose proof (zlen_nonneg vs). pose proof kNodeValues_pos.
  pose proof Hstatic as Hst. unfold static_assert_field in Hst.
  rewrite <- (set_cell_id _ _ _ Ha) at 1.
  set (n := internal_cell par pos vs g rm sz).
  assert (zlen (children n) = kNodeValues + 1) as HlenC
    by (simpl; apply zlen_tabZ; lia).
  rewrite (wc_self n g) by done.
  unfold remove_value. rewrite !nd_set_cell_eq.
  change (leaf (wc n g)) with false. cbn [negb].
  change (count (wc n g)) with (zlen vs).
  set (c := zlen vs) in *.
  pose (G := fun k q => if (i + 1 <=? q) && (q <? k) then g (q + 1) else g q).
  loop1_is (set_cell a (wc n (G c))
              (shift_kids (i + 1) (ztake (c - (i + 1)) (zdrop (i + 2) ka)) m)).
  { apply (for_up_ind
             (fun k m1 => m1 = set_cell a (wc n (G k))
                            (shift_kids (i + 1) (ztake (k - (i + 1)) (zdrop (i + 2) ka)) m)));
      [lia| |].
    - replace (i + 1 - (i + 1)) with 0 by lia. rewrite ztake_0.
      unfold shift_kids; simpl. f_equal.
      apply wc_ext. intros q Hq. unfold G. pw.
    - intros k m1 Hk ->. cbv zeta. rewrite nd_set_cell_eq.
      rewrite child_wc by lia.
      destruct (zget_is_Some ka (k + 1)) as [y Hy]; [lia|].
      pose proof (Hg _ _ Hy) as Hgy.
      assert (G k (k + 1) = y) as -> by (unfold G; rewrite <- Hgy; pw).
      rewrite assign_child_one by lia. rewrite nd_set_cell_eq.
      rewrite child_wc by lia.
      assert (fupd (G k) k y k = y) as -> by (unfold fupd; pw).
      assert (y <> a) by (intros ->; apply Hnotin; by eapply zget_elem_of).
      unfold set_position. rewrite upd_other_one by done.
      replace (k + 1 - (i + 1)) with (k - (i + 1) + 1) by lia.
      rewrite (ztake_snoc _ (k - (i + 1)) y).
      2:{ lia. }
      2:{ rewrite zget_drop by lia. destruct (Z.ltb_spec (k - (i + 1)) 0); [lia|].
          rewrite <- Hy. f_equal. lia. }
      unfold shift_kids. rewrite upd_kids_snoc.
      rewrite zlen_take by (rewrite zlen_drop by lia; lia).
      replace (i + 1 + (k - (i + 1))) with k by lia.
      f_equal. apply wc_ext. intros q Hq. unfold G.
      pwf; rewrite <- Hgy; f_equal; lia. }
  rewrite ztake_all by (rewrite zlen_drop by lia; lia).
  rewrite !nd_set_cell_eq. change (count (wc n (G c))) with c.
  rewrite assign_child_one by lia.
  rewrite set_count_one, !nd_set_cell_eq.
  change (count (wc n (fupd (G c) c 0%nat))) with c.
  replace (count (with_count (c - 1) (wc n (fupd (G c) c 0%nat)))) with (c - 1)
    by (unfold with_count; simpl; by rewrite field_wrap_small by lia).
  set (X := with_count (c - 1) (wc n (fupd (G c) c 0%nat))).
  rewrite (wv_self X kNodeValues vs) by (done || lia).
  assert (zlen (values X) = kNodeValues) as HlenV by (simpl; apply zlen_slots; lia).
  rewrite (remove_value_shift a _ X vs c i) by lia.
  replace (i + Z.of_nat (Z.to_nat (c - 1 - i))) with (c - 1) by lia.
  unfold value_destroy. rewrite set_slot_one by lia. f_equal.
  unfold X, n, internal_cell, wc, wv, with_count, with_children, with_values, slots;
    simpl.
  rewrite zlen_remove_at, field_wrap_small by (fold c; lia).
  rewrite !zlen_tabZ by lia. f_equal.
  apply tabZ_ext. intros q Hq. rewrite zget_remove_at by lia. pw.
Qed.

End OneCellKids.


(** * [merge] on canonical cells *)

Section MergePhases.
Context `{P : Params}.

Definition merge_values (a src : nat) (m : memory) : memory :=
  let m := value_init a (count (nd m a)) m in
  let m := value_swap a (count (nd m a)) (parent (nd m a)) (position (nd m a)) m in
  for_up 0 (count (nd m src))
    (fun i m =>
       let m := value_init a (1 + count (nd m a) + i) m in
       let m := value_swap a (1 + count (nd m a) + i) src i m in
       value_destroy src i m) m.

Definition merge_children (a src : nat) (m : memory) : memory :=
  if negb (leaf (nd m a)) then
    for_up 0 (count (nd m src) + 1)
      (fun i m =>
         let m := set_child a (1 + count (nd m a) + i) (child (nd m src) i) m in
         assign_child src i 0%nat m) m
  else m.

Lemma merge_phases a src m :
  merge a src m =
    let m := merge_children a src (merge_values a src m) in
    let m := set_count a (1 + count (nd m a) + count (nd m src)) m in
    let m := set_count src 0 m in
    remove_value (parent (nd m a)) (position (nd m a)) m.
Proof. done. Qed.

Lemma merge_children_leaf l r m :
  leaf (nd m l) = true -> merge_children l r m = m.
Proof. intros H. unfold merge_children. by rewrite H. Qed.

End MergePhases.

Section MergeValues.
Context `{P : Params}.
Variables l r p : nat.
Hypothesis Hlr : l <> r.
Hypothesis Hlp : l <> p.
Hypothesis Hrp : r <> p.
Variable m0 : memory.
Variables L R Pn : btree_node.
Variables lvs rvs pvs : list value_type.
Variable i : Z.
Variable d : value_type.
Hypothesis HLc : count L = zlen lvs.
Hypothesis HLp : parent L = p.
Hypothesis HLi : position L = i.
Hypothesis HRc : count R = zlen rvs.
Hypothesis HLlen : zlen lvs + 1 + zlen rvs <= zlen (values L).
Hypothesis HRlen : zlen rvs <= zlen (values R).
Hypothesis HPlen : zlen pvs <= zlen (values Pn).
Hypothesis Hd : zget pvs i = Some d.

Local Abbreviation S3 := (set3 l r p m0).

(** Values of [merge]: the delimiter and all the values of the right node
    are appended to the left node. *)
Lemma merge_values_spec :
  merge_values l r (S3 (wv L (zget lvs)) (wv R (zget rvs)) (wv Pn (zget pvs))) =
    S3 (wv L (zget (lvs ++ d :: rvs)))
       (wv R (fun _ => None))
       (wv Pn (zget (<[Z.to_nat i := value_type_default]> pvs))).
Proof using All.
  unfold merge_values.
  pose proof (zlen_nonneg lvs). pose proof (zlen_nonneg rvs).
  apply zget_Some_lt in Hd as Hi.
  set (c := zlen lvs) in *. set (cr := zlen rvs) in *.
  rewrite !nd_set3_l by done. rewrite !count_wv, HLc.
  rewrite value_init_l by (try done; lia).
  rewrite !nd_set3_l by done. rewrite ?count_wv, ?parent_wv, ?position_wv.
  rewrite ?HLc, ?HLp, ?HLi.
  rewrite value_swap_lp by (try done; lia).
  rewrite nd_set3_r by done. rewrite count_wv, HRc.
  set (fl := fupd (fupd (zget lvs) c (Some value_type_default)) c (zget pvs i)).
  set (fp := fupd (zget pvs) i (fupd (zget lvs) c (Some value_type_default) c)).
  pose (Fl := fun k q => if (c + 1 <=? q) && (q <? c + 1 + k) then zget rvs (q - c - 1)
                         else fl q).
  pose (Fr := fun k q => if q <? k then None else zget rvs q).
  loop3_is (S3 (wv L (Fl cr)) (wv R (Fr cr)) (wv Pn fp)).
  { apply (for_up_ind (fun k m => m = S3 (wv L (Fl k)) (wv R (Fr k)) (wv Pn fp)));
      [lia| |].
    - apply set3_wv_ext; try done; intros q Hq; unfold Fl, Fr; pw.
    - intros k m Hk ->. cbv zeta. rewrite !nd_set3_l by done.
      rewrite ?count_wv, HLc.
      rewrite value_init_l by (try done; lia).
      rewrite !nd_set3_l by done. rewrite ?count_wv, HLc.
      rewrite value_swap_lr by (try done; lia).
      rewrite value_destroy_r by (try done; lia).
      apply set3_wv_ext; try done; intros q Hq; unfold Fl, Fr, fl; pwf. }
  apply set3_wv_ext; try done; intros q Hq.
  - unfold Fl, fl. rewrite zget_app, zget_cons. fold c. rewrite Hd. pwf.
  - unfold Fr. pw.
  - unfold fp. rewrite zget_insert by lia. pwf.
Qed.

End MergeValues.

Section MergeChildren.
Context `{P : Params}.
Variables l r p : nat.
Hypothesis Hlr : l <> r.
Hypothesis Hlp : l <> p.
Hypothesis Hrp : r <> p.
Variables L R Pn : btree_node.
Variables rks : list nat.
Variables g h : Z -> nat.
Hypothesis HLleaf : leaf L = false.
Hypothesis HLlen : zlen (children L) = kNodeValues + 1.
Hypothesis HRlen : zlen (children R) = kNodeValues + 1.
Hypothesis Hh : forall q y, zget rks q = Some y -> h q = y.
Hypothesis Hrks : zlen rks = count R + 1.
Hypothesis Hl_rks : l ∉ rks.
Hypothesis Hr_rks : r ∉ rks.
Hypothesis Hp_rks : p ∉ rks.
Hypothesis Hnd_r : NoDup rks.

(** Children of [merge]: the children of the right node are appended to
    those of the left node. *)
Lemma merge_children_spec M :
  0 <= count L -> 0 <= count R -> count L + 1 + count R <= kNodeValues ->
  merge_children l r (set3 l r p M (wc L g) (wc R h) Pn) =
    set3 l r p (upd_kids (reparent l) (1 + count L) rks M)
      (wc L (fun q => if (1 + count L <=? q) && (q <=? 1 + count L + count R)
                      then h (q - 1 - count L) else g q))
      (wc R (fun q => if q <=? count R then 0%nat else h q)) Pn.
Proof using All.
  intros HcL HcR Hroom. unfold merge_children.
  rewrite nd_set3_l by done. rewrite leaf_wc, HLleaf. cbn [negb].
  rewrite nd_set3_r by done. rewrite count_wc.
  set (c := count L) in *. set (cr := count R) in *.
  pose (G := fun k q => if (1 + c <=? q) && (q <? 1 + c + k) then h (q - 1 - c) else g q).
  pose (H := fun k q => if q <? k then 0%nat else h q).
  loop3_is (set3 l r p (upd_kids (reparent l) (1 + c) (ztake (cr + 1) rks) M)
              (wc L (G (cr + 1))) (wc R (H (cr + 1))) Pn).
  { apply (for_up_ind
             (fun k m => m = set3 l r p (upd_kids (reparent l) (1 + c) (ztake k rks) M)
                               (wc L (G k)) (wc R (H k)) Pn)); [lia| |].
    - rewrite ztake_0. apply set3_wc_ext; try done; intros q Hq; unfold G, H; pw.
    - intros k m Hk ->. cbv zeta. rewrite nd_set3_l, nd_set3_r by done.
      rewrite count_wc. fold c. rewrite child_wc by lia.
      destruct (zget_is_Some rks k) as [y Hy]; [lia|].
      pose proof (Hh _ _ Hy) as Hhk.
      assert (H k k = y) as -> by (unfold H; rewrite <- Hhk; pw).
      assert (y <> l /\ y <> r /\ y <> p) as (? & ? & ?).
      { apply zget_elem_of in Hy. repeat split; intros ->; done. }
      rewrite set_child_l by (try done; lia).
      rewrite assign_child_r by (try done; lia).
      rewrite (ztake_snoc rks k y), upd_kids_snoc by (try done; lia).
      rewrite zlen_take by lia.
      apply set3_wc_ext; try done; intros q Hq; unfold G, H;
        pwf; rewrite <- Hhk; f_equal; lia. }
  rewrite ztake_all by lia.
  apply set3_wc_ext; try done; intros q Hq; unfold G, H; pw.
Qed.

End MergeChildren.


Section KidsSet3.
Context `{P : Params}.
Variables l r p : nat.
Hypothesis Hlr : l <> r.
Hypothesis Hlp : l <> p.
Hypothesis Hrp : r <> p.

Lemma upd_kids_set3 F ks : forall ofs M L R Pn,
  l ∉ ks -> r ∉ ks -> p ∉ ks ->
  upd_kids F ofs ks (set3 l r p M L R Pn) = set3 l r p (upd_kids F ofs ks M) L R Pn.
Proof using All.
  induction ks as [|k ks IH]; intros ofs M L R Pn Hl Hr Hp; simpl; [done|].
  apply not_elem_of_cons in Hl as [? ?], Hr as [? ?], Hp as [? ?].
  rewrite upd_other_set3 by done. by apply IH.
Qed.

End KidsSet3.

Section CellForms2.
Context `{P : Params}.

Lemma remove_at_insert {A} (i : Z) (x : A) (vs : list A) :
  0 <= i < zlen vs -> remove_at i (<[Z.to_nat i := x]> vs) = remove_at i vs.
Proof using Type.
  intros Hi. apply zget_ext. intros q.
  rewrite !zget_remove_at by (rewrite ?zlen_insert; lia).
  rewrite !zget_insert by lia. pw.
Qed.

Lemma leaf_cell_empty par pos mc vs :
  0 <= mc ->
  with_count 0 (wv (leaf_cell par pos mc vs) (fun _ => None)) = leaf_cell par pos mc [].
Proof using Type.
  intros. unfold with_count, wv, leaf_cell, slots; simpl.
  rewrite zlen_tabZ by lia. unfold field_wrap. rewrite Zmod_0_l.
  f_equal. apply tabZ_ext. intros q Hq. by rewrite zget_nil.
Qed.

Lemma internal_cell_empty par pos vs g rm sz g' :
  with_count 0 (wc (wv (internal_cell par pos vs g rm sz) (fun _ => None)) g') =
    internal_cell par pos [] g' rm sz.
Proof using Type.
  pose proof kNodeValues_pos.
  unfold with_count, wc, wv, internal_cell, slots; simpl.
  rewrite !zlen_tabZ by lia. unfold field_wrap. rewrite Zmod_0_l.
  f_equal. apply tabZ_ext. intros q Hq. by rewrite zget_nil.
Qed.

End CellForms2.

Section MergeCells.
Context `{P : Params}.
Hypothesis Hstatic : static_assert_field.
Variables l r p : nat.
Hypothesis Hlr : l <> r.
Hypothesis Hlp : l <> p.
Hypothesis Hrp : r <> p.
Variable m : memory.
Variables (par : nat) (pos : Z) (rm : nat) (sz : Z).
Variables lvs rvs pvs : list value_type.
Variable gp : Z -> nat.
Variable pka : list nat.
Variables (i : Z) (d : value_type).
Hypothesis Hd : zget pvs i = Some d.
Hypothesis Hpvs : zlen pvs <= kNodeValues.
Hypothesis Hroom : zlen lvs + 1 + zlen rvs <= kNodeValues.
Hypothesis Hcp : cells m !! p = Some (internal_cell par pos pvs gp rm sz).
Hypothesis Hpka : zlen pka = zlen pvs + 1.
Hypothesis Hgp : forall q y, zget pka q = Some y -> gp q = y.
Hypothesis Hp_pka : p ∉ pka.
Hypothesis Hnd_p : NoDup pka.
Hypothesis Hl_pka : zget pka i = Some l.
Hypothesis Hr_pka : zget pka (i + 1) = Some r.

Local Abbreviation gp' :=
  (fun q => if q =? zlen pvs then 0%nat
            else if (i + 1 <=? q) && (q <? zlen pvs) then gp (q + 1) else gp q).

Lemma right_kids_other y : y ∈ zdrop (i + 2) pka -> y <> l /\ y <> r /\ y <> p.
Proof using Hnd_p Hl_pka Hr_pka Hp_pka Hlr Hlp Hrp.
  intros (q & Hq)%elem_of_zget. apply zget_Some_lt in Hl_pka as ?.
  rewrite zget_drop in Hq by lia. destruct (Z.ltb_spec q 0); [done|].
  repeat split; intros ->.
  - pose proof (NoDup_zget_inj _ _ _ _ Hnd_p Hq Hl_pka). lia.
  - pose proof (NoDup_zget_inj _ _ _ _ Hnd_p Hq Hr_pka). lia.
  - apply Hp_pka. by eapply zget_elem_of.
Qed.

Lemma parent_remove M L R x :
  remove_value p i
      (set3 l r p M L R (internal_cell par pos (<[Z.to_nat i := x]> pvs) gp rm sz)) =
    set3 l r p (shift_kids (i + 1) (zdrop (i + 2) pka) M) L R
      (internal_cell par pos (remove_at i pvs) gp' rm sz).
Proof using Hstatic Hlr Hlp Hrp Hd Hpvs Hpka Hgp Hp_pka Hnd_p Hl_pka Hr_pka.
  apply zget_Some_lt in Hd as Hi.
  rewrite (remove_value_internal Hstatic p par pos (<[Z.to_nat i := x]> pvs)
             gp rm sz pka i); rewrite ?zlen_insert; try done; try lia.
  2:{ by apply lookup_set3_p. }
  rewrite remove_at_insert by lia. unfold shift_kids.
  rewrite upd_kids_set3; try done.
  - by rewrite set_p_set3.
  - intros Hin. by destruct (right_kids_other _ Hin) as (? & _).
  - intros Hin. by destruct (right_kids_other _ Hin) as (_ & ? & _).
  - intros Hin. by destruct (right_kids_other _ Hin) as (_ & _ & ?).
Qed.

Lemma merge_leaf :
  cells m !! l = Some (leaf_cell p i kNodeValues lvs) ->
  cells m !! r = Some (leaf_cell p (i + 1) kNodeValues rvs) ->
  merge l r m =
    set3 l r p (shift_kids (i + 1) (zdrop (i + 2) pka) m)
      (leaf_cell p i kNodeValues (lvs ++ d :: rvs))
      (leaf_cell p (i + 1) kNodeValues [])
      (internal_cell par pos (remove_at i pvs) gp' rm sz).
Proof using All.
  intros Hcl Hcr. pose proof kNodeValues_pos as HkN.
  pose proof (zlen_nonneg lvs). pose proof (zlen_nonneg rvs).
  pose proof Hstatic as Hst. unfold static_assert_field in Hst.
  apply zget_Some_lt in Hd as Hi.
  rewrite <- (set3_id l r p m m _ _ _ eq_refl Hcl Hcr Hcp) at 1.
  rewrite merge_phases. cbv zeta.
  rewrite (leaf_cell_wv p i kNodeValues lvs), (leaf_cell_wv p (i + 1) kNodeValues rvs),
    (internal_cell_wv par pos pvs) by lia.
  rewrite (merge_values_spec l r p Hlr Hlp Hrp m _ _ _ lvs rvs pvs i d);
    try done; try (simpl; rewrite zlen_slots by lia; lia).
  rewrite merge_children_leaf by (by rewrite nd_set3_l).
  rewrite nd_set3_l, nd_set3_r by done. rewrite set_count_l by done.
  rewrite set_count_r by done. rewrite nd_set3_l by done.
  rewrite !count_wv. cbn [count parent position leaf_cell with_count wv with_values].
  rewrite leaf_cell_empty by lia.
  rewrite (leaf_cell_final p i kNodeValues lvs);
    rewrite ?zlen_app, ?zlen_cons by lia; try lia.
  rewrite internal_cell_wv_same by apply zlen_insert.
  apply parent_remove.
Qed.

Lemma merge_internal g h rka :
  cells m !! l = Some (internal_cell p i lvs g 0%nat 0) ->
  cells m !! r = Some (internal_cell p (i + 1) rvs h 0%nat 0) ->
  (forall q y, zget rka q = Some y -> h q = y) ->
  zlen rka = zlen rvs + 1 ->
  l ∉ rka -> r ∉ rka -> p ∉ rka -> NoDup rka ->
  merge l r m =
    set3 l r p
      (shift_kids (i + 1) (zdrop (i + 2) pka)
         (upd_kids (reparent l) (1 + zlen lvs) rka m))
      (internal_cell p i (lvs ++ d :: rvs)
         (fun q => if (1 + zlen lvs <=? q) && (q <=? 1 + zlen lvs + zlen rvs)
                   then h (q - 1 - zlen lvs) else g q) 0%nat 0)
      (internal_cell p (i + 1) []
         (fun q => if q <=? zlen rvs then 0%nat else h q) 0%nat 0)
      (internal_cell par pos (remove_at i pvs) gp' rm sz).
Proof using All.
  intros Hcl Hcr Hh Hrka Hl_rka Hr_rka Hp_rka Hnd_r. pose proof kNodeValues_pos as HkN.
  pose proof (zlen_nonneg lvs). pose proof (zlen_nonneg rvs).
  pose proof Hstatic as Hst. unfold static_assert_field in Hst.
  apply zget_Some_lt in Hd as Hi.
  rewrite <- (set3_id l r p m m _ _ _ eq_refl Hcl Hcr Hcp) at 1.
  rewrite merge_phases. cbv zeta.
  rewrite (internal_cell_wv p i lvs), (internal_cell_wv p (i + 1) rvs),
    (internal_cell_wv par pos pvs).
  rewrite (merge_values_spec l r p Hlr Hlp Hrp m _ _ _ lvs rvs pvs i d);
    try done; try (simpl; rewrite zlen_slots by lia; lia).
  rewrite (wv_internal_wc p i lvs g), (wv_internal_wc p (i + 1) rvs h).
  rewrite (merge_children_spec l r p Hlr Hlp Hrp _ _ _ rka);
    try done; try (simpl; rewrite ?zlen_tabZ by lia; lia).
  rewrite nd_set3_l, nd_set3_r by done. rewrite set_count_l by done.
  rewrite set_count_r by done. rewrite nd_set3_l by done.
  rewrite !count_wc, !count_wv.
  cbn [count parent position internal_cell with_count wc wv with_values with_children].
  rewrite internal_cell_empty.
  rewrite (internal_cell_final p i lvs);
    rewrite ?zlen_app, ?zlen_cons by lia; try lia.
  rewrite internal_cell_wv_same by apply zlen_insert.
  apply parent_remove.
Qed.

End MergeCells.


(** * [merge] on trees *)

Section Reposition.
Context `{P : Params}.

Lemma top_cell_reposition par pos rm sz t n j :
  top_cell par pos rm sz t n -> 0 <= j < field_modulus ->
  top_cell par j rm sz t (with_position j n).
Proof.
  intros Htop Hj. destruct t as [a mc vs|a vs cs]; simpl in *.
  - subst n. unfold leaf_cell, with_position; simpl. by rewrite field_wrap_small.
  - destruct Htop as (g & -> & Hg). exists g. split; [|done].
    unfold internal_cell, with_position; simpl. by rewrite field_wrap_small.
Qed.

Lemma rep_at_reposition m m' k par pos j :
  rep_at m par pos 0%nat 0 k -> NoDup (addrs k) ->
  cells m' !! addr k = Some (with_position j (nd m (addr k))) ->
  0 <= j < field_modulus ->
  (forall y, y ∈ addrs k -> y <> addr k -> cells m' !! y = cells m !! y) ->
  rep_at m' par j 0%nat 0 k.
Proof.
  intros Hrep Hnd Hcell Hj Hfr. eapply rep_at_move; [done| |done|done].
  destruct (rep_at_top _ _ _ _ _ _ Hrep) as (n & Hn & Htop).
  exists (with_position j n). rewrite Hcell, (nd_lookup _ _ _ Hn).
  split; [done|]. by eapply top_cell_reposition.
Qed.

Lemma kaddrs_mid2 Ls lt rt Rs :
  kaddrs (Ls ++ lt :: rt :: Rs) = kaddrs Ls ++ addr lt :: addr rt :: kaddrs Rs.
Proof. unfold kaddrs. by rewrite fmap_app. Qed.

Lemma zdrop_mid2 {A} (Ls Rs : list A) x y :
  zdrop (zlen Ls + 2) (Ls ++ x :: y :: Rs) = Rs.
Proof.
  unfold zdrop, zlen. replace (Z.to_nat (Z.of_nat (length Ls) + 2)) with (length Ls + 2)%nat
    by lia.
  rewrite drop_app_add'; [done|done].
Qed.

Lemma zdrop_mid1 {A} (Ls Rs : list A) x :
  zdrop (zlen Ls + 1) (Ls ++ x :: Rs) = Rs.
Proof.
  unfold zdrop, zlen. replace (Z.to_nat (Z.of_nat (length Ls) + 1)) with (length Ls + 1)%nat
    by lia.
  rewrite drop_app_add'; [done|done].
Qed.

End Reposition.


Section MergeRebuild.
Context `{P : Params}.
Hypothesis Hstatic : static_assert_field.

Variables (m : memory) (par : nat) (pos : Z) (rm : nat) (sz : Z).
Variables (p : nat) (pvs : list value_type) (Ls Rs : list atree) (lt rt : atree).
Hypothesis Hrep : rep_at m par pos rm sz (ANode p pvs (Ls ++ lt :: rt :: Rs)).
Hypothesis Hnd : NoDup (addrs (ANode p pvs (Ls ++ lt :: rt :: Rs))).
Hypothesis Hpvs : zlen pvs <= kNodeValues.
Hypothesis Hcs : zlen (Ls ++ lt :: rt :: Rs) = zlen pvs + 1.

Lemma right_sibling_old j c :
  zget Rs j = Some c -> zget (Ls ++ lt :: rt :: Rs) (zlen Ls + 2 + j) = Some c.
Proof using Type.
  intros Hj. apply zget_Some_lt in Hj as ?. pose proof (zlen_nonneg Ls).
  rewrite zget_mid2. pw. rewrite <- Hj. f_equal. lia.
Qed.

Lemma left_sibling_old j c :
  zget Ls j = Some c -> zget (Ls ++ lt :: rt :: Rs) j = Some c.
Proof using Type.
  intros Hj. apply zget_Some_lt in Hj as ?. rewrite zget_mid2. pw.
Qed.

(** Rebuilding the parent after its child number [zlen Ls + 1] is gone:
    the children after it move one place down. *)
Lemma sib_rebuild_merge m' pvs' lt' g' :
  cells m' !! p = Some (internal_cell par pos pvs' g' rm sz) ->
  kids_fn (Ls ++ lt' :: Rs) g' ->
  rep_at m' p (zlen Ls) 0%nat 0 lt' ->
  (forall y, y <> p -> y ∉ addrs lt -> y ∉ addrs rt -> y ∉ kaddrs Rs ->
     cells m' !! y = cells m !! y) ->
  (forall j c, zget Rs j = Some c ->
     cells m' !! addr c = Some (with_position (zlen Ls + 1 + j) (nd m (addr c)))) ->
  rep_at m' par pos rm sz (ANode p pvs' (Ls ++ lt' :: Rs)).
Proof using All.
  intros Hp Hg Hl Hfr HRs. apply rep_at_node. split; [by exists g'|].
  pose proof Hstatic as Hst. unfold static_assert_field in Hst.
  pose proof (zlen_nonneg Ls) as HLs.
  destruct (NoDup_kaddrs _ _ _ Hnd) as (Hndk & Hpk & Hkk).
  destruct (NoDup_node_inv _ _ _ Hnd) as [Hinv1 Hinv2].
  apply rep_at_node in Hrep as [_ Hkids].
  assert (forall y, y ∈ kaddrs Rs -> y ∈ kaddrs (Ls ++ lt :: rt :: Rs)) as Hsub.
  { intros y Hy. rewrite kaddrs_mid2. set_solver. }
  intros q c. rewrite zget_mid1. intros Hq.
  destruct (Z.ltb_spec q (zlen Ls)).
  { pose proof (left_sibling_old _ _ Hq) as Hq'.
    eapply rep_at_frame; [by apply Hkids|]. intros y Hy.
    destruct (sib_other _ _ _ _ _ _ Hnd _ _ _ Hq' ltac:(lia) ltac:(lia) Hy)
      as (? & ? & ?).
    apply Hfr; try done.
    intros (j & c' & Hc' & ->)%elem_of_kaddrs.
    pose proof (Hinv2 _ _ _ _ _ Hq' (right_sibling_old _ _ Hc') Hy (addr_in_addrs c')).
    apply zget_Some_lt in Hc'. lia. }
  destruct (Z.eqb_spec q (zlen Ls)) as [->|Hne]; [by injection Hq as <-|].
  pose proof (right_sibling_old _ _ Hq) as Hq'.
  apply zget_Some_lt in Hq as Hlt.
  rewrite zlen_app, !zlen_cons in Hcs.
  replace q with (zlen Ls + 1 + (q - zlen Ls - 1)) at 1 by lia.
  eapply rep_at_reposition.
  - apply (Hkids _ _ Hq').
  - by destruct (Hinv1 _ _ Hq').
  - by apply HRs.
  - lia.
  - intros y Hy Hneq.
    destruct (sib_other _ _ _ _ _ _ Hnd _ _ _ Hq' ltac:(lia) ltac:(lia) Hy)
      as (? & ? & ?).
    apply Hfr; try done. intros Hin. by apply (Hkk _ _ _ Hq' Hy Hneq), Hsub.
Qed.

End MergeRebuild.


Section MergeRep.
Context `{P : Params}.
Hypothesis Hstatic : static_assert_field.

(** The left sibling after [merge]. *)
Definition merged (lt rt : atree) (d : value_type) : atree :=
  set_content lt (avals lt ++ d :: avals rt) (akids lt ++ akids rt).

Variables (m : memory) (par : nat) (pos : Z) (rm : nat) (sz : Z).
Variables (p : nat) (pvs : list value_type) (Ls Rs : list atree) (lt rt : atree).
Hypothesis Hrep : rep_at m par pos rm sz (ANode p pvs (Ls ++ lt :: rt :: Rs)).
Hypothesis Hnd : NoDup (addrs (ANode p pvs (Ls ++ lt :: rt :: Rs))).
Hypothesis Hokl : node_ok lt.
Hypothesis Hokr : node_ok rt.
Hypothesis Hkind : is_leaf lt = is_leaf rt.
Hypothesis Hpvs : zlen pvs <= kNodeValues.
Hypothesis Hcs : zlen (Ls ++ lt :: rt :: Rs) = zlen pvs + 1.
Variable d : value_type.
Hypothesis Hd : zget pvs (zlen Ls) = Some d.

Local Abbreviation T := (ANode p pvs (Ls ++ lt :: rt :: Rs)).

Lemma merge_rep :
  zlen (avals lt) + 1 + zlen (avals rt) <= kNodeValues ->
  let m' := merge (addr lt) (addr rt) m in
  rep_at m' par pos rm sz
    (ANode p (remove_at (zlen Ls) pvs) (Ls ++ merged lt rt d :: Rs)) /\
  (forall y, y ∉ addrs T -> cells m' !! y = cells m !! y) /\
  next_addr m' = next_addr m /\
  leaf (nd m' (addr rt)) = is_leaf rt /\ count (nd m' (addr rt)) = 0.
Proof using All.
  intros Hroom.
  pose proof (sib_lr _ _ _ _ _ _ Hnd) as Hlr.
  pose proof (sib_lp _ _ _ _ _ _ Hnd) as Hlp.
  pose proof (sib_rp _ _ _ _ _ _ Hnd) as Hrp.
  pose proof (sib_rep_l _ _ _ _ _ _ _ _ _ _ _ Hrep) as Hrl.
  pose proof (sib_rep_r _ _ _ _ _ _ _ _ _ _ _ Hrep) as Hrr.
  destruct (sib_top_p _ _ _ _ _ _ _ _ _ _ _ Hrep) as (gp & Hcp & Hgp).
  pose proof kNodeValues_pos as HkN. pose proof Hstatic as Hst.
  unfold static_assert_field in Hst.
  pose proof (zlen_nonneg Ls) as HLs. pose proof (zlen_nonneg Rs) as HRs.
  apply zget_Some_lt in Hd as Hi.
  destruct (NoDup_kaddrs _ _ _ Hnd) as (Hndk & Hpk & Hkk).
  assert (zdrop (zlen Ls + 2) (kaddrs (Ls ++ lt :: rt :: Rs)) = kaddrs Rs) as Hdrop.
  { rewrite kaddrs_mid2. rewrite <- (zlen_kaddrs Ls). apply zdrop_mid2. }
  assert (NoDup (kaddrs Rs)) as HndRs by (rewrite <- Hdrop; by apply NoDup_zdrop).
  assert (forall y, y ∈ kaddrs Rs -> y ∈ addrs T) as HRsT.
  { intros y Hy. apply kaddrs_sub. rewrite kaddrs_mid2. set_solver. }
  assert (forall y, y ∈ kaddrs Rs -> y <> addr lt /\ y <> addr rt /\ y <> p /\
                      (y ∉ addrs lt) /\ (y ∉ addrs rt)) as HRsfacts.
  { intros y (j & c & Hc & ->)%elem_of_kaddrs.
    pose proof (right_sibling_old Ls Rs lt rt _ _ Hc) as Hc'.
    apply zget_Some_lt in Hc as ?.
    destruct (sib_other _ _ _ _ _ _ Hnd _ _ _ Hc' ltac:(lia) ltac:(lia)
                (addr_in_addrs c)) as (? & Hnl & Hnr).
    repeat split; try done.
    - intros Heq. apply Hnl. rewrite Heq. apply addr_in_addrs.
    - intros Heq. apply Hnr. rewrite Heq. apply addr_in_addrs. }
  assert (zget (kaddrs (Ls ++ lt :: rt :: Rs)) (zlen Ls) = Some (addr lt)) as Hkl_
    by (by rewrite zget_kaddrs, sib_zget_l).
  assert (zget (kaddrs (Ls ++ lt :: rt :: Rs)) (zlen Ls + 1) = Some (addr rt)) as Hkr_
    by (by rewrite zget_kaddrs, sib_zget_r).
  assert (forall g', (forall q, q < zlen Ls + 1 -> g' q = gp q) ->
            (forall q, zlen Ls + 1 <= q < zlen pvs -> g' q = gp (q + 1)) ->
            forall lt', addr lt' = addr lt ->
            kids_fn (Ls ++ lt' :: Rs) g') as Hkids_fn.
  { intros g' Hg1 Hg2 lt' Hlt' q c. rewrite zget_mid1. intros Hq.
    destruct (Z.ltb_spec q (zlen Ls)).
    - rewrite Hg1 by lia. apply Hgp. by apply left_sibling_old.
    - destruct (Z.eqb_spec q (zlen Ls)) as [->|].
      + injection Hq as <-. rewrite Hg1, Hlt' by lia. apply Hgp, sib_zget_l.
      + apply zget_Some_lt in Hq as ?. rewrite zlen_app, !zlen_cons in Hcs.
        rewrite Hg2 by lia. apply Hgp.
        rewrite <- (right_sibling_old Ls Rs lt rt _ _ Hq). f_equal. lia. }
  destruct Hokl as (Hcapl & Hlenl & Hkl), Hokr as (Hcapr & Hlenr & Hkr).
  destruct lt as [l mcl lvs|l lvs lks], rt as [r mcr rvs|r rvs rks]; try done;
    unfold merged, set_content;
    cbn [acap avals akids is_leaf addr] in *; cbv zeta.
  - (* two leaves *)
    subst mcl mcr. apply rep_at_leaf in Hrl, Hrr.
    rewrite (merge_leaf Hstatic l r p Hlr Hlp Hrp m par pos rm sz lvs rvs pvs gp
               (kaddrs (Ls ++ ALeaf l kNodeValues lvs :: ALeaf r kNodeValues rvs :: Rs))
               (zlen Ls) d);
      try done; rewrite ?zlen_kaddrs; try done;
      try (intros q y; by apply kids_fn_kaddrs).
    rewrite Hdrop.
    assert (forall y, y ∉ kaddrs Rs ->
              cells (shift_kids (zlen Ls + 1) (kaddrs Rs) m) !! y = cells m !! y) as HM.
    { intros y Hy. unfold shift_kids. by rewrite lookup_upd_kids_notin. }
    split; [|split; [|split; [|split]]].
    + eapply (sib_rebuild_merge Hstatic _ _ _ _ _ _ _ _ _ _ _ Hrep Hnd Hpvs Hcs).
      * by apply lookup_set3_p.
      * apply Hkids_fn; [|intros q Hq; pw|done]. intros q Hq. pw.
      * apply rep_at_leaf. by apply lookup_set3_l.
      * intros y Hyp Hyl Hyr HyRs. rewrite lookup_set3_other; [by apply HM| | |done].
        -- intros ->. apply Hyl, list_elem_of_here.
        -- intros ->. apply Hyr, list_elem_of_here.
      * intros j c Hc.
        assert (addr c ∈ kaddrs Rs) as Hin.
        { apply (zget_elem_of _ j). by rewrite zget_kaddrs, Hc. }
        destruct (HRsfacts _ Hin) as (? & ? & ? & _).
        rewrite lookup_set3_other by done. unfold shift_kids.
        apply lookup_upd_kids_in; [done|]. by rewrite zget_kaddrs, Hc.
    + intros y Hy. destruct (not_in_T _ _ _ _ _ _ _ Hy) as (Hyp & Hyl & Hyr).
      rewrite lookup_set3_other; [| | |done].
      * apply HM. intros Hin. by apply Hy, HRsT.
      * intros ->. apply Hyl, list_elem_of_here.
      * intros ->. apply Hyr, list_elem_of_here.
    + unfold shift_kids. by rewrite next_addr_set3, next_addr_upd_kids.
    + by rewrite nd_set3_r.
    + by rewrite nd_set3_r.
  - (* two internal nodes *)
    specialize (Hkl eq_refl). specialize (Hkr eq_refl).
    apply rep_at_node in Hrl as [(g & Hcl & Hg) Hlkids].
    apply rep_at_node in Hrr as [(h & Hcr & Hh) Hrkids].
    pose proof (zlen_nonneg lvs). pose proof (zlen_nonneg rvs).
    rewrite (merge_internal Hstatic l r p Hlr Hlp Hrp m par pos rm sz lvs rvs pvs gp
               (kaddrs (Ls ++ ANode l lvs lks :: ANode r rvs rks :: Rs))
               (zlen Ls) d) with (g := g) (h := h) (rka := kaddrs rks);
      try done; rewrite ?zlen_kaddrs; try done;
      try (intros q y; by apply kids_fn_kaddrs);
      eauto using l_notin_rka, r_notin_rka, p_notin_rka, nodup_rka.
    rewrite Hdrop.
    set (M := upd_kids _ _ (kaddrs rks) m).
    assert (forall y, y ∉ kaddrs Rs -> y ∉ kaddrs rks ->
              cells (shift_kids (zlen Ls + 1) (kaddrs Rs) M) !! y = cells m !! y) as HM.
    { intros y Hy1 Hy2. unfold shift_kids, M. by rewrite !lookup_upd_kids_notin. }
    pose proof (nodup_rka _ _ _ _ _ _ _ _ _ _ Hnd) as Hndr.
    split; [|split; [|split; [|split]]].
    + eapply (sib_rebuild_merge Hstatic _ _ _ _ _ _ _ _ _ _ _ Hrep Hnd Hpvs Hcs).
      * by apply lookup_set3_p.
      * apply Hkids_fn; [|intros q Hq; pw|done]. intros q Hq. pw.
      * apply rep_at_node. split.
        { eexists. split; [by apply lookup_set3_l|].
          intros q c. rewrite zget_app. intros Hq.
          destruct (Z.ltb_spec q (zlen lks)).
          - apply zget_Some_lt in Hq as ?. rewrite <- (Hg q c Hq). pw.
          - apply zget_Some_lt in Hq as ?. rewrite <- (Hh _ c Hq). pw. }
        intros q c. rewrite zget_app. intros Hq.
        destruct (Z.ltb_spec q (zlen lks)).
        { eapply rep_at_frame; [by apply Hlkids|]. intros y Hy.
          destruct (kid_l_facts _ _ _ _ _ _ _ _ _ _ Hnd _ _ _ Hq Hy)
            as (? & ? & ? & ? & _).
          rewrite lookup_set3_other by done. apply HM; [|done].
          intros Hin. destruct (HRsfacts _ Hin) as (_ & _ & _ & Hnl & _).
          apply Hnl. by eapply addrs_child. }
        apply zget_Some_lt in Hq as ?.
        eapply rep_at_reparent; [by apply Hrkids| | | |].
        -- by destruct (proj1 (NoDup_node_inv _ _ _ (sib_nodup_r _ _ _ _ _ _ Hnd)) _ _ Hq).
        -- destruct (kid_r_facts _ _ _ _ _ _ _ _ _ _ Hnd _ _ _ Hq (addr_in_addrs c))
             as (? & ? & ? & ? & _).
           rewrite lookup_set3_other by done. unfold shift_kids.
           rewrite lookup_upd_kids_notin.
           2:{ intros Hin. destruct (HRsfacts _ Hin) as (_ & _ & _ & _ & Hnr).
               apply Hnr. eapply addrs_child; [done|apply addr_in_addrs]. }
           unfold M. rewrite (lookup_upd_kids_in _ _ _ _ (q - zlen lks) (addr c)).
           ++ do 2 f_equal. lia.
           ++ done.
           ++ by rewrite zget_kaddrs, Hq.
        -- lia.
        -- intros y Hy Hne.
           destruct (kid_r_facts _ _ _ _ _ _ _ _ _ _ Hnd _ _ _ Hq Hy)
             as (? & ? & ? & ? & Hnot).
           rewrite lookup_set3_other by done. apply HM; [|by apply Hnot].
           intros Hin. destruct (HRsfacts _ Hin) as (_ & _ & _ & _ & Hnr).
           apply Hnr. by eapply addrs_child.
      * intros y Hyp Hyl Hyr HyRs. rewrite lookup_set3_other; [| | |done].
        -- apply HM; [done|]. intros Hin. by apply Hyr, kaddrs_sub.
        -- intros ->. apply Hyl, list_elem_of_here.
        -- intros ->. apply Hyr, list_elem_of_here.
      * intros j c Hc.
        assert (addr c ∈ kaddrs Rs) as Hin.
        { apply (zget_elem_of _ j). by rewrite zget_kaddrs, Hc. }
        destruct (HRsfacts _ Hin) as (? & ? & ? & _ & Hnr).
        rewrite lookup_set3_other by done. unfold shift_kids.
        rewrite (lookup_upd_kids_in _ _ _ _ j (addr c)); [|done|by rewrite zget_kaddrs, Hc].
        unfold M. rewrite nd_upd_kids_notin; [done|].
        intros Hin'. by apply Hnr, kaddrs_sub.
    + intros y Hy. destruct (not_in_T _ _ _ _ _ _ _ Hy) as (Hyp & Hyl & Hyr).
      rewrite lookup_set3_other; [| | |done].
      * apply HM; [|intros Hin; by apply Hyr, kaddrs_sub].
        intros Hin. by apply Hy, HRsT.
      * intros ->. apply Hyl, list_elem_of_here.
      * intros ->. apply Hyr, list_elem_of_here.
    + unfold shift_kids, M. by rewrite next_addr_set3, !next_addr_upd_kids.
    + by rewrite nd_set3_r.
    + by rewrite nd_set3_r.
Qed.

End MergeRep.


(** * [split] on canonical cells *)

Section SplitPhases.
Context `{P : Params}.

(** The number of values that go to the new sibling. *)
Definition split_count (ip c mc : Z) : Z :=
  if ip =? 0 then c - 1 else if ip =? mc then 0 else c / 2.

Definition split_values (a dest : nat) (insert_position : Z) (m : memory) : memory :=
  let m := set_count dest
             (split_count insert_position (count (nd m a)) (max_count (nd m a))) m in
  let m := set_count a (count (nd m a) - count (nd m dest)) m in
  let m := for_up 0 (count (nd m dest))
             (fun i m =>
                let m := value_init dest i m in
                let m := value_swap a (count (nd m a) + i) dest i m in
                value_destroy a (count (nd m a) + i) m) m in
  let m := set_count a (count (nd m a) - 1) m in
  let m := insert_value (parent (nd m a)) (position (nd m a)) value_type_default m in
  let m := value_swap a (count (nd m a)) (parent (nd m a)) (position (nd m a)) m in
  value_destroy a (count (nd m a)) m.

Definition split_children (a dest : nat) (m : memory) : memory :=
  let m := set_child (parent (nd m a)) (position (nd m a) + 1) dest m in
  if negb (leaf (nd m a)) then
    for_up 0 (count (nd m dest) + 1)
      (fun i m =>
         let m := set_child dest i (child (nd m a) (count (nd m a) + i + 1)) m in
         assign_child a (count (nd m a) + i + 1) 0%nat m) m
  else m.

Lemma split_phases a dest ip m :
  split a dest ip m = split_children a dest (split_values a dest ip m).
Proof.
  unfold split, split_children, split_values, split_count.
  destruct (ip =? 0); [done|]. by destruct (ip =? max_count (nd m a)).
Qed.

End SplitPhases.

Section ParentInsert.
Context `{P : Params}.
Hypothesis Hstatic : static_assert_field.
Variables l r p : nat.
Hypothesis Hlr : l <> r.
Hypothesis Hlp : l <> p.
Hypothesis Hrp : r <> p.
Variables (par : nat) (pos : Z) (rm : nat) (sz : Z).
Variable pvs : list value_type.
Variable gp : Z -> nat.
Variable pka : list nat.
Variable i : Z.
Hypothesis Hi : 0 <= i <= zlen pvs.
Hypothesis Hpvs : zlen pvs < kNodeValues.
Hypothesis Hpka : zlen pka = zlen pvs + 1.
Hypothesis Hgp : forall q y, zget pka q = Some y -> gp q = y.
Hypothesis Hp_pka : p ∉ pka.
Hypothesis Hnd_p : NoDup pka.
Hypothesis Hl_pka : l ∉ zdrop (i + 1) pka.
Hypothesis Hr_pka : r ∉ zdrop (i + 1) pka.

Lemma parent_insert M L R x :
  insert_value p i x (set3 l r p M L R (internal_cell par pos pvs gp rm sz)) =
    set3 l r p (shift_kids (i + 2) (zdrop (i + 1) pka) M) L R
      (internal_cell par pos (insert_at i x pvs)
         (fun q => if q <=? i then gp q else if q =? i + 1 then 0%nat
                   else if q <=? zlen pvs + 1 then gp (q - 1) else gp q) rm sz).
Proof using All.
  rewrite (insert_value_internal Hstatic p par pos pvs gp rm sz pka i); try done.
  2:{ by apply lookup_set3_p. }
  unfold shift_kids. rewrite upd_kids_set3; try done.
  - by rewrite set_p_set3.
  - intros Hin%elem_of_zdrop. done.
Qed.

End ParentInsert.


Section Ext2.
Context `{P : Params}.

Lemma set3_wv_ext_lr l r p M L f f' R g g' Pn :
  (forall q, 0 <= q < zlen (values L) -> f q = f' q) ->
  (forall q, 0 <= q < zlen (values R) -> g q = g' q) ->
  set3 l r p M (wv L f) (wv R g) Pn = set3 l r p M (wv L f') (wv R g') Pn.
Proof. intros H1 H2. by rewrite (wv_ext L f f'), (wv_ext R g g'). Qed.

End Ext2.

Section SplitValues.
Context `{P : Params}.
Hypothesis Hstatic : static_assert_field.
Variables l r p : nat.
Hypothesis Hlr : l <> r.
Hypothesis Hlp : l <> p.
Hypothesis Hrp : r <> p.
Variables (par : nat) (pos : Z) (rm : nat) (sz : Z).
Variable pvs : list value_type.
Variable gp : Z -> nat.
Variable pka : list nat.
Variable i : Z.
Hypothesis Hi : 0 <= i <= zlen pvs.
Hypothesis Hpvs : zlen pvs < kNodeValues.
Hypothesis Hpka : zlen pka = zlen pvs + 1.
Hypothesis Hgp : forall q y, zget pka q = Some y -> gp q = y.
Hypothesis Hp_pka : p ∉ pka.
Hypothesis Hnd_p : NoDup pka.
Hypothesis Hl_pka : l ∉ zdrop (i + 1) pka.
Hypothesis Hr_pka : r ∉ zdrop (i + 1) pka.
Variables L R : btree_node.
Variable lvs : list value_type.
Hypothesis HLc : count L = zlen lvs.
Hypothesis HLp : parent L = p.
Hypothesis HLi : position L = i.
Hypothesis HLlen : zlen (values L) = kNodeValues.
Hypothesis HRlen : zlen (values R) = kNodeValues.
Hypothesis Hlvs : zlen lvs <= kNodeValues.

(** Values of [split]: the last [s] values go to the new node, the value
    before them goes up to the parent. *)
Lemma split_values_spec M ip x :
  let s := split_count ip (zlen lvs) (max_count L) in
  0 <= s <= zlen lvs - 1 ->
  zget lvs (zlen lvs - s - 1) = Some x ->
  split_values l r ip
      (set3 l r p M (wv L (zget lvs)) (wv R (fun _ => None))
         (internal_cell par pos pvs gp rm sz)) =
    set3 l r p (shift_kids (i + 2) (zdrop (i + 1) pka) M)
      (wv (with_count (zlen lvs - s - 1) L) (zget (ztake (zlen lvs - s - 1) lvs)))
      (wv (with_count s R) (zget (zdrop (zlen lvs - s) lvs)))
      (internal_cell par pos (insert_at i x pvs)
         (fun q => if q <=? i then gp q else if q =? i + 1 then 0%nat
                   else if q <=? zlen pvs + 1 then gp (q - 1) else gp q) rm sz).
Proof using All.
  intros s Hs Hx. pose proof kNodeValues_pos as HkN.
  pose proof Hstatic as Hst. unfold static_assert_field in Hst.
  pose proof (zlen_nonneg lvs).
  unfold split_values.
  rewrite !nd_set3_l by done. rewrite count_wv, max_count_wv, HLc. fold s.
  rewrite set_count_r by done. rewrite with_count_wv.
  rewrite !nd_set3_l, !nd_set3_r by done. rewrite !count_wv, HLc.
  assert (count (with_count s R) = s) as HcR
    by (unfold with_count; simpl; by rewrite field_wrap_small by lia).
  rewrite HcR. rewrite set_count_l by done. rewrite with_count_wv.
  set (c1 := zlen lvs - s).
  assert (count (with_count c1 L) = c1) as HcL
    by (unfold with_count; simpl; by rewrite field_wrap_small by (unfold c1; lia)).
  rewrite ?nd_set3_r by done. rewrite ?count_wv, ?HcR.
  set (L1 := with_count c1 L) in *. set (R1 := with_count s R) in *.
  set (Pc := internal_cell par pos pvs gp rm sz).
  pose (Fl := fun k q => if (c1 <=? q) && (q <? c1 + k) then None else zget lvs q).
  pose (Fr := fun k q => if (0 <=? q) && (q <? k) then zget lvs (c1 + q) else None).
  loop3_is (set3 l r p M (wv L1 (Fl s)) (wv R1 (Fr s)) Pc).
  { apply (for_up_ind (fun k m => m = set3 l r p M (wv L1 (Fl k)) (wv R1 (Fr k)) Pc));
      [lia| |].
    - apply set3_wv_ext_lr; intros q Hq; unfold Fl, Fr; pw.
    - intros k m Hk ->. cbv zeta.
      rewrite value_init_r by (try done; lia).
      rewrite !nd_set3_l by done. rewrite ?count_wv, HcL.
      rewrite value_swap_lr by (try done; simpl; lia).
      rewrite !nd_set3_l by done. rewrite ?count_wv, HcL.
      rewrite value_destroy_l by (try done; lia).
      apply set3_wv_ext_lr; intros q Hq; unfold Fl, Fr; pwf. }
  rewrite !nd_set3_l by done. rewrite count_wv, HcL.
  rewrite set_count_l by done. rewrite with_count_wv.
  set (c2 := c1 - 1).
  assert (count (with_count c2 L1) = c2) as HcL2
    by (unfold with_count; simpl; by rewrite field_wrap_small by (unfold c2, c1; lia)).
  rewrite !nd_set3_l by done. rewrite ?parent_wv, ?position_wv, ?count_wv.
  change (parent (with_count c2 L1)) with (parent L).
  change (position (with_count c2 L1)) with (position L).
  rewrite HLp, HLi.
  unfold Pc.
  rewrite (parent_insert Hstatic l r p Hlr Hlp Hrp par pos rm sz pvs gp pka i) by done.
  rewrite !nd_set3_l by done. rewrite ?parent_wv, ?position_wv, ?count_wv.
  change (parent (with_count c2 L1)) with (parent L).
  change (position (with_count c2 L1)) with (position L).
  rewrite HLp, HLi, HcL2.
  rewrite (internal_cell_wv par pos (insert_at i value_type_default pvs)).
  rewrite value_swap_lp;
    [|done|done|done|simpl; lia|simpl; rewrite zlen_slots by lia; lia].
  rewrite !nd_set3_l by done. rewrite ?count_wv, HcL2.
  rewrite value_destroy_l by (try done; unfold c2, c1; lia).
  replace (zlen lvs - s - 1) with c2 by (unfold c2, c1; lia).
  change (with_count c2 L1) with (with_count c2 L).
  rewrite <- (internal_cell_wv_same par pos (insert_at i value_type_default pvs) _ rm sz
                (insert_at i x pvs)) by (by rewrite !zlen_insert_at).
  apply set3_wv_ext; try done; intros q Hq.
  - unfold Fl. rewrite zget_take. unfold c2, c1 in *. pwf.
  - unfold Fr. rewrite zget_drop by lia. unfold c1. pwf.
  - unfold Fl, fupd. rewrite !zget_insert_at by lia. unfold c2, c1 in *.
    rewrite <- Hx. pwf.
Qed.

End SplitValues.


Section SetChildParent.
Context `{P : Params}.
Variables l r p : nat.
Hypothesis Hlr : l <> r.
Hypothesis Hlp : l <> p.
Hypothesis Hrp : r <> p.

(** The parent adopts the right one of the three nodes. *)
Lemma set_child_p_r j M L R Pn h :
  0 <= j ->
  set_child p j r (set3 l r p M L R (wc Pn h)) =
    set3 l r p M L (reparent p j R) (wc Pn (fupd h j r)).
Proof using All.
  intros. unfold set_child. rewrite assign_child_p by done.
  rewrite upd_upd, upd_set_cell, nd_set3_r, set_r_set3 by done. done.
Qed.

End SetChildParent.

Section CellForms3.
Context `{P : Params}.
Hypothesis Hstatic : static_assert_field.

Lemma leaf_cell_new par pos mc vs par' j vs' c :
  c = zlen vs' -> 0 <= mc -> zlen vs' < field_modulus -> 0 <= j < field_modulus ->
  reparent par' j (wv (with_count c (leaf_cell par pos mc vs)) (zget vs')) =
    leaf_cell par' j mc vs'.
Proof using Type.
  intros -> Hmc Hlt Hj. pose proof (zlen_nonneg vs').
  unfold reparent, with_position, with_parent, with_count, wv, leaf_cell; simpl.
  rewrite zlen_slots by done. by rewrite !field_wrap_small by lia.
Qed.

Lemma internal_cell_new par pos vs g rm sz par' j vs' g' c :
  c = zlen vs' -> zlen vs' < field_modulus -> 0 <= j < field_modulus ->
  wc (reparent par' j (wv (with_count c (internal_cell par pos vs g rm sz)) (zget vs'))) g' =
    internal_cell par' j vs' g' rm sz.
Proof using Type.
  intros -> Hlt Hj. pose proof (zlen_nonneg vs'). pose proof kNodeValues_pos.
  unfold reparent, with_position, with_parent, with_count, wc, wv, internal_cell; simpl.
  rewrite zlen_slots, zlen_tabZ by lia. by rewrite !field_wrap_small by lia.
Qed.

Lemma leaf_cell_shrunk par pos mc vs vs' c :
  c = zlen vs' -> 0 <= mc -> zlen vs' < field_modulus ->
  wv (with_count c (leaf_cell par pos mc vs)) (zget vs') = leaf_cell par pos mc vs'.
Proof using Type.
  intros. rewrite <- with_count_wv. by apply leaf_cell_final.
Qed.

Lemma internal_cell_shrunk par pos vs g rm sz vs' g' c :
  c = zlen vs' -> zlen vs' < field_modulus ->
  wc (wv (with_count c (internal_cell par pos vs g rm sz)) (zget vs')) g' =
    internal_cell par pos vs' g' rm sz.
Proof using Type.
  intros. rewrite <- with_count_wv. by apply internal_cell_final.
Qed.

Lemma leaf_cell_fresh par pos mc :
  0 <= mc ->
  leaf_cell par pos mc [] = wv (leaf_cell par pos mc []) (fun _ => None).
Proof using Type.
  intros. unfold wv, with_values, leaf_cell, slots; simpl. rewrite zlen_tabZ by lia.
  f_equal. apply tabZ_ext. intros q Hq. by rewrite zget_nil.
Qed.

Lemma internal_cell_fresh par pos g rm sz :
  internal_cell par pos [] g rm sz =
    wv (internal_cell par pos [] g rm sz) (fun _ => None).
Proof using Type.
  pose proof kNodeValues_pos.
  unfold wv, with_values, internal_cell, slots; simpl. rewrite zlen_tabZ by lia.
  f_equal. apply tabZ_ext. intros q Hq. by rewrite zget_nil.
Qed.

End CellForms3.

Section SplitCells.
Context `{P : Params}.
Hypothesis Hstatic : static_assert_field.
Variables l r p : nat.
Hypothesis Hlr : l <> r.
Hypothesis Hlp : l <> p.
Hypothesis Hrp : r <> p.
Variable m : memory.
Variables (par : nat) (pos : Z) (rm : nat) (sz : Z).
Variable pvs : list value_type.
Variable gp : Z -> nat.
Variable pka : list nat.
Variable i : Z.
Hypothesis Hi : 0 <= i <= zlen pvs.
Hypothesis Hpvs : zlen pvs < kNodeValues.
Hypothesis Hpka : zlen pka = zlen pvs + 1.
Hypothesis Hgp : forall q y, zget pka q = Some y -> gp q = y.
Hypothesis Hp_pka : p ∉ pka.
Hypothesis Hnd_p : NoDup pka.
Hypothesis Hl_pka : l ∉ zdrop (i + 1) pka.
Hypothesis Hr_pka : r ∉ zdrop (i + 1) pka.
Hypothesis Hcp : cells m !! p = Some (internal_cell par pos pvs gp rm sz).
Variable lvs : list value_type.
Hypothesis Hlvs : zlen lvs <= kNodeValues.
Variables (ip : Z) (x : value_type) (parx : nat).

Local Abbreviation s := (split_count ip (zlen lvs) kNodeValues).
Local Abbreviation gp' :=
  (fun q => if q <=? i then gp q else if q =? i + 1 then r
            else if q <=? zlen pvs + 1 then gp (q - 1) else gp q).

Hypothesis Hs : 0 <= s <= zlen lvs - 1.
Hypothesis Hx : zget lvs (zlen lvs - s - 1) = Some x.

Lemma split_leaf :
  cells m !! l = Some (leaf_cell p i kNodeValues lvs) ->
  cells m !! r = Some (leaf_cell parx 0 kNodeValues []) ->
  split l r ip m =
    set3 l r p (shift_kids (i + 2) (zdrop (i + 1) pka) m)
      (leaf_cell p i kNodeValues (ztake (zlen lvs - s - 1) lvs))
      (leaf_cell p (i + 1) kNodeValues (zdrop (zlen lvs - s) lvs))
      (internal_cell par pos (insert_at i x pvs) gp' rm sz).
Proof using All.
  intros Hcl Hcr. pose proof kNodeValues_pos as HkN.
  pose proof (zlen_nonneg lvs). pose proof (zlen_nonneg pvs).
  pose proof Hstatic as Hst. unfold static_assert_field in Hst.
  rewrite <- (set3_id l r p m m _ _ _ eq_refl Hcl Hcr Hcp) at 1.
  rewrite split_phases.
  rewrite (leaf_cell_wv p i kNodeValues lvs) by lia.
  rewrite (leaf_cell_fresh parx 0 kNodeValues) by lia.
  rewrite (split_values_spec Hstatic l r p Hlr Hlp Hrp par pos rm sz pvs gp pka i
             Hi Hpvs Hpka Hgp Hp_pka Hnd_p Hl_pka Hr_pka _ _ lvs) with (x := x);
    try done; try (simpl; rewrite zlen_slots by lia; lia).
  change (max_count (leaf_cell p i kNodeValues lvs)) with kNodeValues.
  unfold split_children. cbv zeta.
  rewrite !nd_set3_l by done. rewrite ?parent_wv, ?position_wv, ?leaf_wv.
  cbn [parent position leaf with_count leaf_cell negb].
  rewrite (internal_cell_wc par pos (insert_at i x pvs)).
  rewrite set_child_p_r by (try done; lia).
  rewrite nd_set3_l by done. rewrite leaf_wv. cbn [leaf with_count leaf_cell negb].
  rewrite leaf_cell_shrunk, leaf_cell_new;
    rewrite ?zlen_take, ?zlen_drop by lia; try lia.
  f_equal. unfold wc, with_children, internal_cell; simpl.
  rewrite zlen_tabZ by lia. f_equal.
  apply tabZ_ext. intros q Hq. pwf.
Qed.

Lemma split_internal g h lka :
  cells m !! l = Some (internal_cell p i lvs g 0%nat 0) ->
  cells m !! r = Some (internal_cell parx 0 [] h 0%nat 0) ->
  (forall q y, zget lka q = Some y -> g q = y) ->
  zlen lka = zlen lvs + 1 ->
  l ∉ lka -> r ∉ lka -> p ∉ lka -> NoDup lka ->
  split l r ip m =
    set3 l r p
      (upd_kids (reparent r) 0 (zdrop (zlen lvs - s) lka)
         (shift_kids (i + 2) (zdrop (i + 1) pka) m))
      (internal_cell p i (ztake (zlen lvs - s - 1) lvs)
         (fun q => if (zlen lvs - s <=? q) && (q <=? zlen lvs) then 0%nat else g q)
         0%nat 0)
      (internal_cell p (i + 1) (zdrop (zlen lvs - s) lvs)
         (fun q => if q <=? s then g (zlen lvs - s + q) else h q) 0%nat 0)
      (internal_cell par pos (insert_at i x pvs) gp' rm sz).
Proof using All.
  intros Hcl Hcr Hg Hlka Hl_lka Hr_lka Hp_lka Hnd_l. pose proof kNodeValues_pos as HkN.
  pose proof (zlen_nonneg lvs). pose proof (zlen_nonneg pvs).
  pose proof Hstatic as Hst. unfold static_assert_field in Hst.
  rewrite <- (set3_id l r p m m _ _ _ eq_refl Hcl Hcr Hcp) at 1.
  rewrite split_phases.
  rewrite (internal_cell_wv p i lvs).
  rewrite (internal_cell_fresh parx 0).
  rewrite (split_values_spec Hstatic l r p Hlr Hlp Hrp par pos rm sz pvs gp pka i
             Hi Hpvs Hpka Hgp Hp_pka Hnd_p Hl_pka Hr_pka _ _ lvs) with (x := x);
    try done; try (simpl; rewrite zlen_slots by lia; lia).
  change (max_count (internal_cell p i lvs g 0%nat 0)) with kNodeValues.
  set (c2 := zlen lvs - s - 1).
  replace (zlen lvs - s) with (c2 + 1) by (unfold c2; lia).
  set (sn := s) in *.
  unfold split_children. cbv zeta.
  rewrite !nd_set3_l by done. rewrite ?parent_wv, ?position_wv, ?leaf_wv.
  cbn [parent position leaf with_count internal_cell negb].
  rewrite (internal_cell_wc par pos (insert_at i x pvs)).
  rewrite set_child_p_r by (try done; lia).
  rewrite nd_set3_l by done. rewrite leaf_wv. cbn [leaf with_count internal_cell negb].
  rewrite nd_set3_r by done.
  set (L2 := wv (with_count c2 (internal_cell p i lvs g 0%nat 0)) _).
  set (R2 := reparent p (i + 1) _).
  set (P2 := wc _ _).
  set (M' := shift_kids _ _ m).
  assert (count R2 = sn) as HcR
    by (unfold R2, reparent, with_count; simpl; by rewrite field_wrap_small by lia).
  assert (count L2 = c2) as HcL
    by (unfold L2, with_count; simpl; by rewrite field_wrap_small by (unfold c2; lia)).
  assert (zlen (children L2) = kNodeValues + 1) as HlenL
    by (simpl; apply zlen_tabZ; lia).
  assert (zlen (children R2) = kNodeValues + 1) as HlenR
    by (simpl; apply zlen_tabZ; lia).
  rewrite HcR. rewrite (wc_self L2 g), (wc_self R2 h) by done.
  pose (G := fun k q => if (c2 + 1 <=? q) && (q <? c2 + 1 + k) then 0%nat else g q).
  pose (Hf := fun k q => if q <? k then g (c2 + 1 + q) else h q).
  loop3_is (set3 l r p (upd_kids (reparent r) 0 (ztake (sn + 1) (zdrop (c2 + 1) lka)) M')
              (wc L2 (G (sn + 1))) (wc R2 (Hf (sn + 1))) P2).
  { apply (for_up_ind
             (fun k m1 => m1 = set3 l r p
                                 (upd_kids (reparent r) 0 (ztake k (zdrop (c2 + 1) lka)) M')
                                 (wc L2 (G k)) (wc R2 (Hf k)) P2)); [lia| |].
    - rewrite ztake_0. apply set3_wc_ext; try done; intros q Hq; unfold G, Hf; pw.
    - intros k m1 Hk ->. cbv zeta. rewrite !nd_set3_l by done.
      rewrite count_wc, HcL. rewrite child_wc by (unfold c2 in *; lia).
      destruct (zget_is_Some lka (c2 + k + 1)) as [y Hy]; [unfold c2 in *; lia|].
      pose proof (Hg _ _ Hy) as Hgy.
      assert (G k (c2 + k + 1) = y) as -> by (unfold G; rewrite <- Hgy; pw).
      assert (y <> l /\ y <> r /\ y <> p) as (? & ? & ?).
      { apply zget_elem_of in Hy. repeat split; intros ->; done. }
      rewrite set_child_r by (try done; lia).
      rewrite nd_set3_l by done. rewrite count_wc, HcL.
      rewrite assign_child_l by (try done; unfold c2 in *; lia).
      rewrite (ztake_snoc _ k y), upd_kids_snoc; try lia.
      2:{ rewrite zget_drop by (unfold c2 in *; lia).
          destruct (Z.ltb_spec k 0); [lia|]. rewrite <- Hy. f_equal. lia. }
      rewrite zlen_take by (rewrite zlen_drop by (unfold c2 in *; lia); unfold c2 in *; lia).
      rewrite Z.add_0_l.
      apply set3_wc_ext; try done; intros q Hq; unfold G, Hf;
        pwf; rewrite <- Hgy; f_equal; lia. }
  rewrite ztake_all by (rewrite zlen_drop by (unfold c2 in *; lia); unfold c2 in *; lia).
  unfold L2, R2, P2.
  rewrite internal_cell_shrunk, internal_cell_new;
    rewrite ?zlen_take, ?zlen_drop by (unfold c2 in *; lia);
    try (unfold c2 in *; lia).
  f_equal.
  - unfold internal_cell. f_equal. apply tabZ_ext. intros q Hq. unfold G, c2. pw.
  - unfold internal_cell. f_equal. apply tabZ_ext. intros q Hq. unfold Hf, c2. pw.
  - unfold wc, with_children, internal_cell; simpl.
    rewrite zlen_tabZ by lia. f_equal.
    apply tabZ_ext. intros q Hq. pwf.
Qed.

End SplitCells.


(** * [split] on trees *)

Section OneChild.
Context `{P : Params}.
Hypothesis Hstatic : static_assert_field.

Variables (m : memory) (par : nat) (pos : Z) (rm : nat) (sz : Z).
Variables (p : nat) (pvs : list value_type) (Ls Rs : list atree) (lt : atree).
Hypothesis Hrep : rep_at m par pos rm sz (ANode p pvs (Ls ++ lt :: Rs)).
Hypothesis Hnd : NoDup (addrs (ANode p pvs (Ls ++ lt :: Rs))).
Hypothesis Hpvs : zlen pvs < kNodeValues.
Hypothesis Hcs : zlen (Ls ++ lt :: Rs) = zlen pvs + 1.

Lemma one_zget : zget (Ls ++ lt :: Rs) (zlen Ls) = Some lt.
Proof using Type. rewrite zget_mid1. pw. Qed.

Lemma one_rep : rep_at m p (zlen Ls) 0%nat 0 lt.
Proof using Hrep. apply rep_at_node in Hrep as [_ Hk]. apply Hk, one_zget. Qed.

Lemma one_nodup : NoDup (addrs lt).
Proof using Hnd. by destruct (proj1 (NoDup_node_inv _ _ _ Hnd) _ _ one_zget). Qed.

Lemma one_p : p ∉ addrs lt.
Proof using Hnd. by destruct (proj1 (NoDup_node_inv _ _ _ Hnd) _ _ one_zget). Qed.

Lemma one_lp : addr lt <> p.
Proof using Hnd. intros Heq. apply one_p. rewrite <- Heq. apply addr_in_addrs. Qed.

Lemma one_other q c y :
  zget (Ls ++ lt :: Rs) q = Some c -> q <> zlen Ls ->
  y ∈ addrs c -> y <> p /\ (y ∉ addrs lt).
Proof using Hnd.
  intros Hq Hq1 Hy. destruct (NoDup_node_inv _ _ _ Hnd) as [H1 H2]. split.
  - intros ->. by destruct (H1 _ _ Hq).
  - intros Hl. by pose proof (H2 _ _ _ _ _ Hq one_zget Hy Hl).
Qed.

Lemma one_top_p :
  exists g, cells m !! p = Some (internal_cell par pos pvs g rm sz) /\
            kids_fn (Ls ++ lt :: Rs) g.
Proof using Hrep. by apply rep_at_node in Hrep as [? _]. Qed.

Lemma one_right_old j c :
  zget Rs j = Some c -> zget (Ls ++ lt :: Rs) (zlen Ls + 1 + j) = Some c.
Proof using Type.
  intros Hj. apply zget_Some_lt in Hj as ?. pose proof (zlen_nonneg Ls).
  rewrite zget_mid1. pw. rewrite <- Hj. f_equal. lia.
Qed.

Lemma one_left_old j c :
  zget Ls j = Some c -> zget (Ls ++ lt :: Rs) j = Some c.
Proof using Type.
  intros Hj. apply zget_Some_lt in Hj as ?. rewrite zget_mid1. pw.
Qed.

Lemma kaddrs_mid1 : kaddrs (Ls ++ lt :: Rs) = kaddrs Ls ++ addr lt :: kaddrs Rs.
Proof using Type. unfold kaddrs. by rewrite fmap_app. Qed.

Lemma one_drop : zdrop (zlen Ls + 1) (kaddrs (Ls ++ lt :: Rs)) = kaddrs Rs.
Proof using Type. rewrite kaddrs_mid1. rewrite <- (zlen_kaddrs Ls). apply zdrop_mid1. Qed.

Lemma one_Rs_facts y :
  y ∈ kaddrs Rs -> y <> addr lt /\ y <> p /\ (y ∉ addrs lt) /\ y ∈ addrs (ANode p pvs (Ls ++ lt :: Rs)).
Proof using Hnd.
  intros (j & c & Hc & ->)%elem_of_kaddrs.
  pose proof (one_right_old _ _ Hc) as Hc'.
  apply zget_Some_lt in Hc as ?.
  destruct (one_other _ _ _ Hc' ltac:(lia) (addr_in_addrs c)) as (? & Hnl).
  repeat split; try done.
  - intros Heq. apply Hnl. rewrite Heq. apply addr_in_addrs.
  - by eapply kid_addr_in.
Qed.

(** Rebuilding the parent after a new child came in at [zlen Ls + 1]:
    the children after it move one place up. *)
Lemma sib_rebuild_split m' pvs' lt' rt' g' :
  cells m' !! p = Some (internal_cell par pos pvs' g' rm sz) ->
  kids_fn (Ls ++ lt' :: rt' :: Rs) g' ->
  rep_at m' p (zlen Ls) 0%nat 0 lt' ->
  rep_at m' p (zlen Ls + 1) 0%nat 0 rt' ->
  (forall y, y <> p -> y ∉ addrs lt -> y ∉ kaddrs Rs ->
     y ∈ addrs (ANode p pvs (Ls ++ lt :: Rs)) -> cells m' !! y = cells m !! y) ->
  (forall j c, zget Rs j = Some c ->
     cells m' !! addr c = Some (with_position (zlen Ls + 2 + j) (nd m (addr c)))) ->
  rep_at m' par pos rm sz (ANode p pvs' (Ls ++ lt' :: rt' :: Rs)).
Proof using All.
  intros Hp Hg Hl Hr Hfr HRs. apply rep_at_node. split; [by exists g'|].
  pose proof Hstatic as Hst. unfold static_assert_field in Hst.
  pose proof (zlen_nonneg Ls) as HLs.
  destruct (NoDup_kaddrs _ _ _ Hnd) as (Hndk & Hpk & Hkk).
  destruct (NoDup_node_inv _ _ _ Hnd) as [Hinv1 Hinv2].
  apply rep_at_node in Hrep as [_ Hkids].
  assert (forall y, y ∈ kaddrs Rs -> y ∈ kaddrs (Ls ++ lt :: Rs)) as Hsub.
  { intros y Hy. rewrite kaddrs_mid1. set_solver. }
  intros q c. rewrite zget_mid2. intros Hq.
  destruct (Z.ltb_spec q (zlen Ls)).
  { pose proof (one_left_old _ _ Hq) as Hq'.
    eapply rep_at_frame; [by apply Hkids|]. intros y Hy.
    destruct (one_other _ _ _ Hq' ltac:(lia) Hy) as (? & ?).
    apply Hfr; try done; [|by eapply addrs_child].
    intros (j & c' & Hc' & ->)%elem_of_kaddrs.
    pose proof (Hinv2 _ _ _ _ _ Hq' (one_right_old _ _ Hc') Hy (addr_in_addrs c')).
    apply zget_Some_lt in Hc'. lia. }
  destruct (Z.eqb_spec q (zlen Ls)) as [->|Hne]; [by injection Hq as <-|].
  destruct (Z.eqb_spec q (zlen Ls + 1)) as [->|Hne1]; [by injection Hq as <-|].
  pose proof (one_right_old _ _ Hq) as Hq'.
  apply zget_Some_lt in Hq as Hlt.
  rewrite zlen_app, !zlen_cons in Hcs.
  replace q with (zlen Ls + 2 + (q - zlen Ls - 2)) at 1 by lia.
  eapply rep_at_reposition.
  - apply (Hkids _ _ Hq').
  - by destruct (Hinv1 _ _ Hq').
  - by apply HRs.
  - lia.
  - intros y Hy Hneq.
    destruct (one_other _ _ _ Hq' ltac:(lia) Hy) as (? & ?).
    apply Hfr; try done; [|by eapply addrs_child].
    intros Hin. by apply (Hkk _ _ _ Hq' Hy Hneq), Hsub.
Qed.

End OneChild.


Section OneInternal.
Context `{P : Params}.
Variables (p : nat) (pvs : list value_type) (Ls Rs : list atree).
Variables (l : nat) (lvs : list value_type) (lks : list atree).
Local Abbreviation lt := (ANode l lvs lks).
Hypothesis Hnd : NoDup (addrs (ANode p pvs (Ls ++ lt :: Rs))).

Lemma kid_one_facts q c y :
  zget lks q = Some c -> y ∈ addrs c ->
  y <> l /\ y <> p /\ (y ∉ kaddrs Rs) /\
  y ∈ addrs (ANode p pvs (Ls ++ lt :: Rs)) /\
  (y <> addr c -> y ∉ kaddrs lks).
Proof using Hnd.
  intros Hq Hy.
  pose proof (one_nodup _ _ _ _ _ Hnd) as Hndl.
  assert (y ∈ addrs lt) as Hyl by (by eapply addrs_child).
  repeat split.
  - intros ->. by destruct (proj1 (NoDup_node_inv _ _ _ Hndl) _ _ Hq).
  - intros ->. by apply (one_p _ _ _ _ _ Hnd).
  - intros Hin. by destruct (one_Rs_facts _ _ _ _ _ Hnd _ Hin) as (_ & _ & ? & _).
  - eapply addrs_child; [apply one_zget|done].
  - intros Hne. by eapply (proj2 (proj2 (NoDup_kaddrs _ _ _ Hndl))).
Qed.

Lemma l_notin_lka1 : l ∉ kaddrs lks.
Proof using Hnd.
  intros (q & c & Hc & Heq)%elem_of_kaddrs.
  destruct (kid_one_facts q c (addr c) Hc (addr_in_addrs c)) as (? & _). done.
Qed.
Lemma p_notin_lka1 : p ∉ kaddrs lks.
Proof using Hnd.
  intros (q & c & Hc & Heq)%elem_of_kaddrs.
  destruct (kid_one_facts q c (addr c) Hc (addr_in_addrs c)) as (_ & ? & _). done.
Qed.
Lemma nodup_lka1 : NoDup (kaddrs lks).
Proof using Hnd. by destruct (NoDup_kaddrs _ _ _ (one_nodup _ _ _ _ _ Hnd)). Qed.
Lemma lka1_in_T y : y ∈ kaddrs lks -> y ∈ addrs (ANode p pvs (Ls ++ lt :: Rs)).
Proof using Type.
  intros Hin. eapply addrs_child; [apply one_zget|]. by apply kaddrs_sub.
Qed.

End OneInternal.

Section SplitRep.
Context `{P : Params}.
Hypothesis Hstatic : static_assert_field.

(** The node and its new right sibling after [split] moved [s] values. *)
Definition split_left (lt : atree) (s : Z) : atree :=
  set_content lt (ztake (zlen (avals lt) - s - 1) (avals lt))
    (ztake (zlen (avals lt) - s) (akids lt)).
Definition split_right (r : nat) (lt : atree) (s : Z) : atree :=
  match lt with
  | ALeaf _ mc vs => ALeaf r mc (zdrop (zlen vs - s) vs)
  | ANode _ vs ks => ANode r (zdrop (zlen vs - s) vs) (zdrop (zlen vs - s) ks)
  end.

(** The cell of a node that [new_leaf_node] or [new_internal_node] made. *)
Definition fresh_cell (is_leaf : bool) (n : btree_node) : Prop :=
  if is_leaf then exists parx, n = leaf_cell parx 0 kNodeValues []
  else exists parx h, n = internal_cell parx 0 [] h 0%nat 0.

Variables (m : memory) (par : nat) (pos : Z) (rm : nat) (sz : Z).
Variables (p : nat) (pvs : list value_type) (Ls Rs : list atree) (lt : atree).
Hypothesis Hrep : rep_at m par pos rm sz (ANode p pvs (Ls ++ lt :: Rs)).
Hypothesis Hnd : NoDup (addrs (ANode p pvs (Ls ++ lt :: Rs))).
Hypothesis Hpvs : zlen pvs < kNodeValues.
Hypothesis Hcs : zlen (Ls ++ lt :: Rs) = zlen pvs + 1.
Hypothesis Hok : node_ok lt.
Variable r : nat.
Variable R0 : btree_node.
Hypothesis Hr : r ∉ addrs (ANode p pvs (Ls ++ lt :: Rs)).
Hypothesis Hcr : cells m !! r = Some R0.
Hypothesis HR0 : fresh_cell (is_leaf lt) R0.

Local Abbreviation T := (ANode p pvs (Ls ++ lt :: Rs)).

Lemma split_rep ip x :
  let s := split_count ip (zlen (avals lt)) kNodeValues in
  0 <= s <= zlen (avals lt) - 1 ->
  zget (avals lt) (zlen (avals lt) - s - 1) = Some x ->
  let m' := split (addr lt) r ip m in
  rep_at m' par pos rm sz
    (ANode p (insert_at (zlen Ls) x pvs)
       (Ls ++ split_left lt s :: split_right r lt s :: Rs)) /\
  (forall y, y ∉ addrs T -> y <> r -> cells m' !! y = cells m !! y) /\
  next_addr m' = next_addr m.
Proof using All.
  intros s Hs Hx.
  pose proof (one_lp _ _ _ _ _ Hnd) as Hlp.
  pose proof (one_rep _ _ _ _ _ _ _ _ _ _ Hrep) as Hrl.
  destruct (one_top_p _ _ _ _ _ _ _ _ _ _ Hrep) as (gp & Hcp & Hgp).
  pose proof kNodeValues_pos as HkN. pose proof Hstatic as Hst.
  unfold static_assert_field in Hst.
  pose proof (zlen_nonneg Ls) as HLs. pose proof (zlen_nonneg Rs) as HRs.
  assert (r <> p) as Hrp by (intros ->; apply Hr, (addr_in_addrs T)).
  assert (addr lt ∈ addrs T) as HlT by (eapply kid_addr_in, one_zget).
  assert (addr lt <> r) as Hlr by (by intros <-).
  pose proof (one_drop Ls Rs lt) as Hdrop.
  destruct (NoDup_kaddrs _ _ _ Hnd) as (Hndk & Hpk & Hkk).
  assert (NoDup (kaddrs Rs)) as HndRs by (rewrite <- Hdrop; by apply NoDup_zdrop).
  assert (zlen Ls <= zlen pvs) as Hi.
  { rewrite zlen_app, zlen_cons in Hcs. lia. }
  assert (addr lt ∉ kaddrs Rs) as Hl_Rs.
  { intros Hin. by destruct (one_Rs_facts _ _ _ _ _ Hnd _ Hin). }
  assert (r ∉ kaddrs Rs) as Hr_Rs.
  { intros Hin. by destruct (one_Rs_facts _ _ _ _ _ Hnd _ Hin) as (_ & _ & _ & ?). }
  assert (forall g' lt' rt', (forall q, q <= zlen Ls -> g' q = gp q) ->
            g' (zlen Ls + 1) = r ->
            (forall q, zlen Ls + 1 < q <= zlen pvs + 1 -> g' q = gp (q - 1)) ->
            addr lt' = addr lt -> addr rt' = r ->
            kids_fn (Ls ++ lt' :: rt' :: Rs) g') as Hkids_fn.
  { intros g' lt' rt' Hg1 Hg2 Hg3 Hlt' Hrt' q c. rewrite zget_mid2. intros Hq.
    destruct (Z.ltb_spec q (zlen Ls)).
    - rewrite Hg1 by lia. apply Hgp. by apply one_left_old.
    - destruct (Z.eqb_spec q (zlen Ls)) as [->|].
      + injection Hq as <-. rewrite Hg1, Hlt' by lia. apply Hgp, one_zget.
      + destruct (Z.eqb_spec q (zlen Ls + 1)) as [->|].
        * injection Hq as <-. by rewrite Hg2, Hrt'.
        * apply zget_Some_lt in Hq as ?. rewrite zlen_app, !zlen_cons in Hcs.
          rewrite Hg3 by lia. apply Hgp.
          rewrite <- (one_right_old Ls Rs lt _ _ Hq). f_equal. lia. }
  assert (forall M, (forall y, y ∈ kaddrs Rs -> nd M y = nd m y) ->
            forall L R Pn j c, zget Rs j = Some c ->
              cells (set3 (addr lt) r p (shift_kids (zlen Ls + 2) (kaddrs Rs) M) L R Pn)
                !! addr c = Some (with_position (zlen Ls + 2 + j) (nd m (addr c))))
    as HRs_cells.
  { intros M HM L R Pn j c Hc.
    assert (addr c ∈ kaddrs Rs) as Hin.
    { apply (zget_elem_of _ j). by rewrite zget_kaddrs, Hc. }
    destruct (one_Rs_facts _ _ _ _ _ Hnd _ Hin) as (? & ? & _ & ?).
    rewrite lookup_set3_other;
      [|done|intros Heq; apply Hr; by rewrite <- Heq|done].
    unfold shift_kids.
    rewrite (lookup_upd_kids_in _ _ _ _ j (addr c)); [|done|by rewrite zget_kaddrs, Hc].
    by rewrite HM. }
  destruct Hok as (Hcap & Hlen & Hk).
  destruct lt as [l mcl lvs|l lvs lks];
    unfold split_left, split_right, set_content, fresh_cell in *;
    cbn [acap avals akids is_leaf addr] in *; cbv zeta.
  - (* a leaf *)
    subst mcl. apply rep_at_leaf in Hrl. destruct HR0 as (parx & ->).
    rewrite (split_leaf Hstatic l r p Hlr Hlp Hrp m par pos rm sz pvs gp
               (kaddrs (Ls ++ ALeaf l kNodeValues lvs :: Rs)) (zlen Ls))
      with (x := x) (parx := parx) (lvs := lvs) (ip := ip);
      try done; rewrite ?Hdrop, ?zlen_kaddrs; try done; try lia;
      try (intros q y; by apply kids_fn_kaddrs).
    fold s.
    assert (forall y, y ∉ kaddrs Rs ->
              cells (shift_kids (zlen Ls + 2) (kaddrs Rs) m) !! y = cells m !! y) as HM.
    { intros y Hy. unfold shift_kids. by rewrite lookup_upd_kids_notin. }
    split; [|split].
    + eapply (sib_rebuild_split Hstatic _ _ _ _ _ _ _ _ _ _ Hrep Hnd Hpvs Hcs).
      * by apply lookup_set3_p.
      * apply Hkids_fn; try done; try (intros q Hq); pw.
      * apply rep_at_leaf. by apply lookup_set3_l.
      * apply rep_at_leaf. by apply lookup_set3_r.
      * intros y Hyp Hyl HyRs HyT. rewrite lookup_set3_other; [by apply HM| | |done].
        -- intros ->. apply Hyl, list_elem_of_here.
        -- by intros ->.
      * by apply HRs_cells.
    + intros y Hy Hyr. rewrite lookup_set3_other; [| |done|].
      * apply HM. intros Hin.
        by destruct (one_Rs_facts _ _ _ _ _ Hnd _ Hin) as (_ & _ & _ & ?).
      * intros ->. by apply Hy.
      * intros ->. apply Hy, (addr_in_addrs (ANode p pvs _)).
    + unfold shift_kids. by rewrite next_addr_set3, next_addr_upd_kids.
  - (* an internal node *)
    specialize (Hk eq_refl). destruct HR0 as (parx & h & ->).
    apply rep_at_node in Hrl as [(g & Hcl & Hg) Hlkids].
    pose proof (zlen_nonneg lvs).
    assert (r ∉ kaddrs lks) as Hr_lka.
    { intros Hin. by apply Hr, (lka1_in_T p pvs Ls Rs l lvs lks). }
    pose proof (nodup_lka1 _ _ _ _ _ _ _ Hnd) as Hndl.
    rewrite (split_internal Hstatic l r p Hlr Hlp Hrp m par pos rm sz pvs gp
               (kaddrs (Ls ++ ANode l lvs lks :: Rs)) (zlen Ls))
      with (x := x) (parx := parx) (g := g) (h := h) (lka := kaddrs lks)
           (lvs := lvs) (ip := ip);
      try done; rewrite ?Hdrop, ?zlen_kaddrs; try done; try lia;
      try (intros q y; by apply kids_fn_kaddrs);
      eauto using l_notin_lka1, p_notin_lka1.
    fold s.
    set (k := zlen lvs - s).
    assert (forall y, y ∉ kaddrs Rs -> y ∉ zdrop k (kaddrs lks) ->
              cells (upd_kids (reparent r) 0 (zdrop k (kaddrs lks))
                       (shift_kids (zlen Ls + 2) (kaddrs Rs) m)) !! y = cells m !! y) as HM.
    { intros y Hy1 Hy2. unfold shift_kids. by rewrite !lookup_upd_kids_notin. }
    split; [|split].
    + eapply (sib_rebuild_split Hstatic _ _ _ _ _ _ _ _ _ _ Hrep Hnd Hpvs Hcs).
      * by apply lookup_set3_p.
      * apply Hkids_fn; try done; try (intros q Hq); pw.
      * (* the left node *)
        apply rep_at_node. split.
        { eexists. split; [by apply lookup_set3_l|].
          intros q c. rewrite zget_take. intros Hq.
          destruct (Z.ltb_spec q k); [|done].
          apply zget_Some_lt in Hq as ?. rewrite <- (Hg q c Hq). unfold k in *. pw. }
        intros q c. rewrite zget_take. intros Hq.
        destruct (Z.ltb_spec q k); [|done].
        eapply rep_at_frame; [by apply Hlkids|]. intros y Hy.
        destruct (kid_one_facts _ _ _ _ _ _ _ Hnd _ _ _ Hq Hy)
          as (? & ? & ? & HyT & Hnot).
        rewrite lookup_set3_other; [|done|by intros ->|done].
        apply HM; [done|].
        destruct (decide (y = addr c)) as [->|Hne].
        -- apply (NoDup_ztake_zdrop _ k _ Hndl). apply (zget_elem_of _ q).
           rewrite zget_take, zget_kaddrs, Hq.
           by destruct (Z.ltb_spec q k); [|lia].
        -- intros Hin%elem_of_zdrop. by apply Hnot.
      * (* the new node *)
        apply rep_at_node. split.
        { eexists. split; [by apply lookup_set3_r|].
          intros q c. rewrite zget_drop by (unfold k; lia). intros Hq.
          destruct (Z.ltb_spec q 0); [done|].
          apply zget_Some_lt in Hq as ?. rewrite <- (Hg _ c Hq). unfold k in *. pw. }
        intros q c. rewrite zget_drop by (unfold k; lia). intros Hq.
        destruct (Z.ltb_spec q 0); [done|].
        apply zget_Some_lt in Hq as ?.
        eapply rep_at_reparent; [by apply Hlkids| | | |].
        -- by destruct (proj1 (NoDup_node_inv _ _ _ (one_nodup _ _ _ _ _ Hnd)) _ _ Hq).
        -- destruct (kid_one_facts _ _ _ _ _ _ _ Hnd _ _ _ Hq (addr_in_addrs c))
             as (? & ? & ? & HyT & _).
           rewrite lookup_set3_other;
             [|done|intros Heq; apply Hr; by rewrite <- Heq|done].
           rewrite (lookup_upd_kids_in _ _ _ _ q (addr c)).
           ++ unfold shift_kids. rewrite nd_upd_kids_notin by done. do 2 f_equal.
           ++ by apply NoDup_zdrop.
           ++ rewrite zget_drop, zget_kaddrs, Hq by (unfold k; lia).
              by destruct (Z.ltb_spec q 0); [lia|].
        -- unfold k in *. lia.
        -- intros y Hy Hne.
           destruct (kid_one_facts _ _ _ _ _ _ _ Hnd _ _ _ Hq Hy)
             as (? & ? & ? & HyT & Hnot).
           rewrite lookup_set3_other; [|done|by intros ->|done].
           apply HM; [done|]. intros Hin%elem_of_zdrop. by apply Hnot.
      * intros y Hyp Hyl HyRs HyT. rewrite lookup_set3_other; [| | |done].
        -- apply HM; [done|]. intros Hin%elem_of_zdrop. by apply Hyl, kaddrs_sub.
        -- intros ->. apply Hyl, list_elem_of_here.
        -- by intros ->.
      * intros j c Hc.
        assert (addr c ∈ kaddrs Rs) as Hin.
        { apply (zget_elem_of _ j). by rewrite zget_kaddrs, Hc. }
        destruct (one_Rs_facts _ _ _ _ _ Hnd _ Hin) as (? & ? & Hnl & ?).
        rewrite lookup_set3_other;
          [|done|intros Heq; apply Hr; by rewrite <- Heq|done].
        rewrite lookup_upd_kids_notin.
        2:{ intros Hin'%elem_of_zdrop. by apply Hnl, kaddrs_sub. }
        unfold shift_kids.
        by rewrite (lookup_upd_kids_in _ _ _ _ j (addr c));
          [|done|by rewrite zget_kaddrs, Hc].
    + intros y Hy Hyr. rewrite lookup_set3_other; [| |done|].
      * apply HM.
        -- intros Hin. by destruct (one_Rs_facts _ _ _ _ _ Hnd _ Hin) as (_ & _ & _ & ?).
        -- intros Hin%elem_of_zdrop. by apply Hy, (lka1_in_T p pvs Ls Rs l lvs lks).
      * intros ->. by apply Hy.
      * intros ->. apply Hy, (addr_in_addrs (ANode p pvs _)).
    + unfold shift_kids. by rewrite next_addr_set3, !next_addr_upd_kids.
Qed.

End SplitRep.


(** * [swap] on canonical cells *)

Section TwoCells.
Context `{P : Params}.
Variables a x : nat.
Hypothesis Hax : a <> x.

(** The store with the cells of two nodes replaced. *)
Definition set2 (M : memory) (An Xn : btree_node) : memory :=
  set_cell x Xn (set_cell a An M).

Lemma nd_set2_a M An Xn : nd (set2 M An Xn) a = An.
Proof using All. unfold set2. by rewrite nd_set_cell_ne, nd_set_cell_eq by done. Qed.
Lemma nd_set2_x M An Xn : nd (set2 M An Xn) x = Xn.
Proof using Type. unfold set2. by rewrite nd_set_cell_eq. Qed.
Lemma lookup_set2_a M An Xn : cells (set2 M An Xn) !! a = Some An.
Proof using All.
  unfold set2. by rewrite lookup_set_cell_ne, lookup_set_cell_eq by done.
Qed.
Lemma lookup_set2_x M An Xn : cells (set2 M An Xn) !! x = Some Xn.
Proof using Type. unfold set2. by rewrite lookup_set_cell_eq. Qed.
Lemma lookup_set2_other M An Xn y :
  y <> a -> y <> x -> cells (set2 M An Xn) !! y = cells M !! y.
Proof using Type. intros. unfold set2. by rewrite !lookup_set_cell_ne by done. Qed.
Lemma next_addr_set2 M An Xn : next_addr (set2 M An Xn) = next_addr M.
Proof using Type. done. Qed.

Lemma set_a_set2 An' M An Xn : set_cell a An' (set2 M An Xn) = set2 M An' Xn.
Proof using All.
  unfold set2. rewrite (set_cell_comm a x) by done. by rewrite set_cell_set_cell.
Qed.
Lemma set_x_set2 Xn' M An Xn : set_cell x Xn' (set2 M An Xn) = set2 M An Xn'.
Proof using Type. unfold set2. by rewrite set_cell_set_cell. Qed.

Lemma set2_id m An Xn :
  cells m !! a = Some An -> cells m !! x = Some Xn -> set2 m An Xn = m.
Proof using Type.
  intros Ha Hx. unfold set2. rewrite (set_cell_id a An m Ha). by apply set_cell_id.
Qed.

Lemma upd_a_set2 f M An Xn : upd a f (set2 M An Xn) = set2 M (f An) Xn.
Proof using All. by rewrite upd_set_cell, nd_set2_a, set_a_set2. Qed.
Lemma upd_x_set2 f M An Xn : upd x f (set2 M An Xn) = set2 M An (f Xn).
Proof using All. by rewrite upd_set_cell, nd_set2_x, set_x_set2. Qed.
Lemma upd_other_set2 y f M An Xn :
  y <> a -> y <> x -> upd y f (set2 M An Xn) = set2 (upd y f M) An Xn.
Proof using Type.
  intros. unfold set2. rewrite !upd_set_cell, !nd_set_cell_ne by done.
  rewrite (set_cell_comm y x), (set_cell_comm y a) by done. done.
Qed.

Lemma set_slot_a2 i v M An f Xn :
  0 <= i -> set_slot a i v (set2 M (wv An f) Xn) = set2 M (wv An (fupd f i v)) Xn.
Proof using All.
  intros. unfold set_slot. rewrite upd_a_set2. by rewrite set_value_wv.
Qed.
Lemma set_slot_x2 i v M An Xn g :
  0 <= i -> set_slot x i v (set2 M An (wv Xn g)) = set2 M An (wv Xn (fupd g i v)).
Proof using All.
  intros. unfold set_slot. rewrite upd_x_set2. by rewrite set_value_wv.
Qed.

Lemma value_swap_ax i j M An f Xn g :
  0 <= i < zlen (values An) -> 0 <= j < zlen (values Xn) ->
  value_swap a i x j (set2 M (wv An f) (wv Xn g)) =
    set2 M (wv An (fupd f i (g j))) (wv Xn (fupd g j (f i))).
Proof using All.
  intros. unfold value_swap. rewrite nd_set2_a, nd_set2_x, !slot_wv by done.
  rewrite set_slot_a2, set_slot_x2 by lia. done.
Qed.

Lemma set_count_a2 c M An Xn :
  set_count a c (set2 M An Xn) = set2 M (with_count c An) Xn.
Proof using All. unfold set_count. by rewrite upd_a_set2. Qed.
Lemma set_count_x2 c M An Xn :
  set_count x c (set2 M An Xn) = set2 M An (with_count c Xn).
Proof using All. unfold set_count. by rewrite upd_x_set2. Qed.

Lemma assign_child_a2 i c M An g Xn :
  0 <= i ->
  assign_child a i c (set2 M (wc An g) Xn) = set2 M (wc An (fupd g i c)) Xn.
Proof using All.
  intros. unfold assign_child. rewrite upd_a_set2. by rewrite set_child_wc.
Qed.
Lemma assign_child_x2 i c M An Xn h :
  0 <= i ->
  assign_child x i c (set2 M An (wc Xn h)) = set2 M An (wc Xn (fupd h i c)).
Proof using All.
  intros. unfold assign_child. rewrite upd_x_set2. by rewrite set_child_wc.
Qed.

Lemma set2_wv_ext M An f f' Xn g g' :
  (forall q, 0 <= q < zlen (values An) -> f q = f' q) ->
  (forall q, 0 <= q < zlen (values Xn) -> g q = g' q) ->
  set2 M (wv An f) (wv Xn g) = set2 M (wv An f') (wv Xn g').
Proof using Type. intros H1 H2. by rewrite (wv_ext An f f'), (wv_ext Xn g g'). Qed.

Lemma set2_wc_ext M An f f' Xn g g' :
  (forall q, 0 <= q < zlen (children An) -> f q = f' q) ->
  (forall q, 0 <= q < zlen (children Xn) -> g q = g' q) ->
  set2 M (wc An f) (wc Xn g) = set2 M (wc An f') (wc Xn g').
Proof using Type. intros H1 H2. by rewrite (wc_ext An f f'), (wc_ext Xn g g'). Qed.

End TwoCells.

(** [loop2_is res]: the loop that runs next (its state is a [set2] term)
    yields [res]. *)
Ltac loop2_is res :=
  match goal with
  | |- context [for_up ?lo ?hi ?body (set2 ?a ?x ?M ?An ?Xn)] =>
      let H := fresh "Hloop" in
      assert (for_up lo hi body (set2 a x M An Xn) = res) as H;
      [|rewrite H; clear H]
  end.

Section SwapValues.
Context `{P : Params}.

Definition swap_children (n : Z) (a x : nat) (m : memory) : memory :=
  if negb (leaf (nd m a)) then
    let m := for_up 0 (n + 1)
               (fun i m =>
                  let ca := child (nd m a) i in
                  let cx := child (nd m x) i in
                  assign_child x i ca (assign_child a i cx m)) m in
    let m := for_up 0 (count (nd m a) + 1)
               (fun i m => upd (child (nd m x) i) (with_parent x) m) m in
    for_up 0 (count (nd m x) + 1)
      (fun i m => upd (child (nd m a) i) (with_parent a) m) m
  else m.

Variables a x : nat.
Hypothesis Hax : a <> x.
Variables An Xn : btree_node.
Variables avs xvs : list value_type.
Hypothesis HAc : count An = zlen avs.
Hypothesis HXc : count Xn = zlen xvs.
Hypothesis HAlen : zlen avs <= zlen (values An) /\ zlen xvs <= zlen (values An).
Hypothesis HXlen : zlen avs <= zlen (values Xn) /\ zlen xvs <= zlen (values Xn).

(** [swap]: the two nodes exchange their values; then come the children
    and the counts. *)
Lemma swap_spec M :
  swap a x (set2 a x M (wv An (zget avs)) (wv Xn (zget xvs))) =
    let m := swap_children (Z.max (zlen avs) (zlen xvs)) a x
               (set2 a x M (wv An (zget xvs)) (wv Xn (zget avs))) in
    set_count x (count (nd m a)) (set_count a (count (nd m x)) m).
Proof using All.
  unfold swap.
  pose proof (zlen_nonneg avs). pose proof (zlen_nonneg xvs).
  set (ca := zlen avs) in *. set (cx := zlen xvs) in *.
  rewrite nd_set2_a, nd_set2_x by done. rewrite !count_wv, HAc, HXc.
  pose (F1 := fun k q => if (ca <=? q) && (q <? k) then Some value_type_default
                         else zget avs q).
  loop2_is (set2 a x M (wv An (F1 cx)) (wv Xn (zget xvs))).
  { destruct (Z.le_gt_cases ca cx).
    - apply (for_up_ind (fun k m => m = set2 a x M (wv An (F1 k)) (wv Xn (zget xvs))));
        [lia| |].
      + apply set2_wv_ext; intros q Hq; unfold F1; pw.
      + intros k m Hk ->. unfold value_init. rewrite set_slot_a2 by (try done; lia).
        apply set2_wv_ext; intros q Hq; unfold F1; pwf.
    - rewrite for_up_nil by lia. apply set2_wv_ext; intros q Hq; unfold F1; pw. }
  rewrite nd_set2_a, nd_set2_x by done. rewrite !count_wv, HAc, HXc.
  pose (F2 := fun k q => if (cx <=? q) && (q <? k) then Some value_type_default
                         else zget xvs q).
  loop2_is (set2 a x M (wv An (F1 cx)) (wv Xn (F2 ca))).
  { destruct (Z.le_gt_cases cx ca).
    - apply (for_up_ind (fun k m => m = set2 a x M (wv An (F1 cx)) (wv Xn (F2 k))));
        [lia| |].
      + apply set2_wv_ext; intros q Hq; unfold F2; pw.
      + intros k m Hk ->. unfold value_init. rewrite set_slot_x2 by (try done; lia).
        apply set2_wv_ext; intros q Hq; unfold F2; pwf.
    - rewrite for_up_nil by lia. apply set2_wv_ext; intros q Hq; unfold F2; pw. }
  rewrite nd_set2_a, nd_set2_x by done. rewrite !count_wv, HAc, HXc.
  pose (F3a := fun k q => if q <? k then F2 ca q else F1 cx q).
  pose (F3x := fun k q => if q <? k then F1 cx q else F2 ca q).
  loop2_is (set2 a x M (wv An (F3a (Z.max ca cx))) (wv Xn (F3x (Z.max ca cx)))).
  { apply (for_up_ind (fun k m => m = set2 a x M (wv An (F3a k)) (wv Xn (F3x k))));
      [lia| |].
    - apply set2_wv_ext; intros q Hq; unfold F3a, F3x; pw.
    - intros k m Hk ->. rewrite value_swap_ax by (try done; lia).
      apply set2_wv_ext; intros q Hq; unfold F3a, F3x; pwf. }
  rewrite nd_set2_a, nd_set2_x by done. rewrite !count_wv, HAc, HXc.
  pose (F4 := fun k q => if (ca <=? q) && (q <? k) then None else F3x (Z.max ca cx) q).
  loop2_is (set2 a x M (wv An (F3a (Z.max ca cx))) (wv Xn (F4 cx))).
  { destruct (Z.le_gt_cases ca cx).
    - apply (for_up_ind
               (fun k m => m = set2 a x M (wv An (F3a (Z.max ca cx))) (wv Xn (F4 k))));
        [lia| |].
      + apply set2_wv_ext; intros q Hq; unfold F4; pw.
      + intros k m Hk ->. unfold value_destroy. rewrite set_slot_x2 by (try done; lia).
        apply set2_wv_ext; intros q Hq; unfold F4; pwf.
    - rewrite for_up_nil by lia. apply set2_wv_ext; intros q Hq; unfold F4; pw. }
  rewrite nd_set2_a, nd_set2_x by done. rewrite !count_wv, HAc, HXc.
  pose (F5 := fun k q => if (cx <=? q) && (q <? k) then None else F3a (Z.max ca cx) q).
  loop2_is (set2 a x M (wv An (F5 ca)) (wv Xn (F4 cx))).
  { destruct (Z.le_gt_cases cx ca).
    - apply (for_up_ind (fun k m => m = set2 a x M (wv An (F5 k)) (wv Xn (F4 cx))));
        [lia| |].
      + apply set2_wv_ext; intros q Hq; unfold F5; pw.
      + intros k m Hk ->. unfold value_destroy. rewrite set_slot_a2 by (try done; lia).
        apply set2_wv_ext; intros q Hq; unfold F5; pwf.
    - rewrite for_up_nil by lia. apply set2_wv_ext; intros q Hq; unfold F5; pw. }
  assert (set2 a x M (wv An (F5 ca)) (wv Xn (F4 cx)) =
          set2 a x M (wv An (zget xvs)) (wv Xn (zget avs))) as ->.
  { apply set2_wv_ext; intros q Hq; unfold F5, F4, F3a, F3x, F2, F1; pw. }
  reflexivity.
Qed.

End SwapValues.


(** * Creating and deleting nodes *)

Section NewNodes.
Context `{P : Params}.
Hypothesis Hstatic : static_assert_field.

(** The store after one more address was handed out. *)
Definition bump (m : memory) : memory := mk_memory (cells m) (S (next_addr m)).

Lemma cells_bump m : cells (bump m) = cells m.
Proof using Type. done. Qed.
Lemma next_addr_bump m : next_addr (bump m) = S (next_addr m).
Proof using Type. done. Qed.

Lemma slots_nil mc : 0 <= mc -> replicate (Z.to_nat mc) None = slots mc [].
Proof using Type.
  intros. rewrite replicate_tabZ by done. apply tabZ_ext. intros q Hq.
  by rewrite zget_nil.
Qed.

Lemma new_leaf_root_node_spec mc t :
  0 <= mc < field_modulus ->
  new_leaf_root_node mc t =
    (next_addr (heap t),
     with_heap (set_cell (next_addr (heap t))
                  (leaf_cell (next_addr (heap t)) 0 mc []) (bump (heap t))) t).
Proof using Type.
  intros Hmc. unfold new_leaf_root_node, allocate, init_leaf, upd, nd; simpl.
  rewrite lookup_total_insert_eq; simpl. rewrite insert_insert_eq.
  f_equal. f_equal. unfold set_cell, bump; simpl. f_equal. f_equal.
  unfold leaf_cell. rewrite field_wrap_small by done. rewrite slots_nil by lia. done.
Qed.

Lemma new_leaf_node_spec par t :
  new_leaf_node par t =
    (next_addr (heap t),
     with_heap (set_cell (next_addr (heap t))
                  (leaf_cell par 0 kNodeValues []) (bump (heap t))) t).
Proof using Hstatic.
  pose proof kNodeValues_pos. unfold static_assert_field in Hstatic.
  unfold new_leaf_node, allocate, init_leaf, upd, nd; simpl.
  rewrite lookup_total_insert_eq; simpl. rewrite insert_insert_eq.
  f_equal. f_equal. unfold set_cell, bump; simpl. f_equal. f_equal.
  unfold leaf_cell. rewrite field_wrap_small by lia. rewrite slots_nil by lia. done.
Qed.

Lemma new_internal_node_spec par t :
  new_internal_node par t =
    (next_addr (heap t),
     with_heap (set_cell (next_addr (heap t))
                  (internal_cell par 0 [] (fun _ => 0%nat) 0%nat 0) (bump (heap t))) t).
Proof using Hstatic.
  pose proof kNodeValues_pos. unfold static_assert_field in Hstatic.
  unfold new_internal_node, allocate, init_internal, init_leaf, upd, nd; simpl.
  rewrite !lookup_total_insert_eq; simpl. rewrite !insert_insert_eq.
  f_equal. f_equal. unfold set_cell, bump; simpl. f_equal. f_equal.
  unfold internal_cell, with_leaf; simpl.
  rewrite field_wrap_small by lia. rewrite slots_nil by lia.
  by rewrite replicate_tabZ by lia.
Qed.

(** [destroy] of a node whose count is 0, as it is after a [merge] or a
    [swap], touches nothing. *)
Lemma destroy_empty a m : count (nd m a) = 0 -> destroy a m = m.
Proof using Type. intros H. unfold destroy. rewrite H. by apply for_up_nil. Qed.

Lemma lookup_deallocate a m y :
  cells (deallocate a m) !! y = if decide (y = a) then None else cells m !! y.
Proof using Type.
  unfold deallocate; simpl. destruct (decide (y = a)) as [->|].
  - by rewrite lookup_delete_eq.
  - by rewrite lookup_delete_ne.
Qed.

End NewNodes.

Section SwapLeaf.
Context `{P : Params}.
Hypothesis Hstatic : static_assert_field.

(** [swap] of a new, empty leaf with a leaf holding [vs]. *)
Lemma swap_leaf a x M pa posa mca px posx mcx vs :
  a <> x -> zlen vs <= mcx -> mcx <= mca -> mca < field_modulus ->
  swap a x (set2 a x M (leaf_cell pa posa mca []) (leaf_cell px posx mcx vs)) =
    set2 a x M (leaf_cell pa posa mca vs) (leaf_cell px posx mcx []).
Proof using Type.
  intros Hax Hvs Hmc Hmod. pose proof (zlen_nonneg vs).
  rewrite (leaf_cell_wv pa posa mca []), (leaf_cell_wv px posx mcx vs) by lia.
  rewrite (swap_spec a x Hax _ _ [] vs); try done;
    try (simpl; rewrite !zlen_slots by lia; rewrite ?zlen_nil; lia).
  cbv zeta. unfold swap_children. rewrite nd_set2_a by done.
  cbn [leaf wv with_values leaf_cell negb].
  rewrite nd_set2_a, nd_set2_x by done.
  rewrite set_count_a2, set_count_x2 by done.
  rewrite !count_wv. cbn [count leaf_cell].
  rewrite (leaf_cell_final pa posa mca []), (leaf_cell_final px posx mcx vs);
    rewrite ?zlen_nil; try done; lia.
Qed.

End SwapLeaf.


(** * The small root grows *)

Section SmallRoot.
Context `{P : Params}.
Hypothesis Hstatic : static_assert_field.

(** [C7] When [internal_insert] meets a full leaf root whose capacity [mc]
    is below [kNodeValues], it makes a new leaf root of capacity
    [min kNodeValues (2 * mc)], moves all the values into it, releases the
    storage of the old root and then inserts the value: the tree is the
    new leaf alone, holding the old values and the new one at the
    insertion position, and the iterator returned points there. *)
Theorem small_root_doubling (t : btree) (a : nat) (mc : Z) (vs : list value_type)
    (i : Z) (v : value_type) :
  root t = a -> cells (heap t) !! a = Some (leaf_cell a 0 mc vs) ->
  zlen vs = mc -> 1 <= mc < kNodeValues -> 0 <= i <= mc ->
  a <> next_addr (heap t) ->
  let n := next_addr (heap t) in
  let mc' := Z.min kNodeValues (2 * mc) in
  exists h',
    internal_insert (mk_iterator a i) v t =
      (mk_iterator n i, mk_btree h' (key_comp t) n) /\
    cells h' !! n = Some (leaf_cell n 0 mc' (insert_at i v vs)) /\
    cells h' !! a = None /\
    (forall y, y <> a -> y <> n -> cells h' !! y = cells (heap t) !! y) /\
    next_addr h' = S n.
Proof using Hstatic.
  intros Hroot Hcell Hlen Hmc Hi Hfresh n mc'.
  pose proof Hstatic as Hst. unfold static_assert_field in Hst.
  assert (Hmc' : mc < mc' <= kNodeValues) by (unfold mc'; lia).
  pose proof (nd_lookup _ _ _ Hcell) as Hnd.
  unfold internal_insert. cbn [node pos]. rewrite Hnd.
  change (leaf (leaf_cell a 0 mc vs)) with true. cbn [negb node pos]. rewrite !Hnd.
  change (count (leaf_cell a 0 mc vs)) with (zlen vs).
  change (max_count (leaf_cell a 0 mc vs)) with mc.
  rewrite Hlen, Z.eqb_refl.
  destruct (Z.ltb_spec mc kNodeValues) as [_|]; [|lia].
  rewrite new_leaf_root_node_spec by (fold mc'; lia). fold n mc'.
  cbn [node pos heap with_heap on_heap root with_root delete_leaf_node key_comp].
  rewrite Hroot.
  set (m1 := set_cell n (leaf_cell n 0 mc' []) (bump (heap t))).
  assert (m1 = set2 n a (bump (heap t)) (leaf_cell n 0 mc' []) (leaf_cell a 0 mc vs)) as ->.
  { unfold set2, m1. symmetry. apply set_cell_id.
    rewrite lookup_set_cell_ne by done. by rewrite cells_bump. }
  unfold on_heap, with_root, delete_leaf_node, on_heap, with_heap.
  cbn [heap key_comp root].
  rewrite swap_leaf by (try done; lia).
  rewrite destroy_empty by (by rewrite nd_set2_x).
  set (m2 := deallocate a _).
  assert (cells m2 !! n = Some (leaf_cell n 0 mc' vs)) as Hn2.
  { unfold m2. rewrite lookup_deallocate. destruct (decide (n = a)); [done|].
    by apply lookup_set2_a. }
  rewrite (insert_value_leaf n m2 n 0 mc' vs i v m2) by (try done; lia).
  eexists. split; [reflexivity|]. repeat split.
  - by rewrite lookup_set_cell_eq.
  - rewrite lookup_set_cell_ne by done. unfold m2. rewrite lookup_deallocate.
    by destruct (decide (a = a)).
  - intros y Hya Hyn. rewrite lookup_set_cell_ne by done. unfold m2.
    rewrite lookup_deallocate. destruct (decide (y = a)); [done|].
    by rewrite lookup_set2_other.
Qed.

End SmallRoot.


(** * Subtrees in their context *)

Section Zipper.
Context `{P : Params}.

(** The path from a subtree up to the root: at each step the parent's
    address and values, and the siblings to the left and to the right. *)
Inductive ctx :=
  | CTop
  | CNode (a : nat) (vs : list value_type) (Ls Rs : list atree) (c : ctx).

Fixpoint plug (c : ctx) (t : atree) : atree :=
  match c with
  | CTop => t
  | CNode a vs Ls Rs c' => plug c' (ANode a vs (Ls ++ t :: Rs))
  end.

Fixpoint depth (c : ctx) : nat :=
  match c with CTop => O | CNode _ _ _ _ c' => S (depth c') end.

(** Where the subtree hangs: parent, position and the root fields. *)
Definition hole_par (c : ctx) (par : nat) : nat :=
  match c with CTop => par | CNode a _ _ _ _ => a end.
Definition hole_pos (c : ctx) (pos : Z) : Z :=
  match c with CTop => pos | CNode _ _ Ls _ _ => zlen Ls end.
Definition hole_rm (c : ctx) (rm : nat) : nat :=
  match c with CTop => rm | CNode _ _ _ _ _ => 0%nat end.
Definition hole_sz (c : ctx) (sz : Z) : Z :=
  match c with CTop => sz | CNode _ _ _ _ _ => 0 end.

(** The addresses of the context. *)
Fixpoint ctx_addrs (c : ctx) : list nat :=
  match c with
  | CTop => []
  | CNode a _ Ls Rs c' =>
      a :: concat (addrs <$> Ls) ++ concat (addrs <$> Rs) ++ ctx_addrs c'
  end.

Lemma addrs_plug c : forall t, addrs (plug c t) ≡ₚ addrs t ++ ctx_addrs c.
Proof.
  induction c as [|a vs Ls Rs c IH]; intros t; simpl.
  - by rewrite app_nil_r.
  - rewrite IH. rewrite addrs_node, fmap_app, concat_app, fmap_cons.
    cbn [concat ctx_addrs].
    set (X := concat (addrs <$> Ls)). set (Y := concat (addrs <$> Rs)).
    set (Z0 := addrs t). set (W := ctx_addrs c). clearbody X Y Z0 W.
    solve_Permutation.
Qed.

Lemma elem_of_addrs_plug c t y :
  y ∈ addrs (plug c t) <-> y ∈ addrs t \/ y ∈ ctx_addrs c.
Proof. rewrite addrs_plug. apply elem_of_app. Qed.

Lemma NoDup_plug c t :
  NoDup (addrs (plug c t)) <->
  NoDup (addrs t) /\ (forall y, y ∈ addrs t -> y ∉ ctx_addrs c) /\ NoDup (ctx_addrs c).
Proof. rewrite addrs_plug. apply NoDup_app. Qed.

Lemma NoDup_plug_step a vs Ls Rs c t :
  NoDup (addrs (plug (CNode a vs Ls Rs c) t)) ->
  NoDup (addrs (ANode a vs (Ls ++ t :: Rs))).
Proof. simpl. intros H. by apply NoDup_plug in H as (? & _). Qed.

(** ** The store and the context *)

Lemma rep_plug m c : forall t par pos rm sz,
  rep_at m par pos rm sz (plug c t) ->
  rep_at m (hole_par c par) (hole_pos c pos) (hole_rm c rm) (hole_sz c sz) t.
Proof.
  induction c as [|a vs Ls Rs c IH]; intros t par pos rm sz Hrep; simpl in *; [done|].
  apply IH in Hrep. apply rep_at_node in Hrep as [_ Hk]. apply Hk, one_zget.
Qed.

(** The subtree is replaced, the context untouched. *)
Lemma rep_plug_update m m' c : forall t t' par pos rm sz,
  rep_at m par pos rm sz (plug c t) ->
  NoDup (addrs (plug c t)) ->
  addr t' = addr t ->
  rep_at m' (hole_par c par) (hole_pos c pos) (hole_rm c rm) (hole_sz c sz) t' ->
  (forall y, y ∈ ctx_addrs c -> cells m' !! y = cells m !! y) ->
  rep_at m' par pos rm sz (plug c t').
Proof.
  induction c as [|a vs Ls Rs c IH]; intros t t' par pos rm sz Hrep Hnd Haddr Ht' Hfr;
    simpl in *; [done|].
  pose proof (rep_plug m c _ _ _ _ _ Hrep) as Hsub.
  apply NoDup_plug in Hnd as Hnd3. destruct Hnd3 as (Hndsub & Hdisj & Hndc).
  eapply IH; [exact Hrep|exact Hnd|done| |].
  - apply rep_at_node. apply rep_at_node in Hsub as [(g & Hcell & Hg) Hkids]. split.
    + exists g. split.
      * rewrite Hfr; [done|]. apply list_elem_of_here.
      * intros q k. rewrite zget_mid1. intros Hq. specialize (Hg q).
        rewrite zget_mid1 in Hg.
        destruct (q <? zlen Ls); [by apply Hg|].
        destruct (q =? zlen Ls); [|by apply Hg].
        injection Hq as <-. rewrite Haddr. by apply Hg.
    + intros q k. rewrite zget_mid1. intros Hq.
      destruct (Z.ltb_spec q (zlen Ls)).
      * eapply rep_at_frame; [apply Hkids; by apply one_left_old|].
        intros y Hy. apply Hfr. apply list_elem_of_further, elem_of_app. left.
        apply elem_of_concat. exists (addrs k). split; [done|].
        apply list_elem_of_fmap. exists k. split; [done|]. by eapply zget_elem_of.
      * destruct (Z.eqb_spec q (zlen Ls)) as [->|]; [by injection Hq as <-|].
        eapply rep_at_frame.
        { apply Hkids. rewrite <- (one_right_old Ls Rs t _ _ Hq). f_equal. lia. }
        intros y Hy. apply Hfr. apply list_elem_of_further, elem_of_app. right.
        apply elem_of_app. left.
        apply elem_of_concat. exists (addrs k). split; [done|].
        apply list_elem_of_fmap. exists k. split; [done|]. by eapply zget_elem_of.
  - intros y Hy. apply Hfr. apply list_elem_of_further.
    apply elem_of_app. right. apply elem_of_app. by right.
Qed.

End Zipper.


(** * The values in order, through a context *)

Section Interleave.
Context {V : Type}.

(** [ipre [l0; ...; lk] vs] is [l0 ++ v0 :: ... ++ lk ++ [vk]] and
    [ipost [r0; ...; rk] vs] is [v0 :: r0 ++ ... ++ vk :: rk]. *)
Fixpoint ipre (ls : list (list V)) (vs : list V) : list V :=
  match ls, vs with
  | l :: ls', v :: vs' => l ++ v :: ipre ls' vs'
  | _, _ => []
  end.
Fixpoint ipost (rs : list (list V)) (vs : list V) : list V :=
  match rs, vs with
  | r :: rs', v :: vs' => v :: r ++ ipost rs' vs'
  | _, _ => []
  end.
Fixpoint inter (ls : list (list V)) (vs : list V) : list V :=
  match ls with
  | [] => []
  | l :: ls' =>
      l ++ match vs with
           | [] => concat ls'
           | v :: vs' => v :: inter ls' vs'
           end
  end.

Lemma inter_mid (A B : list (list V)) l : forall vs,
  (length A + length B = length vs)%nat ->
  inter (A ++ l :: B) vs = ipre A vs ++ l ++ ipost B (drop (length A) vs).
Proof.
  induction A as [|a A IH]; intros vs Hlen; simpl in *.
  - f_equal. revert vs Hlen.
    induction B as [|b B IHB]; intros [|v vs] Hlen; simpl in *; try done; try lia.
    f_equal. rewrite IHB by lia. done.
  - destruct vs as [|v vs]; simpl in *; [lia|].
    rewrite <- app_assoc. simpl. f_equal. f_equal. apply IH. lia.
Qed.

Lemma inter_app (A B : list (list V)) : forall va d vb,
  (length A = S (length va))%nat -> (length B = S (length vb))%nat ->
  inter (A ++ B) (va ++ d :: vb) = inter A va ++ d :: inter B vb.
Proof.
  induction A as [|a A IH]; intros va d vb HA HB; simpl in *; [lia|].
  destruct va as [|v va]; simpl in *.
  - destruct A; [|simpl in HA; lia]. simpl. by rewrite app_nil_r.
  - rewrite <- app_assoc. simpl. f_equal. f_equal. apply IH; [lia|done].
Qed.

Lemma ipre_snoc (A : list (list V)) l : forall vs v,
  (length A = length vs)%nat ->ipre (A ++ [l]) (vs ++ [v]) = ipre A vs ++ l ++ [v].
Proof.
  induction A as [|a A IH]; intros [|w vs] v Hlen; simpl in *; try done; try lia.
  rewrite <- app_assoc. simpl. f_equal. f_equal. apply IH. lia.
Qed.

Lemma ipre_app_l (A : list (list V)) : forall vs ws,
  (length A = length vs)%nat ->ipre A (vs ++ ws) = ipre A vs.
Proof.
  induction A as [|a A IH]; intros [|w vs] ws Hlen; simpl in *; try done; try lia.
  f_equal. f_equal. apply IH. lia.
Qed.

Lemma inter_ipre (A : list (list V)) l : forall vs,
  (length A = length vs)%nat ->inter (A ++ [l]) vs = ipre A vs ++ l.
Proof.
  intros vs Hlen. rewrite inter_mid by (simpl; lia).
  rewrite drop_ge by lia. simpl. by rewrite app_nil_r.
Qed.

End Interleave.

Section Inorder.
Context `{P : Params}.

Lemma interleave_inter ls : forall vs, interleave ls vs = inter ls vs.
Proof.
  induction ls as [|l ls IH]; intros vs; simpl; [done|].
  destruct vs; [done|]. by rewrite IH.
Qed.

Lemma inorder_node a vs cs : inorder (ANode a vs cs) = inter (inorder <$> cs) vs.
Proof. cbn [inorder]. apply interleave_inter. Qed.

(** The values before and after the hole of a context. *)
Fixpoint ctx_before (c : ctx) : list value_type :=
  match c with
  | CTop => []
  | CNode _ vs Ls _ c' => ctx_before c' ++ ipre (inorder <$> Ls) vs
  end.
Fixpoint ctx_after (c : ctx) : list value_type :=
  match c with
  | CTop => []
  | CNode _ vs Ls Rs c' =>
      ipost (inorder <$> Rs) (drop (length Ls) vs) ++ ctx_after c'
  end.

(** Every node of the context has one child more than values. *)
Fixpoint ctx_lens (c : ctx) : Prop :=
  match c with
  | CTop => True
  | CNode _ vs Ls Rs c' => zlen Ls + zlen Rs = zlen vs /\ ctx_lens c'
  end.

Lemma inorder_plug c : forall t,
  ctx_lens c -> inorder (plug c t) = ctx_before c ++ inorder t ++ ctx_after c.
Proof.
  induction c as [|a vs Ls Rs c IH]; intros t Hlens; simpl in *.
  - by rewrite app_nil_r.
  - destruct Hlens as [Hlen Hlens]. rewrite IH by done. rewrite inorder_node.
    rewrite fmap_app, fmap_cons, inter_mid.
    + rewrite !length_fmap. rewrite <- !app_assoc. done.
    + rewrite !length_fmap. unfold zlen in Hlen. lia.
Qed.

End Inorder.


(** * Two siblings seen as one node cut in two *)

Section Cut.
Context {V : Type}.
Implicit Types (K : list (list V)) (W : list V).

Lemma ztake_zdrop_mid W m x :
  zget W m = Some x -> W = ztake m W ++ x :: zdrop (m + 1) W.
Proof.
  intros Hx. apply zget_Some_lt in Hx as Hm. apply zget_ext. intros q.
  rewrite zget_app, zget_cons, zget_take, zget_drop, zlen_take by lia.
  destruct (Z.ltb_spec q m); [done|].
  destruct (Z.eqb_spec (q - m) 0); [by replace q with m by lia|].
  destruct (Z.ltb_spec (q - m - 1) 0); [lia|]. f_equal. lia.
Qed.

Lemma length_ztake (l : list V) n :
  0 <= n <= zlen l -> length (ztake n l) = Z.to_nat n.
Proof. intros. pose proof (zlen_take n l ltac:(lia)). unfold zlen in *. lia. Qed.

Lemma length_zdrop (l : list V) n :
  0 <= n <= zlen l -> length (zdrop n l) = Z.to_nat (zlen l - n).
Proof.
  intros. pose proof (zlen_drop n l ltac:(lia)). unfold zlen in *. lia.
Qed.

(** The values in order of a node cut after its value number [m]. *)
Lemma inter_cut K W m x :
  zlen K = zlen W + 1 -> zget W m = Some x ->
  inter K W =
    inter (ztake (m + 1) K) (ztake m W) ++ x :: inter (zdrop (m + 1) K) (zdrop (m + 1) W).
Proof.
  intros Hlen Hx. apply zget_Some_lt in Hx as Hm.
  rewrite <- (ztake_zdrop K (m + 1)) at 1.
  rewrite (ztake_zdrop_mid W m x Hx) at 1.
  apply inter_app.
  - unfold zlen, ztake in *. rewrite !length_take. lia.
  - unfold zlen, zdrop in *. rewrite !length_drop. lia.
Qed.

Lemma ipre_take K : forall W m,
  zlen K <= m -> ipre K (ztake m W) = ipre K W.
Proof.
  induction K as [|k K IH]; intros W m Hm; [done|].
  rewrite zlen_cons in Hm. pose proof (zlen_nonneg K).
  destruct W as [|w W]; simpl.
  - unfold ztake. by rewrite take_nil.
  - unfold ztake. replace (Z.to_nat m) with (S (Z.to_nat (m - 1))) by lia.
    simpl. f_equal. f_equal. apply (IH W (m - 1)). lia.
Qed.

Lemma ipre_inter K : forall W,
  zlen K <= zlen W -> ipre K W = inter (K ++ [[]]) (ztake (zlen K) W).
Proof.
  intros W Hlen. rewrite inter_ipre.
  - by rewrite app_nil_r, ipre_take.
  - unfold zlen in *. unfold ztake. rewrite length_take. lia.
Qed.

(** The values before child [j] when [j] is in the left part. *)
Lemma ipre_cut_l K W m j :
  0 <= j <= m -> m <= zlen W ->
  ipre (ztake j (ztake (m + 1) K)) (ztake m W) = ipre (ztake j K) W.
Proof.
  intros Hj Hm.
  assert (ztake j (ztake (m + 1) K) = ztake j K) as ->.
  { unfold ztake. rewrite take_take. f_equal. lia. }
  apply ipre_take. rewrite zlen_take_le. lia.
Qed.

Lemma ipre_app (A B : list (list V)) : forall va vb,
  (length A = length va)%nat -> ipre (A ++ B) (va ++ vb) = ipre A va ++ ipre B vb.
Proof.
  induction A as [|a A IH]; intros [|v va] vb Hlen; simpl in *; try done.
  rewrite <- app_assoc. simpl. f_equal. f_equal. by apply IH; lia.
Qed.

Lemma ipre_full (A : list (list V)) l : forall va,
  (length A = length va)%nat -> inter (A ++ [l]) va = ipre A va ++ l.
Proof. apply inter_ipre. Qed.

(** The values before child [j] when [j] is in the right part. *)
Lemma ipre_cut_r K W m j x :
  zlen K = zlen W + 1 -> zget W m = Some x -> m < j <= zlen W ->
  inter (ztake (m + 1) K) (ztake m W) ++
    x :: ipre (ztake (j - m - 1) (zdrop (m + 1) K)) (zdrop (m + 1) W) =
  ipre (ztake j K) W.
Proof.
  intros Hlen Hx Hj. apply zget_Some_lt in Hx as Hm.
  rewrite (ztake_zdrop_mid W m x Hx) at 3.
  assert (ztake j K = ztake (m + 1) K ++ ztake (j - m - 1) (zdrop (m + 1) K)) as ->.
  { unfold ztake, zdrop. rewrite take_drop_commute.
    replace (Z.to_nat (m + 1) + Z.to_nat (j - m - 1))%nat with (Z.to_nat j) by lia.
    rewrite <- (take_drop (Z.to_nat (m + 1)) (take (Z.to_nat j) K)) at 1.
    f_equal. rewrite take_take. f_equal. lia. }
  destruct (zget_is_Some K m) as [k0 Hk0]; [lia|].
  rewrite (ztake_snoc K m k0) by (done || lia).
  assert (length (ztake m K) = length (ztake m W)) as HlenK0.
  { unfold ztake, zlen in *. rewrite !length_take. lia. }
  rewrite inter_ipre by done.
  rewrite <- app_assoc.
  change (x :: zdrop (m + 1) W) with ([x] ++ zdrop (m + 1) W).
  rewrite (app_assoc (ztake m W)).
  rewrite ipre_app.
  2:{ rewrite !length_app. simpl. lia. }
  rewrite ipre_snoc by done. rewrite <- !app_assoc. done.
Qed.

End Cut.


(** * Cutting a node in two, on trees *)

Section CutTree.
Context `{P : Params}.

(** A node of the kind and capacity of [t]. *)
Definition mk_like (t : atree) (a : nat) (vs : list value_type) (ks : list atree)
    : atree :=
  match t with
  | ALeaf _ mc _ => ALeaf a mc vs
  | ANode _ _ _ => ANode a vs ks
  end.

(** The two parts of the node with values [W] and children [K] cut after
    its value number [m]. *)
Definition cut_left (t : atree) (W : list value_type) (K : list atree) (m : Z) : atree :=
  mk_like t (addr t) (ztake m W) (ztake (m + 1) K).
Definition cut_right (t : atree) (a : nat) (W : list value_type) (K : list atree)
    (m : Z) : atree :=
  mk_like t a (zdrop (m + 1) W) (zdrop (m + 1) K).

(** Values and children of two siblings with their delimiter. *)
Definition big_vals (lt rt : atree) (d : value_type) : list value_type :=
  avals lt ++ d :: avals rt.
Definition big_kids (lt rt : atree) : list atree := akids lt ++ akids rt.

(** Well-formed as one of two siblings: a leaf has no children, an
    internal node one more than values. *)
Definition kids_ok (t : atree) (W : list value_type) (K : list atree) : Prop :=
  if is_leaf t then K = [] else zlen K = zlen W + 1.

Lemma addr_mk_like t a vs ks : addr (mk_like t a vs ks) = a.
Proof. by destruct t. Qed.
Lemma avals_mk_like t a vs ks : avals (mk_like t a vs ks) = vs.
Proof. by destruct t. Qed.
Lemma is_leaf_mk_like t a vs ks : is_leaf (mk_like t a vs ks) = is_leaf t.
Proof. by destruct t. Qed.
Lemma acap_mk_like t a vs ks : acap (mk_like t a vs ks) = acap t.
Proof. by destruct t. Qed.
Lemma akids_mk_like t a vs ks :
  akids (mk_like t a vs ks) = if is_leaf t then [] else ks.
Proof. by destruct t. Qed.
Lemma set_content_mk_like t vs ks : set_content t vs ks = mk_like t (addr t) vs ks.
Proof. by destruct t. Qed.
Lemma mk_like_same t : mk_like t (addr t) (avals t) (akids t) = t.
Proof. by destruct t. Qed.
Lemma mk_like_kind t t' a vs ks :
  is_leaf t = is_leaf t' -> acap t = acap t' -> mk_like t a vs ks = mk_like t' a vs ks.
Proof. destruct t, t'; simpl; intros; try done. by subst. Qed.

Lemma inorder_mk_like t a vs ks :
  inorder (mk_like t a vs ks) = if is_leaf t then vs else inter (inorder <$> ks) vs.
Proof. destruct t; [done|]. apply inorder_node. Qed.

Lemma ztake_nil {A} n : ztake n (@nil A) = [].
Proof. unfold ztake. by rewrite take_nil. Qed.
Lemma zdrop_nil {A} n : zdrop n (@nil A) = [].
Proof. unfold zdrop. by rewrite drop_nil. Qed.
Lemma ztake_fmap {A B} (f : A -> B) n l : ztake n (f <$> l) = f <$> ztake n l.
Proof. unfold ztake. by rewrite fmap_take. Qed.
Lemma zdrop_fmap {A B} (f : A -> B) n l : zdrop n (f <$> l) = f <$> zdrop n l.
Proof. unfold zdrop. by rewrite fmap_drop. Qed.

(** The values in order of the two parts and the value between them. *)
Lemma inorder_cut t a W K m x :
  kids_ok t W K -> zget W m = Some x ->
  inorder (cut_left t W K m) ++ x :: inorder (cut_right t a W K m) =
    inorder (mk_like t a W K).
Proof.
  intros Hok Hx. unfold cut_left, cut_right. rewrite !inorder_mk_like.
  unfold kids_ok in Hok. destruct (is_leaf t).
  - symmetry. by apply ztake_zdrop_mid.
  - rewrite (inter_cut (inorder <$> K) W m x); [|by rewrite zlen_fmap|done].
    by rewrite ztake_fmap, zdrop_fmap.
Qed.

(** The values of a node before its slot (or child) [j], and its child
    [j]. *)
Definition before_slot (t : atree) (j : Z) : list value_type :=
  match t with
  | ALeaf _ _ vs => ztake j vs
  | ANode _ vs cs => ipre (inorder <$> ztake j cs) vs
  end.
Definition kid_at (t : atree) (j : Z) : option atree := zget (akids t) j.

Lemma before_slot_mk_like t a vs ks j :
  before_slot (mk_like t a vs ks) j =
    if is_leaf t then ztake j vs else ipre (inorder <$> ztake j ks) vs.
Proof. by destruct t. Qed.

(** In the left part. *)
Lemma before_cut_l t W K m j :
  0 <= j <= m -> m <= zlen W ->
  before_slot (cut_left t W K m) j = before_slot (mk_like t 0%nat W K) j.
Proof.
  intros Hj Hm. unfold cut_left. rewrite !before_slot_mk_like.
  destruct (is_leaf t).
  - unfold ztake. rewrite take_take. f_equal. lia.
  - rewrite <- !ztake_fmap. by apply ipre_cut_l.
Qed.

Lemma kid_cut_l t W K m j :
  0 <= j <= m -> kid_at (cut_left t W K m) j = kid_at (mk_like t 0%nat W K) j.
Proof.
  intros Hj. unfold kid_at, cut_left. rewrite !akids_mk_like.
  destruct (is_leaf t); [done|]. rewrite zget_take.
  by destruct (Z.ltb_spec j (m + 1)); [|lia].
Qed.

(** In the right part. *)
Lemma before_cut_r t a W K m j x :
  kids_ok t W K -> zget W m = Some x -> m < j <= zlen W ->
  inorder (cut_left t W K m) ++ x :: before_slot (cut_right t a W K m) (j - m - 1) =
    before_slot (mk_like t 0%nat W K) j.
Proof.
  intros Hok Hx Hj. apply zget_Some_lt in Hx as Hm.
  unfold cut_left, cut_right.
  rewrite !before_slot_mk_like, inorder_mk_like.
  unfold kids_ok in Hok. destruct (is_leaf t).
  - rewrite (ztake_zdrop_mid W m x Hx) at 3.
    unfold ztake, zdrop. rewrite take_app_ge; rewrite length_take; [|lia].
    f_equal. replace (Z.to_nat j - Z.to_nat m `min` length W)%nat
      with (S (Z.to_nat (j - m - 1))) by (unfold zlen in *; lia).
    done.
  - rewrite <- !ztake_fmap, <- !zdrop_fmap.
    apply ipre_cut_r; [by rewrite zlen_fmap|done|done].
Qed.

Lemma kid_cut_r t a W K m j :
  m < j -> 0 <= m ->
  kid_at (cut_right t a W K m) (j - m - 1) = kid_at (mk_like t 0%nat W K) j.
Proof.
  intros Hj Hm. unfold kid_at, cut_right. rewrite !akids_mk_like.
  destruct (is_leaf t).
  { unfold zget. by destruct (_ <? 0), (_ <? 0). }
  rewrite zget_drop by lia.
  destruct (Z.ltb_spec (j - m - 1) 0); [lia|]. f_equal. lia.
Qed.

End CutTree.


(** * One node or two siblings under the same parent *)

Section ListFacts.
Context {V : Type}.
Implicit Types (l : list V).

Lemma ztake_insert_at i (x : V) l : 0 <= i <= zlen l -> ztake i (insert_at i x l) = ztake i l.
Proof.
  intros Hi. unfold insert_at, ztake. rewrite take_app_le.
  - rewrite take_take. f_equal. lia.
  - rewrite length_take. unfold zlen in Hi. lia.
Qed.

Lemma zdrop_insert_at i (x : V) l :
  0 <= i <= zlen l -> zdrop i (insert_at i x l) = x :: zdrop i l.
Proof.
  intros Hi. unfold insert_at, ztake, zdrop.
  rewrite drop_app_length'; [done|]. rewrite length_take. unfold zlen in Hi. lia.
Qed.

Lemma insert_at_remove_at i (x d : V) l :
  zget l i = Some d -> insert_at i x (remove_at i l) = <[Z.to_nat i := x]> l.
Proof.
  intros Hd. apply zget_Some_lt in Hd as Hi. apply zget_ext. intros q.
  rewrite zget_insert_at by (rewrite zlen_remove_at; lia).
  rewrite zget_insert, !zget_remove_at by lia.
  destruct (Z.ltb_spec q i), (Z.eqb_spec q i), (Z.ltb_spec i (zlen l));
    simpl; try lia; try done.
  destruct (Z.ltb_spec (q - 1) i); [lia|]. f_equal. lia.
Qed.

Lemma insert_at_remove_at_same i (d : V) l :
  zget l i = Some d -> insert_at i d (remove_at i l) = l.
Proof.
  intros Hd. rewrite (insert_at_remove_at i d d l Hd).
  apply zget_Some_lt in Hd as Hi. apply zget_ext. intros q. rewrite zget_insert by lia.
  destruct (Z.eqb_spec q i) as [->|], (Z.ltb_spec i (zlen l)); simpl; try done; lia.
Qed.

Lemma remove_at_insert_at i (x : V) l :
  0 <= i <= zlen l -> remove_at i (insert_at i x l) = l.
Proof.
  intros Hi. apply zget_ext. intros q.
  rewrite zget_remove_at by (rewrite zlen_insert_at; lia).
  rewrite !zget_insert_at by lia.
  destruct (Z.ltb_spec q i), (Z.ltb_spec (q + 1) i), (Z.eqb_spec (q + 1) i);
    try lia; try done.
  f_equal. lia.
Qed.

Lemma concat_cut {B} (f : V -> list B) l n :
  concat (f <$> ztake n l) ++ concat (f <$> zdrop n l) = concat (f <$> l).
Proof. by rewrite <- concat_app, <- fmap_app, ztake_zdrop. Qed.

Lemma ztake_app_l l1 l2 n : n <= zlen l1 -> ztake n (l1 ++ l2) = ztake n l1.
Proof. intros. unfold ztake. apply take_app_le. unfold zlen in *. lia. Qed.

Lemma ztake_app_r l1 l2 n :
  zlen l1 <= n -> ztake n (l1 ++ l2) = l1 ++ ztake (n - zlen l1) l2.
Proof.
  intros. unfold ztake. rewrite take_app_ge by (unfold zlen in *; lia).
  do 2 f_equal. unfold zlen in *. lia.
Qed.

Lemma zdrop_app_l l1 l2 n :
  0 <= n <= zlen l1 -> zdrop n (l1 ++ l2) = zdrop n l1 ++ l2.
Proof. intros. unfold zdrop. apply drop_app_le. unfold zlen in *. lia. Qed.

Lemma zdrop_app_r l1 l2 n :
  zlen l1 <= n -> zdrop n (l1 ++ l2) = zdrop (n - zlen l1) l2.
Proof.
  intros. unfold zdrop. rewrite drop_app_ge by (unfold zlen in *; lia).
  f_equal. unfold zlen in *. lia.
Qed.

Lemma ztake_cons_pos (x : V) l n : 0 < n -> ztake n (x :: l) = x :: ztake (n - 1) l.
Proof.
  intros. unfold ztake. replace (Z.to_nat n) with (S (Z.to_nat (n - 1))) by lia. done.
Qed.

Lemma zdrop_cons_pos (x : V) l n : 0 < n -> zdrop n (x :: l) = zdrop (n - 1) l.
Proof.
  intros. unfold zdrop. replace (Z.to_nat n) with (S (Z.to_nat (n - 1))) by lia. done.
Qed.

End ListFacts.

Section Leaves.
Context `{P : Params}.

(** The addresses of the leaves, from left to right. *)
Fixpoint leaves (t : atree) : list nat :=
  match t with
  | ALeaf a _ _ => [a]
  | ANode _ _ cs => concat (map leaves cs)
  end.

Definition first_leaf (t : atree) : nat := hd 0%nat (leaves t).
Definition last_leaf (t : atree) : nat := default 0%nat (last (leaves t)).

Lemma leaves_node a vs cs : leaves (ANode a vs cs) = concat (leaves <$> cs).
Proof. done. Qed.

Lemma leaves_mk_like t a vs ks :
  leaves (mk_like t a vs ks) = if is_leaf t then [a] else concat (leaves <$> ks).
Proof. by destruct t. Qed.

Lemma addrs_mk_like t a vs ks :
  addrs (mk_like t a vs ks) = a :: (if is_leaf t then [] else concat (addrs <$> ks)).
Proof. by destruct t. Qed.

Fixpoint ctx_leaves_before (c : ctx) : list nat :=
  match c with
  | CTop => []
  | CNode _ _ Ls _ c' => ctx_leaves_before c' ++ concat (leaves <$> Ls)
  end.
Fixpoint ctx_leaves_after (c : ctx) : list nat :=
  match c with
  | CTop => []
  | CNode _ _ _ Rs c' => concat (leaves <$> Rs) ++ ctx_leaves_after c'
  end.

Lemma leaves_plug c : forall t,
  leaves (plug c t) = ctx_leaves_before c ++ leaves t ++ ctx_leaves_after c.
Proof.
  induction c as [|a vs Ls Rs c IH]; intros t; simpl.
  - by rewrite app_nil_r.
  - rewrite IH, leaves_node, fmap_app, concat_app, fmap_cons. simpl.
    by rewrite <- !app_assoc.
Qed.

Lemma leaves_sub_addrs t : forall y, y ∈ leaves t -> y ∈ addrs t.
Proof.
  induction t as [a mc vs|a vs cs IH] using atree_ind'; intros y Hy; [done|].
  rewrite leaves_node in Hy. rewrite addrs_node. apply list_elem_of_further.
  apply elem_of_concat in Hy as (l & Hy & Hl).
  apply list_elem_of_fmap in Hl as (c & -> & Hc).
  apply elem_of_concat. exists (addrs c). split.
  - rewrite Forall_forall in IH. by apply IH.
  - apply list_elem_of_fmap. eauto.
Qed.

End Leaves.

Section PairSingle.
Context `{P : Params}.
Variables (p : nat) (pvs : list value_type) (Ls Rs : list atree).
Hypothesis Hlen : zlen Ls + zlen Rs = zlen pvs.

Lemma ipre_insert_at x :
  ipre (inorder <$> Ls) (insert_at (zlen Ls) x pvs) = ipre (inorder <$> Ls) pvs.
Proof using Hlen.
  pose proof (zlen_nonneg Ls). pose proof (zlen_nonneg Rs).
  rewrite <- (ipre_take _ (insert_at _ _ _) (zlen Ls)) by (rewrite zlen_fmap; lia).
  rewrite ztake_insert_at by lia.
  apply ipre_take. rewrite zlen_fmap. lia.
Qed.

Lemma inorder_single S :
  inorder (ANode p pvs (Ls ++ S :: Rs)) =
    ipre (inorder <$> Ls) pvs ++ inorder S ++
    ipost (inorder <$> Rs) (zdrop (zlen Ls) pvs).
Proof using Hlen.
  rewrite inorder_node, fmap_app, fmap_cons, inter_mid.
  - rewrite length_fmap. unfold zdrop, zlen. by rewrite Nat2Z.id.
  - rewrite !length_fmap. unfold zlen in Hlen. lia.
Qed.

Lemma inorder_pair x L R :
  inorder (ANode p (insert_at (zlen Ls) x pvs) (Ls ++ L :: R :: Rs)) =
    ipre (inorder <$> Ls) pvs ++ (inorder L ++ x :: inorder R) ++
    ipost (inorder <$> Rs) (zdrop (zlen Ls) pvs).
Proof using Hlen.
  pose proof (zlen_nonneg Ls). pose proof (zlen_nonneg Rs).
  rewrite inorder_node, fmap_app, fmap_cons, inter_mid.
  - rewrite length_fmap, ipre_insert_at. f_equal. rewrite <- app_assoc. f_equal.
    replace (drop (length Ls) (insert_at (zlen Ls) x pvs))
      with (zdrop (zlen Ls) (insert_at (zlen Ls) x pvs))
      by (unfold zdrop, zlen; by rewrite Nat2Z.id).
    rewrite zdrop_insert_at by lia. done.
  - rewrite length_fmap. simpl. rewrite !length_fmap.
    pose proof (zlen_insert_at (zlen Ls) x pvs). unfold zlen in *. lia.
Qed.

(** Cutting the node [t] with values [W] and children [K] in two keeps
    the values in order. *)
Lemma inorder_cut_parent t ar W K m x :
  kids_ok t W K -> zget W m = Some x ->
  inorder (ANode p (insert_at (zlen Ls) x pvs)
             (Ls ++ cut_left t W K m :: cut_right t ar W K m :: Rs)) =
  inorder (ANode p pvs (Ls ++ mk_like t (addr t) W K :: Rs)).
Proof using Hlen.
  intros Hok Hx. rewrite inorder_pair, inorder_single.
  rewrite (inorder_cut t ar W K m x Hok Hx). rewrite !inorder_mk_like. done.
Qed.

Lemma addrs_cut t ar W K m :
  addrs (cut_left t W K m) ++ addrs (cut_right t ar W K m) ≡ₚ
    ar :: addrs (mk_like t (addr t) W K).
Proof.
  unfold cut_left, cut_right. rewrite !addrs_mk_like. destruct (is_leaf t).
  - simpl. apply perm_swap.
  - rewrite <- (concat_cut addrs K (m + 1)).
    set (X := concat _). set (Y := concat _). clearbody X Y.
    simpl. solve_Permutation.
Qed.

Lemma addrs_cut_parent t ar W K m pvs' :
  addrs (ANode p pvs' (Ls ++ cut_left t W K m :: cut_right t ar W K m :: Rs)) ≡ₚ
    ar :: addrs (ANode p pvs (Ls ++ mk_like t (addr t) W K :: Rs)).
Proof.
  rewrite !addrs_node, !fmap_app, !concat_app, !fmap_cons. cbn [concat].
  pose proof (addrs_cut t ar W K m) as Hc.
  set (X := concat (addrs <$> Ls)). set (Y := concat (addrs <$> Rs)).
  set (Z0 := addrs (mk_like _ _ _ _)) in *.
  set (A1 := addrs (cut_left _ _ _ _)) in *.
  set (A2 := addrs (cut_right _ _ _ _ _)) in *. clearbody X Y Z0 A1 A2.
  transitivity (p :: X ++ (A1 ++ A2) ++ Y); [by rewrite <- app_assoc|].
  rewrite Hc. solve_Permutation.
Qed.

Lemma leaves_cut t ar W K m :
  leaves (cut_left t W K m) ++ leaves (cut_right t ar W K m) =
    if is_leaf t then [addr t; ar] else concat (leaves <$> K).
Proof.
  unfold cut_left, cut_right. rewrite !leaves_mk_like. destruct (is_leaf t); [done|].
  apply concat_cut.
Qed.

Lemma leaves_cut_parent t ar W K m pvs' :
  is_leaf t = false ->
  leaves (ANode p pvs' (Ls ++ cut_left t W K m :: cut_right t ar W K m :: Rs)) =
    leaves (ANode p pvs (Ls ++ mk_like t (addr t) W K :: Rs)).
Proof.
  intros Hl. rewrite !leaves_node, !fmap_app, !concat_app, !fmap_cons. cbn [concat].
  rewrite (app_assoc (leaves (cut_left _ _ _ _))), leaves_cut, leaves_mk_like, Hl.
  done.
Qed.

Lemma leaves_cut_parent_leaf t ar W K m pvs' :
  is_leaf t = true ->
  leaves (ANode p pvs' (Ls ++ cut_left t W K m :: cut_right t ar W K m :: Rs)) =
    concat (leaves <$> Ls) ++ addr t :: ar :: concat (leaves <$> Rs) /\
  leaves (ANode p pvs (Ls ++ mk_like t (addr t) W K :: Rs)) =
    concat (leaves <$> Ls) ++ addr t :: concat (leaves <$> Rs).
Proof.
  intros Hl. rewrite !leaves_node, !fmap_app, !concat_app, !fmap_cons. cbn [concat].
  rewrite (app_assoc (leaves (cut_left _ _ _ _))), leaves_cut, leaves_mk_like, Hl.
  done.
Qed.

End PairSingle.


(** * The sibling operations as cuts *)

Section SiblingsAsCut.
Context `{P : Params}.
Variables (lt rt : atree) (d : value_type).
Hypothesis Hkind : is_leaf lt = is_leaf rt.
Hypothesis Hcap : acap lt = acap rt.
Hypothesis Hkl : is_leaf lt = false -> zlen (akids lt) = zlen (avals lt) + 1.

Local Abbreviation W := (big_vals lt rt d).
Local Abbreviation K := (big_kids lt rt).
Local Abbreviation cl := (zlen (avals lt)).

Lemma big_vals_len : zlen W = cl + 1 + zlen (avals rt).
Proof. unfold big_vals. rewrite zlen_app, zlen_cons. lia. Qed.

Lemma big_vals_delim : zget W cl = Some d.
Proof.
  unfold big_vals. rewrite zget_app. destruct (Z.ltb_spec cl cl); [lia|].
  by rewrite Z.sub_diag.
Qed.

Lemma big_vals_right q : 0 <= q -> zget W (cl + 1 + q) = zget (avals rt) q.
Proof.
  intros Hq. unfold big_vals. rewrite zget_app. destruct (Z.ltb_spec (cl + 1 + q) cl); [lia|].
  rewrite zget_cons. destruct (Z.eqb_spec (cl + 1 + q - cl) 0); [lia|]. f_equal. lia.
Qed.

Lemma big_vals_left q : q < cl -> zget W q = zget (avals lt) q.
Proof.
  intros Hq. unfold big_vals. rewrite zget_app. by destruct (Z.ltb_spec q cl); [|lia].
Qed.

Lemma sibling_left : lt = cut_left lt W K cl.
Proof using All.
  pose proof (zlen_nonneg (avals lt)).
  unfold cut_left, big_vals, big_kids. rewrite ztake_app_l, ztake_all by lia.
  destruct lt as [l mc lvs|l lvs lks]; [done|]. simpl in *.
  rewrite ztake_app_l, ztake_all by lia. done.
Qed.

Lemma sibling_right : rt = cut_right lt (addr rt) W K cl.
Proof using All.
  pose proof (zlen_nonneg (avals lt)).
  unfold cut_right, big_vals, big_kids.
  rewrite zdrop_app_r by lia. replace (cl + 1 - cl) with 1 by lia.
  rewrite zdrop_cons_pos, zdrop_0 by lia.
  destruct lt as [l mc lvs|l lvs lks], rt as [r mcr rvs|r rvs rks]; try done;
    simpl in *.
  - by subst.
  - rewrite zdrop_app_r by lia. rewrite Hkl by done.
    by rewrite Z.sub_diag, zdrop_0.
Qed.

Lemma r2l_left_cut n :
  1 <= n -> r2l_left lt rt d n = cut_left lt W K (cl + n).
Proof using All.
  intros Hn. pose proof (zlen_nonneg (avals lt)).
  unfold r2l_left, cut_left, big_vals, big_kids. rewrite set_content_mk_like.
  rewrite ztake_app_r by lia. replace (cl + n - cl) with n by lia.
  rewrite ztake_cons_pos by lia.
  destruct lt as [l mc lvs|l lvs lks]; [done|]. simpl in *.
  rewrite ztake_app_r by lia. rewrite Hkl by done.
  do 3 f_equal. lia.
Qed.

Lemma r2l_right_cut n :
  1 <= n -> r2l_right rt n = cut_right lt (addr rt) W K (cl + n).
Proof using All.
  intros Hn. pose proof (zlen_nonneg (avals lt)).
  unfold r2l_right, cut_right, big_vals, big_kids. rewrite set_content_mk_like.
  rewrite zdrop_app_r by lia. replace (cl + n + 1 - cl) with (n + 1) by lia.
  rewrite zdrop_cons_pos by lia. replace (n + 1 - 1) with n by lia.
  destruct lt as [l mc lvs|l lvs lks], rt as [r mcr rvs|r rvs rks]; try done;
    simpl in *.
  - by subst.
  - rewrite zdrop_app_r by lia. rewrite Hkl by done.
    do 2 f_equal. lia.
Qed.

Lemma l2r_left_cut n :
  1 <= n <= cl -> l2r_left lt n = cut_left lt W K (cl - n).
Proof using All.
  intros Hn.
  unfold l2r_left, cut_left, big_vals, big_kids. rewrite set_content_mk_like.
  rewrite ztake_app_l by lia.
  destruct lt as [l mc lvs|l lvs lks]; [done|]. simpl in *.
  rewrite ztake_app_l by lia. done.
Qed.

Lemma l2r_right_cut n :
  1 <= n <= cl -> l2r_right lt rt d n = cut_right lt (addr rt) W K (cl - n).
Proof using All.
  intros Hn.
  unfold l2r_right, cut_right, big_vals, big_kids. rewrite set_content_mk_like.
  rewrite zdrop_app_l by lia.
  destruct lt as [l mc lvs|l lvs lks], rt as [r mcr rvs|r rvs rks]; try done;
    simpl in *.
  - by subst.
  - rewrite zdrop_app_l by lia. done.
Qed.

Lemma merged_cut : merged lt rt d = mk_like lt (addr lt) W K.
Proof. unfold merged. by rewrite set_content_mk_like. Qed.

End SiblingsAsCut.

Section SplitAsCut.
Context `{P : Params}.

Lemma split_left_cut lt s :
  split_left lt s = cut_left lt (avals lt) (akids lt) (zlen (avals lt) - s - 1).
Proof.
  unfold split_left, cut_left. rewrite set_content_mk_like.
  do 2 f_equal. lia.
Qed.

Lemma split_right_cut r lt s :
  split_right r lt s = cut_right lt r (avals lt) (akids lt) (zlen (avals lt) - s - 1).
Proof.
  unfold split_right, cut_right.
  destruct lt as [l mc lvs|l lvs lks]; simpl; repeat f_equal; lia.
Qed.

(** ** Shape *)

(** The node of the kind of [t] with values [W] and children [K] has
    well-formed children of height [h - 1]. *)
Definition vnode_wf (t : atree) (W : list value_type) (K : list atree) (h : nat)
    : Prop :=
  acap t = kNodeValues /\ kids_ok t W K /\
  if is_leaf t then h = O else exists h', h = S h' /\ Forall (wf 1 h') K.

Lemma wf_vnode k h t : wf k h t -> vnode_wf t (avals t) (akids t) h.
Proof.
  destruct t as [a mc vs|a vs cs].
  - intros (-> & -> & _). by repeat split.
  - intros (_ & Hcs & h' & -> & Hk)%wf_node. repeat split; [done|]. simpl. eauto.
Qed.

Lemma wf_mk_like k h t a W K :
  vnode_wf t W K h -> k <= zlen W <= kNodeValues -> wf k h (mk_like t a W K).
Proof.
  intros (Hcap & Hok & Hh) HW. unfold kids_ok in Hok.
  destruct t as [a0 mc vs|a0 vs cs]; cbn [mk_like is_leaf acap] in *.
  - apply wf_leaf. by subst.
  - destruct Hh as (h' & -> & Hk). apply wf_node. eauto.
Qed.

Lemma vnode_wf_take t W K h m :
  vnode_wf t W K h -> 0 <= m <= zlen W ->
  vnode_wf t (ztake m W) (ztake (m + 1) K) h.
Proof.
  intros (Hcap & Hok & Hh) Hm. split; [done|]. unfold kids_ok in *.
  destruct (is_leaf t).
  - split; [|done]. subst K. apply ztake_nil.
  - split; [rewrite !zlen_take; lia|]. destruct Hh as (h' & -> & Hk).
    exists h'. split; [done|]. unfold ztake. by apply Forall_take.
Qed.

Lemma vnode_wf_drop t W K h m :
  vnode_wf t W K h -> 0 <= m < zlen W ->
  vnode_wf t (zdrop (m + 1) W) (zdrop (m + 1) K) h.
Proof.
  intros (Hcap & Hok & Hh) Hm. split; [done|]. unfold kids_ok in *.
  destruct (is_leaf t).
  - split; [|done]. subst K. apply zdrop_nil.
  - split; [rewrite !zlen_drop; lia|]. destruct Hh as (h' & -> & Hk).
    exists h'. split; [done|]. unfold zdrop. by apply Forall_drop.
Qed.

Lemma wf_cut_left k h t W K m :
  vnode_wf t W K h -> k <= m <= kNodeValues -> 0 <= m <= zlen W ->
  wf k h (cut_left t W K m).
Proof.
  intros Hv Hk Hm. apply wf_mk_like; [by apply vnode_wf_take|].
  rewrite zlen_take; lia.
Qed.

Lemma wf_cut_right k h t a W K m :
  vnode_wf t W K h -> 0 <= m < zlen W -> k <= zlen W - m - 1 <= kNodeValues ->
  wf k h (cut_right t a W K m).
Proof.
  intros Hv Hm Hk. apply wf_mk_like; [by apply vnode_wf_drop|].
  rewrite zlen_drop; lia.
Qed.

Lemma vnode_wf_siblings kl kr h lt rt d :
  wf kl h lt -> wf kr h rt -> vnode_wf lt (big_vals lt rt d) (big_kids lt rt) h.
Proof.
  intros Hl Hr. apply wf_vnode in Hl as (Hcl & Hokl & Hhl).
  apply wf_vnode in Hr as (Hcr & Hokr & Hhr).
  split; [done|]. unfold kids_ok, big_vals, big_kids in *.
  destruct lt as [l mc lvs|l lvs lks], rt as [r mcr rvs|r rvs rks]; simpl in *;
    try done.
  - destruct Hhr as (? & ? & ?). by subst.
  - destruct Hhl as (? & ? & ?). by subst.
  - split; [rewrite !zlen_app, zlen_cons; lia|].
    destruct Hhl as (h' & -> & Hkl), Hhr as (h'' & [= <-] & Hkr).
    exists h'. split; [done|]. by apply Forall_app.
Qed.

Lemma wf_siblings_kind kl kr h lt rt :
  wf kl h lt -> wf kr h rt ->
  is_leaf lt = is_leaf rt /\ acap lt = acap rt /\
  (is_leaf lt = false -> zlen (akids lt) = zlen (avals lt) + 1).
Proof.
  intros Hl Hr.
  destruct lt as [l mc lvs|l lvs lks], rt as [r mcr rvs|r rvs rks];
    cbn [is_leaf acap akids avals].
  - destruct Hl as (_ & -> & _), Hr as (_ & -> & _). done.
  - destruct Hl as (-> & _). apply wf_node in Hr as (_ & _ & ? & ? & _). done.
  - destruct Hr as (-> & _). apply wf_node in Hl as (_ & _ & ? & ? & _). done.
  - apply wf_node in Hl as (_ & ? & _). done.
Qed.

Lemma wf_node_ok k h t : wf k h t -> node_ok t.
Proof.
  destruct t as [a mc vs|a vs cs].
  - intros (_ & -> & ?). repeat split; simpl; [lia|done].
  - intros (? & ? & _)%wf_node. repeat split; simpl; [lia|done].
Qed.

Lemma wf_weaken k k' h t : wf k h t -> k' <= k -> wf k' h t.
Proof.
  destruct t as [a mc vs|a vs cs].
  - intros (? & ? & ?) ?. repeat split; try done; lia.
  - intros (? & ? & ?)%wf_node ?. apply wf_node. repeat split; try done; lia.
Qed.

Lemma wf_strengthen k k' h t :
  wf k h t -> k' <= zlen (avals t) -> wf k' h t.
Proof.
  destruct t as [a mc vs|a vs cs]; simpl avals.
  - intros (? & ? & ?) ?. repeat split; try done; lia.
  - intros (? & ? & ?)%wf_node ?. apply wf_node. repeat split; try done; lia.
Qed.

End SplitAsCut.

(** * Slots through the parent *)

Section Slots.
Context `{P : Params}.
Variables (p : nat) (pvs : list value_type) (Ls Rs : list atree) (c0 : ctx).
Hypothesis Hlen : zlen Ls + zlen Rs = zlen pvs.

(** The values before slot [j] of the node with values [W] and children
    [K] that hangs below [p] after [Ls]. *)
Definition vbefore (t : atree) (W : list value_type) (K : list atree) (j : Z)
    : list value_type :=
  ctx_before c0 ++ ipre (inorder <$> Ls) pvs ++ before_slot (mk_like t 0%nat W K) j.

Lemma before_single t a W K j :
  ctx_before (CNode p pvs Ls Rs c0) ++ before_slot (mk_like t a W K) j =
    vbefore t W K j.
Proof. unfold vbefore. simpl. by rewrite <- app_assoc, !before_slot_mk_like. Qed.

Lemma ctx_before_left x R :
  ctx_before (CNode p (insert_at (zlen Ls) x pvs) Ls (R :: Rs) c0) =
    ctx_before c0 ++ ipre (inorder <$> Ls) pvs.
Proof using Hlen. simpl. by rewrite (ipre_insert_at pvs Ls Rs Hlen). Qed.

Lemma ctx_before_right x L :
  ctx_before (CNode p (insert_at (zlen Ls) x pvs) (Ls ++ [L]) Rs c0) =
    ctx_before c0 ++ ipre (inorder <$> Ls) pvs ++ inorder L ++ [x].
Proof using Hlen.
  pose proof (zlen_nonneg Ls). pose proof (zlen_nonneg Rs).
  simpl. f_equal. unfold insert_at.
  change (x :: zdrop (zlen Ls) pvs) with ([x] ++ zdrop (zlen Ls) pvs).
  assert (length (inorder <$> Ls) = length (ztake (zlen Ls) pvs)) as Hl.
  { rewrite length_fmap, length_ztake by lia. unfold zlen. lia. }
  rewrite app_assoc, fmap_app. simpl.
  rewrite ipre_app_l.
  2:{ rewrite !length_app. simpl. lia. }
  rewrite ipre_snoc by done. f_equal.
  apply ipre_take. rewrite zlen_fmap. lia.
Qed.

Lemma before_pair_left t ar W K m x j :
  0 <= j <= m -> m <= zlen W ->
  ctx_before (CNode p (insert_at (zlen Ls) x pvs) Ls (cut_right t ar W K m :: Rs) c0) ++
    before_slot (cut_left t W K m) j = vbefore t W K j.
Proof using Hlen.
  intros Hj Hm. rewrite ctx_before_left, before_cut_l by done.
  unfold vbefore. by rewrite <- app_assoc.
Qed.

Lemma before_pair_right t ar W K m x j :
  kids_ok t W K -> zget W m = Some x -> m < j <= zlen W ->
  ctx_before (CNode p (insert_at (zlen Ls) x pvs) (Ls ++ [cut_left t W K m]) Rs c0) ++
    before_slot (cut_right t ar W K m) (j - m - 1) = vbefore t W K j.
Proof using Hlen.
  intros Hok Hx Hj. rewrite ctx_before_right.
  unfold vbefore. rewrite <- !app_assoc. do 2 f_equal.
  by rewrite <- (before_cut_r t ar W K m j x Hok Hx Hj).
Qed.

Lemma plug_pair_left x L R :
  plug (CNode p (insert_at (zlen Ls) x pvs) Ls (R :: Rs) c0) L =
    plug c0 (ANode p (insert_at (zlen Ls) x pvs) (Ls ++ L :: R :: Rs)).
Proof. done. Qed.

Lemma plug_pair_right x L R :
  plug (CNode p (insert_at (zlen Ls) x pvs) (Ls ++ [L]) Rs c0) R =
    plug c0 (ANode p (insert_at (zlen Ls) x pvs) (Ls ++ L :: R :: Rs)).
Proof. simpl. by rewrite <- app_assoc. Qed.

End Slots.


(** * The tree object and the tree it represents *)

Section TreeRep.
Context `{P : Params}.

(** The store of [t] holds the tree [T] from the root of [t]; [rm] and
    [sz] are the [rightmost] and [size] fields of an internal root.  The
    parent of the root is the first leaf. *)
Record tree_rep (t : btree) (T : atree) (rm : nat) (sz : Z) : Prop := mk_tree_rep {
  tr_root : root t = addr T;
  tr_rep : rep_at (heap t) (first_leaf T) 0 rm sz T;
  tr_nodup : NoDup (addrs T);
  tr_bound : forall y, y ∈ addrs T -> (0 < y < next_addr (heap t))%nat;
}.

Lemma addr_plug c : forall t t', addr t' = addr t -> addr (plug c t') = addr (plug c t).
Proof. induction c as [|a vs Ls Rs c IH]; simpl; intros t t' H; [done|]. by apply IH. Qed.

Lemma is_leaf_plug c t : c <> CTop -> is_leaf (plug c t) = false.
Proof.
  revert t. induction c as [|a vs Ls Rs c IH]; intros t Hc; [done|]. simpl.
  destruct c; [done|]. by apply IH.
Qed.

Lemma hd_mid {A} (d : A) X l l' Y :
  l <> [] -> l' <> [] -> hd d l = hd d l' -> hd d (X ++ l ++ Y) = hd d (X ++ l' ++ Y).
Proof. destruct X; simpl; [|done]. by destruct l, l'. Qed.

Lemma first_leaf_plug c t t' :
  leaves t <> [] -> leaves t' <> [] -> first_leaf t' = first_leaf t ->
  first_leaf (plug c t') = first_leaf (plug c t).
Proof.
  intros H1 H2 H3. unfold first_leaf. rewrite !leaves_plug. by apply hd_mid.
Qed.

(** The subtree of a represented tree. *)
Lemma tree_rep_sub t c S rm sz :
  tree_rep t (plug c S) rm sz ->
  rep_at (heap t) (hole_par c (first_leaf (plug c S))) (hole_pos c 0)
    (hole_rm c rm) (hole_sz c sz) S.
Proof. intros [_ Hrep _ _]. by apply rep_plug. Qed.

Lemma ctx_not_sub c S y :
  NoDup (addrs (plug c S)) -> y ∈ ctx_addrs c -> y ∉ addrs S.
Proof. intros (_ & Hd & _)%NoDup_plug Hy Hy'. by apply (Hd y). Qed.

(** A subtree is replaced. *)
Lemma tree_rep_plug t t' c S S' rm sz :
  tree_rep t (plug c S) rm sz ->
  root t' = root t -> addr S' = addr S ->
  rep_at (heap t') (hole_par c (first_leaf (plug c S))) (hole_pos c 0)
    (hole_rm c rm) (hole_sz c sz) S' ->
  (forall y, y ∈ ctx_addrs c -> cells (heap t') !! y = cells (heap t) !! y) ->
  NoDup (addrs S') -> (forall y, y ∈ addrs S' -> y ∉ ctx_addrs c) ->
  (forall y, y ∈ addrs S' -> (0 < y < next_addr (heap t'))%nat) ->
  (next_addr (heap t) <= next_addr (heap t'))%nat ->
  first_leaf (plug c S') = first_leaf (plug c S) ->
  tree_rep t' (plug c S') rm sz.
Proof.
  intros [Hroot Hrep Hnd Hb] Hr Haddr Hrep' Hfr Hnd' Hdisj Hb' Hnext Hfirst.
  split.
  - rewrite Hr, Hroot. symmetry. by apply addr_plug.
  - rewrite Hfirst. by eapply rep_plug_update.
  - apply NoDup_plug. split; [done|]. split; [done|].
    by apply NoDup_plug in Hnd as (_ & _ & ?).
  - intros y [Hy|Hy]%elem_of_addrs_plug; [by apply Hb'|].
    assert (0 < y < next_addr (heap t))%nat; [|lia].
    apply Hb. apply elem_of_addrs_plug. by right.
Qed.

(** The store changes outside the tree. *)
Lemma tree_rep_frame t t' T rm sz :
  tree_rep t T rm sz -> root t' = root t ->
  (forall y, y ∈ addrs T -> cells (heap t') !! y = cells (heap t) !! y) ->
  (next_addr (heap t) <= next_addr (heap t'))%nat ->
  tree_rep t' T rm sz.
Proof.
  intros [Hroot Hrep Hnd Hb] Hr Hfr Hnext. split; [congruence| |done|].
  - by eapply rep_at_frame.
  - intros y Hy. specialize (Hb y Hy). lia.
Qed.

(** The fields of the root. *)
Lemma tree_rep_leaf_fields t T rm sz rm' sz' :
  tree_rep t T rm sz -> is_leaf T = true -> tree_rep t T rm' sz'.
Proof.
  intros [Hroot Hrep Hnd Hb] Hl. split; try done.
  destruct T; [|done]. apply rep_at_leaf. by apply rep_at_leaf in Hrep.
Qed.

Lemma tree_rep_root_cell t a vs cs rm sz :
  tree_rep t (ANode a vs cs) rm sz ->
  exists g, cells (heap t) !! a =
              Some (internal_cell (first_leaf (ANode a vs cs)) 0 vs g rm sz) /\
            kids_fn cs g.
Proof. intros [_ Hrep _ _]. by apply rep_at_node in Hrep as [? _]. Qed.

Lemma tree_rep_set_root_cell t T rm sz rm' sz' n :
  tree_rep t T rm sz -> is_leaf T = false ->
  top_cell (first_leaf T) 0 rm' sz' T n ->
  tree_rep (on_heap (set_cell (root t) n) t) T rm' sz'.
Proof.
  intros [Hroot Hrep Hnd Hb] Hl Htop. split; try done.
  simpl. eapply rep_at_move; [exact Hrep| | |done].
  - exists n. split; [|done]. rewrite Hroot. apply lookup_set_cell_eq.
  - intros y _ Hy. rewrite Hroot. by apply lookup_set_cell_ne.
Qed.

Lemma tree_rep_add_size t T rm sz d :
  tree_rep t T rm sz -> is_leaf T = false -> tree_rep (add_size d t) T rm (sz + d).
Proof.
  intros Hrep Hl. destruct T as [|a vs cs]; [done|].
  destruct (tree_rep_root_cell _ _ _ _ _ _ Hrep) as (g & Hc & Hg).
  pose proof (tr_root _ _ _ _ Hrep) as Hroot. simpl in Hroot.
  subst a. unfold add_size, on_heap. rewrite upd_set_cell, (nd_lookup _ _ _ Hc).
  apply (tree_rep_set_root_cell t _ rm sz); [done|done|].
  exists g. done.
Qed.

Lemma tree_rep_set_rightmost t T rm sz r :
  tree_rep t T rm sz -> is_leaf T = false -> tree_rep (set_rightmost r t) T r sz.
Proof.
  intros Hrep Hl. destruct T as [|a vs cs]; [done|].
  destruct (tree_rep_root_cell _ _ _ _ _ _ Hrep) as (g & Hc & Hg).
  pose proof (tr_root _ _ _ _ Hrep) as Hroot. simpl in Hroot.
  subst a. unfold set_rightmost, on_heap. rewrite upd_set_cell, (nd_lookup _ _ _ Hc).
  apply (tree_rep_set_root_cell t _ rm sz); [done|done|].
  exists g. done.
Qed.

(** ** Shape of a context *)

(** Every node of the context is well formed; the parent of the hole has
    at least [minc] values. *)
Fixpoint ctx_wf (minc : Z) (c : ctx) (h : nat) : Prop :=
  match c with
  | CTop => True
  | CNode _ vs Ls Rs c' =>
      minc <= zlen vs <= kNodeValues /\ zlen Ls + zlen Rs = zlen vs /\
      Forall (wf 1 h) Ls /\ Forall (wf 1 h) Rs /\ ctx_wf 1 c' (S h)
  end.

Lemma ctx_wf_lens k c h : ctx_wf k c h -> ctx_lens c.
Proof.
  revert k h. induction c as [|a vs Ls Rs c IH]; intros k h; simpl; [done|].
  intros (_ & ? & _ & _ & ?). split; [done|]. by eapply IH.
Qed.

Lemma ctx_wf_weaken k k' c h : ctx_wf k c h -> k' <= k -> ctx_wf k' c h.
Proof. destruct c; simpl; [done|]. intros (? & ? & ? & ? & ?) ?. repeat split; try done; lia. Qed.

Lemma zlen_mid1 {A} (Ls Rs : list A) x : zlen (Ls ++ x :: Rs) = zlen Ls + zlen Rs + 1.
Proof. rewrite zlen_app, zlen_cons. lia. Qed.

Lemma wf_plug_node k h a vs Ls Rs S :
  k <= zlen vs <= kNodeValues -> zlen Ls + zlen Rs = zlen vs ->
  Forall (wf 1 h) Ls -> Forall (wf 1 h) Rs -> wf 1 h S ->
  wf k (Datatypes.S h) (ANode a vs (Ls ++ S :: Rs)).
Proof.
  intros Hk Hlen HL HR HS. apply wf_node. split; [done|]. split.
  - rewrite zlen_mid1. lia.
  - exists h. split; [done|]. apply Forall_app. split; [done|]. by constructor.
Qed.

Lemma wf_root_plug c : forall h S,
  c <> CTop -> ctx_wf 1 c h -> wf 1 h S -> wf_root (plug c S).
Proof.
  induction c as [|a vs Ls Rs c IH]; intros h S Hc Hwf HS; [done|].
  simpl in *. destruct Hwf as (Hk & Hlen & HL & HR & Hwf).
  pose proof (wf_plug_node 1 h a vs Ls Rs S Hk Hlen HL HR HS) as Hn.
  destruct c as [|a' vs' Ls' Rs' c']; [simpl; eauto|].
  eapply IH; [done|exact Hwf|exact Hn].
Qed.

Lemma wf_plug_inv c : forall S,
  c <> CTop -> wf_root (plug c S) -> exists h, ctx_wf 1 c h /\ wf 1 h S.
Proof.
  induction c as [|a vs Ls Rs c IH]; intros S Hc Hwf; [done|].
  simpl in Hwf.
  assert (exists h, ctx_wf 1 c h /\ wf 1 h (ANode a vs (Ls ++ S :: Rs)))
    as (h & Hcw & Hn).
  { destruct c as [|a' vs' Ls' Rs' c']; [|by apply IH].
    simpl in Hwf. destruct Hwf as [h Hh]. exists h. done. }
  apply wf_node in Hn as (Hk & Hlen & h' & -> & Hkids).
  apply Forall_app in Hkids as [HL HRs]. apply Forall_cons in HRs as [HS HR].
  exists h'. split; [|done]. simpl. rewrite zlen_mid1 in Hlen.
  repeat split; try done; lia.
Qed.

Lemma leaves_nonempty k h t : wf k h t -> leaves t <> [].
Proof.
  revert k h. induction t as [a mc vs|a vs cs IH] using atree_ind'; intros k h Hwf; [done|].
  apply wf_node in Hwf as (_ & Hlen & h' & -> & Hk).
  destruct cs as [|c cs]; [rewrite zlen_nil in Hlen; pose proof (zlen_nonneg vs); lia|].
  apply Forall_cons in IH as [IHc _]. apply Forall_cons in Hk as [Hc _].
  rewrite leaves_node. simpl. specialize (IHc _ _ Hc).
  by destruct (leaves c).
Qed.

End TreeRep.


(** * What the code reads in the cell of a node *)

Section CellFacts.
Context `{P : Params}.

Lemma rep_at_nd m par pos rm sz t :
  rep_at m par pos rm sz t ->
  leaf (nd m (addr t)) = is_leaf t /\
  count (nd m (addr t)) = zlen (avals t) /\
  max_count (nd m (addr t)) = acap t /\
  parent (nd m (addr t)) = par /\
  position (nd m (addr t)) = pos /\
  (is_leaf t = false -> rightmost (nd m (addr t)) = rm /\ size (nd m (addr t)) = sz).
Proof.
  intros (n & Hn & Htop)%rep_at_top. rewrite (nd_lookup _ _ _ Hn).
  destruct t as [a mc vs|a vs cs]; simpl in Htop.
  - subst n. by repeat split.
  - destruct Htop as (g & -> & _). by repeat split.
Qed.

Lemma rep_at_child m par pos rm sz t q k :
  rep_at m par pos rm sz t -> zget (akids t) q = Some k -> q <= kNodeValues ->
  child (nd m (addr t)) q = addr k.
Proof.
  intros (n & Hn & Htop)%rep_at_top Hq Hle. rewrite (nd_lookup _ _ _ Hn).
  destruct t as [a mc vs|a vs cs]; simpl in *; [by rewrite zget_nil in Hq|].
  destruct Htop as (g & -> & Hg). apply zget_Some_lt in Hq as Hlt.
  unfold child, internal_cell; simpl. rewrite lookup_total_tabZ by lia.
  by apply Hg.
Qed.

Lemma rep_at_slot m par pos rm sz t q x :
  rep_at m par pos rm sz t -> zget (avals t) q = Some x -> q < acap t ->
  slot (nd m (addr t)) q = Some x.
Proof.
  intros (n & Hn & Htop)%rep_at_top Hq Hle. rewrite (nd_lookup _ _ _ Hn).
  apply zget_Some_lt in Hq as Hlt.
  destruct t as [a mc vs|a vs cs]; simpl in *.
  - subst n. unfold slot, leaf_cell, slots; simpl. by rewrite lookup_total_tabZ by lia.
  - destruct Htop as (g & -> & Hg).
    unfold slot, internal_cell, slots; simpl. by rewrite lookup_total_tabZ by lia.
Qed.

Lemma rep_at_key m par pos rm sz t q x :
  rep_at m par pos rm sz t -> zget (avals t) q = Some x -> q < acap t ->
  key (nd m (addr t)) q = params_key x.
Proof.
  intros Hrep Hq Hle. unfold key, value.
  by rewrite (rep_at_slot _ _ _ _ _ _ _ _ Hrep Hq Hle).
Qed.

End CellFacts.

(** * A slot of one of two siblings *)

Section PairSlot.
Context `{P : Params}.
Variables (p : nat) (pvs : list value_type) (Ls Rs : list atree) (c0 : ctx) (h : nat).
Hypothesis Hlen : zlen Ls + zlen Rs = zlen pvs.
Hypothesis Hpvs : zlen pvs < kNodeValues.
Hypothesis HL : Forall (wf 1 h) Ls.
Hypothesis HR : Forall (wf 1 h) Rs.
Hypothesis Hc0 : ctx_wf 1 c0 (S h).
Variables (t : atree) (ar : nat) (W : list value_type) (K : list atree).
Variables (m : Z) (x : value_type).
Hypothesis Hv : vnode_wf t W K h.
Hypothesis Hx : zget W m = Some x.

(** Slot [j] of the node with values [W] and children [K], after the
    node was cut after its value [m]: the slot is in the part that has
    room, the other part is not empty. *)
Lemma pair_slot j :
  0 <= j <= zlen W ->
  m <= kNodeValues -> zlen W - m - 1 <= kNodeValues ->
  (if j <=? m then m < kNodeValues /\ 1 <= zlen W - m - 1
   else zlen W - m - 1 < kNodeValues /\ 1 <= m) ->
  exists c' sub' ip',
    plug c0 (ANode p (insert_at (zlen Ls) x pvs)
               (Ls ++ cut_left t W K m :: cut_right t ar W K m :: Rs)) =
      plug c' sub' /\
    (addr sub', ip') = (if j <=? m then (addr t, j) else (ar, j - m - 1)) /\
    ctx_wf 1 c' h /\ wf 0 h sub' /\ zlen (avals sub') < kNodeValues /\
    0 <= ip' <= zlen (avals sub') /\
    ctx_before c' ++ before_slot sub' ip' = vbefore pvs Ls c0 t W K j /\
    kid_at sub' ip' = kid_at (mk_like t 0%nat W K) j /\
    c' <> CTop /\ is_leaf sub' = is_leaf t.
Proof using All.
  intros Hj Hm1 Hm2 Hroom. apply zget_Some_lt in Hx as Hm.
  pose proof (zlen_nonneg Ls). pose proof (zlen_nonneg Rs).
  pose proof (zlen_insert_at (zlen Ls) x pvs) as Hlen'.
  destruct (Z.leb_spec j m) as [Hjm|Hjm].
  - destruct Hroom as [Hroom1 Hroom2].
    exists (CNode p (insert_at (zlen Ls) x pvs) Ls (cut_right t ar W K m :: Rs) c0),
      (cut_left t W K m), j.
    split; [done|]. split; [by unfold cut_left; rewrite addr_mk_like|].
    split.
    { simpl. repeat split; try done; try lia.
      - rewrite zlen_cons. lia.
      - constructor; [|done]. apply wf_cut_right; [done|lia|lia]. }
    split; [apply wf_cut_left; [done|lia|lia]|].
    unfold cut_left at 1 2. rewrite avals_mk_like, zlen_take by lia.
    split; [done|]. split; [lia|].
    split; [apply before_pair_left; [done|lia|lia]|].
    split; [apply kid_cut_l; lia|].
    split; [done|]. unfold cut_left. apply is_leaf_mk_like.
  - destruct Hroom as [Hroom1 Hroom2].
    exists (CNode p (insert_at (zlen Ls) x pvs) (Ls ++ [cut_left t W K m]) Rs c0),
      (cut_right t ar W K m), (j - m - 1).
    split; [by rewrite plug_pair_right|].
    split; [by unfold cut_right; rewrite addr_mk_like|].
    split.
    { simpl. repeat split; try done; try lia.
      - rewrite zlen_app, zlen_cons, zlen_nil. lia.
      - apply Forall_app. split; [done|]. constructor; [|done].
        apply wf_cut_left; [done|lia|lia]. }
    split; [apply wf_cut_right; [done|lia|lia]|].
    unfold cut_right at 1 2. rewrite avals_mk_like, zlen_drop by lia.
    split; [lia|]. split; [lia|].
    split; [apply before_pair_right; [done|by destruct Hv as (_ & ? & _)|done|lia]|].
    split; [apply kid_cut_r; lia|].
    split; [done|]. unfold cut_right. apply is_leaf_mk_like.
Qed.

End PairSlot.


(** * The leaves of a tree *)

Section LeavesFacts.
Context `{P : Params}.

Lemma leaves_sublist t : leaves t `sublist_of` addrs t.
Proof.
  induction t as [a mc vs|a vs cs IH] using atree_ind'; [done|].
  rewrite leaves_node, addrs_node. apply sublist_cons.
  induction IH as [|c cs Hc _ IHcs]; [done|]. simpl. by apply sublist_app.
Qed.

Lemma NoDup_leaves t : NoDup (addrs t) -> NoDup (leaves t).
Proof. intros H. eapply sublist_NoDup; [exact H|apply leaves_sublist]. Qed.

Lemma last_insert_after (X Y : list nat) a r :
  NoDup (X ++ a :: Y) ->
  default 0%nat (last (X ++ a :: r :: Y)) =
    if (default 0%nat (last (X ++ a :: Y)) =? a)%nat then r
    else default 0%nat (last (X ++ a :: Y)).
Proof.
  intros Hnd. rewrite !last_app_cons.
  destruct Y as [|y Y]; simpl.
  - by rewrite Nat.eqb_refl.
  - apply NoDup_app in Hnd as (_ & _ & Hnd). apply NoDup_cons in Hnd as [Ha _].
    destruct (last (y :: Y)) as [z|] eqn:Hz.
    + assert (z ∈ y :: Y) as Hin.
      { apply last_Some in Hz as [l' ->]. apply elem_of_app. right. apply list_elem_of_here. }
      simpl.
      destruct (Nat.eqb_spec z a) as [->|]; [done|done].
    + apply last_None in Hz. done.
Qed.

Lemma last_remove_after (X Y : list nat) a r :
  NoDup (X ++ a :: r :: Y) ->
  default 0%nat (last (X ++ a :: Y)) =
    if (default 0%nat (last (X ++ a :: r :: Y)) =? r)%nat then a
    else default 0%nat (last (X ++ a :: r :: Y)).
Proof.
  intros Hnd. rewrite !last_app_cons.
  destruct Y as [|y Y]; simpl.
  - by rewrite Nat.eqb_refl.
  - apply NoDup_app in Hnd as (_ & _ & Hnd). apply NoDup_cons in Hnd as [_ Hnd].
    apply NoDup_cons in Hnd as [Hr _].
    destruct (last (y :: Y)) as [z|] eqn:Hz.
    + assert (z ∈ y :: Y) as Hin.
      { apply last_Some in Hz as [l' ->]. apply elem_of_app. right. apply list_elem_of_here. }
      simpl.
      destruct (Nat.eqb_spec z r) as [->|]; [done|done].
    + apply last_None in Hz. done.
Qed.

Lemma hd_insert_after (X Y : list nat) a r :
  hd 0%nat (X ++ a :: r :: Y) = hd 0%nat (X ++ a :: Y).
Proof. by destruct X. Qed.

End LeavesFacts.

(** * Splitting a node of the tree *)

Section SplitStep.
Context `{P : Params}.
Hypothesis Hstatic : static_assert_field.

Lemma split_count_full ip :
  0 <= ip <= kNodeValues ->
  let s := split_count ip kNodeValues kNodeValues in
  let m := kNodeValues - s - 1 in
  0 <= s <= kNodeValues - 1 /\ 0 <= m < kNodeValues /\
  (if ip <=? m then 1 <= kNodeValues - m - 1 else 1 <= m).
Proof.
  intros Hip. pose proof kNodeValues_pos as Hk. unfold split_count.
  destruct (Z.eqb_spec ip 0) as [->|H0]; cbv zeta.
  - replace (kNodeValues - (kNodeValues - 1) - 1) with 0 by lia.
    simpl. lia.
  - destruct (Z.eqb_spec ip kNodeValues) as [->|H1].
    + destruct (Z.leb_spec kNodeValues (kNodeValues - 0 - 1)); lia.
    + assert (1 <= kNodeValues / 2) by (apply Z.div_le_lower_bound; lia).
      assert (2 * (kNodeValues / 2) <= kNodeValues) by (apply Z.mul_div_le; lia).
      destruct (Z.leb_spec ip (kNodeValues - kNodeValues / 2 - 1)); lia.
Qed.

Variables (t : btree) (c0 : ctx) (p : nat) (pvs : list value_type).
Variables (Ls Rs : list atree) (sub : atree) (h : nat) (rm : nat) (sz : Z).
Hypothesis Hrep : tree_rep t (plug (CNode p pvs Ls Rs c0) sub) rm sz.
Hypothesis Hcw : ctx_wf 0 (CNode p pvs Ls Rs c0) h.
Hypothesis Hpvs : zlen pvs < kNodeValues.
Hypothesis Hsub : wf 1 h sub.
Hypothesis Hfull : zlen (avals sub) = kNodeValues.

Local Abbreviation P0 := (ANode p pvs (Ls ++ sub :: Rs)).

Lemma split_step ip R0 :
  0 <= ip <= kNodeValues -> fresh_cell (is_leaf sub) R0 ->
  let r := next_addr (heap t) in
  let t2 := with_heap (split (addr sub) r ip (set_cell r R0 (bump (heap t)))) t in
  let m := kNodeValues - split_count ip kNodeValues kNodeValues - 1 in
  exists x, zget (avals sub) m = Some x /\
    tree_rep t2
      (plug c0 (ANode p (insert_at (zlen Ls) x pvs)
                  (Ls ++ cut_left sub (avals sub) (akids sub) m ::
                     cut_right sub r (avals sub) (akids sub) m :: Rs))) rm sz /\
    next_addr (heap t2) = S r /\ r ∉ addrs (plug c0 P0).
Proof using All.
  intros Hip HR0 r t2 m.
  destruct (split_count_full ip Hip) as (Hs & Hm & _). fold m in Hm.
  destruct (zget_is_Some (avals sub) m) as [x Hx]; [lia|].
  exists x. split; [done|].
  destruct Hcw as (Hk & Hlen & HL & HR & Hc0).
  pose proof (tr_nodup _ _ _ _ Hrep) as Hnd. simpl in Hnd.
  pose proof (tr_bound _ _ _ _ Hrep) as Hb. simpl in Hb.
  assert (r ∉ addrs (plug c0 P0)) as Hr.
  { intros Hin. apply Hb in Hin. unfold r in Hin. lia. }
  apply NoDup_plug in Hnd as Hnd3. destruct Hnd3 as (Hnd0 & Hdisj & Hndc).
  assert (r ∉ addrs P0) as Hr0.
  { intros Hin. apply Hr. apply elem_of_addrs_plug. by left. }
  pose proof (tree_rep_sub t c0 P0 rm sz Hrep) as Hrep0.
  set (m1 := set_cell r R0 (bump (heap t))) in *.
  assert (forall y, y <> r -> cells m1 !! y = cells (heap t) !! y) as Hm1.
  { intros y Hy. unfold m1. rewrite lookup_set_cell_ne by done. by rewrite cells_bump. }
  assert (rep_at m1 (hole_par c0 (first_leaf (plug c0 P0))) (hole_pos c0 0)
            (hole_rm c0 rm) (hole_sz c0 sz) P0) as Hrep1.
  { eapply rep_at_frame; [exact Hrep0|]. intros y Hy. apply Hm1. by intros ->. }
  assert (zlen (Ls ++ sub :: Rs) = zlen pvs + 1) as Hcs by (rewrite zlen_mid1; lia).
  destruct (split_rep Hstatic m1 _ _ _ _ p pvs Ls Rs sub Hrep1 Hnd0 Hpvs Hcs
              (wf_node_ok _ _ _ Hsub) r R0 Hr0 (lookup_set_cell_eq _ _ _)
              HR0 ip x) as (Hrep' & Hfr & Hnext).
  { rewrite Hfull. lia. }
  { rewrite Hfull. exact Hx. }
  rewrite split_left_cut, split_right_cut, Hfull in Hrep'. fold m in Hrep'.
  set (P' := ANode p (insert_at _ _ _) _) in *.
  assert (addrs P' ≡ₚ r :: addrs P0) as Hperm.
  { unfold P'. rewrite (addrs_cut_parent p pvs Ls Rs sub r _ _ m).
    by rewrite mk_like_same. }
  assert (next_addr (heap t2) = S r) as Hn2.
  { change (heap t2) with (split (addr sub) r ip m1). rewrite Hnext. unfold m1.
    by rewrite next_addr_set_cell, next_addr_bump. }
  split; [|split; [|done]].
  - apply (tree_rep_plug t t2 c0 P0 P' rm sz Hrep);
      [reflexivity|reflexivity|exact Hrep'| | | | | |].
    + intros y Hy. change (heap t2) with (split (addr sub) r ip m1). rewrite Hfr.
      * apply Hm1. intros ->. apply Hr. apply elem_of_addrs_plug. by right.
      * by eapply ctx_not_sub.
      * intros ->. apply Hr. apply elem_of_addrs_plug. by right.
    + rewrite Hperm. by apply NoDup_cons.
    + intros y Hy. rewrite Hperm in Hy. apply elem_of_cons in Hy as [->|Hy].
      * intros Hin. apply Hr. apply elem_of_addrs_plug. by right.
      * by apply Hdisj.
    + intros y Hy. rewrite Hn2.
      rewrite Hperm in Hy. apply elem_of_cons in Hy as [->|Hy]; [unfold r|].
      * assert (0 < next_addr (heap t))%nat; [|lia].
        assert (0 < addr (plug c0 P0) < next_addr (heap t))%nat; [|lia].
        apply Hb, addr_in_addrs.
      * assert (0 < y < next_addr (heap t))%nat; [|lia].
        apply Hb. apply elem_of_addrs_plug. by left.
    + rewrite Hn2. unfold r. lia.
    + assert (wf 0 (S h) P0) as Hwf0 by (by apply wf_plug_node).
      pose proof (leaves_nonempty _ _ _ Hwf0) as Hne.
      destruct (is_leaf sub) eqn:Hleaf.
      * destruct (leaves_cut_parent_leaf p pvs Ls Rs sub r (avals sub) (akids sub) m
                    (insert_at (zlen Ls) x pvs) Hleaf) as [E1 E2].
        rewrite mk_like_same in E2. fold P' in E1.
        apply first_leaf_plug; [done| |].
        -- rewrite E1. by destruct (concat (leaves <$> Ls)).
        -- unfold first_leaf. rewrite E1, E2. apply hd_insert_after.
      * pose proof (leaves_cut_parent p pvs Ls Rs sub r (avals sub) (akids sub) m
                      (insert_at (zlen Ls) x pvs) Hleaf) as E1.
        rewrite mk_like_same in E1. fold P' in E1.
        apply first_leaf_plug; [done|by rewrite E1|].
        unfold first_leaf. by rewrite E1.
  - exact Hn2.
Qed.

End SplitStep.


(** * The splitting tail of rebalance_or_split *)

Section SplitTail.
Context `{P : Params}.
Hypothesis Hstatic : static_assert_field.

Lemma with_heap_with_heap m m' (t : btree) :
  with_heap m' (with_heap m t) = with_heap m' t.
Proof. done. Qed.

Lemma next_addr_upd a f (m : memory) : next_addr (upd a f m) = next_addr m.
Proof. done. Qed.

Lemma set_rightmost_fields r (t : btree) :
  next_addr (heap (set_rightmost r t)) = next_addr (heap t) /\
  key_comp (set_rightmost r t) = key_comp t /\ root (set_rightmost r t) = root t.
Proof. done. Qed.

Lemma add_size_fields d (t : btree) :
  next_addr (heap (add_size d t)) = next_addr (heap t) /\
  key_comp (add_size d t) = key_comp t /\ root (add_size d t) = root t.
Proof. done. Qed.

(** The state after [rebalance_or_split] made room: the slot [ip'] of
    [sub'] is the slot [ip] of [sub] before, and [sub'] is not full. *)
Definition ins_post (c : ctx) (sub : atree) (ip : Z) (h : nat)
    (c' : ctx) (sub' : atree) (ip' : Z) : Prop :=
  ctx_wf 1 c' h /\ wf 0 h sub' /\
  zlen (avals sub') < kNodeValues /\ 0 <= ip' <= zlen (avals sub') /\
  inorder (plug c' sub') = inorder (plug c sub) /\
  ctx_before c' ++ before_slot sub' ip' = ctx_before c ++ before_slot sub ip /\
  kid_at sub' ip' = kid_at sub ip /\ c' <> CTop /\ is_leaf sub' = is_leaf sub.

Lemma split_tail_leaf_eq a ip par (t : btree) :
  leaf (nd (heap t) a) = true ->
  split_tail a ip par t =
    let r := next_addr (heap t) in
    let t2 := with_heap (split a r ip (set_cell r (leaf_cell par 0 kNodeValues [])
                                         (bump (heap t)))) t in
    let t3 := if (btree_rightmost t2 =? a)%nat then set_rightmost r t2 else t2 in
    if count (nd (heap t3) a) <? ip
    then (mk_iterator r (ip - count (nd (heap t3) a) - 1), t3)
    else (mk_iterator a ip, t3).
Proof using Hstatic.
  intros H. unfold split_tail. rewrite H, (new_leaf_node_spec Hstatic).
  cbv beta iota zeta. unfold on_heap at 1. cbn [heap with_heap].
  rewrite with_heap_with_heap. done.
Qed.

Lemma split_tail_internal_eq a ip par (t : btree) :
  leaf (nd (heap t) a) = false ->
  split_tail a ip par t =
    let r := next_addr (heap t) in
    let t2 := with_heap (split a r ip
                           (set_cell r (internal_cell par 0 [] (fun _ => 0%nat) 0%nat 0)
                              (bump (heap t)))) t in
    if count (nd (heap t2) a) <? ip
    then (mk_iterator r (ip - count (nd (heap t2) a) - 1), t2)
    else (mk_iterator a ip, t2).
Proof using Hstatic.
  intros H. unfold split_tail. rewrite H, (new_internal_node_spec Hstatic).
  cbv beta iota zeta. unfold on_heap. cbn [heap with_heap]. done.
Qed.

Lemma btree_rightmost_internal t T rm sz :
  tree_rep t T rm sz -> is_leaf T = false -> btree_rightmost t = rm.
Proof.
  intros Hrep Hl. unfold btree_rightmost.
  pose proof (tr_root _ _ _ _ Hrep) as Hroot.
  pose proof (tr_bound _ _ _ _ Hrep (addr T) (addr_in_addrs T)) as Hb.
  destruct (rep_at_nd _ _ _ _ _ _ (tr_rep _ _ _ _ Hrep)) as (H1 & _ & _ & _ & _ & H2).
  rewrite Hroot, H1, Hl. destruct (Nat.eqb_spec (addr T) 0); [lia|]. simpl.
  by apply H2.
Qed.

End SplitTail.


Section SplitTailSpec.
Context `{P : Params}.
Hypothesis Hstatic : static_assert_field.

Lemma is_leaf_plug_node c a vs cs : is_leaf (plug c (ANode a vs cs)) = false.
Proof. destruct c; [done|]. by apply is_leaf_plug. Qed.

Lemma kid_at_mk_like t a : forall j, kid_at (mk_like t a (avals t) (akids t)) j = kid_at t j.
Proof. intros j. by destruct t. Qed.

Lemma before_slot_mk_like_same t a j :
  before_slot (mk_like t a (avals t) (akids t)) j = before_slot t j.
Proof. by destruct t. Qed.

Variables (t : btree) (c0 : ctx) (p : nat) (pvs : list value_type).
Variables (Ls Rs : list atree) (sub : atree) (h : nat) (sz : Z).
Hypothesis Hrep :
  tree_rep t (plug (CNode p pvs Ls Rs c0) sub)
    (last_leaf (plug (CNode p pvs Ls Rs c0) sub)) sz.
Hypothesis Hcw : ctx_wf 0 (CNode p pvs Ls Rs c0) h.
Hypothesis Hpvs : zlen pvs < kNodeValues.
Hypothesis Hsub : wf 1 h sub.
Hypothesis Hfull : zlen (avals sub) = kNodeValues.

Local Abbreviation c := (CNode p pvs Ls Rs c0).
Local Abbreviation P0 := (ANode p pvs (Ls ++ sub :: Rs)).

Lemma split_tail_spec ip parentp :
  0 <= ip <= kNodeValues ->
  exists c' sub' ip' t',
    split_tail (addr sub) ip parentp t = (mk_iterator (addr sub') ip', t') /\
    tree_rep t' (plug c' sub') (last_leaf (plug c' sub')) sz /\
    ins_post c sub ip h c' sub' ip' /\
    next_addr (heap t') = S (next_addr (heap t)) /\
    key_comp t' = key_comp t.
Proof using All.
  intros Hip.
  destruct (split_count_full ip Hip) as (Hs & Hm & Hother).
  set (m := kNodeValues - split_count ip kNodeValues kNodeValues - 1) in *.
  pose proof (tree_rep_sub t c sub _ _ Hrep) as Hrsub.
  destruct (rep_at_nd _ _ _ _ _ _ Hrsub) as (Hleaf & _).
  pose proof Hcw as (Hk & Hlen & HL & HR & Hc0).
  set (r := next_addr (heap t)).
  pose proof (wf_vnode _ _ _ Hsub) as Hv.
  (* the store after the split *)
  assert (exists R0 t3 x,
    split_tail (addr sub) ip parentp t =
      (if count (nd (heap t3) (addr sub)) <? ip
       then (mk_iterator r (ip - count (nd (heap t3) (addr sub)) - 1), t3)
       else (mk_iterator (addr sub) ip, t3)) /\
    zget (avals sub) m = Some x /\
    let T2 := plug c0 (ANode p (insert_at (zlen Ls) x pvs)
                  (Ls ++ cut_left sub (avals sub) (akids sub) m ::
                     cut_right sub r (avals sub) (akids sub) m :: Rs)) in
    tree_rep t3 T2 (last_leaf T2) sz /\
    next_addr (heap t3) = S r /\ key_comp t3 = key_comp t /\
    fresh_cell (is_leaf sub) R0) as (R0 & t3 & x & Heq & Hx & Hrep3 & Hn3 & Hkc & _).
  { destruct (is_leaf sub) eqn:Hl.
    - (* a leaf: the rightmost leaf may change *)
      set (R0 := leaf_cell parentp 0 kNodeValues []).
      assert (fresh_cell (is_leaf sub) R0) as HR0 by (rewrite Hl; by exists parentp).
      destruct (split_step Hstatic t c0 p pvs Ls Rs sub h _ sz Hrep Hcw Hpvs Hsub Hfull
                  ip R0 Hip HR0) as (x & Hx & Hrep2 & Hn2 & Hr).
      fold r m in Hrep2, Hn2, Hr.
      set (t2 := with_heap (split (addr sub) r ip (set_cell r R0 (bump (heap t)))) t) in *.
      set (T2 := plug c0 _) in Hrep2.
      assert (is_leaf T2 = false) as HT2 by apply is_leaf_plug_node.
      pose proof (btree_rightmost_internal _ _ _ _ Hrep2 HT2) as Hrm.
      destruct (leaves_cut_parent_leaf p pvs Ls Rs sub r (avals sub) (akids sub) m
                  (insert_at (zlen Ls) x pvs) Hl) as [E1 E2].
      rewrite mk_like_same in E2.
      assert (last_leaf T2 =
                if (last_leaf (plug c sub) =? addr sub)%nat then r
                else last_leaf (plug c sub)) as Hlast.
      { unfold last_leaf, T2. simpl plug. rewrite !leaves_plug, E1, E2.
        rewrite <- !app_assoc, !app_assoc, <- !(app_assoc _ (concat (leaves <$> Ls))).
        simpl. rewrite <- !app_assoc. simpl.
        rewrite !(app_assoc (ctx_leaves_before c0)).
        apply last_insert_after.
        pose proof (NoDup_leaves _ (tr_nodup _ _ _ _ Hrep)) as Hndl.
        simpl plug in Hndl. rewrite leaves_plug, E2 in Hndl.
        rewrite <- !app_assoc in Hndl. simpl in Hndl.
        by rewrite <- !app_assoc. }
      exists R0, (if (btree_rightmost t2 =? addr sub)%nat then set_rightmost r t2 else t2), x.
      split.
      { rewrite (split_tail_leaf_eq Hstatic) by (by rewrite Hleaf). cbv zeta.
        reflexivity. }
      split; [exact Hx|]. cbv zeta. fold T2. rewrite Hrm, Hlast.
      destruct (last_leaf (plug c sub) =? addr sub)%nat.
      + destruct (set_rightmost_fields r t2) as (F1 & F2 & F3).
        split; [exact (tree_rep_set_rightmost _ _ _ _ _ Hrep2 HT2)|].
        split; [by rewrite F1|]. split; [by rewrite F2|by exists parentp].
      + split; [exact Hrep2|]. split; [exact Hn2|].
        split; [reflexivity|by exists parentp].
    - set (R0 := internal_cell parentp 0 [] (fun _ => 0%nat) 0%nat 0).
      assert (fresh_cell (is_leaf sub) R0) as HR0.
      { rewrite Hl. exists parentp, (fun _ => 0%nat). done. }
      destruct (split_step Hstatic t c0 p pvs Ls Rs sub h _ sz Hrep Hcw Hpvs Hsub Hfull
                  ip R0 Hip HR0) as (x & Hx & Hrep2 & Hn2 & Hr).
      fold r m in Hrep2, Hn2, Hr.
      set (t2 := with_heap (split (addr sub) r ip (set_cell r R0 (bump (heap t)))) t) in *.
      set (T2 := plug c0 _) in Hrep2.
      pose proof (leaves_cut_parent p pvs Ls Rs sub r (avals sub) (akids sub) m
                    (insert_at (zlen Ls) x pvs) Hl) as E1.
      rewrite mk_like_same in E1.
      assert (last_leaf T2 = last_leaf (plug c sub)) as Hlast.
      { unfold last_leaf, T2. simpl plug. by rewrite !leaves_plug, E1. }
      exists R0, t2, x.
      split.
      { rewrite (split_tail_internal_eq Hstatic) by (by rewrite Hleaf). cbv zeta.
        reflexivity. }
      split; [exact Hx|]. cbv zeta. fold T2. rewrite Hlast.
      split; [exact Hrep2|]. split; [exact Hn2|].
      split; [reflexivity|by exists parentp, (fun _ => 0%nat)]. }
  cbv zeta in Hrep3.
  (* the slot *)
  destruct (pair_slot p pvs Ls Rs c0 h Hlen Hpvs HL HR Hc0 sub r (avals sub) (akids sub)
              m x Hv Hx ip) as (c' & sub' & ip' & Hplug & Hiter & Hcw' & Hwf' & Hroom &
                                Hip' & Hbefore & Hkid & Hne & Hleaf');
    [lia|lia|lia| |].
  { rewrite Hfull. destruct (ip <=? m); lia. }
  rewrite Hplug in Hrep3.
  (* the count of the left part *)
  assert (count (nd (heap t3) (addr sub)) = m) as Hcount.
  { pose proof Hrep3 as Hrep3'. rewrite <- Hplug in Hrep3'.
    rewrite <- (plug_pair_left p pvs Ls Rs c0 x) in Hrep3'.
    apply tree_rep_sub in Hrep3'.
    destruct (rep_at_nd _ _ _ _ _ _ Hrep3') as (_ & Hc & _).
    unfold cut_left in Hc. rewrite addr_mk_like, avals_mk_like in Hc.
    rewrite Hc. apply zlen_take. lia. }
  exists c', sub', ip', t3.
  split.
  { rewrite Heq, Hcount.
    destruct (Z.ltb_spec m ip), (Z.leb_spec ip m); try lia;
      injection Hiter as -> ->; done. }
  split; [done|]. split; [|done].
  repeat split; try done; try lia.
  - rewrite <- Hplug. simpl plug.
    rewrite !inorder_plug by (by eapply ctx_wf_lens).
    do 2 f_equal.
    rewrite (inorder_cut_parent p pvs Ls Rs Hlen sub r (avals sub) (akids sub) m x);
      [by rewrite mk_like_same|by destruct Hv as (_ & ? & _)|done].
  - rewrite Hbefore.
    rewrite <- (before_single p pvs Ls Rs c0 sub (addr sub)).
    by rewrite mk_like_same.
  - rewrite Hkid. apply kid_at_mk_like.
Qed.

End SplitTailSpec.


(** * Values move between two siblings *)

Section PairMove.
Context `{P : Params}.
Variables (p : nat) (pvs : list value_type) (Ls Rs : list atree) (c0 : ctx).
Hypothesis Hlen : zlen Ls + zlen Rs = zlen pvs.
Hypothesis Hc0 : ctx_lens c0.
Variables (t : atree) (ar : nat) (W : list value_type) (K : list atree).
Hypothesis Hok : kids_ok t W K.

(** The two siblings when the cut is after value [m]. *)
Definition pair_at (m : Z) (x : value_type) : atree :=
  ANode p (insert_at (zlen Ls) x pvs)
    (Ls ++ cut_left t W K m :: cut_right t ar W K m :: Rs).

Lemma leaves_pair_at m x m' x' : leaves (pair_at m x) = leaves (pair_at m' x').
Proof.
  unfold pair_at. destruct (is_leaf t) eqn:Hl.
  - by rewrite !(proj1 (leaves_cut_parent_leaf p pvs Ls Rs t ar W K _ _ Hl)).
  - by rewrite !(leaves_cut_parent p pvs Ls Rs t ar W K _ _ Hl).
Qed.

Lemma addrs_pair_at m x m' x' : addrs (pair_at m x) ≡ₚ addrs (pair_at m' x').
Proof. unfold pair_at. by rewrite !(addrs_cut_parent p pvs Ls Rs t ar W K). Qed.

Lemma inorder_pair_at m x m' x' :
  zget W m = Some x -> zget W m' = Some x' ->
  inorder (pair_at m x) = inorder (pair_at m' x').
Proof using Hlen Hok.
  intros Hx Hx'. unfold pair_at.
  by rewrite !(inorder_cut_parent p pvs Ls Rs Hlen t ar W K _ _ Hok) by done.
Qed.

Lemma pair_move tb m' rm sz m0 x0 m1 x1 :
  tree_rep tb (plug c0 (pair_at m0 x0)) rm sz ->
  rep_at m' (hole_par c0 (first_leaf (plug c0 (pair_at m0 x0)))) (hole_pos c0 0)
    (hole_rm c0 rm) (hole_sz c0 sz) (pair_at m1 x1) ->
  (forall y, y ∉ addrs (pair_at m0 x0) -> cells m' !! y = cells (heap tb) !! y) ->
  next_addr m' = next_addr (heap tb) ->
  zget W m0 = Some x0 -> zget W m1 = Some x1 ->
  tree_rep (with_heap m' tb) (plug c0 (pair_at m1 x1)) rm sz /\
  last_leaf (plug c0 (pair_at m1 x1)) = last_leaf (plug c0 (pair_at m0 x0)) /\
  inorder (plug c0 (pair_at m1 x1)) = inorder (plug c0 (pair_at m0 x0)).
Proof using All.
  intros Hrep Hrep' Hfr Hnext Hx0 Hx1.
  pose proof (tr_nodup _ _ _ _ Hrep) as Hnd.
  pose proof (tr_bound _ _ _ _ Hrep) as Hb.
  apply NoDup_plug in Hnd as Hnd3. destruct Hnd3 as (Hnd0 & Hdisj & Hndc).
  assert (leaves (plug c0 (pair_at m1 x1)) = leaves (plug c0 (pair_at m0 x0))) as Hlv.
  { by rewrite !leaves_plug, (leaves_pair_at m1 x1 m0 x0). }
  split; [|split].
  - apply (tree_rep_plug tb (with_heap m' tb) c0 (pair_at m0 x0) (pair_at m1 x1) rm sz Hrep);
      [reflexivity|reflexivity|exact Hrep'| | | | | |].
    + intros y Hy. cbn [heap with_heap]. apply Hfr. by eapply ctx_not_sub.
    + by rewrite (addrs_pair_at m1 x1 m0 x0).
    + intros y Hy. rewrite (addrs_pair_at m1 x1 m0 x0) in Hy. by apply Hdisj.
    + intros y Hy. cbn [heap with_heap]. rewrite Hnext.
      rewrite (addrs_pair_at m1 x1 m0 x0) in Hy.
      apply Hb. apply elem_of_addrs_plug. by left.
    + cbn [heap with_heap]. lia.
    + unfold first_leaf. by rewrite Hlv.
  - unfold last_leaf. by rewrite Hlv.
  - rewrite !inorder_plug by done. by rewrite (inorder_pair_at m1 x1 m0 x0).
Qed.

End PairMove.


(** * Rebalancing two siblings of the tree *)

Section SiblingsTree.
Context `{P : Params}.
Hypothesis Hstatic : static_assert_field.

Variables (t : btree) (c0 : ctx) (p : nat) (pvs : list value_type).
Variables (Ls Rs : list atree) (lt rt : atree) (h : nat) (rm : nat) (sz : Z).
Variables (kl kr : Z) (d : value_type).
Hypothesis Hrep : tree_rep t (plug c0 (ANode p pvs (Ls ++ lt :: rt :: Rs))) rm sz.
Hypothesis Hc0 : ctx_lens c0.
Hypothesis Hlen : zlen Ls + 1 + zlen Rs = zlen pvs.
Hypothesis Hpvs : zlen pvs <= kNodeValues.
Hypothesis Hlt : wf kl h lt.
Hypothesis Hrt : wf kr h rt.
Hypothesis Hd : zget pvs (zlen Ls) = Some d.

Local Abbreviation W := (big_vals lt rt d).
Local Abbreviation K := (big_kids lt rt).
Local Abbreviation cl := (zlen (avals lt)).
Local Abbreviation pvs0 := (remove_at (zlen Ls) pvs).
Local Abbreviation P0 := (ANode p pvs (Ls ++ lt :: rt :: Rs)).

Lemma siblings_len0 : zlen Ls + zlen Rs = zlen pvs0.
Proof using Hlen.
  pose proof (zlen_nonneg Ls). pose proof (zlen_nonneg Rs).
  rewrite zlen_remove_at; lia.
Qed.

Lemma siblings_kids_ok : kids_ok lt W K.
Proof using Hlt Hrt.
  by destruct (vnode_wf_siblings kl kr h lt rt d Hlt Hrt) as (_ & ? & _).
Qed.

Lemma siblings_pair : P0 = pair_at p pvs0 Ls Rs lt (addr rt) W K cl d.
Proof using Hlt Hrt Hd.
  destruct (wf_siblings_kind kl kr h lt rt Hlt Hrt) as (Hkind & Hcap & Hkl).
  unfold pair_at. rewrite insert_at_remove_at_same by done.
  rewrite <- sibling_left, <- sibling_right by done. done.
Qed.

Lemma r2l_tree n :
  1 <= n <= zlen (avals rt) -> cl + n <= kNodeValues ->
  exists x, zget W (cl + n) = Some x /\
    let t' := with_heap (rebalance_right_to_left (addr lt) (addr rt) n (heap t)) t in
    let T' := plug c0 (pair_at p pvs0 Ls Rs lt (addr rt) W K (cl + n) x) in
    next_addr (heap t') = next_addr (heap t) /\
    tree_rep t' T' rm sz /\ last_leaf T' = last_leaf (plug c0 P0) /\
    inorder T' = inorder (plug c0 P0).
Proof using All.
  intros Hn Hroom.
  destruct (wf_siblings_kind kl kr h lt rt Hlt Hrt) as (Hkind & Hcap & Hkl).
  destruct (zget_is_Some (avals rt) (n - 1)) as [x Hx]; [lia|].
  assert (zget W (cl + n) = Some x) as HxW.
  { rewrite <- Hx. replace (cl + n) with (cl + 1 + (n - 1)) by lia.
    apply big_vals_right. lia. }
  exists x. split; [done|]. cbv zeta.
  pose proof (tr_nodup _ _ _ _ Hrep) as Hnd.
  apply NoDup_plug in Hnd as (Hnd0 & _ & _).
  destruct (rebalance_right_to_left_rep Hstatic (heap t) _ _ _ _ p pvs Ls Rs lt rt
              (tree_rep_sub _ _ _ _ _ Hrep) Hnd0 (wf_node_ok _ _ _ Hlt)
              (wf_node_ok _ _ _ Hrt) Hkind Hpvs d Hd n x Hn Hroom Hx)
    as (Hrep' & Hfr & Hnext).
  rewrite <- (insert_at_remove_at _ x d pvs Hd) in Hrep'.
  rewrite (r2l_left_cut lt rt d Hkind Hcap Hkl n) in Hrep' by lia.
  rewrite (r2l_right_cut lt rt d Hkind Hcap Hkl n) in Hrep' by lia.
  pose proof siblings_pair as HP0.
  rewrite HP0 in Hrep, Hrep', Hfr. rewrite HP0.
  split; [exact Hnext|].
  apply (pair_move p pvs0 Ls Rs c0 siblings_len0 Hc0 lt (addr rt) W K siblings_kids_ok
           t _ rm sz cl d (cl + n) x Hrep Hrep' Hfr Hnext); [|done].
  apply big_vals_delim.
Qed.

Lemma l2r_tree n :
  1 <= n <= cl -> zlen (avals rt) + n <= kNodeValues ->
  exists x, zget W (cl - n) = Some x /\
    let t' := with_heap (rebalance_left_to_right (addr lt) (addr rt) n (heap t)) t in
    let T' := plug c0 (pair_at p pvs0 Ls Rs lt (addr rt) W K (cl - n) x) in
    next_addr (heap t') = next_addr (heap t) /\
    tree_rep t' T' rm sz /\ last_leaf T' = last_leaf (plug c0 P0) /\
    inorder T' = inorder (plug c0 P0).
Proof using All.
  intros Hn Hroom.
  destruct (wf_siblings_kind kl kr h lt rt Hlt Hrt) as (Hkind & Hcap & Hkl).
  destruct (zget_is_Some (avals lt) (cl - n)) as [x Hx]; [lia|].
  assert (zget W (cl - n) = Some x) as HxW.
  { rewrite <- Hx. apply big_vals_left. lia. }
  exists x. split; [done|]. cbv zeta.
  pose proof (tr_nodup _ _ _ _ Hrep) as Hnd.
  apply NoDup_plug in Hnd as (Hnd0 & _ & _).
  destruct (rebalance_left_to_right_rep Hstatic (heap t) _ _ _ _ p pvs Ls Rs lt rt
              (tree_rep_sub _ _ _ _ _ Hrep) Hnd0 (wf_node_ok _ _ _ Hlt)
              (wf_node_ok _ _ _ Hrt) Hkind Hpvs d Hd n x Hn Hroom Hx)
    as (Hrep' & Hfr & Hnext).
  rewrite <- (insert_at_remove_at _ x d pvs Hd) in Hrep'.
  rewrite (l2r_left_cut lt rt d Hkind Hcap Hkl n) in Hrep' by lia.
  rewrite (l2r_right_cut lt rt d Hkind Hcap Hkl n) in Hrep' by lia.
  pose proof siblings_pair as HP0.
  rewrite HP0 in Hrep, Hrep', Hfr. rewrite HP0.
  split; [exact Hnext|].
  apply (pair_move p pvs0 Ls Rs c0 siblings_len0 Hc0 lt (addr rt) W K siblings_kids_ok
           t _ rm sz cl d (cl - n) x Hrep Hrep' Hfr Hnext); [|done].
  apply big_vals_delim.
Qed.

(** What the code reads about the two siblings. *)
Lemma siblings_read :
  child (nd (heap t) p) (zlen Ls) = addr lt /\
  child (nd (heap t) p) (zlen Ls + 1) = addr rt /\
  count (nd (heap t) p) = zlen pvs /\
  parent (nd (heap t) (addr lt)) = p /\ position (nd (heap t) (addr lt)) = zlen Ls /\
  parent (nd (heap t) (addr rt)) = p /\ position (nd (heap t) (addr rt)) = zlen Ls + 1 /\
  count (nd (heap t) (addr lt)) = zlen (avals lt) /\
  count (nd (heap t) (addr rt)) = zlen (avals rt) /\
  max_count (nd (heap t) (addr lt)) = kNodeValues /\
  max_count (nd (heap t) (addr rt)) = kNodeValues /\
  leaf (nd (heap t) (addr lt)) = is_leaf lt /\
  leaf (nd (heap t) (addr rt)) = is_leaf rt.
Proof using Hrep Hlen Hpvs Hlt Hrt.
  pose proof (zlen_nonneg Ls). pose proof (zlen_nonneg Rs).
  pose proof (tree_rep_sub _ _ _ _ _ Hrep) as Hr0.
  pose proof (sib_rep_l _ _ _ _ _ _ _ _ _ _ _ Hr0) as Hrl.
  pose proof (sib_rep_r _ _ _ _ _ _ _ _ _ _ _ Hr0) as Hrr.
  destruct (rep_at_nd _ _ _ _ _ _ Hrl) as (L1 & L2 & L3 & L4 & L5 & _).
  destruct (rep_at_nd _ _ _ _ _ _ Hrr) as (R1 & R2 & R3 & R4 & R5 & _).
  destruct (rep_at_nd _ _ _ _ _ _ Hr0) as (_ & P2 & _).
  destruct (wf_node_ok _ _ _ Hlt) as (Hcl & _), (wf_node_ok _ _ _ Hrt) as (Hcr & _).
  rewrite Hcl in L3. rewrite Hcr in R3.
  repeat split; try done.
  - apply (rep_at_child _ _ _ _ _ _ _ _ Hr0); [apply sib_zget_l|lia].
  - apply (rep_at_child _ _ _ _ _ _ _ _ Hr0); [apply sib_zget_r|lia].
Qed.

End SiblingsTree.


(** * Making room by moving values to a sibling *)

Section RebalanceWith.
Context `{P : Params}.
Hypothesis Hstatic : static_assert_field.

Lemma to_move_bounds c mc b :
  0 <= c < mc ->
  let n := Z.max 1 ((mc - c) / (1 + (if b : bool then 1 else 0))) in
  1 <= n <= mc - c.
Proof.
  intros Hc n. unfold n. destruct b.
  - change (1 + 1) with 2.
    assert (0 <= (mc - c) / 2) by (apply Z.div_pos; lia).
    assert ((mc - c) / 2 <= mc - c) by (apply Z.div_le_upper_bound; lia). lia.
  - rewrite Z.div_1_r. lia.
Qed.

Lemma wf_count k h t : wf k h t -> k <= zlen (avals t) <= kNodeValues.
Proof.
  destruct t as [a mc vs|a vs cs]; [by intros (_ & _ & ?)|].
  by intros (? & _)%wf_node.
Qed.

Section Left.
Variables (t : btree) (c0 : ctx) (p : nat) (pvs : list value_type).
Variables (Ls Rs : list atree) (ls sub : atree) (h : nat) (sz : Z).
Hypothesis Hrep :
  tree_rep t (plug c0 (ANode p pvs (Ls ++ ls :: sub :: Rs)))
    (last_leaf (plug c0 (ANode p pvs (Ls ++ ls :: sub :: Rs)))) sz.
Hypothesis Hk : 1 <= zlen pvs <= kNodeValues.
Hypothesis Hlen : zlen Ls + 1 + zlen Rs = zlen pvs.
Hypothesis HL : Forall (wf 1 h) Ls.
Hypothesis HR : Forall (wf 1 h) Rs.
Hypothesis Hc0 : ctx_wf 1 c0 (S h).
Hypothesis Hls : wf 1 h ls.
Hypothesis Hsub : wf 1 h sub.
Hypothesis Hfull : zlen (avals sub) = kNodeValues.

Lemma rebalance_with_left_pair ip it' t' :
  0 <= ip <= kNodeValues ->
  rebalance_with_left (mk_iterator (addr sub) ip) t = Some (it', t') ->
  exists c' sub' ip',
    it' = mk_iterator (addr sub') ip' /\
    tree_rep t' (plug c' sub') (last_leaf (plug c' sub')) sz /\
    ins_post (CNode p pvs (Ls ++ [ls]) Rs c0) sub ip h c' sub' ip' /\
    next_addr (heap t') = next_addr (heap t) /\ key_comp t' = key_comp t.
Proof using All.
  intros Hip Heq.
  pose proof (zlen_nonneg Ls) as HLs0. pose proof (zlen_nonneg Rs) as HRs0.
  destruct (siblings_read t c0 p pvs Ls Rs ls sub h _ sz 1 1 Hrep Hlen (proj2 Hk) Hls Hsub)
    as (C1 & C2 & C3 & PL & QL & PR & QR & CL & CR & ML & MR & LL & LR).
  destruct (zget_is_Some pvs (zlen Ls)) as [d Hd]; [lia|].
  destruct (wf_siblings_kind 1 1 h ls sub Hls Hsub) as (Hkind & Hcap & Hkl).
  pose proof (wf_count _ _ _ Hls) as Hcl1.
  set (W := big_vals ls sub d) in *. set (K := big_kids ls sub) in *.
  set (cl := zlen (avals ls)) in *.
  assert (zlen W = cl + 1 + kNodeValues) as HW.
  { unfold W. rewrite big_vals_len. lia. }
  pose proof (vnode_wf_siblings 1 1 h ls sub d Hls Hsub) as Hv.
  pose proof (siblings_len0 pvs Ls Rs Hlen) as Hlen0.
  (* the code *)
  unfold rebalance_with_left in Heq. cbn [node pos] in Heq.
  rewrite PR, QR in Heq.
  destruct (Z.ltb_spec 0 (zlen Ls + 1)); [|lia].
  replace (zlen Ls + 1 - 1) with (zlen Ls) in Heq by lia.
  rewrite C1, CL, ML in Heq. fold cl in Heq.
  destruct (Z.ltb_spec cl kNodeValues) as [Hroom|]; [|discriminate].
  assert (0 <= cl < kNodeValues) as Hcl2 by lia.
  pose proof (to_move_bounds cl kNodeValues (ip <? kNodeValues) Hcl2) as Hn.
  cbv zeta in Hn. set (n := Z.max 1 _) in *.
  destruct ((0 <=? ip - n) || (cl + n <? kNodeValues)) eqn:Hcond; [|discriminate].
  destruct (r2l_tree Hstatic t c0 p pvs Ls Rs ls sub h _ sz 1 1 d Hrep
              (ctx_wf_lens _ _ _ Hc0) Hlen (proj2 Hk) Hls Hsub Hd n)
    as (x & HxW & Hnext & Hrep1 & Hlast & Hin); [lia|lia|].
  cbv zeta in Hnext.
  fold W K cl in HxW, Hrep1, Hlast, Hin. cbv zeta in Hrep1, Hlast, Hin.
  set (m' := rebalance_right_to_left (addr ls) (addr sub) n (heap t)) in *.
  rewrite <- Hlast in Hrep1.
  (* the slot *)
  destruct (pair_slot p (remove_at (zlen Ls) pvs) Ls Rs c0 h Hlen0
              ltac:(rewrite zlen_remove_at; lia) HL HR Hc0 ls (addr sub) W K
              (cl + n) x Hv HxW (cl + 1 + ip))
    as (c' & sub' & ip' & Hplug & Hiter & Hcw' & Hwf' & Hroom' & Hip' & Hbefore &
        Hkid & Hne & Hleaf'); [lia|lia|lia| |].
  { destruct (Z.leb_spec (cl + 1 + ip) (cl + n)).
    - apply orb_true_iff in Hcond as [Hc|Hc]; [apply Z.leb_le in Hc; lia|].
      apply Z.ltb_lt in Hc. lia.
    - lia. }
  unfold pair_at in Hrep1, Hin. rewrite Hplug in Hrep1, Hin.
  assert (count (nd m' (addr ls)) = cl + n) as Hcount.
  { pose proof Hrep1 as Hrep1'. rewrite <- Hplug in Hrep1'.
    rewrite <- (plug_pair_left p (remove_at (zlen Ls) pvs) Ls Rs c0 x) in Hrep1'.
    apply tree_rep_sub in Hrep1'.
    destruct (rep_at_nd _ _ _ _ _ _ Hrep1') as (_ & Hc & _).
    unfold cut_left in Hc. rewrite addr_mk_like, avals_mk_like in Hc.
    cbn [heap with_heap] in Hc. rewrite Hc. apply zlen_take. lia. }
  exists c', sub', ip'.
  assert (it' = mk_iterator (addr sub') ip' /\ t' = with_heap m' t) as [-> ->].
  { rewrite Hcount in Heq.
    destruct (Z.ltb_spec (ip - n) 0), (Z.leb_spec (cl + 1 + ip) (cl + n)); try lia;
      injection Hiter as -> ->; injection Heq as <- <-;
      (split; [f_equal; lia|reflexivity]). }
  split; [done|]. split; [exact Hrep1|]. split; [|split; [exact Hnext|reflexivity]].
  repeat split; try done; try lia.
  - rewrite Hin. simpl plug. by rewrite <- app_assoc.
  - rewrite Hbefore.
    rewrite <- (before_pair_right p (remove_at (zlen Ls) pvs) Ls Rs c0 Hlen0 ls (addr sub)
                  W K cl d (cl + 1 + ip)); [|by destruct Hv as (_ & ? & _)| |lia].
    + rewrite insert_at_remove_at_same by done.
      unfold W, K, cl.
      rewrite <- (sibling_left ls sub d Hkind Hcap Hkl).
      rewrite <- (sibling_right ls sub d Hkind Hcap Hkl).
      do 2 f_equal. lia.
    + apply big_vals_delim.
  - rewrite Hkid.
    rewrite <- (kid_cut_r ls (addr sub) W K cl (cl + 1 + ip)) by lia.
    unfold W, K, cl. rewrite <- (sibling_right ls sub d Hkind Hcap Hkl).
    f_equal. lia.
  - by rewrite Hleaf'.
Qed.

End Left.

Section Right.
Variables (t : btree) (c0 : ctx) (p : nat) (pvs : list value_type).
Variables (Ls Rs : list atree) (sub rs : atree) (h : nat) (sz : Z).
Hypothesis Hrep :
  tree_rep t (plug c0 (ANode p pvs (Ls ++ sub :: rs :: Rs)))
    (last_leaf (plug c0 (ANode p pvs (Ls ++ sub :: rs :: Rs)))) sz.
Hypothesis Hk : 1 <= zlen pvs <= kNodeValues.
Hypothesis Hlen : zlen Ls + 1 + zlen Rs = zlen pvs.
Hypothesis HL : Forall (wf 1 h) Ls.
Hypothesis HR : Forall (wf 1 h) Rs.
Hypothesis Hc0 : ctx_wf 1 c0 (S h).
Hypothesis Hrs : wf 1 h rs.
Hypothesis Hsub : wf 1 h sub.
Hypothesis Hfull : zlen (avals sub) = kNodeValues.

Lemma rebalance_with_right_pair ip it' t' :
  0 <= ip <= kNodeValues ->
  rebalance_with_right (mk_iterator (addr sub) ip) t = Some (it', t') ->
  exists c' sub' ip',
    it' = mk_iterator (addr sub') ip' /\
    tree_rep t' (plug c' sub') (last_leaf (plug c' sub')) sz /\
    ins_post (CNode p pvs Ls (rs :: Rs) c0) sub ip h c' sub' ip' /\
    next_addr (heap t') = next_addr (heap t) /\ key_comp t' = key_comp t.
Proof using All.
  intros Hip Heq.
  pose proof (zlen_nonneg Ls) as HLs0. pose proof (zlen_nonneg Rs) as HRs0.
  destruct (siblings_read t c0 p pvs Ls Rs sub rs h _ sz 1 1 Hrep Hlen (proj2 Hk) Hsub Hrs)
    as (C1 & C2 & C3 & PL & QL & PR & QR & CL & CR & ML & MR & LL & LR).
  destruct (zget_is_Some pvs (zlen Ls)) as [d Hd]; [lia|].
  destruct (wf_siblings_kind 1 1 h sub rs Hsub Hrs) as (Hkind & Hcap & Hkl).
  pose proof (wf_count _ _ _ Hrs) as Hcr1.
  set (W := big_vals sub rs d) in *. set (K := big_kids sub rs) in *.
  set (cr := zlen (avals rs)) in *.
  assert (zlen W = kNodeValues + 1 + cr) as HW.
  { unfold W. rewrite big_vals_len. lia. }
  pose proof (vnode_wf_siblings 1 1 h sub rs d Hsub Hrs) as Hv.
  pose proof (siblings_len0 pvs Ls Rs Hlen) as Hlen0.
  (* the code *)
  unfold rebalance_with_right in Heq. cbn [node pos] in Heq.
  rewrite PL, QL, C3 in Heq.
  destruct (Z.ltb_spec (zlen Ls) (zlen pvs)); [|lia].
  rewrite C2, CR, MR, CL, Hfull in Heq. fold cr in Heq.
  destruct (Z.ltb_spec cr kNodeValues) as [Hroom|]; [|discriminate].
  assert (0 <= cr < kNodeValues) as Hcr2 by lia.
  pose proof (to_move_bounds cr kNodeValues (0 <? ip) Hcr2) as Hn.
  cbv zeta in Hn. set (n := Z.max 1 _) in *.
  destruct ((ip <=? kNodeValues - n) || (cr + n <? kNodeValues)) eqn:Hcond;
    [|discriminate].
  destruct (l2r_tree Hstatic t c0 p pvs Ls Rs sub rs h _ sz 1 1 d Hrep
              (ctx_wf_lens _ _ _ Hc0) Hlen (proj2 Hk) Hsub Hrs Hd n)
    as (x & HxW & Hnext & Hrep1 & Hlast & Hin); [lia|lia|].
  cbv zeta in Hnext.
  rewrite Hfull in HxW, Hrep1, Hlast, Hin.
  fold W K in HxW, Hrep1, Hlast, Hin. cbv zeta in Hrep1, Hlast, Hin.
  set (m' := rebalance_left_to_right (addr sub) (addr rs) n (heap t)) in *.
  rewrite <- Hlast in Hrep1.
  (* the slot *)
  destruct (pair_slot p (remove_at (zlen Ls) pvs) Ls Rs c0 h Hlen0
              ltac:(rewrite zlen_remove_at; lia) HL HR Hc0 sub (addr rs) W K
              (kNodeValues - n) x Hv HxW ip)
    as (c' & sub' & ip' & Hplug & Hiter & Hcw' & Hwf' & Hroom' & Hip' & Hbefore &
        Hkid & Hne & Hleaf'); [lia|lia|lia| |].
  { destruct (Z.leb_spec ip (kNodeValues - n)).
    - lia.
    - cbn [orb] in Hcond. apply Z.ltb_lt in Hcond. lia. }
  unfold pair_at in Hrep1, Hin. rewrite Hplug in Hrep1, Hin.
  assert (count (nd m' (addr sub)) = kNodeValues - n) as Hcount.
  { pose proof Hrep1 as Hrep1'. rewrite <- Hplug in Hrep1'.
    rewrite <- (plug_pair_left p (remove_at (zlen Ls) pvs) Ls Rs c0 x) in Hrep1'.
    apply tree_rep_sub in Hrep1'.
    destruct (rep_at_nd _ _ _ _ _ _ Hrep1') as (_ & Hc & _).
    unfold cut_left in Hc. rewrite addr_mk_like, avals_mk_like in Hc.
    cbn [heap with_heap] in Hc. rewrite Hc. apply zlen_take. lia. }
  exists c', sub', ip'.
  assert (it' = mk_iterator (addr sub') ip' /\ t' = with_heap m' t) as [-> ->].
  { rewrite Hcount in Heq.
    destruct (Z.ltb_spec (kNodeValues - n) ip), (Z.leb_spec ip (kNodeValues - n));
      try lia; injection Hiter as -> ->; injection Heq as <- <-;
      (split; [f_equal; lia|reflexivity]). }
  split; [done|]. split; [exact Hrep1|]. split; [|split; [exact Hnext|reflexivity]].
  repeat split; try done; try lia.
  - rewrite Hbefore.
    rewrite <- (before_pair_left p (remove_at (zlen Ls) pvs) Ls Rs c0 Hlen0 sub (addr rs)
                  W K kNodeValues d ip); [|lia|lia].
    rewrite insert_at_remove_at_same by done.
    unfold W, K. rewrite <- Hfull.
    rewrite <- (sibling_left sub rs d Hkind Hcap Hkl).
    rewrite <- (sibling_right sub rs d Hkind Hcap Hkl). done.
  - rewrite Hkid.
    rewrite <- (kid_cut_l sub W K kNodeValues ip) by lia.
    unfold W, K. rewrite <- Hfull. by rewrite <- (sibling_left sub rs d Hkind Hcap Hkl).
Qed.

End Right.

End RebalanceWith.


(** * [swap] on internal nodes: the children *)

Section ParentLoops.
Context `{P : Params}.

Lemma tabZ_snoc {A} n (f : Z -> A) : 0 <= n -> tabZ (n + 1) f = tabZ n f ++ [f n].
Proof.
  intros Hn. apply zget_ext. intros q.
  rewrite zget_app, !zget_tabZ, zlen_tabZ, zget_cons by lia.
  destruct (Z.leb_spec 0 q), (Z.ltb_spec q (n + 1)), (Z.ltb_spec q n); simpl; try lia;
    try done.
  - destruct (Z.eqb_spec (q - n) 0); [do 2 f_equal; lia|lia].
  - destruct (Z.eqb_spec (q - n) 0); [lia|]. by rewrite zget_nil.
Qed.

(** A store update that only rewrites parent pointers. *)
Definition keeps_links (f : btree_node -> btree_node) : Prop :=
  forall n, children (f n) = children n /\ count (f n) = count n /\ leaf (f n) = leaf n.

Lemma keeps_links_with_parent y : keeps_links (with_parent y).
Proof. by intros n. Qed.

Lemma nd_upd_eq a f m : nd (upd a f m) a = f (nd m a).
Proof. unfold upd, nd; simpl. by rewrite lookup_total_insert_eq. Qed.
Lemma nd_upd_ne a b f m : a <> b -> nd (upd a f m) b = nd m b.
Proof. intros. unfold upd, nd; simpl. by rewrite lookup_total_insert_ne. Qed.

Lemma nd_upd_links a f m y :
  keeps_links f ->
  children (nd (upd a f m) y) = children (nd m y) /\
  count (nd (upd a f m) y) = count (nd m y) /\
  leaf (nd (upd a f m) y) = leaf (nd m y).
Proof.
  intros Hf. destruct (decide (a = y)) as [->|Hne].
  - rewrite nd_upd_eq. apply Hf.
  - by rewrite nd_upd_ne.
Qed.

Lemma nd_upd_kids_links f ks y : keeps_links f -> forall ofs m,
  children (nd (upd_kids (fun _ => f) ofs ks m) y) = children (nd m y) /\
  count (nd (upd_kids (fun _ => f) ofs ks m) y) = count (nd m y) /\
  leaf (nd (upd_kids (fun _ => f) ofs ks m) y) = leaf (nd m y).
Proof.
  intros Hf. induction ks as [|k ks IH]; intros ofs m; [done|]. simpl.
  destruct (IH (ofs + 1) (upd k f m)) as (-> & -> & ->). by apply nd_upd_links.
Qed.

(** [for (i = 0; i < n; ++i) y->child(i)->parent = ...] *)
Lemma for_up_upd_kids y f : keeps_links f -> forall n m, 0 <= n ->
  for_up 0 n (fun i m => upd (child (nd m y) i) f m) m =
    upd_kids (fun _ => f) 0 (tabZ n (child (nd m y))) m.
Proof.
  intros Hf n m Hn. revert m.
  apply (Z.right_induction
           (fun n => forall m, for_up 0 n (fun i m => upd (child (nd m y) i) f m) m =
                       upd_kids (fun _ => f) 0 (tabZ n (child (nd m y))) m) ltac:(solve_proper) 0);
    [| |exact Hn].
  - intros m. by rewrite for_up_nil by lia.
  - intros k Hk IH m. replace (Z.succ k) with (k + 1) by lia.
    rewrite for_up_snoc by lia. rewrite IH.
    rewrite tabZ_snoc, upd_kids_snoc by lia. f_equal.
    destruct (nd_upd_kids_links f (tabZ k (child (nd m y))) y Hf 0 m) as (Hc & _).
    unfold child in *. by rewrite Hc.
Qed.

End ParentLoops.

Section SwapChildren.
Context `{P : Params}.
Variables a x : nat.
Hypothesis Hax : a <> x.
Variables An Xn : btree_node.
Variables ga gx : Z -> nat.
Hypothesis HAl : leaf An = false.
Hypothesis HAk : zlen (children An) = kNodeValues + 1.
Hypothesis HXk : zlen (children Xn) = kNodeValues + 1.
Hypothesis HAc : 0 <= count An <= kNodeValues.
Hypothesis HXc : 0 <= count Xn <= kNodeValues.

(** The children arrays after their first [n + 1] slots were exchanged. *)
Definition sw_a (n : Z) (q : Z) : nat := if q <=? n then gx q else ga q.
Definition sw_x (n : Z) (q : Z) : nat := if q <=? n then ga q else gx q.

Lemma swap_children_spec M n :
  n = Z.max (count An) (count Xn) ->
  swap_children n a x (set2 a x M (wc An ga) (wc Xn gx)) =
    upd_kids (fun _ => with_parent a) 0 (tabZ (count Xn + 1) gx)
      (upd_kids (fun _ => with_parent x) 0 (tabZ (count An + 1) ga)
         (set2 a x M (wc An (sw_a n)) (wc Xn (sw_x n)))).
Proof using All.
  intros Hn. unfold swap_children.
  rewrite nd_set2_a by done. rewrite leaf_wc, HAl. cbn [negb].
  loop2_is (set2 a x M (wc An (sw_a n)) (wc Xn (sw_x n))).
  { assert (set2 a x M (wc An (sw_a n)) (wc Xn (sw_x n)) =
            set2 a x M (wc An (fun q => if q <? n + 1 then gx q else ga q))
              (wc Xn (fun q => if q <? n + 1 then ga q else gx q))) as ->.
    { apply set2_wc_ext; intros q Hq; unfold sw_a, sw_x; pw. }
    apply (for_up_ind
             (fun k m => m = set2 a x M (wc An (fun q => if q <? k then gx q else ga q))
                               (wc Xn (fun q => if q <? k then ga q else gx q))));
      [lia| |].
    - apply set2_wc_ext; intros q Hq; pw.
    - intros k m Hk ->. rewrite nd_set2_a, nd_set2_x by done.
      rewrite !child_wc by lia.
      destruct (Z.ltb_spec k k); [lia|].
      rewrite assign_child_a2 by (done || lia).
      rewrite assign_child_x2 by (done || lia).
      apply set2_wc_ext; intros q Hq; unfold sw_a, sw_x; pwf. }
  cbv zeta.
  set (m1 := set2 a x M (wc An (sw_a n)) (wc Xn (sw_x n))).
  assert (count (nd m1 a) = count An) as Hca.
  { unfold m1. rewrite nd_set2_a by done. apply count_wc. }
  assert (count (nd m1 x) = count Xn) as Hcx.
  { unfold m1. rewrite nd_set2_x by done. apply count_wc. }
  rewrite Hca.
  rewrite (for_up_upd_kids x (with_parent x) (keeps_links_with_parent x)) by lia.
  assert (tabZ (count An + 1) (child (nd m1 x)) = tabZ (count An + 1) ga) as ->.
  { apply tabZ_ext. intros q Hq. unfold m1. rewrite nd_set2_x by done.
    rewrite child_wc by lia. unfold sw_x. destruct (Z.leb_spec q n); [done|lia]. }
  set (m2 := upd_kids _ 0 _ m1).
  destruct (nd_upd_kids_links (with_parent x) (tabZ (count An + 1) ga) x
              (keeps_links_with_parent x) 0 m1) as (_ & Hc2 & _).
  fold m2 in Hc2. rewrite Hc2, Hcx.
  rewrite (for_up_upd_kids a (with_parent a) (keeps_links_with_parent a)) by lia.
  f_equal. apply tabZ_ext. intros q Hq. unfold child.
  destruct (nd_upd_kids_links (with_parent x) (tabZ (count An + 1) ga) a
              (keeps_links_with_parent x) 0 m1) as (Hch & _).
  fold m2 in Hch. rewrite Hch. unfold m1. rewrite nd_set2_a by done.
  fold (child (wc An (sw_a n)) q). rewrite child_wc by lia.
  unfold sw_a. destruct (Z.leb_spec q n); [done|lia].
Qed.

End SwapChildren.


(** * [swap] of two internal nodes *)

Section SwapInternal.
Context `{P : Params}.
Hypothesis Hstatic : static_assert_field.

Lemma upd_upd_kids_comm a f F ks : (forall j n, f (F j n) = F j (f n)) -> forall ofs m,
  upd a f (upd_kids F ofs ks m) = upd_kids F ofs ks (upd a f m).
Proof using Type.
  intros Hc. induction ks as [|k ks IH]; intros ofs m; [done|]. simpl.
  rewrite IH. f_equal. destruct (decide (a = k)) as [->|Hne].
  - rewrite !upd_upd, !upd_set_cell. by rewrite Hc.
  - by apply upd_comm.
Qed.

Lemma set_count_upd_kids_parent a c y ks : forall ofs m,
  set_count a c (upd_kids (fun _ => with_parent y) ofs ks m) =
    upd_kids (fun _ => with_parent y) ofs ks (set_count a c m).
Proof using Type. intros ofs m. unfold set_count. by apply upd_upd_kids_comm. Qed.

Lemma upd_kids_set2 a x F ks : forall ofs M An Xn,
  a ∉ ks -> x ∉ ks ->
  upd_kids F ofs ks (set2 a x M An Xn) = set2 a x (upd_kids F ofs ks M) An Xn.
Proof using Type.
  induction ks as [|k ks IH]; intros ofs M An Xn Ha Hx; [done|]. simpl.
  apply not_elem_of_cons in Ha as [Hak Ha]. apply not_elem_of_cons in Hx as [Hxk Hx].
  rewrite upd_other_set2 by done. by apply IH.
Qed.

Variables a x : nat.
Hypothesis Hax : a <> x.
Variables (pa px : nat) (posa posx : Z) (avs xvs : list value_type).
Variables (ga gx : Z -> nat) (rma rmx : nat) (sza szx : Z).
Hypothesis Havs : zlen avs <= kNodeValues.
Hypothesis Hxvs : zlen xvs <= kNodeValues.

Lemma swap_internal M :
  let n := Z.max (zlen avs) (zlen xvs) in
  swap a x (set2 a x M (internal_cell pa posa avs ga rma sza)
              (internal_cell px posx xvs gx rmx szx)) =
    upd_kids (fun _ => with_parent a) 0 (tabZ (zlen xvs + 1) gx)
      (upd_kids (fun _ => with_parent x) 0 (tabZ (zlen avs + 1) ga)
         (set2 a x M (internal_cell pa posa xvs (sw_a ga gx n) rma sza)
            (internal_cell px posx avs (sw_x ga gx n) rmx szx))).
Proof using All.
  intros n. pose proof kNodeValues_pos as Hk.
  pose proof (zlen_nonneg avs). pose proof (zlen_nonneg xvs).
  unfold static_assert_field in Hstatic.
  rewrite (internal_cell_wv pa posa avs), (internal_cell_wv px posx xvs).
  rewrite (swap_spec a x Hax _ _ avs xvs); try done;
    try (simpl; rewrite zlen_slots by lia; lia).
  cbv zeta. fold n.
  rewrite (wv_internal_wc pa posa avs ga), (wv_internal_wc px posx xvs gx).
  rewrite (swap_children_spec a x Hax _ _ ga gx); try done;
    try (simpl; rewrite ?zlen_tabZ by lia; lia).
  rewrite ?count_wc, ?count_wv. cbn [count internal_cell].
  set (KA := tabZ (zlen avs + 1) ga). set (KX := tabZ (zlen xvs + 1) gx).
  destruct (nd_upd_kids_links (with_parent a) KX a (keeps_links_with_parent a) 0
              (upd_kids (fun _ => with_parent x) 0 KA
                 (set2 a x M
                    (wc (wv (internal_cell pa posa avs ga rma sza) (zget xvs)) (sw_a ga gx n))
                    (wc (wv (internal_cell px posx xvs gx rmx szx) (zget avs)) (sw_x ga gx n)))))
    as (_ & Hc1 & _).
  destruct (nd_upd_kids_links (with_parent a) KX x (keeps_links_with_parent a) 0
              (upd_kids (fun _ => with_parent x) 0 KA
                 (set2 a x M
                    (wc (wv (internal_cell pa posa avs ga rma sza) (zget xvs)) (sw_a ga gx n))
                    (wc (wv (internal_cell px posx xvs gx rmx szx) (zget avs)) (sw_x ga gx n)))))
    as (_ & Hc2 & _).
  rewrite Hc1, Hc2. clear Hc1 Hc2.
  destruct (nd_upd_kids_links (with_parent x) KA a (keeps_links_with_parent x) 0
              (set2 a x M
                 (wc (wv (internal_cell pa posa avs ga rma sza) (zget xvs)) (sw_a ga gx n))
                 (wc (wv (internal_cell px posx xvs gx rmx szx) (zget avs)) (sw_x ga gx n))))
    as (_ & Hc1 & _).
  destruct (nd_upd_kids_links (with_parent x) KA x (keeps_links_with_parent x) 0
              (set2 a x M
                 (wc (wv (internal_cell pa posa avs ga rma sza) (zget xvs)) (sw_a ga gx n))
                 (wc (wv (internal_cell px posx xvs gx rmx szx) (zget avs)) (sw_x ga gx n))))
    as (_ & Hc2 & _).
  rewrite Hc1, Hc2. clear Hc1 Hc2.
  rewrite nd_set2_a, nd_set2_x by done. rewrite ?count_wc, ?count_wv.
  cbn [count internal_cell].
  rewrite !set_count_upd_kids_parent.
  rewrite set_count_a2, set_count_x2 by done.
  rewrite !internal_cell_final by (done || lia). done.
Qed.

End SwapInternal.


(** * The root grows or shrinks by one level *)

Section SwapRep.
Context `{P : Params}.
Hypothesis Hstatic : static_assert_field.

Lemma top_cell_with_parent par pos rm sz t n par' :
  top_cell par pos rm sz t n -> top_cell par' pos rm sz t (with_parent par' n).
Proof using Type.
  intros Htop. destruct t as [a mc vs|a vs cs]; simpl in *.
  - by subst n.
  - destruct Htop as (g & -> & Hg). by exists g.
Qed.

Lemma tabZ_kaddrs cs g n : kids_fn cs g -> n = zlen cs -> tabZ n g = kaddrs cs.
Proof using Type.
  intros Hg ->. apply zget_ext. intros q. rewrite zget_tabZ, zget_kaddrs.
  destruct (Z.leb_spec 0 q), (Z.ltb_spec q (zlen cs)); simpl.
  - destruct (zget_is_Some cs q) as [c Hc]; [lia|]. rewrite Hc. simpl. f_equal.
    by apply Hg.
  - by rewrite zget_ge.
  - by rewrite zget_lt_0.
  - by rewrite zget_lt_0 by lia.
Qed.

Lemma kids_new_parent m a vs cs y :
  NoDup (addrs (ANode a vs cs)) ->
  (forall q c, zget cs q = Some c -> rep_at m a q 0%nat 0 c) ->
  forall q c, zget cs q = Some c ->
    rep_at (upd_kids (fun _ => with_parent y) 0 (kaddrs cs) m) y q 0%nat 0 c.
Proof using Type.
  intros Hnd Hk q c Hq.
  destruct (NoDup_kaddrs _ _ _ Hnd) as (Hndk & Ha & Hsub).
  destruct (NoDup_node_inv _ _ _ Hnd) as (Hin & _).
  destruct (Hin q c Hq) as (_ & Hndc).
  pose proof (Hk q c Hq) as Hrep.
  eapply rep_at_move; [exact Hrep| | |exact Hndc].
  - destruct (rep_at_top _ _ _ _ _ _ Hrep) as (n & Hn & Htop).
    exists (with_parent y n). split; [|by eapply top_cell_with_parent].
    rewrite (lookup_upd_kids_in _ _ _ _ q (addr c)); [|done|].
    + by rewrite (nd_lookup _ _ _ Hn).
    + by rewrite zget_kaddrs, Hq.
  - intros z Hz Hne. apply lookup_upd_kids_notin. by eapply Hsub.
Qed.

Lemma set_child_self n parx m :
  cells m !! n = Some (internal_cell parx 0 [] (fun _ => 0%nat) 0%nat 0) ->
  set_child n 0 n m =
    set_cell n (internal_cell n 0 [] (fupd (fun _ => 0%nat) 0 n) 0%nat 0) m.
Proof using Type.
  intros Hn. pose proof kNodeValues_pos.
  unfold set_child, assign_child. rewrite !upd_upd, upd_set_cell, (nd_lookup _ _ _ Hn).
  f_equal. unfold internal_cell, with_position, with_parent, with_children; simpl.
  rewrite (insert_tabZ _ _ 0) by lia. unfold field_wrap. rewrite Zmod_0_l. done.
Qed.

(** The root [a] is internal: its content moves to the new node [n], which
    becomes its only child. *)
Lemma swap_down_rep m fl rm sz a vs cs n parx :
  rep_at m fl 0 rm sz (ANode a vs cs) -> NoDup (addrs (ANode a vs cs)) ->
  zlen vs <= kNodeValues -> zlen cs = zlen vs + 1 ->
  n ∉ addrs (ANode a vs cs) ->
  cells m !! n = Some (internal_cell parx 0 [] (fun _ => 0%nat) 0%nat 0) ->
  let m' := swap n a (set_child n 0 n m) in
  rep_at m' fl 0 rm sz (ANode a [] [ANode n vs cs]) /\
  (forall y, y ∉ addrs (ANode a vs cs) -> y <> n -> cells m' !! y = cells m !! y) /\
  next_addr m' = next_addr m.
Proof using All.
  intros Hrep Hnd Hvs Hcs Hn Hcn m'. pose proof kNodeValues_pos as Hk.
  pose proof (zlen_nonneg vs) as Hvs0.
  apply rep_at_node in Hrep as [(g & Hca & Hg) Hkids].
  destruct (NoDup_kaddrs _ _ _ Hnd) as (Hndk & Ha & Hsub).
  assert (n <> a) as Hna.
  { intros ->. apply Hn. apply (addr_in_addrs (ANode a vs cs)). }
  assert (n ∉ kaddrs cs) as Hnk.
  { intros Hin. apply Hn. by eapply kaddrs_sub. }
  set (gn := fupd (fun _ : Z => 0%nat) 0 n).
  assert (m' = set2 n a (upd_kids (fun _ => with_parent n) 0 (kaddrs cs) m)
                 (internal_cell a 0 vs (sw_a gn g (zlen vs)) 0%nat 0)
                 (internal_cell fl 0 [] (sw_x gn g (zlen vs)) rm sz)) as ->.
  { unfold m'. rewrite (set_child_self n parx m Hcn). fold gn.
    assert (set_cell n (internal_cell n 0 [] gn 0%nat 0) m =
            set2 n a m (internal_cell n 0 [] gn 0%nat 0) (internal_cell fl 0 vs g rm sz))
      as ->.
    { unfold set2. symmetry. apply set_cell_id. by rewrite lookup_set_cell_ne by done. }
    rewrite (swap_internal Hstatic n a Hna) by (rewrite ?zlen_nil; lia).
    cbv zeta. change (zlen (@nil value_type)) with 0.
    replace (Z.max 0 (zlen vs)) with (zlen vs) by lia.
    rewrite (tabZ_kaddrs cs g (zlen vs + 1) Hg) by lia.
    change (tabZ (0 + 1) gn) with [gn 0]. cbn [upd_kids].
    rewrite upd_a_set2 by done.
    rewrite upd_kids_set2 by done. done. }
  split; [|split].
  - apply rep_at_node. split.
    + exists (sw_x gn g (zlen vs)). split; [by apply lookup_set2_x|].
      intros q c. rewrite zget_cons. destruct (Z.eqb_spec q 0) as [->|]; [|by rewrite zget_nil].
      intros [= <-]. unfold sw_x. destruct (Z.leb_spec 0 (zlen vs)); [done|lia].
    + intros q c. rewrite zget_cons.
      destruct (Z.eqb_spec q 0) as [->|]; [|by rewrite zget_nil].
      intros [= <-]. apply rep_at_node. split.
      * exists (sw_a gn g (zlen vs)). split; [by apply lookup_set2_a|].
        intros q c Hq. apply zget_Some_lt in Hq as Hlt. unfold sw_a.
        destruct (Z.leb_spec q (zlen vs)); [by apply Hg|lia].
      * intros q c Hq.
        destruct (NoDup_node_inv _ _ _ Hnd) as (Hin & _).
        destruct (Hin q c Hq) as (Hac & Hndc).
        eapply rep_at_frame; [by apply (kids_new_parent m a vs cs n Hnd Hkids)|].
        intros y Hy. apply lookup_set2_other.
        -- intros ->. apply Hn. by eapply addrs_child.
        -- by intros ->.
  - intros y Hy Hyn. rewrite lookup_set2_other; [|done|].
    + apply lookup_upd_kids_notin. intros Hin. apply Hy. by eapply kaddrs_sub.
    + intros ->. apply Hy. apply (addr_in_addrs (ANode a vs cs)).
  - unfold set2. by rewrite !next_addr_set_cell, next_addr_upd_kids.
Qed.

(** The root [a] has no value and the internal child [c]: the content of
    [c] moves to the root. *)
Lemma swap_up_rep m fl rm sz a c vs cs :
  rep_at m fl 0 rm sz (ANode a [] [ANode c vs cs]) ->
  NoDup (addrs (ANode a [] [ANode c vs cs])) ->
  zlen vs <= kNodeValues -> zlen cs = zlen vs + 1 ->
  let m' := swap c a m in
  rep_at m' fl 0 rm sz (ANode a vs cs) /\
  (forall y, y ∉ addrs (ANode a [] [ANode c vs cs]) -> cells m' !! y = cells m !! y) /\
  next_addr m' = next_addr m /\
  leaf (nd m' c) = false /\ count (nd m' c) = 0.
Proof using All.
  intros Hrep Hnd Hvs Hcs m'. pose proof kNodeValues_pos as Hk.
  pose proof (zlen_nonneg vs) as Hvs0.
  apply rep_at_node in Hrep as [(gr & Hca & Hgr) Hkids0].
  assert (rep_at m a 0 0%nat 0 (ANode c vs cs)) as Hrc by (by apply Hkids0).
  apply rep_at_node in Hrc as [(gc & Hcc & Hgc) Hkids].
  assert (gr 0 = c) as Hgr0 by (by apply (Hgr 0 (ANode c vs cs))).
  destruct (NoDup_node_inv _ _ _ Hnd) as (Hin0 & _).
  destruct (Hin0 0 (ANode c vs cs) eq_refl) as (Hac & Hndc).
  destruct (NoDup_kaddrs _ _ _ Hndc) as (Hndk & Hck & Hsub).
  assert (c <> a) as Hne.
  { intros ->. apply Hac. apply (addr_in_addrs (ANode a vs cs)). }
  assert (a ∉ kaddrs cs) as Hak.
  { intros Hin. apply Hac. by eapply kaddrs_sub. }
  assert (m' = set2 c a (upd_kids (fun _ => with_parent a) 0 (kaddrs cs) m)
                 (internal_cell c 0 [] (sw_a gc gr (zlen vs)) 0%nat 0)
                 (internal_cell fl 0 vs (sw_x gc gr (zlen vs)) rm sz)) as ->.
  { unfold m'.
    rewrite <- (set2_id c a m _ _ Hcc Hca) at 1.
    rewrite (swap_internal Hstatic c a Hne) by (rewrite ?zlen_nil; lia).
    cbv zeta. change (zlen (@nil value_type)) with 0.
    replace (Z.max (zlen vs) 0) with (zlen vs) by lia.
    rewrite (tabZ_kaddrs cs gc (zlen vs + 1) Hgc) by lia.
    change (tabZ (0 + 1) gr) with [gr 0]. cbn [upd_kids]. rewrite Hgr0.
    rewrite upd_kids_set2 by done.
    rewrite upd_a_set2 by done. done. }
  split; [|split; [|split; [|split]]].
  - apply rep_at_node. split.
    + exists (sw_x gc gr (zlen vs)). split; [by apply lookup_set2_x|].
      intros q k Hq. apply zget_Some_lt in Hq as Hlt. unfold sw_x.
      destruct (Z.leb_spec q (zlen vs)); [by apply Hgc|lia].
    + intros q k Hq.
      destruct (NoDup_node_inv _ _ _ Hndc) as (Hin & _).
      destruct (Hin q k Hq) as (Hck' & Hndk').
      eapply rep_at_frame; [by apply (kids_new_parent m c vs cs a Hndc Hkids)|].
      intros y Hy. apply lookup_set2_other.
      * by intros ->.
      * intros ->. apply Hac. by eapply addrs_child.
  - intros y Hy. rewrite lookup_set2_other.
    + apply lookup_upd_kids_notin. intros Hin. apply Hy.
      apply (addrs_child a [] [ANode c vs cs] 0 (ANode c vs cs) y eq_refl).
      by eapply kaddrs_sub.
    + intros ->. apply Hy.
      apply (addrs_child a [] [ANode c vs cs] 0 (ANode c vs cs) c eq_refl).
      apply (addr_in_addrs (ANode c vs cs)).
    + intros ->. apply Hy. apply (addr_in_addrs (ANode a [] [ANode c vs cs])).
  - unfold set2. by rewrite !next_addr_set_cell, next_addr_upd_kids.
  - by rewrite nd_set2_a.
  - by rewrite nd_set2_a.
Qed.

End SwapRep.


(** * A new root above the old one *)

Section RootGrow.
Context `{P : Params}.
Hypothesis Hstatic : static_assert_field.

Lemma new_internal_root_node_spec (t : btree) :
  let n := next_addr (heap t) in
  let fl := parent (nd (heap t) (root t)) in
  root t <> n -> fl <> n ->
  new_internal_root_node t =
    (n, with_heap (set_cell n (internal_cell fl 0 [] (fun _ => 0%nat) fl
                                 (count (nd (heap t) fl))) (bump (heap t))) t).
Proof using Hstatic.
  intros n fl Hr Hfl. pose proof kNodeValues_pos. unfold static_assert_field in Hstatic.
  unfold new_internal_root_node, allocate, init_root, init_internal, init_leaf.
  cbv zeta. fold n. rewrite !upd_upd.
  set (m1 := mk_memory _ _).
  assert (nd m1 (root t) = nd (heap t) (root t)) as Hnr.
  { unfold nd, m1; simpl. by rewrite lookup_total_insert_ne. }
  rewrite Hnr. fold fl.
  unfold upd at 1. f_equal. f_equal.
  assert (nd m1 n = mk_node false 0 0 0 0%nat (replicate (Z.to_nat kNodeValues) None)
                      (replicate (Z.to_nat (kNodeValues + 1)) 0%nat) 0%nat 0) as Hnn.
  { unfold nd, m1; simpl. by rewrite lookup_total_insert_eq. }
  rewrite Hnn. unfold set_cell, bump, m1; simpl. rewrite insert_insert_eq.
  f_equal. f_equal.
  unfold internal_cell, with_size, with_rightmost, with_leaf; simpl.
  rewrite field_wrap_small by lia. rewrite slots_nil by lia.
  rewrite replicate_tabZ by lia. f_equal.
  unfold upd, nd; simpl. rewrite lookup_total_insert_ne by done.
  by rewrite lookup_total_insert_ne by done.
Qed.

Lemma leaves_single a n vs cs : leaves (ANode a [] [ANode n vs cs]) = leaves (ANode a vs cs).
Proof using Type. rewrite !leaves_node. simpl. by rewrite app_nil_r. Qed.

Lemma inorder_single_kid a t : inorder (ANode a [] [t]) = inorder t.
Proof using Type. simpl. by rewrite app_nil_r. Qed.

(** The root is a leaf. *)
Lemma root_leaf_grow (t : btree) a mc vs rm sz :
  tree_rep t (ALeaf a mc vs) rm sz -> 0 <= mc ->
  let p := next_addr (heap t) in
  let t1 := snd (new_internal_root_node t) in
  let t2 := with_root p (on_heap (set_child p 0 (root t1)) t1) in
  fst (new_internal_root_node t) = p /\
  tree_rep t2 (ANode p [] [ALeaf a mc vs]) a (zlen vs) /\
  next_addr (heap t2) = S p /\ key_comp t2 = key_comp t.
Proof using Hstatic.
  intros [Hroot Hrep Hnd Hb] Hmc p t1 t2. simpl in Hroot.
  pose proof kNodeValues_pos as Hk.
  apply rep_at_leaf in Hrep. unfold first_leaf in Hrep. simpl in Hrep.
  assert (0 < a < p)%nat as Ha by (apply Hb; simpl; apply list_elem_of_here).
  assert (parent (nd (heap t) (root t)) = a) as Hpar.
  { rewrite Hroot, (nd_lookup _ _ _ Hrep). done. }
  assert (new_internal_root_node t =
            (p, with_heap (set_cell p (internal_cell a 0 [] (fun _ => 0%nat) a (zlen vs))
                             (bump (heap t))) t)) as Hnew.
  { rewrite new_internal_root_node_spec; rewrite ?Hpar; try (fold p; lia).
    by rewrite (nd_lookup _ _ _ Hrep). }
  unfold t2, t1. rewrite Hnew. cbn [fst snd]. split; [done|].
  unfold on_heap. cbn [heap with_heap root with_root key_comp]. rewrite Hroot.
  set (m1 := set_cell p _ (bump (heap t))).
  assert (set_child p 0 a m1 =
            set_cell p (internal_cell a 0 [] (fupd (fun _ => 0%nat) 0 a) a (zlen vs))
              (set_cell a (leaf_cell p 0 mc vs) (bump (heap t)))) as ->.
  { unfold set_child, m1. rewrite (internal_cell_wc a 0 []).
    rewrite assign_child_one by lia. rewrite !upd_other_one by lia.
    rewrite upd_upd, upd_set_cell. f_equal.
    - unfold wc, internal_cell; simpl. rewrite !zlen_tabZ by lia. done.
    - f_equal. unfold nd. rewrite cells_bump. fold (nd (heap t) a).
      rewrite (nd_lookup _ _ _ Hrep).
      unfold leaf_cell, with_position, with_parent; simpl.
      unfold field_wrap. by rewrite Zmod_0_l. }
  split; [|split; [|done]].
  - split.
    + done.
    + cbn [heap with_heap with_root]. apply rep_at_node. split.
      * exists (fupd (fun _ => 0%nat) 0 a). split; [apply lookup_set_cell_eq|].
        intros q c. rewrite zget_cons.
        destruct (Z.eqb_spec q 0) as [->|]; [|by rewrite zget_nil].
        by intros [= <-].
      * intros q c. rewrite zget_cons.
        destruct (Z.eqb_spec q 0) as [->|]; [|by rewrite zget_nil].
        intros [= <-]. apply rep_at_leaf.
        rewrite lookup_set_cell_ne by lia. apply lookup_set_cell_eq.
    + simpl. apply NoDup_cons. split; [|apply NoDup_singleton].
      intros ?%list_elem_of_singleton. lia.
    + cbn [heap with_heap with_root]. intros y Hy. rewrite !next_addr_set_cell, next_addr_bump.
      simpl in Hy. apply elem_of_cons in Hy as [->|Hy]; [fold p; lia|].
      apply list_elem_of_singleton in Hy as ->. fold p. lia.
  - cbn [heap with_heap with_root]. by rewrite !next_addr_set_cell, next_addr_bump.
Qed.

(** The root is internal. *)
Lemma root_internal_grow (t : btree) a vs cs rm sz parx :
  tree_rep t (ANode a vs cs) rm sz ->
  zlen vs <= kNodeValues -> zlen cs = zlen vs + 1 ->
  let n := next_addr (heap t) in
  let t1 := snd (new_internal_node parx t) in
  let t2 := on_heap (swap n (root t1)) (on_heap (set_child n 0 n) t1) in
  fst (new_internal_node parx t) = n /\
  tree_rep t2 (ANode a [] [ANode n vs cs]) rm sz /\
  next_addr (heap t2) = S n /\ key_comp t2 = key_comp t /\ root t2 = root t.
Proof using Hstatic.
  intros [Hroot Hrep Hnd Hb] Hvs Hcs n t1 t2. simpl in Hroot.
  unfold t2, t1. rewrite (new_internal_node_spec Hstatic). cbn [fst snd].
  split; [done|]. fold n.
  unfold on_heap. cbn [heap with_heap root with_root key_comp]. rewrite Hroot.
  set (m1 := set_cell n _ (bump (heap t))).
  assert (n ∉ addrs (ANode a vs cs)) as Hn.
  { intros Hin. apply Hb in Hin. unfold n in Hin. lia. }
  assert (forall y, y <> n -> cells m1 !! y = cells (heap t) !! y) as Hm1.
  { intros y Hy. unfold m1. rewrite lookup_set_cell_ne by done. by rewrite cells_bump. }
  assert (rep_at m1 (first_leaf (ANode a vs cs)) 0 rm sz (ANode a vs cs)) as Hrep1.
  { eapply rep_at_frame; [exact Hrep|]. intros y Hy. apply Hm1. by intros ->. }
  destruct (swap_down_rep Hstatic m1 _ rm sz a vs cs n parx Hrep1 Hnd Hvs Hcs Hn
              (lookup_set_cell_eq _ _ _)) as (Hrep' & Hfr & Hnext).
  split; [|split; [|done]].
  - split.
    + done.
    + cbn [heap with_heap with_root]. unfold first_leaf. rewrite leaves_single. exact Hrep'.
    + simpl. simpl in Hnd. rewrite app_nil_r.
      apply NoDup_cons in Hnd as [Ha Hnd]. apply NoDup_cons. split.
      * intros [->|Hin]%elem_of_cons; [|done].
        apply Hn. simpl. apply list_elem_of_here.
      * apply NoDup_cons. split; [|done].
        intros Hin. apply Hn. simpl. by apply list_elem_of_further.
    + cbn [heap with_heap with_root]. rewrite Hnext. unfold m1. rewrite next_addr_set_cell, next_addr_bump.
      intros y Hy. simpl in Hy. rewrite app_nil_r in Hy.
      apply elem_of_cons in Hy as [->|Hy].
      * assert (0 < a < next_addr (heap t))%nat; [|fold n; lia].
        apply Hb. simpl. apply list_elem_of_here.
      * apply elem_of_cons in Hy as [->|Hy].
        -- assert (0 < a < next_addr (heap t))%nat; [|fold n; lia].
           apply Hb. simpl. apply list_elem_of_here.
        -- assert (0 < y < next_addr (heap t))%nat; [|fold n; lia].
           apply Hb. simpl. by apply list_elem_of_further.
  - cbn [heap with_heap with_root]. rewrite Hnext. unfold m1. by rewrite next_addr_set_cell, next_addr_bump.
Qed.

End RootGrow.


(** * Searches with a plain comparator *)

Section PlainSearch.
Context `{P : Params}.
Variables (n : btree_node) (k : key_type) (comp : key_type -> key_type -> bool).

(** [r] is the first position of [s, e) whose key is not before [k]. *)
Definition first_not_before (s e r : Z) : Prop :=
  s <= r <= e /\
  (forall j, s <= j < r -> comp (key n j) k = true) /\
  (r < e -> comp (key n r) k = false).

(** The keys of [s, e) that are before [k] come first. *)
Definition partitioned (s e : Z) : Prop :=
  forall i j, s <= i -> i <= j -> j < e ->
    comp (key n j) k = true -> comp (key n i) k = true.

Lemma first_not_before_unique s e r1 r2 :
  first_not_before s e r1 -> first_not_before s e r2 -> r1 = r2.
Proof using Type.
  intros (H1 & Hb1 & Ha1) (H2 & Hb2 & Ha2).
  destruct (Z.lt_trichotomy r1 r2) as [Hlt|[Heq|Hgt]]; [|done|].
  - rewrite Hb2 in Ha1 by lia. discriminate Ha1. lia.
  - rewrite Hb1 in Ha2 by lia. discriminate Ha2. lia.
Qed.

Lemma linear_search_plain_compare_loop_post fuel : forall s e,
  s <= e -> (Z.to_nat (e - s) <= fuel)%nat ->
  first_not_before s e (linear_search_plain_compare_loop fuel n k s e comp).
Proof using Type.
  induction fuel as [|fuel IH]; intros s e Hse Hf; simpl.
  - assert (s = e) as -> by lia. split; [lia|]. split; intros; lia.
  - destruct (Z.ltb_spec s e) as [Hlt|Hge].
    + destruct (comp (key n s) k) eqn:Hc; simpl.
      * destruct (IH (s + 1) e) as (Hr & Hb & Ha); [lia|lia|].
        split; [lia|]. split; [|done].
        intros j Hj. destruct (Z.eq_dec j s) as [->|]; [done|]. apply Hb. lia.
      * split; [lia|]. split; [intros; lia|done].
    + split; [lia|]. split; intros; lia.
Qed.

Lemma binary_search_plain_compare_loop_post fuel : forall s e,
  s <= e -> (Z.to_nat (e - s) <= fuel)%nat -> partitioned s e ->
  first_not_before s e (binary_search_plain_compare_loop fuel n k s e comp).
Proof using Type.
  induction fuel as [|fuel IH]; intros s e Hse Hf Hp; simpl.
  - assert (s = e) as -> by lia. split; [lia|]. split; intros; lia.
  - destruct (Z.eqb_spec s e) as [->|Hne]; simpl.
    + split; [lia|]. split; intros; lia.
    + set (mid := (s + e) / 2).
      assert (s <= mid < e) as Hmid.
      { unfold mid. split.
        - apply Z.div_le_lower_bound; lia.
        - apply Z.div_lt_upper_bound; lia. }
      destruct (comp (key n mid) k) eqn:Hc.
      * destruct (IH (mid + 1) e) as (Hr & Hb & Ha); [lia|lia| |].
        { intros i j Hi Hij Hj. apply Hp; lia. }
        split; [lia|]. split; [|done].
        intros j Hj. destruct (Z.ltb_spec j (mid + 1)).
        -- apply (Hp j mid); [lia|lia|lia|done].
        -- apply Hb. lia.
      * destruct (IH s mid) as (Hr & Hb & Ha); [lia|lia| |].
        { intros i j Hi Hij Hj. apply Hp; lia. }
        split; [lia|]. split; [done|].
        intros Hlt. destruct (Z.eq_dec (binary_search_plain_compare_loop fuel n k s mid comp) mid)
          as [->|Hne']; [done|]. apply Ha. lia.
Qed.

(** X1. [linear_search_plain_compare] on the range [s, e) returns the first
    position whose key does not compare before [k], or [e] when every key
    of the range compares before [k]. *)
Theorem linear_search_plain_compare_first s e :
  s <= e ->
  first_not_before s e (linear_search_plain_compare n k s e comp).
Proof using Type.
  intros Hse. unfold linear_search_plain_compare.
  apply linear_search_plain_compare_loop_post; lia.
Qed.

(** X2. On a range whose keys before [k] come first (as in a sorted node),
    [binary_search_plain_compare] returns the position that
    [linear_search_plain_compare] returns. *)
Theorem binary_search_plain_compare_linear s e :
  s <= e -> partitioned s e ->
  binary_search_plain_compare n k s e comp = linear_search_plain_compare n k s e comp.
Proof using Type.
  intros Hse Hp. apply (first_not_before_unique s e).
  - unfold binary_search_plain_compare.
    apply binary_search_plain_compare_loop_post; [lia|lia|done].
  - unfold linear_search_plain_compare.
    apply linear_search_plain_compare_loop_post; lia.
Qed.

End PlainSearch.

(** * Values of a leaf *)

Section LeafValues.
Context `{P : Params}.

(** X3. [insert_value] on a leaf with room: the value is inserted at
    position [i], the values from [i] on move up by one and the count grows
    by one; no other node is written. *)
Theorem insert_value_on_leaf a par pos mc vs i x m :
  cells m !! a = Some (leaf_cell par pos mc vs) ->
  zlen vs < mc -> mc < field_modulus -> 0 <= i <= zlen vs ->
  insert_value a i x m = set_cell a (leaf_cell par pos mc (insert_at i x vs)) m.
Proof.
  intros Ha Hroom Hmod Hi.
  by apply (insert_value_leaf a m par pos mc vs i x m).
Qed.

(** X4. [remove_value] on a leaf: the value at position [i] is removed, the
    later values move down by one, the slot left over is destroyed and the
    count shrinks by one; no other node is written. *)
Theorem remove_value_on_leaf a par pos mc vs i m :
  cells m !! a = Some (leaf_cell par pos mc vs) ->
  zlen vs <= mc -> mc < field_modulus -> 0 <= i < zlen vs ->
  remove_value a i m = set_cell a (leaf_cell par pos mc (remove_at i vs)) m.
Proof.
  intros Ha Hroom Hmod Hi.
  by apply (remove_value_leaf a m par pos mc vs i m).
Qed.

(** X5. On a leaf with room, [remove_value] at the position of an
    [insert_value] gives back the store as it was. *)
Theorem remove_value_insert_value a par pos mc vs i x m :
  cells m !! a = Some (leaf_cell par pos mc vs) ->
  zlen vs < mc -> mc < field_modulus -> 0 <= i <= zlen vs ->
  remove_value a i (insert_value a i x m) = m.
Proof.
  intros Ha Hroom Hmod Hi.
  rewrite (insert_value_leaf a m par pos mc vs i x m) by done.
  set (m1 := set_cell a _ m).
  rewrite (remove_value_leaf a m1 par pos mc (insert_at i x vs) i m1);
    [|apply lookup_set_cell_eq|done|rewrite zlen_insert_at; lia|done
     |rewrite zlen_insert_at; lia].
  unfold m1. rewrite set_cell_set_cell, remove_at_insert_at by done.
  by apply set_cell_id.
Qed.

(** X6. On a leaf, [insert_value] of the value that [remove_value] took
    out, at the same position, gives back the store as it was. *)
Theorem insert_value_remove_value a par pos mc vs i x m :
  cells m !! a = Some (leaf_cell par pos mc vs) ->
  zlen vs <= mc -> mc < field_modulus -> zget vs i = Some x ->
  insert_value a i x (remove_value a i m) = m.
Proof.
  intros Ha Hroom Hmod Hx. apply zget_Some_lt in Hx as Hi.
  rewrite (remove_value_leaf a m par pos mc vs i m) by done.
  set (m1 := set_cell a _ m).
  rewrite (insert_value_leaf a m1 par pos mc (remove_at i vs) i x m1);
    [|apply lookup_set_cell_eq|done|rewrite zlen_remove_at; lia|done
     |rewrite zlen_remove_at; lia].
  unfold m1. rewrite set_cell_set_cell, insert_at_remove_at_same by done.
  by apply set_cell_id.
Qed.

End LeafValues.


(** * The empty tree and the first insertion *)

Section EmptyTree.
Context `{P : Params}.

Lemma field_modulus_big : 256 <= field_modulus.
Proof.
  unfold field_modulus, sizeof_node_count_type.
  destruct (256 <=? _); simpl; lia.
Qed.

(** X7. A tree without a root answers every lookup with [end()], has
    [begin() == end()] and size 0; [erase_unique] returns 0 and [clear]
    does nothing. *)
Theorem empty_tree_queries (t : btree) (k : key_type) :
  root t = 0%nat ->
  btree_begin t = btree_end t /\ btree_size t = 0 /\
  find_unique k t = btree_end t /\ find_multi k t = btree_end t /\
  btree_lower_bound k t = btree_end t /\ btree_upper_bound k t = btree_end t /\
  erase_unique k t = (0, t) /\ clear t = t.
Proof.
  intros Hr. destruct t as [m c r]. simpl in Hr. subst r.
  repeat split.
Qed.

(** The keys equal to [k] are recognised by the comparator in use. *)
Definition reflexive_at (c : key_compare) (k : key_type) : Prop :=
  plain_compare c k k = false /\ compare_to c k k = 0 /\
  compare_to key_compare_default k k = 0.

Lemma lower_bound_no_value (n : btree_node) k c : count n = 0 -> lower_bound n k c = 0.
Proof.
  intros Hc. unfold lower_bound,
    btree_linear_search_compare_to_lower_bound, btree_linear_search_plain_compare_lower_bound,
    btree_binary_search_compare_to_lower_bound, btree_binary_search_plain_compare_lower_bound,
    linear_search_compare_to, linear_search_plain_compare,
    binary_search_compare_to, binary_search_plain_compare.
  rewrite Hc. by destruct key_is_arithmetic, is_key_compare_to.
Qed.

Lemma lower_bound_one_value (n : btree_node) k c :
  count n = 1 -> key n 0 = k -> reflexive_at c k ->
  lower_bound n k c = if is_key_compare_to then kExactMatch else 0.
Proof.
  intros Hc Hk (Hp & Hc1 & Hc2). unfold lower_bound,
    btree_linear_search_compare_to_lower_bound, btree_linear_search_plain_compare_lower_bound,
    btree_binary_search_compare_to_lower_bound, btree_binary_search_plain_compare_lower_bound,
    linear_search_compare_to, linear_search_plain_compare,
    binary_search_compare_to, binary_search_plain_compare, btree_compare_keys.
  rewrite Hc.
  destruct key_is_arithmetic, is_key_compare_to eqn:Hct; simpl;
    change ((0 + 1) / 2) with 0; rewrite ?Hk, ?Hc1, ?Hc2, ?Hp; try done.
Qed.

Lemma internal_last_stays it m :
  pos it <> count (nd m (node it)) -> internal_last it m = it.
Proof.
  intros Hne. unfold internal_last, fuel_of. simpl.
  destruct (Z.eqb_spec (pos it) (count (nd m (node it)))); [done|].
  by rewrite andb_false_r.
Qed.

(** X8. [insert_unique] on a tree without a root allocates a leaf of
    capacity 1 as the root, stores the value in it and returns the
    position of the value with [true]; afterwards the size is 1 and
    [find_unique] of the key returns that position. *)
Theorem insert_unique_first (t : btree) (v : value_type) :
  root t = 0%nat -> (0 < next_addr (heap t))%nat ->
  reflexive_at (key_comp t) (params_key v) ->
  let p := next_addr (heap t) in
  let t' := mk_btree (set_cell p (leaf_cell p 0 1 [v]) (bump (heap t))) (key_comp t) p in
  insert_unique (params_key v) v t = ((mk_iterator p 0, true), t') /\
  btree_size t' = 1 /\
  find_unique (params_key v) t' = mk_iterator p 0 /\
  btree_begin t' = mk_iterator p 0 /\ btree_end t' = mk_iterator p 1.
Proof.
  intros Hr Hn Hrefl p t'. pose proof field_modulus_big as Hfm.
  assert ((p =? 0)%nat = false) as Hp0 by (apply Nat.eqb_neq; unfold p; lia).
  split; [|split; [|split; [|split]]].
  - unfold insert_unique, empty. rewrite Hr. change (0 =? 0)%nat with true. cbv iota.
    rewrite (new_leaf_root_node_spec 1 t) by lia. fold p. cbv beta iota zeta.
    set (m1 := set_cell p (leaf_cell p 0 1 []) (bump (heap t))).
    set (t1 := with_root p (with_heap m1 t)).
    assert (nd m1 p = leaf_cell p 0 1 []) as Hnd by apply nd_set_cell_eq.
    assert (internal_locate (params_key v) (mk_iterator (root t1) 0) t1 =
              (mk_iterator p 0, if is_key_compare_to then - kExactMatch else 0)) as Hloc.
    { unfold internal_locate, internal_locate_compare_to, internal_locate_plain_compare,
        fuel_of.
      cbn [internal_locate_compare_to_loop internal_locate_plain_compare_loop
           node root heap t1 with_root with_heap].
      rewrite Hnd, lower_bound_no_value by done. cbn [leaf leaf_cell].
      by destruct is_key_compare_to. }
    rewrite Hloc. cbn [fst snd].
    assert (internal_last (mk_iterator p 0) (heap t1) = mk_iterator 0%nat 0) as Hlast.
    { unfold internal_last, fuel_of. cbn [heap t1 with_root with_heap].
      unfold m1 at 1. rewrite next_addr_set_cell, next_addr_bump.
      cbn [internal_last_loop node pos]. rewrite Hp0, Hnd.
      cbn [count leaf_cell parent position negb andb zlen length Z.of_nat Z.eqb].
      rewrite Hnd. cbn [leaf leaf_cell Nat.eqb negb andb]. done. }
    rewrite Hlast. cbn [node]. simpl Nat.eqb. rewrite andb_false_r. simpl andb.
    assert ((if is_key_compare_to then - kExactMatch else 0) =? kExactMatch = false) as ->.
    { by destruct is_key_compare_to. }
    unfold internal_insert. cbn [node pos heap t1 with_root with_heap root].
    rewrite Hnd. cbn [leaf leaf_cell negb count max_count zlen length Z.of_nat Z.eqb].
    unfold on_heap. cbn [heap with_heap with_root key_comp root node pos].
    rewrite !Hnd. cbn [leaf leaf_cell negb count max_count zlen length Z.of_nat Z.eqb].
    change (zlen (@nil value_type) =? 1) with false. cbv iota.
    cbn [heap with_heap with_root key_comp root node pos t1].
    rewrite (insert_value_leaf p m1 p 0 1 [] 0 v m1);
      [|apply lookup_set_cell_eq|done|done|lia|done].
    unfold m1. rewrite set_cell_set_cell. done.
  - unfold btree_size, empty. cbn [root heap t']. rewrite Hp0, nd_set_cell_eq. done.
  - assert (nd (heap t') p = leaf_cell p 0 1 [v]) as Hnd by apply nd_set_cell_eq.
    unfold find_unique, internal_find_unique. cbn [node root t']. rewrite Hp0.
    cbn [negb].
    assert (internal_locate (params_key v) (mk_iterator p 0)
              (mk_btree (heap t') (key_comp t) p) =
              (mk_iterator p 0, if is_key_compare_to then kExactMatch else 0)) as Hloc.
    { unfold internal_locate, internal_locate_compare_to, internal_locate_plain_compare,
        fuel_of.
      cbn [internal_locate_compare_to_loop internal_locate_plain_compare_loop
           node root heap key_comp].
      rewrite Hnd.
      rewrite (lower_bound_one_value (leaf_cell p 0 1 [v]) (params_key v) (key_comp t)
                 eq_refl eq_refl Hrefl).
      cbn [leaf leaf_cell].
      by destruct is_key_compare_to. }
    change (mk_btree (heap t') (key_comp t) p) with t' in Hloc. rewrite Hloc.
    cbn [fst snd]. destruct is_key_compare_to eqn:Hct.
    + simpl Z.eqb. cbv iota. unfold internal_end. cbn [node]. by rewrite Hp0.
    + simpl Z.eqb. cbv iota.
      rewrite internal_last_stays by (cbn [node pos]; rewrite Hnd; done).
      cbn [node]. rewrite Hp0. cbn [negb andb].
      unfold compare_keys, btree_compare_keys, iter_key. rewrite Hct.
      cbn [node pos key_comp t']. rewrite Hnd.
      change (key (leaf_cell p 0 1 [v]) 0) with (params_key v).
      destruct Hrefl as (-> & _). cbn [negb].
      unfold internal_end. cbn [node]. by rewrite Hp0.
  - unfold btree_begin, btree_leftmost. cbn [root heap t']. rewrite Hp0, nd_set_cell_eq.
    done.
  - unfold btree_end, btree_rightmost. cbn [root heap t']. rewrite Hp0, nd_set_cell_eq.
    cbn [leaf leaf_cell orb]. rewrite Hp0, nd_set_cell_eq. done.
Qed.

End EmptyTree.


(** * Rebalancing two siblings, on the whole tree *)

Section SiblingsCut.
Context `{P : Params}.
Variables (p : nat) (pvs : list value_type).
Variables (Ls Rs : list atree) (lt rt : atree) (h : nat).
Variables (kl kr : Z) (d : value_type).
Hypothesis Hlt : wf kl h lt.
Hypothesis Hrt : wf kr h rt.
Hypothesis Hd : zget pvs (zlen Ls) = Some d.

Local Abbreviation W := (big_vals lt rt d).
Local Abbreviation K := (big_kids lt rt).
Local Abbreviation cl := (zlen (avals lt)).
Local Abbreviation cr := (zlen (avals rt)).

(** The two siblings after a move that leaves [m] values in the left one. *)
Lemma siblings_cut_facts m x :
  0 <= m <= cl + cr -> m <= kNodeValues -> cl + cr - m <= kNodeValues ->
  zget W m = Some x ->
  let lt' := cut_left lt W K m in
  let rt' := cut_right lt (addr rt) W K m in
  pair_at p (remove_at (zlen Ls) pvs) Ls Rs lt (addr rt) W K m x =
    ANode p (<[Z.to_nat (zlen Ls) := x]> pvs) (Ls ++ lt' :: rt' :: Rs) /\
  addr lt' = addr lt /\ addr rt' = addr rt /\
  zlen (avals lt') = m /\ zlen (avals rt') = cl + cr - m /\
  wf 0 h lt' /\ wf 0 h rt' /\
  inorder lt' ++ x :: inorder rt' = inorder lt ++ d :: inorder rt.
Proof using Hlt Hrt Hd.
  intros Hm HmK HrK Hx lt' rt'.
  destruct (wf_siblings_kind kl kr h lt rt Hlt Hrt) as (Hkind & Hcap & Hkl).
  pose proof (big_vals_len lt rt d) as HW.
  pose proof (vnode_wf_siblings kl kr h lt rt d Hlt Hrt) as Hv.
  pose proof (zlen_nonneg (avals lt)). pose proof (zlen_nonneg (avals rt)).
  split; [|split; [|split; [|split; [|split; [|split; [|split]]]]]].
  - unfold pair_at. by rewrite (insert_at_remove_at _ x d).
  - apply addr_mk_like.
  - apply addr_mk_like.
  - unfold lt', cut_left. rewrite avals_mk_like, zlen_take; lia.
  - unfold rt', cut_right. rewrite avals_mk_like, zlen_drop; lia.
  - apply wf_cut_left; [done|lia|lia].
  - apply wf_cut_right; [done|lia|lia].
  - destruct Hv as (_ & Hok & _).
    unfold lt', rt'. rewrite (inorder_cut lt (addr rt) W K m x Hok Hx).
    rewrite <- (inorder_cut lt (addr rt) W K cl d Hok (big_vals_delim lt rt d)).
    by rewrite <- (sibling_left lt rt d), <- (sibling_right lt rt d).
Qed.

(** Cutting the siblings again gives the cut of the first pair. *)
Lemma siblings_cut_again m x :
  0 <= m <= cl + cr -> zget W m = Some x ->
  let lt' := cut_left lt W K m in
  let rt' := cut_right lt (addr rt) W K m in
  big_vals lt' rt' x = W /\
  (forall m' , cut_left lt' W (big_kids lt' rt') m' = cut_left lt W K m') /\
  (forall m', cut_right lt' (addr rt') W (big_kids lt' rt') m' =
              cut_right lt (addr rt) W K m').
Proof using Hlt Hrt.
  intros Hm Hx lt' rt'.
  destruct (wf_siblings_kind kl kr h lt rt Hlt Hrt) as (Hkind & Hcap & Hkl).
  pose proof (vnode_wf_siblings kl kr h lt rt d Hlt Hrt) as (_ & Hok & _).
  pose proof (big_vals_len lt rt d) as HW.
  assert (big_kids lt' rt' = K) as HK.
  { unfold big_kids at 1, lt', rt', cut_left, cut_right. rewrite !akids_mk_like.
    unfold kids_ok in Hok. destruct (is_leaf lt).
    - by rewrite Hok.
    - unfold ztake, zdrop. apply take_drop. }
  split; [|split].
  - unfold big_vals at 1, lt', rt', cut_left, cut_right. rewrite !avals_mk_like.
    symmetry. by apply ztake_zdrop_mid.
  - intros m'. rewrite HK. unfold cut_left at 1. unfold lt' at 2.
    unfold cut_left at 1. rewrite addr_mk_like.
    unfold cut_left. apply mk_like_kind; unfold lt', cut_left.
    + by rewrite is_leaf_mk_like.
    + by rewrite acap_mk_like.
  - intros m'. rewrite HK. unfold rt' at 1. unfold cut_right at 2.
    rewrite addr_mk_like. unfold cut_right. apply mk_like_kind; unfold lt', cut_left.
    + by rewrite is_leaf_mk_like.
    + by rewrite acap_mk_like.
Qed.

End SiblingsCut.

Section SiblingsMove.
Context `{P : Params}.
Hypothesis Hstatic : static_assert_field.

Variables (t : btree) (c0 : ctx) (p : nat) (pvs : list value_type).
Variables (Ls Rs : list atree) (lt rt : atree) (h : nat) (rm : nat) (sz : Z).
Variables (kl kr : Z) (d : value_type).
Hypothesis Hrep : tree_rep t (plug c0 (ANode p pvs (Ls ++ lt :: rt :: Rs))) rm sz.
Hypothesis Hc0 : ctx_lens c0.
Hypothesis Hlen : zlen Ls + 1 + zlen Rs = zlen pvs.
Hypothesis Hpvs : zlen pvs <= kNodeValues.
Hypothesis Hlt : wf kl h lt.
Hypothesis Hrt : wf kr h rt.
Hypothesis Hd : zget pvs (zlen Ls) = Some d.

(** X9. [rebalance_right_to_left] moves [n] values from the right sibling
    to the left one through the delimiter of the parent: the store still
    represents a tree with the same nodes, the left node has [n] values
    more, the right node [n] less, and the values of the whole tree are in
    the same order.  No node is allocated. *)
Theorem rebalance_right_to_left_tree n :
  1 <= n <= zlen (avals rt) -> zlen (avals lt) + n <= kNodeValues ->
  let t' := with_heap (rebalance_right_to_left (addr lt) (addr rt) n (heap t)) t in
  exists lt' rt' x,
    tree_rep t' (plug c0 (ANode p (<[Z.to_nat (zlen Ls) := x]> pvs)
                            (Ls ++ lt' :: rt' :: Rs))) rm sz /\
    addr lt' = addr lt /\ addr rt' = addr rt /\
    zlen (avals lt') = zlen (avals lt) + n /\
    zlen (avals rt') = zlen (avals rt) - n /\
    inorder lt' ++ x :: inorder rt' = inorder lt ++ d :: inorder rt /\
    inorder (plug c0 (ANode p (<[Z.to_nat (zlen Ls) := x]> pvs)
                        (Ls ++ lt' :: rt' :: Rs))) =
      inorder (plug c0 (ANode p pvs (Ls ++ lt :: rt :: Rs))) /\
    next_addr (heap t') = next_addr (heap t).
Proof using All.
  intros Hn Hroom t'.
  pose proof (wf_node_ok _ _ _ Hrt) as (_ & Hcr & _).
  pose proof (zlen_nonneg (avals lt)).
  destruct (r2l_tree Hstatic t c0 p pvs Ls Rs lt rt h rm sz kl kr d
              Hrep Hc0 Hlen Hpvs Hlt Hrt Hd n Hn Hroom) as (x & Hx & Hnext & Hrep' & _ & Hin).
  destruct (siblings_cut_facts p pvs Ls Rs lt rt h kl kr d Hlt Hrt Hd
              (zlen (avals lt) + n) x) as (Hpair & Hal & Har & Hcl & Hcr' & _ & _ & Hio);
    [lia|lia|lia|done|].
  rewrite Hpair in Hrep', Hin.
  eexists _, _, x. split; [exact Hrep'|].
  split; [exact Hal|]. split; [exact Har|]. split; [exact Hcl|].
  split; [rewrite Hcr'; lia|]. split; [exact Hio|]. split; [exact Hin|exact Hnext].
Qed.

(** X10. [rebalance_left_to_right] moves [n] values from the left sibling
    to the right one through the delimiter of the parent: the store still
    represents a tree with the same nodes, the left node has [n] values
    less, the right node [n] more, and the values of the whole tree are in
    the same order.  No node is allocated. *)
Theorem rebalance_left_to_right_tree n :
  1 <= n <= zlen (avals lt) -> zlen (avals rt) + n <= kNodeValues ->
  let t' := with_heap (rebalance_left_to_right (addr lt) (addr rt) n (heap t)) t in
  exists lt' rt' x,
    tree_rep t' (plug c0 (ANode p (<[Z.to_nat (zlen Ls) := x]> pvs)
                            (Ls ++ lt' :: rt' :: Rs))) rm sz /\
    addr lt' = addr lt /\ addr rt' = addr rt /\
    zlen (avals lt') = zlen (avals lt) - n /\
    zlen (avals rt') = zlen (avals rt) + n /\
    inorder lt' ++ x :: inorder rt' = inorder lt ++ d :: inorder rt /\
    inorder (plug c0 (ANode p (<[Z.to_nat (zlen Ls) := x]> pvs)
                        (Ls ++ lt' :: rt' :: Rs))) =
      inorder (plug c0 (ANode p pvs (Ls ++ lt :: rt :: Rs))) /\
    next_addr (heap t') = next_addr (heap t).
Proof using All.
  intros Hn Hroom t'.
  pose proof (wf_node_ok _ _ _ Hlt) as (_ & Hcl0 & _).
  pose proof (zlen_nonneg (avals rt)).
  destruct (l2r_tree Hstatic t c0 p pvs Ls Rs lt rt h rm sz kl kr d
              Hrep Hc0 Hlen Hpvs Hlt Hrt Hd n Hn Hroom) as (x & Hx & Hnext & Hrep' & _ & Hin).
  destruct (siblings_cut_facts p pvs Ls Rs lt rt h kl kr d Hlt Hrt Hd
              (zlen (avals lt) - n) x) as (Hpair & Hal & Har & Hcl & Hcr' & _ & _ & Hio);
    [lia|lia|lia|done|].
  rewrite Hpair in Hrep', Hin.
  eexists _, _, x. split; [exact Hrep'|].
  split; [exact Hal|]. split; [exact Har|]. split; [exact Hcl|].
  split; [rewrite Hcr'; lia|]. split; [exact Hio|]. split; [exact Hin|exact Hnext].
Qed.

(** X11. Moving [n] values to the left sibling and then [n] values back
    to the right one gives a store that represents the tree it
    represented before. *)
Theorem rebalance_right_to_left_undone n :
  1 <= n <= zlen (avals rt) -> zlen (avals lt) + n <= kNodeValues ->
  let m1 := rebalance_right_to_left (addr lt) (addr rt) n (heap t) in
  let m2 := rebalance_left_to_right (addr lt) (addr rt) n m1 in
  tree_rep (with_heap m2 t) (plug c0 (ANode p pvs (Ls ++ lt :: rt :: Rs))) rm sz.
Proof using All.
  intros Hn Hroom m1 m2.
  pose proof (wf_node_ok _ _ _ Hrt) as (_ & Hcr & _).
  pose proof (zlen_nonneg (avals lt)) as Hcl0.
  set (cl := zlen (avals lt)) in *. set (cr := zlen (avals rt)) in *.
  set (W := big_vals lt rt d). set (K := big_kids lt rt).
  destruct (r2l_tree Hstatic t c0 p pvs Ls Rs lt rt h rm sz kl kr d
              Hrep Hc0 Hlen Hpvs Hlt Hrt Hd n Hn Hroom) as (x & Hx & _ & Hrep' & _ & _).
  fold W K cl in Hx, Hrep'.
  destruct (siblings_cut_facts p pvs Ls Rs lt rt h kl kr d Hlt Hrt Hd (cl + n) x)
    as (Hpair & Hal & Har & Hcl & Hcr' & Hwl & Hwr & _); [lia|lia|lia|done|].
  fold W K cl cr in Hpair, Hal, Har, Hcl, Hcr', Hwl, Hwr.
  destruct (siblings_cut_again lt rt h kl kr d Hlt Hrt (cl + n) x) as (HW & HL & HR);
    [fold cl cr; lia|done|].
  fold W K cl cr in HW, HL, HR.
  set (lt' := cut_left lt W K (cl + n)) in *.
  set (rt' := cut_right lt (addr rt) W K (cl + n)) in *.
  rewrite Hpair in Hrep'.
  assert (zlen (<[Z.to_nat (zlen Ls) := x]> pvs) = zlen pvs) as Hlen'.
  { unfold zlen. by rewrite length_insert. }
  assert (zget (<[Z.to_nat (zlen Ls) := x]> pvs) (zlen Ls) = Some x) as Hd'.
  { pose proof (zlen_nonneg Ls). pose proof (zlen_nonneg Rs).
    rewrite zget_insert by lia. rewrite Z.eqb_refl.
    destruct (Z.ltb_spec (zlen Ls) (zlen pvs)); [done|lia]. }
  destruct (l2r_tree Hstatic (with_heap m1 t) c0 p (<[Z.to_nat (zlen Ls) := x]> pvs)
              Ls Rs lt' rt' h rm sz 0 0 x Hrep' Hc0) with (n := n)
    as (x' & Hx' & _ & Hrep'' & _ & _);
    [lia|lia|done|done|done|lia|lia|].
  rewrite HW, Hcl in Hx', Hrep''. replace (cl + n - n) with cl in Hx', Hrep'' by lia.
  assert (x' = d) as ->.
  { pose proof (big_vals_delim lt rt d) as Hdl. fold W cl in Hdl. congruence. }
  unfold pair_at in Hrep''. rewrite HL, HR in Hrep''.
  destruct (wf_siblings_kind kl kr h lt rt Hlt Hrt) as (Hkind & Hcap & Hkl).
  unfold W, K, cl in Hrep''.
  rewrite <- (sibling_left lt rt d Hkind Hcap Hkl),
    <- (sibling_right lt rt d Hkind Hcap Hkl) in Hrep''.
  rewrite (insert_at_remove_at _ d x) in Hrep'' by done.
  rewrite list_insert_insert_eq in Hrep''.
  rewrite list_insert_id in Hrep'';
    [|unfold zget in Hd; by destruct (Z.ltb_spec (zlen Ls) 0)].
  rewrite Hal, Har in Hrep''.
  exact Hrep''.
Qed.

End SiblingsMove.


(** * Splitting a full node, on the whole tree *)

Section SplitTree.
Context `{P : Params}.
Hypothesis Hstatic : static_assert_field.

Variables (t : btree) (c0 : ctx) (p : nat) (pvs : list value_type).
Variables (Ls Rs : list atree) (sub : atree) (h : nat) (rm : nat) (sz : Z).
Hypothesis Hrep : tree_rep t (plug c0 (ANode p pvs (Ls ++ sub :: Rs))) rm sz.
Hypothesis Hcw : ctx_wf 0 (CNode p pvs Ls Rs c0) h.
Hypothesis Hpvs : zlen pvs < kNodeValues.
Hypothesis Hsub : wf 1 h sub.
Hypothesis Hfull : zlen (avals sub) = kNodeValues.

(** X12. [split] of a full node into a freshly allocated right sibling
    [r]: the right node receives [kNodeValues - 1] values when the
    insertion goes to position 0, none when it goes to the last position
    and half of them otherwise; the largest value left becomes the
    delimiter in the parent.  The store represents the resulting tree and
    the values of the whole tree are in the same order. *)
Theorem split_tree ip R0 :
  0 <= ip <= kNodeValues -> fresh_cell (is_leaf sub) R0 ->
  let r := next_addr (heap t) in
  let t2 := with_heap (split (addr sub) r ip (set_cell r R0 (bump (heap t)))) t in
  let s := if ip =? 0 then kNodeValues - 1
           else if ip =? kNodeValues then 0 else kNodeValues / 2 in
  exists lt' rt' x,
    tree_rep t2 (plug c0 (ANode p (insert_at (zlen Ls) x pvs)
                            (Ls ++ lt' :: rt' :: Rs))) rm sz /\
    addr lt' = addr sub /\ addr rt' = r /\
    zlen (avals lt') = kNodeValues - s - 1 /\ zlen (avals rt') = s /\
    inorder lt' ++ x :: inorder rt' = inorder sub /\
    inorder (plug c0 (ANode p (insert_at (zlen Ls) x pvs) (Ls ++ lt' :: rt' :: Rs))) =
      inorder (plug c0 (ANode p pvs (Ls ++ sub :: Rs))) /\
    next_addr (heap t2) = S r.
Proof using All.
  intros Hip HR0 r t2 s.
  assert (s = split_count ip kNodeValues kNodeValues) as Hs by done.
  destruct (split_count_full ip Hip) as (Hs1 & Hm & _). rewrite <- Hs in Hs1, Hm.
  destruct (split_step Hstatic t c0 p pvs Ls Rs sub h rm sz Hrep Hcw Hpvs Hsub Hfull
              ip R0 Hip HR0) as (x & Hx & Hrep' & Hnext & _).
  rewrite <- Hs in Hx, Hrep'. fold r in Hrep', Hnext.
  destruct Hcw as (Hk & Hlen & HL & HR & Hc0).
  pose proof (wf_vnode _ _ _ Hsub) as (_ & Hok & _).
  eexists _, _, x. split; [exact Hrep'|].
  split; [apply addr_mk_like|]. split; [apply addr_mk_like|].
  split; [|split; [|split; [|split]]].
  - unfold cut_left. rewrite avals_mk_like, zlen_take; lia.
  - unfold cut_right. rewrite avals_mk_like, zlen_drop; lia.
  - rewrite (inorder_cut sub r _ _ _ x Hok Hx).
    rewrite inorder_mk_like. destruct sub as [a mc vs|a vs cs]; [done|].
    cbn [is_leaf avals akids]. symmetry. apply inorder_node.
  - rewrite !inorder_plug by (by apply ctx_wf_lens in Hc0).
    f_equal. f_equal.
    rewrite (inorder_cut_parent p pvs Ls Rs Hlen sub r _ _ _ x Hok Hx).
    by rewrite mk_like_same.
  - exact Hnext.
Qed.

End SplitTree.

(** * Merging two siblings, on the whole tree *)

Section MergeTree.
Context `{P : Params}.
Hypothesis Hstatic : static_assert_field.

Variables (t : btree) (c0 : ctx) (p : nat) (pvs : list value_type).
Variables (Ls Rs : list atree) (lt rt : atree) (h : nat) (sz : Z).
Variables (kl kr : Z) (d : value_type).

Local Abbreviation P0 := (ANode p pvs (Ls ++ lt :: rt :: Rs)).
Local Abbreviation P1 := (ANode p (remove_at (zlen Ls) pvs) (Ls ++ merged lt rt d :: Rs)).

Hypothesis Hrep : tree_rep t (plug c0 P0) (last_leaf (plug c0 P0)) sz.
Hypothesis Hc0 : ctx_lens c0.
Hypothesis Hlen : zlen Ls + 1 + zlen Rs = zlen pvs.
Hypothesis Hpvs : zlen pvs <= kNodeValues.
Hypothesis Hlt : wf kl h lt.
Hypothesis Hrt : wf kr h rt.
Hypothesis Hd : zget pvs (zlen Ls) = Some d.
Hypothesis Hfit : zlen (avals lt) + 1 + zlen (avals rt) <= kNodeValues.

Lemma merge_shape :
  P0 = pair_at p (remove_at (zlen Ls) pvs) Ls Rs lt (addr rt)
         (big_vals lt rt d) (big_kids lt rt) (zlen (avals lt)) d /\
  P1 = ANode p (remove_at (zlen Ls) pvs)
         (Ls ++ mk_like lt (addr lt) (big_vals lt rt d) (big_kids lt rt) :: Rs) /\
  zlen Ls + zlen Rs = zlen (remove_at (zlen Ls) pvs) /\
  kids_ok lt (big_vals lt rt d) (big_kids lt rt).
Proof using Hlt Hrt Hd Hlen.
  split; [|split; [|split]].
  - by apply (siblings_pair p pvs Ls Rs lt rt h kl kr d).
  - by rewrite merged_cut.
  - by apply siblings_len0.
  - by apply (siblings_kids_ok lt rt h kl kr d).
Qed.

(** X13. [merge_nodes] moves the delimiter and the values of the right
    sibling to the left one, releases the right node and keeps
    [rightmost] the last leaf: the store represents the tree with the two
    siblings replaced by the merged node, the values of the whole tree are
    in the same order, and the address of the right node is no longer
    allocated. *)
Theorem merge_nodes_tree :
  let t' := merge_nodes (addr lt) (addr rt) t in
  tree_rep t' (plug c0 P1) (last_leaf (plug c0 P1)) sz /\
  avals (merged lt rt d) = avals lt ++ d :: avals rt /\
  inorder (plug c0 P1) = inorder (plug c0 P0) /\
  cells (heap t') !! addr rt = None /\
  next_addr (heap t') = next_addr (heap t) /\
  root t' = root t /\ key_comp t' = key_comp t.
Proof using All.
  intros t'.
  destruct merge_shape as (HP0 & HP1 & Hlen0 & Hok).
  destruct (wf_siblings_kind kl kr h lt rt Hlt Hrt) as (Hkind & Hcap & Hkl).
  pose proof (tr_nodup _ _ _ _ Hrep) as Hnd.
  pose proof (tr_bound _ _ _ _ Hrep) as Hb.
  apply NoDup_plug in Hnd as Hnd3. destruct Hnd3 as (Hnd0 & Hdisj & Hndc).
  pose proof (tree_rep_sub t c0 P0 _ sz Hrep) as Hrep0.
  assert (zlen (Ls ++ lt :: rt :: Rs) = zlen pvs + 1) as Hcs.
  { rewrite zlen_app, !zlen_cons. lia. }
  destruct (merge_rep Hstatic (heap t) _ _ _ _ p pvs Ls Rs lt rt Hrep0 Hnd0
              (wf_node_ok _ _ _ Hlt) (wf_node_ok _ _ _ Hrt) Hkind
              Hpvs Hcs d Hd Hfit) as (Hrep' & Hfr & Hnext & Hleaf & Hcnt).
  set (m1 := merge (addr lt) (addr rt) (heap t)) in *.
  assert (addrs P0 ≡ₚ addr rt :: addrs P1) as Hperm.
  { rewrite HP0 at 1. rewrite HP1. unfold pair_at.
    apply (addrs_cut_parent p (remove_at (zlen Ls) pvs) Ls Rs lt (addr rt)). }
  assert (NoDup (addr rt :: addrs P1)) as Hnd1 by (by rewrite <- Hperm).
  apply NoDup_cons in Hnd1 as [Hrt1 Hnd1].
  assert (leaves (plug c0 P0) <> []) as Hlv0.
  { rewrite leaves_plug. intros Hnil.
    apply app_eq_nil in Hnil as [_ Hnil]. apply app_eq_nil in Hnil as [Hnil _].
    rewrite leaves_node, fmap_app, concat_app, !fmap_cons in Hnil. cbn [concat] in Hnil.
    apply app_eq_nil in Hnil as [_ Hnil]. apply app_eq_nil in Hnil as [Hnil _].
    by apply (leaves_nonempty _ _ _ Hlt). }
  (* the leaves before and after the merge *)
  assert (exists X Y,
            (if is_leaf lt
             then leaves (plug c0 P0) = X ++ addr lt :: addr rt :: Y /\
                  leaves (plug c0 P1) = X ++ addr lt :: Y
             else leaves (plug c0 P1) = leaves (plug c0 P0)) /\
            leaves P1 <> [] /\ leaves P0 <> [] /\ first_leaf P1 = first_leaf P0)
    as (X & Y & Hlv & Hne1 & Hne0 & Hfl).
  { destruct (is_leaf lt) eqn:Hl.
    - destruct (leaves_cut_parent_leaf p (remove_at (zlen Ls) pvs) Ls Rs lt (addr rt)
                  (big_vals lt rt d) (big_kids lt rt) (zlen (avals lt))
                  (insert_at (zlen Ls) d (remove_at (zlen Ls) pvs)) Hl) as [E1 E2].
      fold (pair_at p (remove_at (zlen Ls) pvs) Ls Rs lt (addr rt)
              (big_vals lt rt d) (big_kids lt rt) (zlen (avals lt)) d) in E1.
      rewrite <- HP0 in E1. rewrite <- HP1 in E2.
      exists (ctx_leaves_before c0 ++ concat (leaves <$> Ls)),
             (concat (leaves <$> Rs) ++ ctx_leaves_after c0).
      rewrite !leaves_plug, E1, E2. split; [|split; [|split]].
      + split; by rewrite <- !app_assoc.
      + by destruct (concat (leaves <$> Ls)).
      + by destruct (concat (leaves <$> Ls)).
      + unfold first_leaf. rewrite E1, E2. symmetry. apply hd_insert_after.
    - pose proof (leaves_cut_parent p (remove_at (zlen Ls) pvs) Ls Rs lt (addr rt)
                    (big_vals lt rt d) (big_kids lt rt) (zlen (avals lt))
                    (insert_at (zlen Ls) d (remove_at (zlen Ls) pvs)) Hl) as E1.
      fold (pair_at p (remove_at (zlen Ls) pvs) Ls Rs lt (addr rt)
              (big_vals lt rt d) (big_kids lt rt) (zlen (avals lt)) d) in E1.
      rewrite <- HP0, <- HP1 in E1.
      exists [], []. rewrite !leaves_plug, E1.
      assert (leaves P1 <> []) as Hne.
      { rewrite <- E1. intros Hnil.
        rewrite leaves_node, fmap_app, concat_app, !fmap_cons in Hnil. cbn [concat] in Hnil.
        apply app_eq_nil in Hnil as [_ Hnil]. apply app_eq_nil in Hnil as [Hnil _].
        by apply (leaves_nonempty _ _ _ Hlt). }
      split; [done|]. split; [done|]. split; [done|].
      unfold first_leaf. by rewrite E1. }
  set (t1 := with_heap m1 t).
  assert (tree_rep t1 (plug c0 P1) (last_leaf (plug c0 P0)) sz) as Hrep1.
  { apply (tree_rep_plug t t1 c0 P0 P1 _ sz Hrep);
      [reflexivity|reflexivity|exact Hrep'| | | | | |].
    - intros y Hy. apply Hfr. by eapply ctx_not_sub.
    - exact Hnd1.
    - intros y Hy. apply Hdisj. rewrite Hperm. by apply list_elem_of_further.
    - intros y Hy. change (heap t1) with m1. rewrite Hnext. apply Hb.
      apply elem_of_addrs_plug. left. rewrite Hperm. by apply list_elem_of_further.
    - change (heap t1) with m1. lia.
    - by apply first_leaf_plug. }
  assert (is_leaf (plug c0 P1) = false) as Hint by apply is_leaf_plug_node.
  assert (addr rt ∉ addrs (plug c0 P1)) as Hrt2.
  { intros [Hin|Hin]%elem_of_addrs_plug; [done|].
    apply (Hdisj (addr rt)); [|done]. rewrite Hperm. apply list_elem_of_here. }
  assert (root t1 <> addr rt) as Hroot.
  { rewrite (tr_root _ _ _ _ Hrep1). intros Heq. apply Hrt2. rewrite <- Heq.
    apply addr_in_addrs. }
  (* the fix of [rightmost] *)
  set (t2 := if is_leaf rt
             then if (btree_rightmost t1 =? addr rt)%nat
                  then set_rightmost (addr lt) t1 else t1
             else t1).
  assert (tree_rep t2 (plug c0 P1) (last_leaf (plug c0 P1)) sz /\
          next_addr (heap t2) = next_addr (heap t) /\
          root t2 = root t /\ key_comp t2 = key_comp t /\
          nd (heap t2) (addr rt) = nd m1 (addr rt)) as (Hrep2 & Hn2 & Hr2 & Hk2 & Hnd2).
  { unfold t2. rewrite <- Hkind. destruct (is_leaf lt) eqn:Hl.
    - destruct Hlv as [E0 E1].
      rewrite (btree_rightmost_internal t1 _ _ _ Hrep1 Hint).
      assert (last_leaf (plug c0 P1) =
              if (last_leaf (plug c0 P0) =? addr rt)%nat then addr lt
              else last_leaf (plug c0 P0)) as Hlast.
      { unfold last_leaf. rewrite E0, E1. apply last_remove_after.
        rewrite <- E0. by apply NoDup_leaves, (tr_nodup _ _ _ _ Hrep). }
      rewrite Hlast.
      destruct (last_leaf (plug c0 P0) =? addr rt)%nat.
      + split; [by apply (tree_rep_set_rightmost t1 _ (last_leaf (plug c0 P0)))|].
        destruct (set_rightmost_fields (addr lt) t1) as (-> & -> & ->).
        split; [exact Hnext|]. split; [done|]. split; [done|].
        unfold set_rightmost, on_heap. cbn [heap with_heap].
        unfold nd, upd. cbn [cells]. by rewrite lookup_total_insert_ne.
      + split; [done|]. split; [exact Hnext|]. done.
    - assert (last_leaf (plug c0 P1) = last_leaf (plug c0 P0)) as ->
        by (unfold last_leaf; by rewrite Hlv).
      split; [exact Hrep1|]. split; [exact Hnext|]. done. }
  assert (t' = on_heap (fun m => deallocate (addr rt) (destroy (addr rt) m)) t2) as ->.
  { unfold t', merge_nodes.
    change (on_heap (merge (addr lt) (addr rt)) t) with t1.
    change (heap t1) with m1. rewrite Hleaf. unfold t2.
    by destruct (is_leaf rt). }
  unfold on_heap. rewrite destroy_empty by (by rewrite Hnd2).
  split; [|split; [|split; [|split; [|split]]]].
  - apply (tree_rep_frame t2); [done|reflexivity| |cbn [heap with_heap]; done].
    intros y Hy. cbn [heap with_heap]. rewrite lookup_deallocate.
    destruct (decide (y = addr rt)) as [->|]; [done|done].
  - unfold merged. destruct lt; done.
  - rewrite !inorder_plug by done. f_equal. f_equal.
    rewrite HP0 at 1. rewrite HP1. unfold pair_at. symmetry.
    apply (inorder_cut_parent p (remove_at (zlen Ls) pvs) Ls Rs Hlen0); [done|].
    destruct (wf_siblings_kind kl kr h lt rt Hlt Hrt) as (_ & _ & _).
    apply big_vals_delim.
  - cbn [heap with_heap]. rewrite lookup_deallocate. by rewrite decide_True.
  - cbn [heap with_heap]. exact Hn2.
  - split; [exact Hr2|exact Hk2].
Qed.

End MergeTree.


(** * Making room for a value: rebalance_or_split *)

Section RebalanceOrSplit.
Context `{P : Params}.
Hypothesis Hstatic : static_assert_field.

Lemma plug_root_in_ctx c : forall sub, c <> CTop -> addr (plug c sub) ∈ ctx_addrs c.
Proof using Type.
  induction c as [|a vs Ls Rs c' IH]; intros sub Hne; [done|].
  cbn [plug ctx_addrs]. destruct c' as [|a' vs' Ls' Rs' c''].
  - cbn [plug addr]. apply list_elem_of_here.
  - apply list_elem_of_further. rewrite !elem_of_app. right. right. by apply IH.
Qed.

Lemma root_test (t : btree) c sub rm sz :
  tree_rep t (plug c sub) rm sz ->
  (addr sub =? root t)%nat = match c with CTop => true | CNode _ _ _ _ _ => false end.
Proof using Type.
  intros Hrep. rewrite (tr_root _ _ _ _ Hrep). destruct c as [|a vs Ls Rs c'].
  - apply Nat.eqb_refl.
  - apply Nat.eqb_neq. intros Heq.
    pose proof (tr_nodup _ _ _ _ Hrep) as Hnd.
    apply NoDup_plug in Hnd as (_ & Hdisj & _).
    apply (Hdisj (addr sub)); [apply addr_in_addrs|].
    rewrite Heq. by apply plug_root_in_ctx.
Qed.

(** The fields of a node and of its parent. *)
Lemma hole_read (t : btree) c0 p pvs Ls Rs sub rm sz :
  tree_rep t (plug (CNode p pvs Ls Rs c0) sub) rm sz ->
  parent (nd (heap t) (addr sub)) = p /\
  position (nd (heap t) (addr sub)) = zlen Ls /\
  leaf (nd (heap t) (addr sub)) = is_leaf sub /\
  count (nd (heap t) p) = zlen pvs /\
  max_count (nd (heap t) p) = kNodeValues.
Proof using Type.
  intros Hrep.
  pose proof (tree_rep_sub t (CNode p pvs Ls Rs c0) sub rm sz Hrep) as Hs.
  destruct (rep_at_nd _ _ _ _ _ _ Hs) as (Hl & _ & _ & Hp & Hq & _).
  cbn [hole_par hole_pos] in Hp, Hq.
  pose proof (tree_rep_sub t c0 (ANode p pvs (Ls ++ sub :: Rs)) rm sz Hrep) as Hp0.
  destruct (rep_at_nd _ _ _ _ _ _ Hp0) as (_ & Hc & Hm & _).
  cbn [addr avals acap] in Hc, Hm. done.
Qed.

Lemma rebalance_with_left_none it (t : btree) :
  position (nd (heap t) (node it)) = 0 -> rebalance_with_left it t = None.
Proof using Type. intros H. unfold rebalance_with_left. by rewrite H. Qed.

Lemma rebalance_with_right_none it (t : btree) :
  position (nd (heap t) (node it)) =
    count (nd (heap t) (parent (nd (heap t) (node it)))) ->
  rebalance_with_right it t = None.
Proof using Type.
  intros H. unfold rebalance_with_right. rewrite H.
  by rewrite Z.ltb_irrefl.
Qed.

Lemma wf_readdress k h a a' vs cs : wf k h (ANode a vs cs) -> wf k h (ANode a' vs cs).
Proof using Type. intros H. apply wf_node. by apply wf_node in H. Qed.

(** The root case: the tree grows by one level. *)
Lemma rebalance_or_split_root fuel (t : btree) sub h ip :
  tree_rep t sub (last_leaf sub) (zlen (inorder sub)) ->
  wf 1 h sub -> zlen (avals sub) = kNodeValues -> 0 <= ip <= kNodeValues ->
  exists c' sub' ip' t',
    rebalance_or_split (S fuel) (mk_iterator (addr sub) ip) t =
      (mk_iterator (addr sub') ip', t') /\
    tree_rep t' (plug c' sub') (last_leaf (plug c' sub'))
      (zlen (inorder (plug c' sub'))) /\
    ins_post CTop sub ip h c' sub' ip' /\
    (next_addr (heap t) <= next_addr (heap t'))%nat /\ key_comp t' = key_comp t.
Proof using Hstatic.
  intros Hrep Hsub Hfull Hip. pose proof kNodeValues_pos as HK.
  cbn [rebalance_or_split node pos].
  rewrite (root_test t CTop sub _ _ Hrep). cbn [negb].
  rewrite <- (tr_root _ _ _ _ Hrep).
  destruct (rep_at_nd _ _ _ _ _ _ (tr_rep _ _ _ _ Hrep)) as (Hleaf & _).
  rewrite (tr_root _ _ _ _ Hrep), Hleaf.
  destruct sub as [a mc vs|a vs cs]; cbn [is_leaf].
  - (* a leaf *)
    apply wf_leaf in Hsub as (-> & -> & Hvs). cbn [avals] in Hfull.
    assert (0 <= kNodeValues) as HK0 by lia.
    destruct (root_leaf_grow Hstatic t a kNodeValues vs _ _ Hrep HK0)
      as (Hp & Hrep2 & Hn2 & Hk2).
    rewrite (surjective_pairing (new_internal_root_node t)). rewrite Hp.
    set (p := next_addr (heap t)) in *.
    set (t2 := with_root p _) in *.
    destruct (split_tail_spec Hstatic t2 CTop p [] [] [] (ALeaf a kNodeValues vs) 0%nat
                (zlen vs)) with (ip := ip) (parentp := p)
      as (c' & sub' & ip' & t' & Heq & Hrep' & Hpost & Hn' & Hk');
      [exact Hrep2| |change (zlen (@nil value_type)) with 0; lia
      |by apply wf_leaf|exact Hfull|exact Hip|].
    { split; [change (zlen (@nil value_type)) with 0; lia|]. split; [reflexivity|].
      split; [constructor|]. split; [constructor|exact I]. }
    destruct Hpost as (Q1 & Q2 & Q3 & Q4 & Q5 & Q6 & Q7 & Q8 & Q9).
    exists c', sub', ip', t'. split; [exact Heq|].
    assert (inorder (plug (CNode p [] [] [] CTop) (ALeaf a kNodeValues vs)) = vs) as Hin.
    { cbn [plug app]. by rewrite inorder_single_kid. }
    split; [rewrite Q5, Hin; exact Hrep'|]. split; [|split; [lia|congruence]].
    repeat split; try done; try lia.
    by rewrite Q5, Hin.
  - (* an internal node *)
    apply wf_node in Hsub as Hsub'. destruct Hsub' as (Hvs & Hcs & h' & -> & Hkids).
    cbn [avals] in Hfull.
    set (parx := parent (nd (heap t) (addr (ANode a vs cs)))).
    assert (zlen vs <= kNodeValues) as HK0 by lia.
    destruct (root_internal_grow Hstatic t a vs cs _ _ parx Hrep HK0 Hcs)
      as (Hp & Hrep2 & Hn2 & Hk2 & Hr2).
    rewrite (surjective_pairing (new_internal_node parx t)). rewrite Hp.
    set (n := next_addr (heap t)) in *.
    set (t2 := on_heap (swap n _) _) in *.
    assert (last_leaf (ANode a vs cs) = last_leaf (ANode a [] [ANode n vs cs])) as Hll.
    { unfold last_leaf. by rewrite leaves_single. }
    rewrite Hll in Hrep2.
    destruct (split_tail_spec Hstatic t2 CTop a [] [] [] (ANode n vs cs) (S h')
                (zlen (inorder (ANode a vs cs)))) with (ip := ip) (parentp := n)
      as (c' & sub' & ip' & t' & Heq & Hrep' & Hpost & Hn' & Hk');
      [exact Hrep2| |change (zlen (@nil value_type)) with 0; lia
      |by eapply wf_readdress|exact Hfull|exact Hip|].
    { split; [change (zlen (@nil value_type)) with 0; lia|]. split; [reflexivity|].
      split; [constructor|]. split; [constructor|exact I]. }
    destruct Hpost as (Q1 & Q2 & Q3 & Q4 & Q5 & Q6 & Q7 & Q8 & Q9).
    assert (inorder (plug (CNode a [] [] [] CTop) (ANode n vs cs)) =
            inorder (ANode a vs cs)) as Hin.
    { cbn [plug app]. rewrite inorder_single_kid. by rewrite !inorder_node. }
    exists c', sub', ip', t'. split; [exact Heq|].
    split; [rewrite Q5, Hin; exact Hrep'|]. split; [|split; [lia|congruence]].
    repeat split; try done; try lia.
    by rewrite Q5, Hin.
Qed.

Lemma snoc_case {A} (l : list A) : l = [] \/ exists l0 x, l = l0 ++ [x].
Proof using Type. destruct l using rev_ind; eauto. Qed.

Lemma rebalance_or_split_spec fuel : forall (t : btree) c sub h ip,
  tree_rep t (plug c sub) (last_leaf (plug c sub)) (zlen (inorder (plug c sub))) ->
  ctx_wf 1 c h -> wf 1 h sub -> zlen (avals sub) = kNodeValues ->
  0 <= ip <= kNodeValues -> (depth c < fuel)%nat ->
  exists c' sub' ip' t',
    rebalance_or_split fuel (mk_iterator (addr sub) ip) t =
      (mk_iterator (addr sub') ip', t') /\
    tree_rep t' (plug c' sub') (last_leaf (plug c' sub'))
      (zlen (inorder (plug c' sub'))) /\
    ins_post c sub ip h c' sub' ip' /\
    (next_addr (heap t) <= next_addr (heap t'))%nat /\ key_comp t' = key_comp t.
Proof using Hstatic.
  induction fuel as [|fuel IH]; intros t c sub h ip Hrep Hcw Hsub Hfull Hip Hfuel; [lia|].
  destruct c as [|p pvs Ls Rs c0].
  { by apply rebalance_or_split_root. }
  pose proof Hcw as (Hk & Hlen & HL & HR & Hc0).
  pose proof (zlen_nonneg Ls) as HLs0. pose proof (zlen_nonneg Rs) as HRs0.
  destruct (hole_read t c0 p pvs Ls Rs sub _ _ Hrep) as (Rp & Rq & Rl & Rc & Rm).
  cbn [rebalance_or_split node pos].
  rewrite (root_test t _ sub _ _ Hrep). cbn [negb].
  set (T := plug (CNode p pvs Ls Rs c0) sub) in *.
  set (sz := zlen (inorder T)) in *.
  (* the left sibling *)
  destruct (rebalance_with_left (mk_iterator (addr sub) ip) t) as [[it1 t1]|] eqn:Hleft.
  { destruct (snoc_case Ls) as [->|(Ls0 & l0 & ->)].
    { rewrite rebalance_with_left_none in Hleft; [discriminate|]. cbn [node]. by rewrite Rq. }
    apply Forall_app in HL as [HL0 Hl0]. apply Forall_cons in Hl0 as [Hl0 _].
    rewrite zlen_app, zlen_cons in Hlen, HLs0. change (zlen (@nil atree)) with 0 in Hlen, HLs0.
    assert (tree_rep t (plug c0 (ANode p pvs (Ls0 ++ l0 :: sub :: Rs)))
              (last_leaf (plug c0 (ANode p pvs (Ls0 ++ l0 :: sub :: Rs)))) sz) as Hrep0.
    { unfold T in Hrep. cbn [plug] in Hrep. rewrite <- app_assoc in Hrep. exact Hrep. }
    destruct (rebalance_with_left_pair Hstatic t c0 p pvs Ls0 Rs l0 sub h sz Hrep0)
      with (ip := ip) (it' := it1) (t' := t1)
      as (c' & sub' & ip' & -> & Hrep' & Hpost & Hn & Hkc);
      [lia|lia|done|done|done|done|done|done|done|done|].
    exists c', sub', ip', t1. split; [done|].
    pose proof Hpost as (_ & _ & _ & _ & Q5 & _).
    split; [rewrite Q5; exact Hrep'|]. split; [exact Hpost|]. split; [lia|done]. }
  (* the right sibling *)
  destruct (rebalance_with_right (mk_iterator (addr sub) ip) t) as [[it1 t1]|] eqn:Hright.
  { destruct Rs as [|r0 Rs0].
    { rewrite rebalance_with_right_none in Hright; [discriminate|]. cbn [node].
      rewrite Rq, Rp, Rc. change (zlen (@nil atree)) with 0 in Hlen. lia. }
    apply Forall_cons in HR as [Hr0 HR0]. rewrite zlen_cons in Hlen.
    pose proof (zlen_nonneg Rs0).
    destruct (rebalance_with_right_pair Hstatic t c0 p pvs Ls Rs0 sub r0 h sz Hrep)
      with (ip := ip) (it' := it1) (t' := t1)
      as (c' & sub' & ip' & -> & Hrep' & Hpost & Hn & Hkc);
      [lia|lia|done|done|done|done|done|done|done|done|].
    exists c', sub', ip', t1. split; [done|].
    pose proof Hpost as (_ & _ & _ & _ & Q5 & _).
    split; [rewrite Q5; exact Hrep'|]. split; [exact Hpost|]. split; [lia|done]. }
  (* room on the parent *)
  rewrite Rp, Rq, Rc, Rm.
  destruct (Z.eqb_spec (zlen pvs) kNodeValues) as [Hpfull|Hproom].
  - (* the parent is full *)
    set (subp := ANode p pvs (Ls ++ sub :: Rs)).
    assert (wf 1 (S h) subp) as Hwp by (by apply wf_plug_node).
    destruct (IH t c0 subp (S h) (zlen Ls) Hrep Hc0 Hwp Hpfull ltac:(lia))
      as (c0' & subp' & ip0 & t1 & Heq1 & Hrep1 & Hpost1 & Hn1 & Hk1).
    { cbn [depth] in Hfuel. lia. }
    change (mk_iterator p (zlen Ls)) with (mk_iterator (addr subp) (zlen Ls)).
    rewrite Heq1. cbn [snd].
    destruct Hpost1 as (Q1 & Q2 & Q3 & Q4 & Q5 & Q6 & Q7 & Q8 & Q9).
    destruct subp' as [?|p' pvs' cs']; [discriminate Q9|].
    unfold kid_at in Q7. cbn [akids subp] in Q7.
    assert (zget (Ls ++ sub :: Rs) (zlen Ls) = Some sub) as Hmid.
    { rewrite zget_app. destruct (Z.ltb_spec (zlen Ls) (zlen Ls)); [lia|].
      by rewrite Z.sub_diag. }
    rewrite Hmid in Q7.
    apply wf_node in Q2 as (Hpv' & Hcs' & h' & [= <-] & Hkids').
    cbn [avals] in Q3, Q4.
    pose proof (ztake_zdrop_mid cs' ip0 sub Q7) as Hcut.
    set (Ls' := ztake ip0 cs') in *. set (Rs' := zdrop (ip0 + 1) cs') in *.
    assert (zlen Ls' = ip0) as HLs' by (unfold Ls'; apply zlen_take; lia).
    assert (zlen Rs' = zlen pvs' - ip0) as HRs'.
    { unfold Rs'. rewrite zlen_drop by lia. lia. }
    rewrite Hcut in Hrep1, Q5.
    destruct (split_tail_spec Hstatic t1 c0' p' pvs' Ls' Rs' sub h
                (zlen (inorder (plug c0' (ANode p' pvs' (Ls' ++ sub :: Rs'))))))
      with (ip := ip) (parentp := p)
      as (c' & sub' & ip' & t' & Heq & Hrep' & Hpost & Hn' & Hk');
      [exact Hrep1| |lia|done|done|done|].
    { split; [lia|]. split; [lia|].
      split; [unfold Ls', ztake; by apply Forall_take|].
      split; [unfold Rs', zdrop; by apply Forall_drop|done]. }
    destruct Hpost as (S1 & S2 & S3 & S4 & S5 & S6 & S7 & S8 & S9).
    exists c', sub', ip', t'. split; [exact Heq|].
    split; [rewrite S5; exact Hrep'|]. split; [|split; [lia|congruence]].
    repeat split; try done; try lia.
    + rewrite S5. cbn [plug]. exact Q5.
    + rewrite S6. cbn [ctx_before]. rewrite <- !app_assoc.
      unfold subp in Q6. cbn [before_slot] in Q6.
      rewrite Hcut in Q6 at 1.
      assert (ztake ip0 (Ls' ++ sub :: Rs') = Ls') as E2.
      { rewrite ztake_app_l by lia. apply ztake_all. lia. }
      assert (ztake (zlen Ls) (Ls ++ sub :: Rs) = Ls) as E3.
      { rewrite ztake_app_l by lia. apply ztake_all. lia. }
      rewrite E2, E3 in Q6. rewrite !app_assoc. by rewrite Q6.
  - (* the parent has room *)
    destruct (split_tail_spec Hstatic t c0 p pvs Ls Rs sub h sz Hrep)
      with (ip := ip) (parentp := p)
      as (c' & sub' & ip' & t' & Heq & Hrep' & Hpost & Hn' & Hk');
      [by eapply (ctx_wf_weaken 1 0 (CNode p pvs Ls Rs c0))|lia|done|done|done|].
    pose proof Hpost as (_ & _ & _ & _ & Q5 & _).
    exists c', sub', ip', t'. split; [exact Heq|].
    split; [rewrite Q5; exact Hrep'|]. split; [exact Hpost|]. split; [lia|done].
Qed.

End RebalanceOrSplit.


(** * Insertion at a position of a leaf: internal_insert *)

Section InternalInsert.
Context `{P : Params}.
Hypothesis Hstatic : static_assert_field.

Lemma depth_ctx_addrs c : (depth c <= length (ctx_addrs c))%nat.
Proof using Type.
  induction c as [|a vs Ls Rs c IH]; [done|]. cbn [depth ctx_addrs length].
  rewrite !length_app. lia.
Qed.

Lemma bounded_NoDup_length (l : list nat) n :
  NoDup l -> (forall y, y ∈ l -> 0 < y < n)%nat -> (length l < Nat.max n 1)%nat.
Proof using Type.
  intros Hnd Hb.
  assert (l ⊆+ seq 1 (n - 1)) as Hsub.
  { apply NoDup_submseteq; [done|]. intros y Hy. apply Hb in Hy.
    apply elem_of_seq. lia. }
  apply submseteq_length in Hsub. rewrite length_seq in Hsub. lia.
Qed.

Lemma depth_fuel (t : btree) c sub rm sz :
  tree_rep t (plug c sub) rm sz -> (depth c < fuel_of (heap t))%nat.
Proof using Type.
  intros Hrep. pose proof (tr_nodup _ _ _ _ Hrep) as Hnd.
  apply NoDup_plug in Hnd as (_ & _ & Hndc).
  pose proof (depth_ctx_addrs c).
  pose proof (bounded_NoDup_length (ctx_addrs c) (next_addr (heap t)) Hndc) as Hl.
  unfold fuel_of.
  assert (length (ctx_addrs c) < Nat.max (next_addr (heap t)) 1)%nat; [|lia].
  apply Hl. intros y Hy. apply (tr_bound _ _ _ _ Hrep). apply elem_of_addrs_plug. by right.
Qed.

(** A value goes into a leaf of the tree. *)
Lemma tree_insert_value_leaf (t : btree) c a mc vs rm sz ip v :
  tree_rep t (plug c (ALeaf a mc vs)) rm sz ->
  zlen vs < mc -> mc < field_modulus -> 0 <= ip <= zlen vs ->
  let t' := on_heap (insert_value a ip v) t in
  tree_rep t' (plug c (ALeaf a mc (insert_at ip v vs))) rm sz /\
  next_addr (heap t') = next_addr (heap t) /\
  last_leaf (plug c (ALeaf a mc (insert_at ip v vs))) = last_leaf (plug c (ALeaf a mc vs)).
Proof using Type.
  intros Hrep Hroom Hmod Hip t'.
  pose proof (tree_rep_sub t c _ rm sz Hrep) as Hs. apply rep_at_leaf in Hs.
  pose proof (tr_nodup _ _ _ _ Hrep) as Hnd.
  pose proof (tr_bound _ _ _ _ Hrep) as Hb.
  assert (heap t' = set_cell a (leaf_cell (hole_par c (first_leaf (plug c (ALeaf a mc vs))))
                                  (hole_pos c 0) mc (insert_at ip v vs)) (heap t)) as Hheap.
  { unfold t', on_heap. cbn [heap with_heap].
    by apply (insert_value_leaf a (heap t) _ _ mc vs ip v (heap t)). }
  split; [|split].
  - apply (tree_rep_plug t t' c (ALeaf a mc vs) (ALeaf a mc (insert_at ip v vs)) rm sz Hrep);
      [reflexivity|reflexivity| | | | | | |].
    + apply rep_at_leaf. rewrite Hheap. apply lookup_set_cell_eq.
    + intros y Hy. rewrite Hheap. apply lookup_set_cell_ne. intros <-.
      apply (ctx_not_sub c (ALeaf a mc vs) a Hnd Hy). apply list_elem_of_here.
    + apply NoDup_singleton.
    + intros y Hy. apply NoDup_plug in Hnd as (_ & Hdisj & _). by apply Hdisj.
    + intros y Hy. rewrite Hheap, next_addr_set_cell. apply Hb.
      apply elem_of_addrs_plug. by left.
    + rewrite Hheap, next_addr_set_cell. lia.
    + by apply first_leaf_plug.
  - by rewrite Hheap, next_addr_set_cell.
  - unfold last_leaf. by rewrite !leaves_plug.
Qed.

Lemma btree_size_rep (t : btree) T rm sz :
  tree_rep t T rm sz -> btree_size t = if is_leaf T then zlen (avals T) else sz.
Proof using Type.
  intros Hrep. unfold btree_size, empty. rewrite (tr_root _ _ _ _ Hrep).
  assert ((addr T =? 0)%nat = false) as ->.
  { apply Nat.eqb_neq. pose proof (tr_bound _ _ _ _ Hrep (addr T) (addr_in_addrs T)). lia. }
  destruct (rep_at_nd _ _ _ _ _ _ (tr_rep _ _ _ _ Hrep)) as (-> & -> & _ & _ & _ & Hf).
  destruct (is_leaf T); [done|]. by destruct Hf.
Qed.

Lemma inorder_leaf_plug c a mc vs :
  ctx_lens c ->
  inorder (plug c (ALeaf a mc vs)) = ctx_before c ++ vs ++ ctx_after c.
Proof using Type. intros Hc. by rewrite inorder_plug. Qed.

(** The last two steps of [internal_insert]: the size of an internal root
    grows by one, then the value goes into the leaf. *)
Lemma finish_insert (t : btree) c a mc vs ip v :
  let T := plug c (ALeaf a mc vs) in
  let T' := plug c (ALeaf a mc (insert_at ip v vs)) in
  tree_rep t T (last_leaf T) (zlen (inorder T)) -> ctx_lens c ->
  zlen vs < mc -> mc <= kNodeValues -> 0 <= ip <= zlen vs ->
  let t2 := if negb (leaf (nd (heap t) (root t))) then add_size 1 t else t in
  let t3 := on_heap (insert_value a ip v) t2 in
  tree_rep t3 T' (last_leaf T') (zlen (inorder T')) /\
  inorder T' = (ctx_before c ++ ztake ip vs) ++ v :: (zdrop ip vs ++ ctx_after c) /\
  inorder T = (ctx_before c ++ ztake ip vs) ++ (zdrop ip vs ++ ctx_after c) /\
  next_addr (heap t3) = next_addr (heap t) /\ key_comp t3 = key_comp t /\
  (is_leaf T = false -> t2 = add_size 1 t).
Proof using Hstatic.
  intros T T' Hrep Hc Hroom Hmc Hip t2 t3.
  assert (mc < field_modulus) as Hmod by (unfold static_assert_field in Hstatic; lia).
  assert (inorder T' = (ctx_before c ++ ztake ip vs) ++ v :: (zdrop ip vs ++ ctx_after c))
    as HT'.
  { unfold T'. rewrite inorder_leaf_plug by done. unfold insert_at.
    by rewrite <- !app_assoc. }
  assert (inorder T = (ctx_before c ++ ztake ip vs) ++ (zdrop ip vs ++ ctx_after c)) as HT.
  { unfold T. rewrite inorder_leaf_plug by done.
    rewrite <- (app_assoc (ctx_before c)). f_equal. rewrite app_assoc. f_equal.
    unfold ztake, zdrop. by rewrite take_drop. }
  assert (zlen (inorder T') = zlen (inorder T) + 1) as Hsz.
  { rewrite HT', HT. rewrite !zlen_app, zlen_cons, !zlen_app. lia. }
  destruct (rep_at_nd _ _ _ _ _ _ (tr_rep _ _ _ _ Hrep)) as (Hleaf & _).
  rewrite <- (tr_root _ _ _ _ Hrep) in Hleaf.
  assert (tree_rep t2 T (last_leaf T) (zlen (inorder T')) /\
          next_addr (heap t2) = next_addr (heap t) /\ key_comp t2 = key_comp t /\
          (is_leaf T = false -> t2 = add_size 1 t)) as (Hrep2 & Hn2 & Hk2 & Ht2).
  { unfold t2. rewrite Hleaf. destruct (is_leaf T) eqn:HlT; cbn [negb].
    - split; [by apply (tree_rep_leaf_fields t T (last_leaf T) (zlen (inorder T)))|done].
    - rewrite Hsz. split; [by apply tree_rep_add_size|].
      destruct (add_size_fields 1 t) as (-> & -> & _). done. }
  clearbody t2.
  destruct (tree_insert_value_leaf t2 c a mc vs _ _ ip v Hrep2 Hroom Hmod Hip)
    as (Hrep3 & Hn3 & Hlast).
  fold t3 in Hrep3, Hn3. fold T T' in Hlast. rewrite <- Hlast in Hrep3.
  split; [exact Hrep3|]. split; [exact HT'|]. split; [exact HT|].
  split; [by rewrite Hn3|]. split; [exact Hk2|exact Ht2].
Qed.

Lemma btree_size_inorder (t : btree) T :
  tree_rep t T (last_leaf T) (zlen (inorder T)) -> btree_size t = zlen (inorder T).
Proof using Type.
  intros Hrep. rewrite (btree_size_rep t T _ _ Hrep). by destruct T.
Qed.


(** [internal_insert] at a position of a leaf of full capacity, with or
    without room. *)
Lemma internal_insert_leaf (t : btree) c sub h ip v :
  tree_rep t (plug c sub) (last_leaf (plug c sub)) (zlen (inorder (plug c sub))) ->
  ctx_wf 1 c h -> wf 0 h sub -> is_leaf sub = true -> 0 <= ip <= zlen (avals sub) ->
  exists c' sub' ip' t',
    internal_insert (mk_iterator (addr sub) ip) v t = (mk_iterator (addr sub') ip', t') /\
    tree_rep t' (plug c' sub') (last_leaf (plug c' sub'))
      (zlen (inorder (plug c' sub'))) /\
    inorder (plug c sub) =
      (ctx_before c ++ ztake ip (avals sub)) ++ (zdrop ip (avals sub) ++ ctx_after c) /\
    inorder (plug c' sub') =
      (ctx_before c ++ ztake ip (avals sub)) ++ v :: (zdrop ip (avals sub) ++ ctx_after c) /\
    is_leaf sub' = true /\ zget (avals sub') ip' = Some v /\
    ctx_before c' ++ ztake ip' (avals sub') = ctx_before c ++ ztake ip (avals sub) /\
    ctx_wf 1 c' h /\ wf 1 h sub' /\
    btree_size t' = btree_size t + 1 /\ key_comp t' = key_comp t.
Proof using Hstatic.
  intros Hrep Hcw Hsub Hleaf Hip. pose proof kNodeValues_pos as HK.
  destruct sub as [a mc vs|]; [|discriminate]. cbn [addr avals] in *.
  destruct Hsub as (Hh & Hmc & Hvs). subst h mc.
  pose proof (tree_rep_sub t c _ _ _ Hrep) as Hs.
  destruct (rep_at_nd _ _ _ _ _ _ Hs) as (Rl & Rc & Rm & _). cbn [addr avals acap is_leaf] in *.
  pose proof (ctx_wf_lens _ _ _ Hcw) as Hlens.
  pose proof (btree_size_inorder t _ Hrep) as Hsize.
  unfold internal_insert. cbn [node pos]. rewrite Rl. cbn [negb node pos].
  rewrite Rc, Rm.
  destruct (Z.eqb_spec (zlen vs) kNodeValues) as [Hfull|Hroom].
  - (* the leaf is full *)
    rewrite Z.ltb_irrefl.
    destruct (rebalance_or_split_spec Hstatic (fuel_of (heap t)) t c
                (ALeaf a kNodeValues vs) 0%nat ip Hrep Hcw)
      as (c1 & sub1 & ip1 & t1 & Heq & Hrep1 & Hpost & Hn1 & Hk1);
      [apply wf_leaf; repeat split; lia|exact Hfull|lia|by eapply depth_fuel|].
    cbn [addr] in Heq. rewrite Heq.
    destruct Hpost as (Q1 & Q2 & Q3 & Q4 & Q5 & Q6 & Q7 & Q8 & Q9).
    destruct sub1 as [a1 mc1 vs1|]; [|discriminate Q9]. cbn [addr avals] in *.
    apply wf_leaf in Q2 as (_ & -> & Hvs1).
    destruct (finish_insert t1 c1 a1 kNodeValues vs1 ip1 v Hrep1 (ctx_wf_lens _ _ _ Q1) Q3
                ltac:(lia) Q4)
      as (Hrep3 & HT' & HT & Hn3 & Hk3 & Ht2).
    rewrite Ht2 in Hrep3, Hn3, Hk3 by (by apply is_leaf_plug).
    cbn [node pos].
    exists c1, (ALeaf a1 kNodeValues (insert_at ip1 v vs1)), ip1,
      (on_heap (insert_value a1 ip1 v) (add_size 1 t1)).
    cbn [before_slot] in Q6.
    assert (zdrop ip1 vs1 ++ ctx_after c1 = zdrop ip vs ++ ctx_after c) as Hsuf.
    { rewrite HT in Q5. rewrite (inorder_leaf_plug c) in Q5 by done.
      rewrite Q6 in Q5. rewrite <- (app_assoc (ctx_before c)) in Q5.
      apply app_inv_head in Q5.
      rewrite <- (take_drop (Z.to_nat ip) vs) in Q5 at 2.
      fold (ztake ip vs) (zdrop ip vs) in Q5. rewrite <- app_assoc in Q5.
      by apply app_inv_head in Q5. }
    split; [reflexivity|]. split; [exact Hrep3|].
    split.
    { rewrite inorder_leaf_plug by done. rewrite <- (app_assoc (ctx_before c)). f_equal.
      rewrite app_assoc. f_equal. unfold ztake, zdrop. by rewrite take_drop. }
    split; [by rewrite HT', Q6, Hsuf|].
    split; [done|]. cbn [avals].
    split; [rewrite zget_insert_at by lia; rewrite Z.ltb_irrefl; by rewrite Z.eqb_refl|].
    split; [by rewrite ztake_insert_at by lia|].
    split; [done|]. split; [apply wf_leaf; rewrite zlen_insert_at; repeat split; lia|].
    split; [|congruence].
    rewrite (btree_size_inorder _ _ Hrep3), Hsize, HT', Q6, Hsuf.
    rewrite (inorder_leaf_plug c) by done.
    rewrite <- (take_drop (Z.to_nat ip) vs) at 3.
    fold (ztake ip vs) (zdrop ip vs).
    rewrite !zlen_app, zlen_cons, !zlen_app. lia.
  - (* the leaf has room *)
    destruct (Z.eqb_spec (zlen vs) kNodeValues) as [|_]; [done|].
    destruct (finish_insert t c a kNodeValues vs ip v Hrep Hlens ltac:(lia) ltac:(lia) Hip)
      as (Hrep3 & HT' & HT & Hn3 & Hk3 & _).
    exists c, (ALeaf a kNodeValues (insert_at ip v vs)), ip,
      (on_heap (insert_value a ip v)
         (if negb (leaf (nd (heap t) (root t))) then add_size 1 t else t)).
    split.
    { by destruct (negb (leaf (nd (heap t) (root t)))). }
    split; [exact Hrep3|]. split; [exact HT|]. split; [exact HT'|].
    split; [done|]. cbn [avals].
    split; [rewrite zget_insert_at by lia; rewrite Z.ltb_irrefl; by rewrite Z.eqb_refl|].
    split; [by rewrite ztake_insert_at by lia|].
    split; [done|]. split; [apply wf_leaf; rewrite zlen_insert_at; repeat split; lia|].
    split; [|exact Hk3].
    rewrite (btree_size_inorder _ _ Hrep3), Hsize, HT', HT.
    rewrite !zlen_app, zlen_cons, !zlen_app. lia.
Qed.

(** X14. [internal_insert] at the position [ip] of a leaf of full
    capacity: the store represents a tree whose values in order are those
    of the tree before with the new value put in at the place of the
    iterator; the iterator returned designates the new value in a leaf;
    every node but the root keeps at least one value; the size grows by
    one. *)
Theorem internal_insert_tree (t : btree) c sub h ip v :
  tree_rep t (plug c sub) (last_leaf (plug c sub)) (zlen (inorder (plug c sub))) ->
  ctx_wf 1 c h -> wf 0 h sub -> is_leaf sub = true -> 0 <= ip <= zlen (avals sub) ->
  exists c' sub' ip' t',
    internal_insert (mk_iterator (addr sub) ip) v t = (mk_iterator (addr sub') ip', t') /\
    tree_rep t' (plug c' sub') (last_leaf (plug c' sub'))
      (zlen (inorder (plug c' sub'))) /\
    inorder (plug c sub) =
      (ctx_before c ++ ztake ip (avals sub)) ++ (zdrop ip (avals sub) ++ ctx_after c) /\
    inorder (plug c' sub') =
      (ctx_before c ++ ztake ip (avals sub)) ++ v :: (zdrop ip (avals sub) ++ ctx_after c) /\
    is_leaf sub' = true /\ zget (avals sub') ip' = Some v /\
    ctx_before c' ++ ztake ip' (avals sub') = ctx_before c ++ ztake ip (avals sub) /\
    ctx_wf 1 c' h /\ wf 1 h sub' /\
    btree_size t' = btree_size t + 1 /\ key_comp t' = key_comp t.
Proof using Hstatic.
  intros Hrep Hcw Hsub Hleaf Hip. by apply internal_insert_leaf.
Qed.

End InternalInsert.

From Stdlib Require Import Sorted.
From stdpp Require sorting.

(** * Descending from a node to a position of a leaf *)

(** The three descents of btree.h ([internal_locate_plain_compare],
    [internal_lower_bound], [internal_upper_bound]) differ by the search
    they run in each node.  [before] tells the values the search skips. *)

Section Descent.
Context `{P : Params}.
Variable before : value_type -> bool.
Variable search : btree_node -> Z.

(** In [l] the values that are skipped come first. *)
Definition kmono (l : list value_type) : Prop :=
  StronglySorted (fun x y => before y = true -> before x = true) l.

Lemma kmono_app_l l1 l2 : kmono (l1 ++ l2) -> kmono l1.
Proof using Type. apply sorting.StronglySorted_app_1_l. Qed.

Lemma kmono_app_r l1 l2 : kmono (l1 ++ l2) -> kmono l2.
Proof using Type. apply sorting.StronglySorted_app_1_r. Qed.

Lemma kmono_before A v B :
  kmono (A ++ v :: B) -> before v = true -> Forall (fun x => before x = true) A.
Proof using Type.
  intros Hm Hv. apply Forall_forall. intros x Hx.
  apply (sorting.StronglySorted_app_1_elem_of _ A (v :: B) x v Hm Hx); [apply list_elem_of_here|done].
Qed.

Lemma kmono_after A v B :
  kmono (A ++ v :: B) -> before v = false -> Forall (fun x => before x = false) B.
Proof using Type.
  intros Hm Hv. apply kmono_app_r in Hm. apply sorting.StronglySorted_cons in Hm as [Hf _].
  eapply Forall_impl; [exact Hf|]. intros y Hy. cbv beta in Hy.
  destruct (before y); [|done]. rewrite Hy in Hv by done. discriminate.
Qed.

Lemma kmono_zget l i j x y :
  kmono l -> zget l i = Some x -> zget l j = Some y -> i <= j ->
  before y = true -> before x = true.
Proof using Type.
  intros Hm Hi Hj Hij Hy.
  destruct (Z.eq_dec i j) as [->|Hne]; [congruence|].
  rewrite (ztake_zdrop_mid l j y Hj) in Hm.
  pose proof (kmono_before _ _ _ Hm Hy) as Hf.
  rewrite Forall_forall in Hf. apply Hf.
  apply (zget_elem_of _ i). rewrite zget_take.
  destruct (Z.ltb_spec i j); [done|lia].
Qed.

Lemma Forall_zget {A} (Q : A -> Prop) (l : list A) :
  (forall j x, zget l j = Some x -> Q x) -> Forall Q l.
Proof using Type.
  intros H. apply Forall_forall. intros x Hx.
  apply list_elem_of_lookup in Hx as [i Hi]. apply (H (Z.of_nat i)).
  unfold zget. destruct (Z.ltb_spec (Z.of_nat i) 0); [lia|]. by rewrite Nat2Z.id.
Qed.

Lemma elem_of_inter_vals (Ks : list (list value_type)) : forall vs x,
  x ∈ vs -> (length Ks = S (length vs))%nat -> x ∈ inter Ks vs.
Proof using Type.
  induction Ks as [|l Ks IH]; intros vs x Hx Hlen; [done|].
  destruct vs as [|v vs]; [by apply elem_of_nil in Hx|]. cbn [inter].
  apply elem_of_app. right. apply elem_of_cons in Hx as [->|Hx]; [apply list_elem_of_here|].
  apply list_elem_of_further. apply IH; [done|]. simpl in Hlen. lia.
Qed.

Lemma kmono_vals (Ks : list (list value_type)) : forall vs,
  kmono (inter Ks vs) -> (length Ks = S (length vs))%nat -> kmono vs.
Proof using Type.
  induction Ks as [|l Ks IH]; intros vs Hm Hlen; [done|].
  destruct vs as [|v vs]; [constructor|]. cbn [inter] in Hm.
  apply kmono_app_r in Hm. apply sorting.StronglySorted_cons in Hm as [Hf Hm].
  simpl in Hlen. constructor; [apply IH; [done|lia]|].
  apply Forall_forall. intros x Hx. rewrite Forall_forall in Hf. apply Hf.
  apply elem_of_inter_vals; [done|lia].
Qed.

Lemma ipre_all_before (Ls : list (list value_type)) : forall vs rest,
  kmono (ipre Ls vs ++ rest) ->
  Forall (fun x => before x = true) (take (length Ls) vs) ->
  Forall (fun x => before x = true) (ipre Ls vs).
Proof using Type.
  induction Ls as [|l Ls IH]; intros vs rest Hm Hv; [constructor|].
  destruct vs as [|v vs]; [constructor|]. cbn [ipre length take] in *.
  apply Forall_cons in Hv as [Hv Hvs].
  rewrite <- app_assoc in Hm. cbn [app] in Hm.
  apply Forall_app. split; [by apply (kmono_before l v (ipre Ls vs ++ rest))|].
  constructor; [done|]. apply kmono_app_r in Hm. apply sorting.StronglySorted_cons in Hm as [_ Hm].
  by apply (IH vs rest).
Qed.

Lemma ipost_all_after (Rs : list (list value_type)) ws pre :
  kmono (pre ++ ipost Rs ws) ->
  Forall (fun x => before x = false) ws ->
  Forall (fun x => before x = false) (ipost Rs ws).
Proof using Type.
  intros Hm Hw. destruct Rs as [|r Rs]; [constructor|].
  destruct ws as [|v ws]; [constructor|]. cbn [ipost] in *.
  apply Forall_cons in Hw as [Hv _]. constructor; [done|].
  by apply (kmono_after pre v).
Qed.

(** What the descent needs of the search of a node: on a node whose
    skipped values come first it returns the number of skipped values. *)
Definition search_ok : Prop :=
  forall m par pos rm sz t,
    rep_at m par pos rm sz t ->
    zlen (avals t) <= acap t -> zlen (avals t) <= kNodeValues -> kmono (avals t) ->
    let i := search (nd m (addr t)) in
    0 <= i <= zlen (avals t) /\
    Forall (fun x => before x = true) (ztake i (avals t)) /\
    Forall (fun x => before x = false) (zdrop i (avals t)).

(** The loop the three descents share. *)
Fixpoint descend (fuel : nat) (a : nat) (m : memory) : iterator :=
  let position := search (nd m a) in
  match fuel with
  | O => mk_iterator a position
  | S fuel' =>
      if leaf (nd m a) then mk_iterator a position
      else descend fuel' (child (nd m a) position) m
  end.

Hypothesis Hsearch : search_ok.

(** The descent ends at the position of a leaf that has the skipped
    values before it and the others after it. *)
Lemma descent fuel : forall (t : btree) c sub h rm sz,
  tree_rep t (plug c sub) rm sz -> ctx_wf 1 c h -> wf 1 h sub -> (h < fuel)%nat ->
  kmono (inorder sub) ->
  Forall (fun x => before x = true) (ctx_before c) ->
  Forall (fun x => before x = false) (ctx_after c) ->
  exists c' lf ip,
    descend fuel (addr sub) (heap t) = mk_iterator (addr lf) ip /\
    plug c' lf = plug c sub /\ is_leaf lf = true /\ ctx_wf 1 c' 0 /\ wf 1 0 lf /\
    0 <= ip <= zlen (avals lf) /\
    Forall (fun x => before x = true) (ctx_before c' ++ ztake ip (avals lf)) /\
    Forall (fun x => before x = false) (zdrop ip (avals lf) ++ ctx_after c').
Proof using Hsearch.
  induction fuel as [|fuel IH]; intros t c sub h rm sz Hrep Hcw Hsub Hfuel Hm Hb Ha;
    [lia|].
  pose proof (tree_rep_sub t c sub rm sz Hrep) as Hs.
  destruct (rep_at_nd _ _ _ _ _ _ Hs) as (Hleaf & _).
  pose proof (wf_node_ok _ _ _ Hsub) as (Hcap & Hlen & _).
  cbn [descend]. rewrite Hleaf.
  destruct sub as [a mc vs|a vs cs]; cbn [is_leaf addr].
  - (* a leaf *)
    destruct (Hsearch (heap t) _ _ _ _ (ALeaf a mc vs) Hs) as (Hi & Hbi & Hai);
      [cbn [avals acap] in *; lia|cbn [avals acap] in *; lia|exact Hm|].
    cbn [addr avals] in Hi, Hbi, Hai.
    pose proof Hsub as (Hh & _). subst h.
    exists c, (ALeaf a mc vs), (search (nd (heap t) a)).
    split; [done|]. split; [done|]. split; [done|]. split; [done|]. split; [done|].
    split; [done|]. cbn [avals]. split; apply Forall_app; done.
  - (* an internal node *)
    apply wf_node in Hsub as Hsub'. destruct Hsub' as (Hvs & Hcs & h' & -> & Hkids).
    rewrite inorder_node in Hm.
    assert (kmono vs) as Hmv.
    { apply (kmono_vals (inorder <$> cs)); [done|]. rewrite length_fmap.
      unfold zlen in Hcs. lia. }
    destruct (Hsearch (heap t) _ _ _ _ (ANode a vs cs) Hs) as (Hi & Hbi & Hai);
      [cbn [avals acap] in *; lia|cbn [avals acap] in *; lia|exact Hmv|].
    cbn [addr avals] in Hi, Hbi, Hai.
    set (i := search (nd (heap t) a)) in *.
    destruct (zget_is_Some cs i) as [ci Hci]; [lia|].
    pose proof (rep_at_child _ _ _ _ _ (ANode a vs cs) i ci Hs Hci ltac:(lia)) as Hch.
    cbn [addr] in Hch. rewrite Hch.
    pose proof (ztake_zdrop_mid cs i ci Hci) as Hcut.
    set (Ls := ztake i cs) in *. set (Rs := zdrop (i + 1) cs) in *.
    assert (zlen Ls = i) as HLs by (unfold Ls; apply zlen_take; lia).
    assert (zlen Rs = zlen vs - i) as HRs by (unfold Rs; rewrite zlen_drop by lia; lia).
    assert (zlen Ls + zlen Rs = zlen vs) as Hlen' by lia.
    rewrite Hcut in Hrep, Hkids, Hm.
    apply Forall_app in Hkids as [HL HR]. apply Forall_cons in HR as [Hwci HR].
    rewrite fmap_app, fmap_cons, inter_mid in Hm
      by (rewrite !length_fmap; unfold zlen in Hlen'; lia).
    rewrite length_fmap in Hm.
    assert (length Ls = Z.to_nat i) as HlenLs by (unfold zlen in HLs; lia).
    destruct (IH t (CNode a vs Ls Rs c) ci h' rm sz Hrep)
      as (c' & lf & ip & Heq & Hplug & Hlf & Hcw' & Hwf' & Hip & Hbe & Haf).
    + split; [lia|]. split; [done|]. split; [done|]. split; [done|done].
    + done.
    + lia.
    + apply kmono_app_r in Hm. by apply kmono_app_l in Hm.
    + cbn [ctx_before]. apply Forall_app. split; [done|].
      apply (ipre_all_before (inorder <$> Ls) vs _ Hm).
      by rewrite length_fmap, HlenLs.
    + cbn [ctx_after]. apply Forall_app. split; [|done].
      rewrite app_assoc in Hm.
      apply (ipost_all_after (inorder <$> Rs) _ _ Hm).
      by rewrite HlenLs.
    + exists c', lf, ip. split; [exact Heq|]. split; [|done].
      rewrite Hplug. cbn [plug]. by rewrite <- Hcut.
Qed.

End Descent.

(** ** The searches with a plain comparator *)

Section NodeSearch.
Context `{P : Params}.
Variable before : value_type -> bool.
Variable cmp : key_type -> key_type -> bool.
Variable k : key_type.
Hypothesis Hcmp : forall x, cmp (params_key x) k = before x.

Lemma node_first_not_before m par pos rm sz t i :
  rep_at m par pos rm sz t -> zlen (avals t) <= acap t -> kmono before (avals t) ->
  first_not_before (nd m (addr t)) k cmp 0 (zlen (avals t)) i ->
  0 <= i <= zlen (avals t) /\
  Forall (fun x => before x = true) (ztake i (avals t)) /\
  Forall (fun x => before x = false) (zdrop i (avals t)).
Proof using Hcmp.
  intros Hrep Hcap Hm (Hi & Hb & Ha). pose proof (zlen_nonneg (avals t)) as H0.
  set (n := nd m (addr t)) in *.
  assert (forall j x, zget (avals t) j = Some x -> cmp (key n j) k = before x) as Hkey.
  { intros j x Hj. apply zget_Some_lt in Hj as Hlt.
    unfold n. rewrite (rep_at_key _ _ _ _ _ _ j x Hrep Hj) by lia. apply Hcmp. }
  split; [done|]. split.
  - apply Forall_zget. intros j x. rewrite zget_take.
    destruct (Z.ltb_spec j i); [|done]. intros Hj.
    apply zget_Some_lt in Hj as Hlt. rewrite <- (Hkey _ _ Hj). apply Hb. lia.
  - destruct (Z.eq_dec i (zlen (avals t))) as [Heq|Hne].
    { unfold zdrop. rewrite drop_ge by (unfold zlen in *; lia). constructor. }
    destruct (zget_is_Some (avals t) i) as [x Hx]; [lia|].
    rewrite (ztake_zdrop_mid _ _ _ Hx) in Hm.
    assert (before x = false) as Hxf by (rewrite <- (Hkey _ _ Hx); apply Ha; lia).
    assert (zdrop i (avals t) = x :: zdrop (i + 1) (avals t)) as ->.
    { rewrite (ztake_zdrop_mid _ _ _ Hx) at 1. rewrite zdrop_app_r by (rewrite zlen_take; lia).
      rewrite zlen_take by lia. rewrite Z.sub_diag. apply zdrop_0. }
    constructor; [done|].
    exact (kmono_after before (ztake i (avals t)) x (zdrop (i + 1) (avals t)) Hm Hxf).
Qed.

Lemma node_partitioned m par pos rm sz t :
  rep_at m par pos rm sz t -> zlen (avals t) <= acap t -> kmono before (avals t) ->
  partitioned (nd m (addr t)) k cmp 0 (zlen (avals t)).
Proof using Hcmp.
  intros Hrep Hcap Hm a b Ha Hab Hb.
  destruct (zget_is_Some (avals t) a) as [x Hx]; [lia|].
  destruct (zget_is_Some (avals t) b) as [y Hy]; [lia|].
  rewrite (rep_at_key _ _ _ _ _ _ a x Hrep Hx) by lia.
  rewrite (rep_at_key _ _ _ _ _ _ b y Hrep Hy) by lia.
  rewrite !Hcmp. by apply (kmono_zget before (avals t) a b).
Qed.

(** The linear and the binary search of a whole node. *)
Lemma plain_search_ok (linear : bool) :
  search_ok before
    (fun n => if linear then linear_search_plain_compare n k 0 (count n) cmp
              else binary_search_plain_compare n k 0 (count n) cmp).
Proof using Hcmp.
  intros m par pos rm sz t Hrep Hcap _ Hm. cbv zeta.
  pose proof (zlen_nonneg (avals t)) as H0.
  destruct (rep_at_nd _ _ _ _ _ _ Hrep) as (_ & Hc & _). rewrite Hc.
  apply (node_first_not_before m par pos rm sz t _ Hrep Hcap Hm).
  destruct linear.
  - apply linear_search_plain_compare_loop_post; lia.
  - apply binary_search_plain_compare_loop_post; [lia|lia|].
    by apply (node_partitioned m par pos rm sz t).
Qed.

End NodeSearch.

(** ** The three descents *)

Section Bounds.
Context `{P : Params}.
Variables (comp : key_compare) (k : key_type).
Hypothesis Hplain : is_key_compare_to = false.

(** The values whose key compares before [k], and those after whose key
    [k] does not compare. *)
Definition before_k (x : value_type) : bool := plain_compare comp (params_key x) k.

Lemma lower_bound_ok : search_ok before_k (fun n => lower_bound n k comp).
Proof using Hplain.
  unfold lower_bound. rewrite Hplain.
  unfold btree_linear_search_plain_compare_lower_bound,
    btree_binary_search_plain_compare_lower_bound.
  apply (plain_search_ok before_k (btree_compare_keys comp) k).
  intros x. unfold btree_compare_keys, before_k. by rewrite Hplain.
Qed.




Lemma locate_loop_descend fuel : forall a (t : btree),
  key_comp t = comp ->
  internal_locate_plain_compare_loop fuel k a t =
    descend (fun n => lower_bound n k comp) fuel a (heap t).
Proof using Type.
  induction fuel as [|fuel IH]; intros a t Hk; cbn [internal_locate_plain_compare_loop descend];
    rewrite Hk; [done|].
  destruct (leaf (nd (heap t) a)); [done|]. by apply IH.
Qed.



End Bounds.


(** * The next value: internal_last *)

Section InternalLast.
Context `{P : Params}.

(** The leaves of a represented tree are leaf cells. *)
Lemma rep_at_leaves m t : forall par pos rm sz,
  rep_at m par pos rm sz t -> forall a, a ∈ leaves t -> leaf (nd m a) = true.
Proof.
  induction t as [a0 mc vs|a0 vs cs IH] using atree_ind'; intros par pos rm sz Hrep a Ha.
  - cbn [leaves] in Ha. apply list_elem_of_singleton in Ha as ->.
    by destruct (rep_at_nd _ _ _ _ _ _ Hrep) as (Hl & _).
  - rewrite leaves_node in Ha. apply elem_of_concat in Ha as (l & Ha & Hl).
    apply list_elem_of_fmap in Hl as (c & -> & Hc).
    apply rep_at_node in Hrep as [_ Hkids].
    destruct (elem_of_zget cs c Hc) as [q Hq].
    rewrite Forall_forall in IH. by apply (IH c Hc a0 q 0%nat 0 (Hkids q c Hq)).
Qed.

Lemma first_leaf_is_leaf (t : btree) T rm sz :
  tree_rep t T rm sz -> leaves T <> [] -> leaf (nd (heap t) (first_leaf T)) = true.
Proof.
  intros Hrep Hne. apply (rep_at_leaves _ T _ _ _ _ (tr_rep _ _ _ _ Hrep)).
  unfold first_leaf. destruct (leaves T); [done|]. apply list_elem_of_here.
Qed.

Lemma internal_last_loop_null fuel p m :
  internal_last_loop fuel (mk_iterator 0%nat p) m = mk_iterator 0%nat p.
Proof. by destruct fuel. Qed.

Lemma internal_last_loop_stays fuel it m :
  pos it <> count (nd m (node it)) -> internal_last_loop fuel it m = it.
Proof.
  intros Hne. destruct fuel; [done|]. cbn [internal_last_loop].
  destruct (Z.eqb_spec (pos it) (count (nd m (node it)))); [done|].
  by rewrite andb_false_r.
Qed.

(** From the end of a node the loop climbs to the first ancestor that
    has a value after the node. *)
Lemma internal_last_climb (t : btree) rm sz fuel : forall c sub h,
  tree_rep t (plug c sub) rm sz -> leaves (plug c sub) <> [] ->
  ctx_wf 1 c h -> (depth c < fuel)%nat ->
  let it := internal_last_loop fuel (mk_iterator (addr sub) (zlen (avals sub))) (heap t) in
  match ctx_after c with
  | [] => node it = 0%nat
  | y :: _ => node it <> 0%nat /\ slot (nd (heap t) (node it)) (pos it) = Some y
  end.
Proof.
  induction fuel as [|fuel IH]; intros c sub h Hrep Hne Hcw Hfuel; [lia|].
  pose proof (tree_rep_sub t c sub rm sz Hrep) as Hs.
  destruct (rep_at_nd _ _ _ _ _ _ Hs) as (_ & Hc & _ & Hp & Hq & _).
  assert ((addr sub =? 0)%nat = false) as Hnz.
  { apply Nat.eqb_neq.
    assert (0 < addr sub < next_addr (heap t))%nat; [|lia].
    apply (tr_bound _ _ _ _ Hrep). apply elem_of_addrs_plug. left. apply addr_in_addrs. }
  cbn [internal_last_loop node pos]. rewrite Hnz, Hc, Z.eqb_refl. cbn [negb andb].
  rewrite Hp, Hq.
  destruct c as [|p pvs Ls Rs c0]; cbn [hole_par hole_pos ctx_after plug] in *.
  - rewrite (first_leaf_is_leaf t sub rm sz Hrep Hne).
    by rewrite internal_last_loop_null.
  - destruct Hcw as (Hk & Hlen & HL & HR & Hc0).
    pose proof (tree_rep_sub t c0 _ rm sz Hrep) as Hs0.
    destruct (rep_at_nd _ _ _ _ _ _ Hs0) as (Hl0 & Hc0' & _).
    cbn [addr avals is_leaf] in Hl0, Hc0'. rewrite Hl0.
    pose proof (zlen_nonneg Ls). pose proof (zlen_nonneg Rs).
    destruct Rs as [|r Rs].
    + change (zlen (@nil atree)) with 0 in Hlen.
      cbn [fmap list_fmap ipost app].
      replace (zlen Ls) with (zlen (avals (ANode p pvs (Ls ++ [sub])))) by (cbn [avals]; lia).
      apply (IH c0 (ANode p pvs (Ls ++ [sub])) (S h)); [done|done|done|].
      cbn [depth] in Hfuel. lia.
    + rewrite zlen_cons in Hlen. pose proof (zlen_nonneg Rs).
      rewrite internal_last_loop_stays by (cbn [node pos]; lia).
      cbn [node pos].
      destruct (zget_is_Some pvs (zlen Ls)) as [y Hy]; [lia|].
      assert (drop (length Ls) pvs = y :: zdrop (zlen Ls + 1) pvs) as ->.
      { rewrite (ztake_zdrop_mid pvs _ _ Hy) at 1.
        rewrite drop_app_length'; [done|].
        pose proof (zlen_take (zlen Ls) pvs ltac:(lia)) as Ht. unfold zlen in *. lia. }
      cbn [fmap list_fmap ipost app]. split.
      * assert (0 < p < next_addr (heap t))%nat; [|lia].
        apply (tr_bound _ _ _ _ Hrep). apply elem_of_addrs_plug. left.
        apply (addr_in_addrs (ANode p pvs (Ls ++ sub :: r :: Rs))).
      * apply (rep_at_slot _ _ _ _ _ (ANode p pvs (Ls ++ sub :: r :: Rs)) _ _ Hs0 Hy).
        cbn [acap]. lia.
Qed.

(** [internal_last] at a position of a leaf: the position of the next
    value in order, or NULL when there is none. *)
Lemma internal_last_next (t : btree) c lf rm sz ip :
  tree_rep t (plug c lf) rm sz -> is_leaf lf = true -> ctx_wf 1 c 0 ->
  zlen (avals lf) <= acap lf -> 0 <= ip <= zlen (avals lf) ->
  let it := internal_last (mk_iterator (addr lf) ip) (heap t) in
  match zdrop ip (avals lf) ++ ctx_after c with
  | [] => node it = 0%nat
  | y :: _ => node it <> 0%nat /\ slot (nd (heap t) (node it)) (pos it) = Some y
  end /\
  (ip < zlen (avals lf) -> it = mk_iterator (addr lf) ip).
Proof.
  intros Hrep Hlf Hcw Hcap Hip it.
  pose proof (tree_rep_sub t c lf rm sz Hrep) as Hs.
  destruct (rep_at_nd _ _ _ _ _ _ Hs) as (_ & Hc & _).
  destruct (Z.eq_dec ip (zlen (avals lf))) as [->|Hne].
  - split; [|lia]. unfold zdrop. rewrite drop_ge by (unfold zlen; lia). cbn [app].
    apply (internal_last_climb t rm sz _ c lf 0%nat Hrep); [|done|by eapply depth_fuel].
    rewrite leaves_plug. destruct lf; [|done]. cbn [leaves].
    by destruct (ctx_leaves_before c).
  - assert (it = mk_iterator (addr lf) ip) as Hit.
    { apply internal_last_loop_stays. cbn [node pos]. lia. }
    split; [|done]. rewrite Hit. cbn [node pos].
    destruct (zget_is_Some (avals lf) ip) as [y Hy]; [lia|].
    assert (zdrop ip (avals lf) = y :: zdrop (ip + 1) (avals lf)) as ->.
    { rewrite (ztake_zdrop_mid _ _ _ Hy) at 1. rewrite zdrop_app_r by (rewrite zlen_take; lia).
      rewrite zlen_take by lia. rewrite Z.sub_diag. apply zdrop_0. }
    cbn [app]. split.
    + assert (0 < addr lf < next_addr (heap t))%nat; [|lia].
      apply (tr_bound _ _ _ _ Hrep). apply elem_of_addrs_plug. left. apply addr_in_addrs.
    + apply (rep_at_slot _ _ _ _ _ lf _ _ Hs Hy). lia.
Qed.

End InternalLast.


(** * Insertion into a well-formed tree *)

Section InsertAny.
Context `{P : Params}.
Hypothesis Hstatic : static_assert_field.

(** The invariant of a non-empty tree: the store represents [T], the
    root fields hold the last leaf and the number of values, a leaf root
    has between one value and its capacity, every other node between one
    and [kNodeValues] values, and all leaves are at the same depth. *)
Definition tree_inv (t : btree) (T : atree) : Prop :=
  tree_rep t T (last_leaf T) (zlen (inorder T)) /\ wf_root T.

(** A full leaf root of small capacity moves to a larger leaf. *)
Lemma small_root_grow (t : btree) a mc vs rm sz i v :
  tree_rep t (ALeaf a mc vs) rm sz ->
  zlen vs = mc -> 1 <= mc < kNodeValues -> 0 <= i <= mc ->
  let n := next_addr (heap t) in
  let mc' := Z.min kNodeValues (2 * mc) in
  exists t',
    internal_insert (mk_iterator a i) v t = (mk_iterator n i, t') /\
    (forall rm' sz', tree_rep t' (ALeaf n mc' (insert_at i v vs)) rm' sz') /\
    key_comp t' = key_comp t.
Proof using Hstatic.
  intros Hrep Hlen Hmc Hi n mc'.
  pose proof Hstatic as Hst. unfold static_assert_field in Hst.
  assert (Hmc' : mc < mc' <= kNodeValues) by (unfold mc'; lia).
  pose proof (tr_root _ _ _ _ Hrep) as Hroot. cbn [addr] in Hroot.
  pose proof (tr_rep _ _ _ _ Hrep) as Hcell. apply rep_at_leaf in Hcell.
  change (first_leaf (ALeaf a mc vs)) with a in Hcell.
  assert (0 < a < n)%nat as Ha by (apply (tr_bound _ _ _ _ Hrep); apply list_elem_of_here).
  assert (a <> n) as Hfresh by lia.
  pose proof (nd_lookup _ _ _ Hcell) as Hnd.
  unfold internal_insert. cbn [node pos]. rewrite Hnd.
  change (leaf (leaf_cell a 0 mc vs)) with true. cbn [negb node pos]. rewrite !Hnd.
  change (count (leaf_cell a 0 mc vs)) with (zlen vs).
  change (max_count (leaf_cell a 0 mc vs)) with mc.
  rewrite Hlen, Z.eqb_refl.
  destruct (Z.ltb_spec mc kNodeValues) as [_|]; [|lia].
  rewrite new_leaf_root_node_spec by (fold mc'; lia). fold n mc'.
  cbn [node pos heap with_heap on_heap root with_root delete_leaf_node key_comp].
  rewrite Hroot.
  set (m1 := set_cell n (leaf_cell n 0 mc' []) (bump (heap t))).
  assert (m1 = set2 n a (bump (heap t)) (leaf_cell n 0 mc' []) (leaf_cell a 0 mc vs)) as ->.
  { unfold set2, m1. symmetry. apply set_cell_id.
    rewrite lookup_set_cell_ne by done. by rewrite cells_bump. }
  unfold on_heap, with_root, delete_leaf_node, on_heap, with_heap.
  cbn [heap key_comp root].
  rewrite swap_leaf by (try done; lia).
  rewrite destroy_empty by (by rewrite nd_set2_x).
  set (m2 := deallocate a _).
  assert (cells m2 !! n = Some (leaf_cell n 0 mc' vs)) as Hn2.
  { unfold m2. rewrite lookup_deallocate. destruct (decide (n = a)); [done|].
    by apply lookup_set2_a. }
  rewrite (insert_value_leaf n m2 n 0 mc' vs i v m2) by (try done; lia).
  eexists. split; [reflexivity|]. split; [|reflexivity].
  intros rm' sz'. split.
  - reflexivity.
  - apply rep_at_leaf. cbn [heap]. apply lookup_set_cell_eq.
  - apply NoDup_singleton.
  - intros y Hy. cbn [addrs] in Hy. apply list_elem_of_singleton in Hy as ->.
    cbn [heap]. rewrite next_addr_set_cell. unfold m2, deallocate. cbn [next_addr].
    rewrite next_addr_set2, next_addr_bump. fold n. lia.
Qed.

End InsertAny.


(** * Insertion and lookup in a sorted tree *)

Section InsertAt.
Context `{P : Params}.
Hypothesis Hstatic : static_assert_field.

Lemma wf_height_addrs t : forall k h, wf k h t -> (h < length (addrs t))%nat.
Proof using Type.
  induction t as [a mc vs|a vs cs IH] using atree_ind'; intros k h Hwf.
  - destruct Hwf as (-> & _). cbn [addrs length]. lia.
  - apply wf_node in Hwf as (_ & Hlen & h' & -> & Hk).
    destruct cs as [|c cs]; [rewrite zlen_nil in Hlen; pose proof (zlen_nonneg vs); lia|].
    apply Forall_cons in IH as [IHc _]. apply Forall_cons in Hk as [Hc _].
    rewrite addrs_node. cbn [fmap list_fmap concat length]. rewrite length_app.
    specialize (IHc _ _ Hc). lia.
Qed.

Lemma height_fuel (t : btree) T rm sz k h :
  tree_rep t T rm sz -> wf k h T -> (h < fuel_of (heap t))%nat.
Proof using Type.
  intros Hrep Hwf. pose proof (wf_height_addrs T k h Hwf).
  pose proof (bounded_NoDup_length (addrs T) (next_addr (heap t))
                (tr_nodup _ _ _ _ Hrep) (tr_bound _ _ _ _ Hrep)).
  unfold fuel_of. lia.
Qed.

(** [internal_insert] at a position of a leaf of a well-formed tree, of
    whatever capacity the leaf is. *)
Lemma internal_insert_any (t : btree) c lf ip v :
  tree_inv t (plug c lf) -> is_leaf lf = true -> 0 <= ip <= zlen (avals lf) ->
  exists T' it' t',
    internal_insert (mk_iterator (addr lf) ip) v t = (it', t') /\
    tree_inv t' T' /\
    inorder (plug c lf) =
      (ctx_before c ++ ztake ip (avals lf)) ++ (zdrop ip (avals lf) ++ ctx_after c) /\
    inorder T' =
      (ctx_before c ++ ztake ip (avals lf)) ++ v :: (zdrop ip (avals lf) ++ ctx_after c) /\
    node it' <> 0%nat /\ slot (nd (heap t') (node it')) (pos it') = Some v /\
    btree_size t' = btree_size t + 1 /\ key_comp t' = key_comp t.
Proof using Hstatic.
  intros [Hrep Hroot] Hlf Hip. pose proof kNodeValues_pos as HK.
  assert (ctx_wf 1 c 0 -> wf 0 0 lf ->
    exists T' it' t',
      internal_insert (mk_iterator (addr lf) ip) v t = (it', t') /\
      tree_inv t' T' /\
      inorder (plug c lf) =
        (ctx_before c ++ ztake ip (avals lf)) ++ (zdrop ip (avals lf) ++ ctx_after c) /\
      inorder T' =
        (ctx_before c ++ ztake ip (avals lf)) ++ v :: (zdrop ip (avals lf) ++ ctx_after c) /\
      node it' <> 0%nat /\ slot (nd (heap t') (node it')) (pos it') = Some v /\
      btree_size t' = btree_size t + 1 /\ key_comp t' = key_comp t) as Hmain.
  { intros Hcw Hwf.
    destruct (internal_insert_leaf Hstatic t c lf 0%nat ip v Hrep Hcw Hwf Hlf Hip)
      as (c' & sub' & ip' & t' & Heq & Hrep' & HT & HT' & Hl' & Hget & _ & Hcw' & Hwf' &
          Hsz & Hk).
    exists (plug c' sub'), (mk_iterator (addr sub') ip'), t'.
    destruct sub' as [a' mc' vs'|]; [|discriminate]. cbn [addr avals] in *.
    pose proof Hwf' as (_ & Hmc' & Hvs'). subst mc'.
    split; [exact Heq|]. split.
    { split; [exact Hrep'|]. destruct c' as [|pa pvs Ls Rs c'].
      - cbn [plug wf_root]. lia.
      - by apply (wf_root_plug _ 0%nat). }
    split; [exact HT|]. split; [exact HT'|]. cbn [node pos].
    pose proof (tree_rep_sub t' c' _ _ _ Hrep') as Hs.
    split.
    { assert (0 < a' < next_addr (heap t'))%nat; [|lia].
      apply (tr_bound _ _ _ _ Hrep'). apply elem_of_addrs_plug. left. apply list_elem_of_here. }
    split; [|done].
    apply (rep_at_slot _ _ _ _ _ (ALeaf a' kNodeValues vs') _ _ Hs Hget).
    apply zget_Some_lt in Hget. cbn [acap]. lia. }
  destruct c as [|pa pvs Ls Rs c].
  - destruct lf as [a mc vs|]; [|discriminate]. cbn [plug addr avals] in *.
    destruct Hroot as (Hvs & Hmc).
    destruct (Z.eq_dec mc kNodeValues) as [->|Hne].
    { apply Hmain; [exact I|]. apply wf_leaf. lia. }
    destruct (Z.eq_dec (zlen vs) mc) as [Hfull|Hroom].
    + (* a full root of small capacity *)
      destruct (small_root_grow Hstatic t a mc vs _ _ ip v Hrep Hfull ltac:(lia) ltac:(lia))
        as (t' & Heq & Hrep' & Hk).
      set (n := next_addr (heap t)) in *. set (mc' := Z.min kNodeValues (2 * mc)) in *.
      exists (ALeaf n mc' (insert_at ip v vs)), (mk_iterator n ip), t'.
      assert (zget (insert_at ip v vs) ip = Some v) as Hget.
      { rewrite zget_insert_at by lia. rewrite Z.ltb_irrefl. by rewrite Z.eqb_refl. }
      split; [exact Heq|]. split.
      { split; [apply Hrep'|]. cbn [wf_root]. rewrite zlen_insert_at. unfold mc'. lia. }
      cbn [ctx_before ctx_after inorder app]. rewrite !app_nil_r.
      split; [unfold ztake, zdrop; by rewrite take_drop|].
      split; [reflexivity|]. cbn [node pos].
      split.
      { assert (0 < a < n)%nat; [|lia].
        apply (tr_bound _ _ _ _ Hrep). apply list_elem_of_here. }
      split.
      { apply (rep_at_slot _ _ _ _ _ (ALeaf n mc' (insert_at ip v vs)) _ _
                 (tr_rep _ _ _ _ (Hrep' 0%nat 0)) Hget).
        cbn [acap]. unfold mc'. lia. }
      split; [|exact Hk].
      rewrite (btree_size_rep t' _ _ _ (Hrep' 0%nat 0)), (btree_size_rep t _ _ _ Hrep).
      cbn [is_leaf avals]. by rewrite zlen_insert_at.
    + (* a root of small capacity with room *)
      destruct (rep_at_nd _ _ _ _ _ _ (tr_rep _ _ _ _ Hrep)) as (Rl & Rc & Rm & _).
      cbn [addr avals acap is_leaf] in *.
      pose proof (btree_size_inorder t _ Hrep) as Hsize.
      unfold internal_insert. cbn [node pos]. rewrite Rl. cbn [negb node pos].
      rewrite Rc, Rm.
      destruct (Z.eqb_spec (zlen vs) mc) as [|_]; [done|].
      destruct (finish_insert Hstatic t CTop a mc vs ip v Hrep I ltac:(lia) ltac:(lia) Hip)
        as (Hrep3 & HT' & HT & Hn3 & Hk3 & _).
      cbn [plug] in *.
      assert (zget (insert_at ip v vs) ip = Some v) as Hget.
      { rewrite zget_insert_at by lia. rewrite Z.ltb_irrefl. by rewrite Z.eqb_refl. }
      exists (ALeaf a mc (insert_at ip v vs)), (mk_iterator a ip),
        (on_heap (insert_value a ip v)
           (if negb (leaf (nd (heap t) (root t))) then add_size 1 t else t)).
      split.
      { by destruct (negb (leaf (nd (heap t) (root t)))). }
      split.
      { split; [exact Hrep3|]. cbn [wf_root]. rewrite zlen_insert_at. lia. }
      split; [exact HT|]. split; [exact HT'|]. cbn [node pos].
      split.
      { assert (0 < a < next_addr (heap t))%nat; [|lia].
        apply (tr_bound _ _ _ _ Hrep). apply list_elem_of_here. }
      split.
      { apply (rep_at_slot _ _ _ _ _ (ALeaf a mc (insert_at ip v vs)) _ _
                 (tr_rep _ _ _ _ Hrep3) Hget).
        cbn [acap]. lia. }
      split; [|exact Hk3].
      rewrite (btree_size_inorder _ _ Hrep3), Hsize. cbn [inorder].
      by rewrite zlen_insert_at.
  - destruct (wf_plug_inv (CNode pa pvs Ls Rs c) lf ltac:(done) Hroot) as (h & Hcw & Hwf).
    destruct lf as [a mc vs|]; [|discriminate].
    pose proof Hwf as (Hh & _). subst h.
    apply Hmain; [exact Hcw|]. apply (wf_weaken 1); [exact Hwf|lia].
Qed.

End InsertAt.


(** * Sorted trees under a plain comparator *)

Section SortedTree.
Context `{P : Params}.

(** The order of the values by their keys, the comparators that are
    transitive, and the values whose key is equivalent to [k]: neither
    compares before the other. *)
Definition key_lt (comp : key_compare) (x y : value_type) : Prop :=
  plain_compare comp (params_key x) (params_key y) = true.
Definition transitive_comp (comp : key_compare) : Prop :=
  forall a b c, plain_compare comp a b = true -> plain_compare comp b c = true ->
    plain_compare comp a c = true.
Definition equivalent (comp : key_compare) (k : key_type) (y : value_type) : Prop :=
  plain_compare comp (params_key y) k = false /\ plain_compare comp k (params_key y) = false.

Lemma sorted_kmono comp k l :
  transitive_comp comp -> StronglySorted (key_lt comp) l -> kmono (before_k comp k) l.
Proof.
  intros Htr Hs. unfold kmono. induction Hs as [|x l Hs IH Hf]; constructor; [exact IH|].
  eapply Forall_impl; [exact Hf|]. intros y Hxy Hy. cbv beta in *.
  unfold before_k in *. exact (Htr _ _ _ Hxy Hy).
Qed.

(** The values after the first one that is not before [k] are after [k]. *)
Lemma sorted_after comp k y Y :
  transitive_comp comp -> StronglySorted (key_lt comp) (y :: Y) ->
  plain_compare comp k (params_key y) = true ->
  Forall (fun z => plain_compare comp k (params_key z) = true) (y :: Y).
Proof.
  intros Htr Hs Hy. apply sorting.StronglySorted_cons in Hs as [Hf _].
  constructor; [exact Hy|]. eapply Forall_impl; [exact Hf|].
  intros z Hz. exact (Htr _ _ _ Hy Hz).
Qed.

Section DescendLast.
Variable before : value_type -> bool.
Variable search : btree_node -> Z.
Hypothesis Hsearch : search_ok before search.

(** The leaf position a descent finds from the root, and what
    [internal_last] makes of it. *)
Lemma descend_last_pos (t : btree) T :
  tree_inv t T -> kmono before (inorder T) ->
  exists c lf ip,
    let it := descend search (fuel_of (heap t)) (root t) (heap t) in
    let last := internal_last it (heap t) in
    it = mk_iterator (addr lf) ip /\ plug c lf = T /\ is_leaf lf = true /\
    0 <= ip <= zlen (avals lf) /\
    Forall (fun x => before x = true) (ctx_before c ++ ztake ip (avals lf)) /\
    Forall (fun x => before x = false) (zdrop ip (avals lf) ++ ctx_after c) /\
    match zdrop ip (avals lf) ++ ctx_after c with
    | [] => node last = 0%nat
    | y :: _ => node last <> 0%nat /\ slot (nd (heap t) (node last)) (pos last) = Some y
    end.
Proof using Hsearch.
  intros [Hrep Hroot] Hm.
  assert (exists c lf ip,
    descend search (fuel_of (heap t)) (root t) (heap t) = mk_iterator (addr lf) ip /\
    plug c lf = T /\ is_leaf lf = true /\ ctx_wf 1 c 0 /\ zlen (avals lf) <= acap lf /\
    0 <= ip <= zlen (avals lf) /\
    Forall (fun x => before x = true) (ctx_before c ++ ztake ip (avals lf)) /\
    Forall (fun x => before x = false) (zdrop ip (avals lf) ++ ctx_after c))
    as (c & lf & ip & Heq & Hplug & Hlf & Hcw & Hcap & Hip & Hb & Ha).
  { rewrite (tr_root _ _ _ _ Hrep). destruct T as [a mc vs|a vs cs].
    - pose proof (tr_rep _ _ _ _ Hrep) as Hs.
      destruct (rep_at_nd _ _ _ _ _ _ Hs) as (Hleaf & _).
      destruct Hroot as (Hvs & Hmc).
      destruct (Hsearch (heap t) _ _ _ _ (ALeaf a mc vs) Hs)
        as (Hi & Hbi & Hai); [cbn [avals acap]; lia|cbn [avals acap]; lia|exact Hm|].
      cbn [addr avals is_leaf] in *.
      exists CTop, (ALeaf a mc vs), (search (nd (heap t) a)).
      unfold fuel_of. cbn [descend addr]. rewrite Hleaf.
      split; [done|]. split; [done|]. split; [done|]. split; [done|].
      cbn [avals acap ctx_before ctx_after app]. rewrite app_nil_r.
      split; [lia|]. split; [done|]. split; done.
    - destruct Hroot as [h Hwf].
      destruct (descent before search Hsearch (fuel_of (heap t)) t CTop (ANode a vs cs) h
                  _ _ Hrep I Hwf (height_fuel t _ _ _ _ _ Hrep Hwf) Hm)
        as (c' & lf & ip & Heq & Hplug & Hlf & Hcw' & Hwf' & Hip & Hbe & Haf);
        [constructor|constructor|].
      exists c', lf, ip. split; [exact Heq|]. split; [exact Hplug|]. split; [exact Hlf|].
      split; [exact Hcw'|]. split; [|done].
      pose proof (wf_node_ok _ _ _ Hwf') as (Hcap & Hlen & _). lia. }
  exists c, lf, ip. cbv zeta. rewrite Heq.
  split; [done|]. split; [done|]. split; [done|]. split; [done|]. split; [done|].
  split; [done|]. subst T.
  by destruct (internal_last_next t c lf _ _ ip Hrep Hlf Hcw Hcap Hip) as [Hl _].
Qed.

End DescendLast.

Section Locate.
Variables (comp : key_compare) (k : key_type).
Hypothesis Hplain : is_key_compare_to = false.

(** The leaf position [internal_locate] finds from the root, and what
    [internal_last] makes of it. *)
Lemma locate_last (t : btree) T :
  tree_inv t T -> key_comp t = comp -> kmono (before_k comp k) (inorder T) ->
  exists c lf ip,
    let it := internal_locate_plain_compare_loop (fuel_of (heap t)) k (root t) t in
    let last := internal_last it (heap t) in
    it = mk_iterator (addr lf) ip /\ plug c lf = T /\ is_leaf lf = true /\
    0 <= ip <= zlen (avals lf) /\
    Forall (fun x => before_k comp k x = true) (ctx_before c ++ ztake ip (avals lf)) /\
    Forall (fun x => before_k comp k x = false) (zdrop ip (avals lf) ++ ctx_after c) /\
    match zdrop ip (avals lf) ++ ctx_after c with
    | [] => node last = 0%nat
    | y :: _ => node last <> 0%nat /\ slot (nd (heap t) (node last)) (pos last) = Some y
    end.
Proof using Hplain.
  intros Hinv Hkc Hm. rewrite (locate_loop_descend comp k _ _ t Hkc).
  exact (descend_last_pos (before_k comp k) _ (lower_bound_ok comp k Hplain) t T Hinv Hm).
Qed.

End Locate.

Hypothesis Hstatic : static_assert_field.
Hypothesis Hplain : is_key_compare_to = false.

Lemma root_not_null (t : btree) T rm sz : tree_rep t T rm sz -> (root t =? 0)%nat = false.
Proof using Type.
  intros Hrep. apply Nat.eqb_neq. rewrite (tr_root _ _ _ _ Hrep).
  pose proof (tr_bound _ _ _ _ Hrep (addr T) (addr_in_addrs T)). lia.
Qed.

Lemma iter_key_slot it m y :
  slot (nd m (node it)) (pos it) = Some y -> iter_key it m = params_key y.
Proof using Type. intros H. unfold iter_key, key, value. by rewrite H. Qed.

(** [find_unique] with a plain comparator, on a tree that is not empty. *)
Lemma find_unique_plain (t : btree) k :
  (root t =? 0)%nat = false ->
  let last := internal_last
                (internal_locate_plain_compare_loop (fuel_of (heap t)) k (root t) t)
                (heap t) in
  find_unique k t =
    if negb (node last =? 0)%nat &&
       negb (plain_compare (key_comp t) k (iter_key last (heap t)))
    then last else btree_end t.
Proof using Hplain.
  intros Hroot last. unfold find_unique, internal_find_unique. cbn [node].
  rewrite Hroot. cbn [negb].
  unfold internal_locate. rewrite Hplain. unfold internal_locate_plain_compare.
  cbn [fst snd node]. change (0 =? kExactMatch) with false. cbv iota.
  change (0 =? 0) with true. cbv iota. fold last.
  unfold compare_keys, btree_compare_keys. rewrite Hplain. unfold internal_end.
  destruct (Nat.eqb_spec (node last) 0) as [Hnull|Hnn]; cbn [negb andb node]; [done|].
  destruct (plain_compare (key_comp t) k (iter_key last (heap t))); cbn [negb node]; [done|].
  by destruct (Nat.eqb_spec (node last) 0).
Qed.

Lemma inorder_at (t : btree) c lf ip :
  tree_inv t (plug c lf) -> is_leaf lf = true ->
  inorder (plug c lf) =
    (ctx_before c ++ ztake ip (avals lf)) ++ (zdrop ip (avals lf) ++ ctx_after c).
Proof using Type.
  intros [_ Hroot] Hlf.
  assert (ctx_lens c) as Hlens.
  { destruct c as [|pa pvs Ls Rs c]; [exact I|].
    destruct (wf_plug_inv (CNode pa pvs Ls Rs c) lf ltac:(done) Hroot) as (h & Hcw & _).
    by apply ctx_wf_lens in Hcw. }
  rewrite inorder_plug by done. destruct lf as [a mc vs|]; [|discriminate].
  cbn [inorder avals]. rewrite <- (app_assoc (ctx_before c)). f_equal.
  rewrite app_assoc. f_equal. unfold ztake, zdrop. by rewrite take_drop.
Qed.

(** The two outcomes of [insert_unique]. *)
Lemma insert_unique_spec (t : btree) T k v :
  tree_inv t T -> transitive_comp (key_comp t) ->
  StronglySorted (key_lt (key_comp t)) (inorder T) ->
  exists it b t',
    insert_unique k v t = ((it, b), t') /\
    if b then
      exists T' X Y, tree_inv t' T' /\ inorder T = X ++ Y /\ inorder T' = X ++ v :: Y /\
        Forall (fun x => plain_compare (key_comp t) (params_key x) k = true) X /\
        Forall (fun y => plain_compare (key_comp t) k (params_key y) = true) Y /\
        node it <> 0%nat /\ slot (nd (heap t') (node it)) (pos it) = Some v /\
        btree_size t' = btree_size t + 1 /\ key_comp t' = key_comp t
    else
      t' = t /\ it = find_unique k t /\
      exists y, y ∈ inorder T /\ equivalent (key_comp t) k y /\
        node it <> 0%nat /\ slot (nd (heap t) (node it)) (pos it) = Some y.
Proof using Hstatic Hplain.
  intros Hinv Htr Hsort. set (comp := key_comp t) in *.
  destruct (locate_last comp k Hplain t T Hinv eq_refl (sorted_kmono comp k _ Htr Hsort))
    as (c & lf & ip & Heq & Hplug & Hlf & Hip & Hb & Ha & Hlast).
  cbv zeta in Heq, Hlast. subst T.
  pose proof Hinv as [Hrep _].
  pose proof (find_unique_plain t k (root_not_null t _ _ _ Hrep)) as Hfind.
  cbv zeta in Hfind. fold comp in Hfind.
  unfold insert_unique, empty. rewrite (root_not_null t _ _ _ Hrep).
  unfold internal_locate. rewrite Hplain. unfold internal_locate_plain_compare.
  cbn [fst snd node]. change (0 =? kExactMatch) with false. cbv iota.
  change (0 =? 0) with true. cbn [andb].
  set (last := internal_last _ (heap t)) in *.
  pose proof (inorder_at t c lf ip Hinv Hlf) as HT.
  assert (forall it' t',
    internal_insert (internal_locate_plain_compare_loop (fuel_of (heap t)) k (root t) t) v t
      = (it', t') ->
    Forall (fun z => plain_compare comp k (params_key z) = true)
      (zdrop ip (avals lf) ++ ctx_after c) ->
    exists T' X Y, tree_inv t' T' /\ inorder (plug c lf) = X ++ Y /\
      inorder T' = X ++ v :: Y /\
      Forall (fun x => plain_compare comp (params_key x) k = true) X /\
      Forall (fun y => plain_compare comp k (params_key y) = true) Y /\
      node it' <> 0%nat /\ slot (nd (heap t') (node it')) (pos it') = Some v /\
      btree_size t' = btree_size t + 1 /\ key_comp t' = key_comp t) as Hins.
  { intros it' t' Hcall Haft. rewrite Heq in Hcall.
    destruct (internal_insert_any Hstatic t c lf ip v Hinv Hlf Hip)
      as (T' & it2 & t2 & Heq2 & Hinv2 & _ & HT' & Hn2 & Hs2 & Hsz2 & Hk2).
    rewrite Heq2 in Hcall. injection Hcall as -> ->.
    exists T', (ctx_before c ++ ztake ip (avals lf)), (zdrop ip (avals lf) ++ ctx_after c).
    split; [exact Hinv2|]. split; [exact HT|]. split; [exact HT'|].
    split; [exact Hb|]. split; [exact Haft|]. done. }
  destruct (Nat.eqb_spec (node last) 0) as [Hnull|Hnn]; cbn [negb andb].
  - (* nothing at or after the position *)
    destruct (internal_insert _ v t) as [it' t'] eqn:Hcall.
    exists it', true, t'. split; [reflexivity|].
    apply (Hins it' t' eq_refl).
    destruct (zdrop ip (avals lf) ++ ctx_after c); [constructor|]. by destruct Hlast.
  - destruct (zdrop ip (avals lf) ++ ctx_after c) as [|y Y] eqn:HY; [by destruct Hnn|].
    destruct Hlast as (_ & Hslot).
    unfold compare_keys, btree_compare_keys. rewrite Hplain.
    rewrite (iter_key_slot last (heap t) y Hslot) in *. fold comp.
    destruct (plain_compare comp k (params_key y)) eqn:Hky; cbn [negb].
    + destruct (internal_insert _ v t) as [it' t'] eqn:Hcall.
      exists it', true, t'. split; [reflexivity|].
      apply (Hins it' t' eq_refl).
      apply (sorted_after comp k y Y Htr); [|exact Hky].
      rewrite HT in Hsort. by apply sorting.StronglySorted_app_1_r in Hsort.
    + exists last, false, t. split; [reflexivity|]. split; [reflexivity|].
      split.
      { rewrite Hfind. by destruct (Nat.eqb_spec (node last) 0). }
      exists y. split.
      { rewrite HT. apply elem_of_app. right. apply list_elem_of_here. }
      split; [|done]. split; [|exact Hky].
      apply Forall_cons in Ha as [Hay _]. exact Hay.
Qed.

(** [internal_find_unique] with a plain comparator, from the root of a
    tree that is not empty. *)
Lemma internal_find_unique_plain (t : btree) k :
  (root t =? 0)%nat = false ->
  let last := internal_last
                (internal_locate_plain_compare_loop (fuel_of (heap t)) k (root t) t)
                (heap t) in
  internal_find_unique k (mk_iterator (root t) 0) t =
    if negb (node last =? 0)%nat &&
       negb (plain_compare (key_comp t) k (iter_key last (heap t)))
    then last else mk_iterator 0%nat 0.
Proof using Hplain.
  intros Hroot last. unfold internal_find_unique. cbn [node].
  rewrite Hroot. cbn [negb].
  unfold internal_locate. rewrite Hplain. unfold internal_locate_plain_compare.
  cbn [fst snd node]. change (0 =? kExactMatch) with false. cbv iota.
  change (0 =? 0) with true. cbv iota. fold last.
  unfold compare_keys, btree_compare_keys. by rewrite Hplain.
Qed.

(** The two outcomes of [internal_find_unique] from the root. *)
Lemma internal_find_unique_spec (t : btree) T k :
  tree_inv t T -> transitive_comp (key_comp t) ->
  StronglySorted (key_lt (key_comp t)) (inorder T) ->
  let it := internal_find_unique k (mk_iterator (root t) 0) t in
  (exists y, y ∈ inorder T /\ equivalent (key_comp t) k y /\
     node it <> 0%nat /\ slot (nd (heap t) (node it)) (pos it) = Some y) \/
  (it = mk_iterator 0%nat 0 /\
   Forall (fun y => ~ equivalent (key_comp t) k y) (inorder T)).
Proof using Hplain.
  intros Hinv Htr Hsort. set (comp := key_comp t) in *.
  destruct (locate_last comp k Hplain t T Hinv eq_refl (sorted_kmono comp k _ Htr Hsort))
    as (c & lf & ip & Heq & Hplug & Hlf & Hip & Hb & Ha & Hlast).
  cbv zeta in Heq, Hlast. subst T.
  pose proof Hinv as [Hrep Hroot].
  pose proof (inorder_at t c lf ip Hinv Hlf) as HT.
  rewrite (internal_find_unique_plain t k (root_not_null t _ _ _ Hrep)). fold comp.
  set (last := internal_last _ (heap t)) in *.
  assert (Forall (fun z => plain_compare comp k (params_key z) = true)
            (zdrop ip (avals lf) ++ ctx_after c) ->
          Forall (fun y => ~ equivalent comp k y) (inorder (plug c lf))) as Hnone.
  { intros Haft. rewrite HT. apply Forall_app. split.
    - eapply Forall_impl; [exact Hb|]. intros x Hx [Hx' _]. unfold before_k in Hx.
      congruence.
    - eapply Forall_impl; [exact Haft|]. intros x Hx [_ Hx']. cbv beta in Hx. congruence. }
  destruct (Nat.eqb_spec (node last) 0) as [Hnull|Hnn]; cbn [negb andb node].
  - right. split; [reflexivity|]. apply Hnone.
    destruct (zdrop ip (avals lf) ++ ctx_after c); [constructor|]. by destruct Hlast.
  - destruct (zdrop ip (avals lf) ++ ctx_after c) as [|y Y] eqn:HY; [by destruct Hnn|].
    destruct Hlast as (_ & Hslot).
    rewrite (iter_key_slot last (heap t) y Hslot).
    destruct (plain_compare comp k (params_key y)) eqn:Hky; cbn [negb node].
    + right. split; [reflexivity|]. apply Hnone.
      apply (sorted_after comp k y Y Htr); [|exact Hky].
      rewrite HT in Hsort. by apply sorting.StronglySorted_app_1_r in Hsort.
    + left. exists y. split.
      { rewrite HT. apply elem_of_app. right. apply list_elem_of_here. }
      split; [|done]. split; [|exact Hky].
      apply Forall_cons in Ha as [Hay _]. exact Hay.
Qed.

(** The two outcomes of [find_unique]. *)
Lemma find_unique_spec (t : btree) T k :
  tree_inv t T -> transitive_comp (key_comp t) ->
  StronglySorted (key_lt (key_comp t)) (inorder T) ->
  let it := find_unique k t in
  (exists y, y ∈ inorder T /\ equivalent (key_comp t) k y /\
     node it <> 0%nat /\ slot (nd (heap t) (node it)) (pos it) = Some y) \/
  (it = btree_end t /\ Forall (fun y => ~ equivalent (key_comp t) k y) (inorder T)).
Proof using Hplain.
  intros Hinv Htr Hsort. cbv zeta. unfold find_unique, internal_end.
  destruct (internal_find_unique_spec t T k Hinv Htr Hsort)
    as [(y & Hy & He & Hn & Hs)|[-> Hnone]].
  - left. exists y. destruct (Nat.eqb_spec (node (internal_find_unique k
                                  (mk_iterator (root t) 0) t)) 0); [done|]. done.
  - right. done.
Qed.

(** A value goes at its place of a sorted list. *)
Lemma sorted_insert comp X v Y :
  StronglySorted (key_lt comp) (X ++ Y) ->
  Forall (fun x => plain_compare comp (params_key x) (params_key v) = true) X ->
  Forall (fun y => plain_compare comp (params_key v) (params_key y) = true) Y ->
  StronglySorted (key_lt comp) (X ++ v :: Y).
Proof using Type.
  intros Hsort HX HY. apply sorting.StronglySorted_app in Hsort as (Hxy & HsX & HsY).
  apply sorting.StronglySorted_app_2; [|exact HsX|constructor; [exact HsY|exact HY]].
  intros x1 x2 Hx1 [->|Hx2]%elem_of_cons; [|by apply Hxy].
  rewrite Forall_forall in HX. exact (HX x1 Hx1).
Qed.

(** In a sorted list one value at most has a key equivalent to a given
    one. *)
Lemma sorted_equivalent_unique comp X v Y y :
  StronglySorted (key_lt comp) (X ++ v :: Y) -> y ∈ X ++ v :: Y ->
  equivalent comp (params_key v) y -> y = v.
Proof using Type.
  intros Hsort Hy [He1 He2].
  apply elem_of_app in Hy as [Hy|Hy].
  - pose proof (sorting.StronglySorted_app_1_elem_of _ X (v :: Y) y v Hsort Hy
                  ltac:(apply list_elem_of_here)) as Hlt.
    unfold key_lt in Hlt. congruence.
  - apply elem_of_cons in Hy as [->|Hy]; [done|].
    apply sorting.StronglySorted_app_1_r in Hsort. apply sorting.StronglySorted_cons in Hsort as [Hf _].
    rewrite Forall_forall in Hf. pose proof (Hf y Hy) as Hlt.
    unfold key_lt in Hlt. congruence.
Qed.

(** The outcome of [insert_unique] when the key is stored. *)
Lemma insert_unique_rejected (t : btree) T k v y :
  tree_inv t T -> transitive_comp (key_comp t) ->
  StronglySorted (key_lt (key_comp t)) (inorder T) ->
  y ∈ inorder T -> equivalent (key_comp t) k y ->
  insert_unique k v t = ((find_unique k t, false), t).
Proof using Hstatic Hplain.
  intros Hinv Htr Hsort Hy [He1 He2].
  destruct (insert_unique_spec t T k v Hinv Htr Hsort) as (it & b & t' & Heq & Hres).
  rewrite Heq. destruct b.
  - destruct Hres as (T' & X & Y & _ & HT & _ & HX & HY & _).
    rewrite HT in Hy. rewrite Forall_forall in HX, HY.
    apply elem_of_app in Hy as [Hy|Hy]; [apply HX in Hy|apply HY in Hy]; congruence.
  - by destruct Hres as (-> & -> & _).
Qed.

(** X16. [insert_unique] of a value whose key is equivalent to no stored
    key, into a non-empty well-formed tree sorted by a transitive plain
    comparator: the value is put in and [true] is returned, the result is
    a well-formed tree whose values are those of the tree before with the
    new one at its place in the order, the iterator designates the new
    value and the size grows by one. *)
Theorem insert_unique_absent (t : btree) T v :
  tree_inv t T -> transitive_comp (key_comp t) ->
  StronglySorted (key_lt (key_comp t)) (inorder T) ->
  Forall (fun y => ~ equivalent (key_comp t) (params_key v) y) (inorder T) ->
  exists it t' T' X Y,
    insert_unique (params_key v) v t = ((it, true), t') /\
    tree_inv t' T' /\ inorder T = X ++ Y /\ inorder T' = X ++ v :: Y /\
    StronglySorted (key_lt (key_comp t')) (inorder T') /\
    node it <> 0%nat /\ slot (nd (heap t') (node it)) (pos it) = Some v /\
    btree_size t' = btree_size t + 1 /\ key_comp t' = key_comp t.
Proof using Hstatic Hplain.
  intros Hinv Htr Hsort Hnone.
  destruct (insert_unique_spec t T (params_key v) v Hinv Htr Hsort)
    as (it & b & t' & Heq & Hres).
  destruct b.
  - destruct Hres as (T' & X & Y & Hinv' & HT & HT' & HX & HY & Hn & Hs & Hsz & Hk).
    exists it, t', T', X, Y. split; [exact Heq|]. split; [exact Hinv'|].
    split; [exact HT|]. split; [exact HT'|]. split; [|done].
    rewrite HT', Hk. rewrite HT in Hsort. by apply sorted_insert.
  - destruct Hres as (_ & _ & y & Hy & He & _).
    rewrite Forall_forall in Hnone. by destruct (Hnone y Hy).
Qed.

(** X17. [insert_unique] of a key that is equivalent to a stored key, in a
    non-empty well-formed tree sorted by a transitive plain comparator:
    the tree is left exactly as it was, and the result is [false] with the
    position [find_unique] returns for the key. *)
Theorem insert_unique_present (t : btree) T k v y :
  tree_inv t T -> transitive_comp (key_comp t) ->
  StronglySorted (key_lt (key_comp t)) (inorder T) ->
  y ∈ inorder T -> equivalent (key_comp t) k y ->
  insert_unique k v t = ((find_unique k t, false), t).
Proof using Hstatic Hplain.
  intros Hinv Htr Hsort Hy He. by apply (insert_unique_rejected t T k v y).
Qed.

(** X18. [find_unique] in a non-empty well-formed tree sorted by a
    transitive plain comparator: it returns the position of a stored value
    whose key is equivalent to the key looked for when there is one, and
    [end()] exactly when no stored key is equivalent. *)
Theorem find_unique_sorted (t : btree) T k :
  tree_inv t T -> transitive_comp (key_comp t) ->
  StronglySorted (key_lt (key_comp t)) (inorder T) ->
  let it := find_unique k t in
  (exists y, y ∈ inorder T /\ equivalent (key_comp t) k y /\
     node it <> 0%nat /\ slot (nd (heap t) (node it)) (pos it) = Some y) \/
  (it = btree_end t /\ Forall (fun y => ~ equivalent (key_comp t) k y) (inorder T)).
Proof using Hplain.
  intros Hinv Htr Hsort. by apply find_unique_spec.
Qed.

(** X19. After an [insert_unique] that put a value in, under a transitive
    plain comparator for which the key is not before itself:
    [find_unique] of the key returns a position that holds the value, and
    a second [insert_unique] with the key, whatever the value, returns
    that position with [false] and leaves the tree as it is. *)
Theorem insert_unique_then_find (t : btree) T v v2 it t' :
  tree_inv t T -> transitive_comp (key_comp t) ->
  StronglySorted (key_lt (key_comp t)) (inorder T) ->
  plain_compare (key_comp t) (params_key v) (params_key v) = false ->
  insert_unique (params_key v) v t = ((it, true), t') ->
  let it2 := find_unique (params_key v) t' in
  node it2 <> 0%nat /\ slot (nd (heap t') (node it2)) (pos it2) = Some v /\
  insert_unique (params_key v) v2 t' = ((it2, false), t') /\
  btree_size t' = btree_size t + 1.
Proof using Hstatic Hplain.
  intros Hinv Htr Hsort Hirr Hcall it2.
  destruct (insert_unique_spec t T (params_key v) v Hinv Htr Hsort)
    as (it0 & b & t0 & Heq & Hres).
  rewrite Hcall in Heq. injection Heq as <- <- <-.
  destruct Hres as (T' & X & Y & Hinv' & HT & HT' & HX & HY & Hn & Hs & Hsz & Hk).
  assert (StronglySorted (key_lt (key_comp t')) (inorder T')) as Hsort'.
  { rewrite HT', Hk. rewrite HT in Hsort. by apply sorted_insert. }
  assert (v ∈ inorder T') as Hv.
  { rewrite HT'. apply elem_of_app. right. apply list_elem_of_here. }
  assert (equivalent (key_comp t') (params_key v) v) as Hev by (by rewrite Hk).
  rewrite <- Hk in Htr.
  split; [|split; [|split; [|exact Hsz]]].
  - destruct (find_unique_spec t' T' (params_key v) Hinv' Htr Hsort')
      as [(y & _ & _ & Hn2 & _)|[_ Hnone]]; [exact Hn2|].
    rewrite Forall_forall in Hnone. by destruct (Hnone v Hv).
  - destruct (find_unique_spec t' T' (params_key v) Hinv' Htr Hsort')
      as [(y & Hy & He & _ & Hs2)|[_ Hnone]].
    + fold it2 in Hs2. rewrite Hs2. f_equal.
      rewrite HT', Hk in Hsort'. rewrite HT' in Hy. rewrite Hk in He.
      exact (sorted_equivalent_unique _ X v Y y Hsort' Hy He).
    + rewrite Forall_forall in Hnone. by destruct (Hnone v Hv).
  - exact (insert_unique_rejected t' T' (params_key v) v2 v Hinv' Htr Hsort' Hv Hev).
Qed.

End SortedTree.


(** * lower_bound and upper_bound of a sorted tree *)

Section TreeBounds.
Context `{P : Params}.

Section BoundPos.
Variable before : value_type -> bool.
Variable search : btree_node -> Z.
Hypothesis Hsearch : search_ok before search.


End BoundPos.

Hypothesis Hstatic : static_assert_field.
Hypothesis Hplain : is_key_compare_to = false.






End TreeBounds.


(** * Iterators: increment and decrement *)

Section Walks.
Context `{P : Params}.

(** ** The first and the last leaf of a subtree *)

Lemma wf_kids_cons h a vs cs :
  wf 1 (S h) (ANode a vs cs) ->
  exists k0 ks, cs = k0 :: ks /\ wf 1 h k0 /\ Forall (wf 1 h) ks /\ zlen ks = zlen vs.
Proof.
  intros (Hvs & Hcs & h' & [= <-] & Hk)%wf_node.
  destruct cs as [|k0 ks]; [rewrite zlen_nil in Hcs; lia|].
  apply Forall_cons in Hk as [Hk0 Hks]. rewrite zlen_cons in Hcs.
  exists k0, ks. repeat split; try done; lia.
Qed.

Lemma wf_kids_snoc h a vs cs :
  wf 1 (S h) (ANode a vs cs) ->
  exists ks kl, cs = ks ++ [kl] /\ wf 1 h kl /\ Forall (wf 1 h) ks /\ zlen ks = zlen vs.
Proof.
  intros (Hvs & Hcs & h' & [= <-] & Hk)%wf_node.
  destruct (zget_is_Some cs (zlen vs)) as [kl Hkl]; [lia|].
  pose proof (ztake_zdrop_mid cs _ _ Hkl) as Hcut.
  rewrite (zdrop_all cs) in Hcut by lia.
  exists (ztake (zlen vs) cs), kl. split; [exact Hcut|].
  rewrite Hcut in Hk. apply Forall_app in Hk as [Hks Hl]. apply Forall_cons in Hl as [Hl _].
  repeat split; try done. rewrite zlen_take; lia.
Qed.

Lemma first_leaf_cons a vs k0 ks :
  leaves k0 <> [] -> first_leaf (ANode a vs (k0 :: ks)) = first_leaf k0.
Proof.
  intros Hne. unfold first_leaf. rewrite leaves_node. cbn [fmap list_fmap concat].
  by destruct (leaves k0).
Qed.

Lemma last_leaf_snoc a vs ks kl :
  leaves kl <> [] -> last_leaf (ANode a vs (ks ++ [kl])) = last_leaf kl.
Proof.
  intros Hne. unfold last_leaf. rewrite leaves_node, fmap_app, concat_app.
  cbn [fmap list_fmap concat]. rewrite app_nil_r.
  destruct (leaves kl) as [|y l] using rev_ind; [done|].
  by rewrite app_assoc, !last_snoc.
Qed.

Lemma zget_snoc_last {A} (ks : list A) kl : zget (ks ++ [kl]) (zlen ks) = Some kl.
Proof.
  pose proof (zlen_nonneg ks). rewrite zget_app.
  destruct (Z.ltb_spec (zlen ks) (zlen ks)); [lia|]. by rewrite Z.sub_diag.
Qed.

(** [descend_first] and [descend_last] reach the first and the last leaf. *)
Lemma descend_first_spec m h : forall S par pos rm sz f,
  rep_at m par pos rm sz S -> wf 1 h S ->
  descend_first (Datatypes.S h + f) (addr S) m = first_leaf S.
Proof.
  induction h as [|h IH]; intros S par pos rm sz f Hrep Hwf.
  - destruct S as [a mc vs|a vs cs]; [|by apply wf_node in Hwf as (_ & _ & ? & ? & _)].
    destruct (rep_at_nd _ _ _ _ _ _ Hrep) as (Hl & _). cbn [addr is_leaf] in *.
    cbn [Nat.add descend_first]. by rewrite Hl.
  - destruct S as [a mc vs|a vs cs]; [by destruct Hwf|].
    destruct (wf_kids_cons _ _ _ _ Hwf) as (k0 & ks & -> & Hk0 & Hks & Hlen).
    destruct (rep_at_nd _ _ _ _ _ _ Hrep) as (Hl & _). cbn [addr is_leaf] in *.
    pose proof kNodeValues_pos.
    pose proof (rep_at_child _ _ _ _ _ (ANode a vs (k0 :: ks)) 0 k0 Hrep eq_refl ltac:(lia))
      as Hch. cbn [addr] in Hch.
    apply rep_at_node in Hrep as [_ Hkids].
    change (Datatypes.S (Datatypes.S h) + f)%nat with (Datatypes.S (Datatypes.S h + f)).
    cbn [descend_first]. rewrite Hl, Hch. cbn [negb].
    rewrite (IH k0 a 0 0%nat 0 f (Hkids 0 k0 eq_refl) Hk0).
    symmetry. apply first_leaf_cons. by eapply leaves_nonempty.
Qed.

Lemma descend_last_spec m h : forall S par pos rm sz f,
  rep_at m par pos rm sz S -> wf 1 h S ->
  descend_last (Datatypes.S h + f) (addr S) m = last_leaf S.
Proof.
  induction h as [|h IH]; intros S par pos rm sz f Hrep Hwf.
  - destruct S as [a mc vs|a vs cs]; [|by apply wf_node in Hwf as (_ & _ & ? & ? & _)].
    destruct (rep_at_nd _ _ _ _ _ _ Hrep) as (Hl & _). cbn [addr is_leaf] in *.
    cbn [Nat.add descend_last]. by rewrite Hl.
  - destruct S as [a mc vs|a vs cs]; [by destruct Hwf|].
    destruct (wf_kids_snoc _ _ _ _ Hwf) as (ks & kl & -> & Hkl & Hks & Hlen).
    destruct (rep_at_nd _ _ _ _ _ _ Hrep) as (Hl & Hc & _). cbn [addr is_leaf avals] in *.
    pose proof (wf_node_ok _ _ _ Hwf) as (_ & HK & _). cbn [avals] in HK.
    pose proof (zget_snoc_last ks kl) as Hget. rewrite Hlen in Hget.
    pose proof (rep_at_child _ _ _ _ _ (ANode a vs (ks ++ [kl])) (zlen vs) kl Hrep Hget
                  ltac:(lia)) as Hch. cbn [addr] in Hch.
    apply rep_at_node in Hrep as [_ Hkids].
    change (Datatypes.S (Datatypes.S h) + f)%nat with (Datatypes.S (Datatypes.S h + f)).
    cbn [descend_last]. rewrite Hl, Hc, Hch. cbn [negb].
    rewrite (IH kl a (zlen vs) 0%nat 0 f (Hkids _ kl Hget) Hkl).
    symmetry. apply last_leaf_snoc. by eapply leaves_nonempty.
Qed.

(** ** Climbing out of a subtree *)

(** From the end of the last leaf of a subtree [increment_slow] climbs to
    the position of the subtree in its parent. *)
Lemma increment_climb_out m h : forall S par q rm sz f,
  rep_at m par q rm sz S -> wf 1 h S -> leaf (nd m par) = false ->
  increment_slow_climb (Datatypes.S h + f)
    (mk_iterator (last_leaf S) (count (nd m (last_leaf S)))) m =
  increment_slow_climb f (mk_iterator par q) m.
Proof.
  induction h as [|h IH]; intros S par q rm sz f Hrep Hwf Hpar.
  - destruct S as [a mc vs|a vs cs]; [|by apply wf_node in Hwf as (_ & _ & ? & ? & _)].
    destruct (rep_at_nd _ _ _ _ _ _ Hrep) as (_ & _ & _ & Hp & Hq & _). cbn [addr] in *.
    change (last_leaf (ALeaf a mc vs)) with a.
    cbn [Nat.add increment_slow_climb node pos]. unfold is_root.
    by rewrite Z.eqb_refl, Hp, Hq, Hpar.
  - destruct S as [a mc vs|a vs cs]; [by destruct Hwf|].
    destruct (wf_kids_snoc _ _ _ _ Hwf) as (ks & kl & -> & Hkl & Hks & Hlen).
    destruct (rep_at_nd _ _ _ _ _ _ Hrep) as (Hl & Hc & _ & Hp & Hq & _).
    cbn [addr is_leaf avals] in *.
    pose proof (zget_snoc_last ks kl) as Hget. rewrite Hlen in Hget.
    apply rep_at_node in Hrep as [_ Hkids].
    rewrite (last_leaf_snoc a vs ks kl) by (by eapply leaves_nonempty).
    replace (Datatypes.S (Datatypes.S h) + f)%nat with (Datatypes.S h + Datatypes.S f)%nat
      by lia.
    rewrite (IH kl a (zlen vs) 0%nat 0 (Datatypes.S f) (Hkids _ kl Hget) Hkl Hl).
    cbn [increment_slow_climb node pos]. unfold is_root.
    by rewrite Hc, Z.eqb_refl, Hp, Hq, Hpar.
Qed.

(** From before the first leaf of a subtree [decrement_slow] climbs to the
    position before the subtree in its parent. *)
Lemma decrement_climb_out m h : forall S par q rm sz f,
  rep_at m par q rm sz S -> wf 1 h S -> leaf (nd m par) = false ->
  decrement_slow_climb (Datatypes.S h + f) (mk_iterator (first_leaf S) (-1)) m =
  decrement_slow_climb f (mk_iterator par (q - 1)) m.
Proof.
  induction h as [|h IH]; intros S par q rm sz f Hrep Hwf Hpar.
  - destruct S as [a mc vs|a vs cs]; [|by apply wf_node in Hwf as (_ & _ & ? & ? & _)].
    destruct (rep_at_nd _ _ _ _ _ _ Hrep) as (_ & _ & _ & Hp & Hq & _). cbn [addr] in *.
    change (first_leaf (ALeaf a mc vs)) with a.
    cbn [Nat.add decrement_slow_climb node pos]. unfold is_root.
    change (-1 <? 0) with true. by rewrite Hp, Hq, Hpar.
  - destruct S as [a mc vs|a vs cs]; [by destruct Hwf|].
    destruct (wf_kids_cons _ _ _ _ Hwf) as (k0 & ks & -> & Hk0 & Hks & Hlen).
    destruct (rep_at_nd _ _ _ _ _ _ Hrep) as (Hl & Hc & _ & Hp & Hq & _).
    cbn [addr is_leaf avals] in *.
    apply rep_at_node in Hrep as [_ Hkids].
    rewrite (first_leaf_cons a vs k0 ks) by (by eapply leaves_nonempty).
    replace (Datatypes.S (Datatypes.S h) + f)%nat with (Datatypes.S h + Datatypes.S f)%nat
      by lia.
    rewrite (IH k0 a 0 0%nat 0 (Datatypes.S f) (Hkids 0 k0 eq_refl) Hk0 Hl).
    cbn [decrement_slow_climb node pos]. unfold is_root.
    change (0 - 1 <? 0) with true. by rewrite Hp, Hq, Hpar.
Qed.

End Walks.


(** * The positions of the values of a tree *)

Section Positions.
Context `{P : Params}.

(** The values of a node before and after its value [j]. *)
Definition val_before (sub : atree) (j : Z) : list value_type :=
  match sub with
  | ALeaf _ _ vs => ztake j vs
  | ANode _ vs cs => inter (inorder <$> ztake (j + 1) cs) (ztake j vs)
  end.
Definition val_after (sub : atree) (j : Z) : list value_type :=
  match sub with
  | ALeaf _ _ vs => zdrop (j + 1) vs
  | ANode _ vs cs => inter (inorder <$> zdrop (j + 1) cs) (zdrop (j + 1) vs)
  end.

Lemma inorder_val sub j x :
  (is_leaf sub = false -> zlen (akids sub) = zlen (avals sub) + 1) ->
  zget (avals sub) j = Some x ->
  inorder sub = val_before sub j ++ x :: val_after sub j.
Proof.
  intros Hk Hx. destruct sub as [a mc vs|a vs cs]; cbn [avals akids is_leaf] in *.
  - cbn [inorder val_before val_after]. by apply ztake_zdrop_mid.
  - rewrite inorder_node. cbn [val_before val_after].
    rewrite <- ztake_fmap, <- zdrop_fmap. apply inter_cut; [|done].
    rewrite zlen_fmap. by apply Hk.
Qed.

(** The iterator [it] is at the value [x] of [T], after the values [A]. *)
Definition at_pos (T : atree) (it : iterator) (A : list value_type) (x : value_type) : Prop :=
  exists c sub,
    plug c sub = T /\ node it = addr sub /\ zget (avals sub) (pos it) = Some x /\
    A = ctx_before c ++ val_before sub (pos it).

(** ** Out of a last child *)

(** The largest subtree that ends where [sub] ends, and its context. *)
Fixpoint up_end (c : ctx) (sub : atree) : ctx * atree :=
  match c with
  | CTop => (CTop, sub)
  | CNode p pvs Ls Rs c0 =>
      match Rs with
      | [] => up_end c0 (ANode p pvs (Ls ++ [sub]))
      | _ :: _ => (c, sub)
      end
  end.

Lemma up_end_spec c : forall sub c' S',
  up_end c sub = (c', S') -> ctx_lens c -> leaves sub <> [] ->
  plug c' S' = plug c sub /\ last_leaf S' = last_leaf sub /\
  ctx_before c' ++ inorder S' = ctx_before c ++ inorder sub /\
  ctx_after c' = ctx_after c /\
  (c' = CTop \/ exists p pvs Ls r Rs c0, c' = CNode p pvs Ls (r :: Rs) c0).
Proof.
  induction c as [|p pvs Ls Rs c0 IH]; intros sub c' S' Heq Hlens Hne; cbn [up_end] in Heq.
  - injection Heq as <- <-. repeat split; try done. by left.
  - destruct Rs as [|r Rs].
    + destruct Hlens as [Hlen Hlens]. rewrite zlen_nil in Hlen.
      assert (leaves (ANode p pvs (Ls ++ [sub])) <> []) as Hne'.
      { rewrite leaves_node, fmap_app, concat_app. cbn [fmap list_fmap concat].
        rewrite app_nil_r. intros [_ ?]%app_eq_nil. done. }
      destruct (IH _ _ _ Heq Hlens Hne') as (Q1 & Q2 & Q3 & Q4 & Q5).
      split; [exact Q1|]. split; [by rewrite Q2, last_leaf_snoc|].
      split; [|split; [|exact Q5]].
      * rewrite Q3. cbn [ctx_before]. rewrite inorder_node, fmap_app.
        cbn [fmap list_fmap]. rewrite inter_ipre by (rewrite length_fmap; unfold zlen in *; lia).
        by rewrite app_assoc.
      * rewrite Q4. cbn [ctx_after fmap list_fmap ipost]. done.
    + injection Heq as <- <-. repeat split; try done. right. by eauto 10.
Qed.

(** ** Into a first child *)

Lemma first_leaf_focus h : forall S c,
  wf 1 h S ->
  exists c' lf,
    plug c' lf = plug c S /\ is_leaf lf = true /\ addr lf = first_leaf S /\
    ctx_before c' = ctx_before c /\ 1 <= zlen (avals lf).
Proof.
  induction h as [|h IH]; intros S c Hwf.
  - destruct S as [a mc vs|a vs cs]; [|by apply wf_node in Hwf as (_ & _ & ? & ? & _)].
    destruct Hwf as (_ & _ & Hvs). exists c, (ALeaf a mc vs).
    repeat split; try done. cbn [avals]. lia.
  - destruct S as [a mc vs|a vs cs]; [by destruct Hwf|].
    destruct (wf_kids_cons _ _ _ _ Hwf) as (k0 & ks & -> & Hk0 & Hks & Hlen).
    destruct (IH k0 (CNode a vs [] ks c) Hk0) as (c' & lf & Q1 & Q2 & Q3 & Q4 & Q5).
    exists c', lf. split; [exact Q1|]. split; [exact Q2|]. split; [|split; [|exact Q5]].
    + rewrite Q3. symmetry. apply first_leaf_cons. by eapply leaves_nonempty.
    + rewrite Q4. cbn [ctx_before fmap list_fmap ipre]. by rewrite app_nil_r.
Qed.

Lemma ipre_last (L : list (list value_type)) vs j x :
  zlen L = j + 1 -> zget vs j = Some x ->
  ipre L vs = inter L (ztake j vs) ++ [x].
Proof.
  intros HL Hx. apply zget_Some_lt in Hx as Hj.
  destruct L as [|l0 L0] using rev_ind; [rewrite zlen_nil in HL; lia|]. clear IHL0.
  rewrite zlen_app, zlen_cons, zlen_nil in HL.
  assert (length L0 = length (ztake j vs)) as Hlen.
  { pose proof (zlen_take j vs ltac:(lia)). unfold zlen in *. lia. }
  rewrite (ztake_zdrop_mid vs j x Hx) at 1.
  replace (ztake j vs ++ x :: zdrop (j + 1) vs)
    with ((ztake j vs ++ [x]) ++ zdrop (j + 1) vs) by (by rewrite <- app_assoc).
  rewrite ipre_app_l by (rewrite !length_app; cbn [length]; lia).
  rewrite ipre_snoc by done. rewrite inter_ipre by done. by rewrite <- app_assoc.
Qed.

End Positions.


(** * One step of an iterator *)

Section Steps.
Context `{P : Params}.

Lemma sub_height_fuel (t : btree) c S rm sz k h :
  tree_rep t (plug c S) rm sz -> wf k h S -> (h < fuel_of (heap t))%nat.
Proof.
  intros Hrep Hwf. pose proof (wf_height_addrs S k h Hwf).
  pose proof (tr_nodup _ _ _ _ Hrep) as Hnd. apply NoDup_plug in Hnd as (Hnd & _ & _).
  pose proof (bounded_NoDup_length (addrs S) (next_addr (heap t)) Hnd) as Hl.
  unfold fuel_of. assert (length (addrs S) < Nat.max (next_addr (heap t)) 1)%nat; [|lia].
  apply Hl. intros y Hy. apply (tr_bound _ _ _ _ Hrep). apply elem_of_addrs_plug. by left.
Qed.

(** A node of a well-formed tree: the root when it is a leaf, or a node
    with the shape of a node below the root. *)
Lemma focus_shape (t : btree) c sub :
  tree_inv t (plug c sub) ->
  (c = CTop /\ is_leaf sub = true /\ 1 <= zlen (avals sub) <= acap sub) \/
  (exists h, ctx_wf 1 c h /\ wf 1 h sub).
Proof.
  intros [_ Hroot]. destruct c as [|p pvs Ls Rs c0].
  - cbn [plug] in Hroot. destruct sub as [a mc vs|a vs cs].
    + left. destruct Hroot as [Hvs _]. done.
    + right. destruct Hroot as [h Hwf]. by exists h.
  - right. by apply wf_plug_inv.
Qed.

Lemma focus_facts (t : btree) c sub :
  tree_inv t (plug c sub) ->
  ctx_lens c /\ (is_leaf sub = false -> zlen (akids sub) = zlen (avals sub) + 1) /\
  zlen (avals sub) <= acap sub /\ leaves sub <> [].
Proof.
  intros Hinv. destruct (focus_shape t c sub Hinv) as [(-> & Hl & Hvs)|(h & Hcw & Hwf)].
  - split; [exact I|]. split; [by rewrite Hl|]. split; [lia|]. by destruct sub.
  - pose proof (wf_node_ok _ _ _ Hwf) as (Hcap & Hlen & Hk).
    split; [by eapply ctx_wf_lens|]. split; [exact Hk|]. split; [lia|].
    by eapply leaves_nonempty.
Qed.

Lemma at_pos_inorder (t : btree) T it A x :
  tree_inv t T -> at_pos T it A x -> exists B, inorder T = A ++ x :: B.
Proof.
  intros Hinv (c & sub & <- & Hn & Hx & ->).
  destruct (focus_facts t c sub Hinv) as (Hlens & Hk & _).
  exists (val_after sub (pos it) ++ ctx_after c).
  rewrite inorder_plug by done. rewrite (inorder_val sub (pos it) x Hk Hx).
  by rewrite <- !app_assoc.
Qed.

Lemma at_pos_slot (t : btree) T it A x :
  tree_inv t T -> at_pos T it A x ->
  node it <> 0%nat /\ slot (nd (heap t) (node it)) (pos it) = Some x.
Proof.
  intros Hinv (c & sub & <- & Hn & Hx & ->).
  destruct (focus_facts t c sub Hinv) as (_ & _ & Hcap & _).
  destruct Hinv as [Hrep _]. rewrite Hn. split.
  - assert (0 < addr sub < next_addr (heap t))%nat; [|lia].
    apply (tr_bound _ _ _ _ Hrep). apply elem_of_addrs_plug. left. apply addr_in_addrs.
  - apply (rep_at_slot _ _ _ _ _ sub _ _ (tree_rep_sub t c sub _ _ Hrep) Hx).
    apply zget_Some_lt in Hx. lia.
Qed.

Lemma increment_slow_climb_stop f it m :
  pos it <> count (nd m (node it)) -> increment_slow_climb f it m = it.
Proof.
  intros Hne. destruct f; [done|]. cbn [increment_slow_climb].
  by destruct (Z.eqb_spec (pos it) (count (nd m (node it)))).
Qed.

Lemma increment_slow_climb_root f it m :
  is_root (node it) m = true -> increment_slow_climb f it m = it.
Proof.
  intros Hr. destruct f; [done|]. cbn [increment_slow_climb].
  by rewrite Hr, andb_false_r.
Qed.

Lemma decrement_slow_climb_stop f it m :
  0 <= pos it -> decrement_slow_climb f it m = it.
Proof.
  intros Hp. destruct f; [done|]. cbn [decrement_slow_climb].
  by destruct (Z.ltb_spec (pos it) 0); [lia|].
Qed.

Lemma decrement_in_leaf m a j :
  leaf (nd m a) = true -> 0 <= j -> decrement (mk_iterator a (j + 1)) m = mk_iterator a j.
Proof.
  intros Hl Hj. unfold decrement. cbn [node pos]. rewrite Hl.
  destruct (Z.leb_spec 0 (j + 1 - 1)); [|lia]. f_equal. lia.
Qed.

(** The root is its own ancestor: the parent of the root is a leaf. *)
Lemma is_root_root (t : btree) T rm sz :
  tree_rep t T rm sz -> leaves T <> [] -> is_root (addr T) (heap t) = true.
Proof.
  intros Hrep Hne. unfold is_root.
  destruct (rep_at_nd _ _ _ _ _ _ (tr_rep _ _ _ _ Hrep)) as (_ & _ & _ & -> & _).
  by apply (first_leaf_is_leaf t T rm sz).
Qed.

(** From the end of a subtree [increment_slow] climbs to the next value,
    or to the end of the root. *)
Lemma climb_to_up_end (t : btree) c sub c' S' :
  tree_inv t (plug c sub) -> c <> CTop -> up_end c sub = (c', S') ->
  increment_slow_climb (fuel_of (heap t))
    (mk_iterator (last_leaf sub) (count (nd (heap t) (last_leaf sub)))) (heap t) =
  match c' with
  | CTop => mk_iterator (addr S') (zlen (avals S'))
  | CNode p _ Ls _ _ => mk_iterator p (zlen Ls)
  end.
Proof.
  intros Hinv Hc Hup.
  destruct (focus_facts t c sub Hinv) as (Hlens & _ & _ & Hne).
  destruct (up_end_spec c sub c' S' Hup Hlens Hne) as (Q1 & Q2 & _ & _ & Q5).
  rewrite <- Q1 in Hinv. rewrite <- Q2. pose proof Hinv as [Hrep Hroot].
  destruct Q5 as [->|(p & pvs & Ls & r & Rs & c0 & ->)].
  - (* the subtree is the last of the tree *)
    cbn [plug] in *.
    destruct S' as [a mc vs|b bvs cs].
    { exfalso. pose proof (is_leaf_plug c sub Hc) as Hl. by rewrite <- Q1 in Hl. }
    destruct Hroot as [h Hwf]. destruct h as [|h]; [by apply wf_node in Hwf as (_ & _ & ? & ? & _)|].
    destruct (wf_kids_snoc _ _ _ _ Hwf) as (ks & kl & -> & Hkl & Hks & Hlen).
    pose proof (height_fuel t _ _ _ _ _ Hrep Hwf) as Hfuel.
    pose proof (zget_snoc_last ks kl) as Hget. rewrite Hlen in Hget.
    pose proof (tr_rep _ _ _ _ Hrep) as Hr.
    destruct (rep_at_nd _ _ _ _ _ _ Hr) as (Hl & _). cbn [addr is_leaf avals] in *.
    apply rep_at_node in Hr as [_ Hkids].
    rewrite (last_leaf_snoc b bvs ks kl) by (by eapply leaves_nonempty).
    replace (fuel_of (heap t)) with (Datatypes.S h + (fuel_of (heap t) - Datatypes.S h))%nat
      by lia.
    rewrite (increment_climb_out (heap t) h kl b (zlen bvs) 0%nat 0 _ (Hkids _ kl Hget) Hkl Hl).
    apply increment_slow_climb_root. cbn [node].
    apply (is_root_root t (ANode b bvs (ks ++ [kl])) _ _ Hrep). by eapply leaves_nonempty.
  - (* a value of an ancestor follows *)
    destruct (wf_plug_inv (CNode p pvs Ls (r :: Rs) c0) S' ltac:(done) Hroot)
      as (h & Hcw & Hwf).
    pose proof (sub_height_fuel t _ S' _ _ _ _ Hrep Hwf) as Hfuel.
    pose proof (tree_rep_sub t _ S' _ _ Hrep) as Hs. cbn [hole_par hole_pos] in Hs.
    cbn [plug] in Hrep.
    pose proof (tree_rep_sub t c0 _ _ _ Hrep) as Hn.
    destruct (rep_at_nd _ _ _ _ _ _ Hn) as (Hl & Hcnt & _). cbn [addr is_leaf avals] in *.
    replace (fuel_of (heap t)) with (Datatypes.S h + (fuel_of (heap t) - Datatypes.S h))%nat
      by lia.
    rewrite (increment_climb_out (heap t) h S' p (zlen Ls) _ _ _ Hs Hwf Hl).
    apply increment_slow_climb_stop. cbn [node pos]. rewrite Hcnt.
    destruct Hcw as (_ & Hlen & _). rewrite zlen_cons in Hlen.
    pose proof (zlen_nonneg Rs). lia.
Qed.

End Steps.


(** * increment, and decrement after it *)

Section Step.
Context `{P : Params}.

(** [end()] is the end of the last leaf. *)
Lemma btree_end_last (t : btree) c lf :
  tree_inv t (plug c lf) -> is_leaf lf = true -> last_leaf (plug c lf) = addr lf ->
  btree_end t = mk_iterator (addr lf) (zlen (avals lf)).
Proof.
  intros [Hrep _] Hlf Hlast.
  assert (btree_rightmost t = addr lf) as Hrm.
  { destruct (is_leaf (plug c lf)) eqn:Hl.
    - destruct c as [|p pvs Ls Rs c0]; [|by rewrite is_leaf_plug in Hl].
      cbn [plug] in *. unfold btree_rightmost. rewrite (tr_root _ _ _ _ Hrep).
      destruct (rep_at_nd _ _ _ _ _ _ (tr_rep _ _ _ _ Hrep)) as (-> & _).
      by rewrite Hlf, orb_true_r.
    - by rewrite (btree_rightmost_internal t _ _ _ Hrep Hl). }
  destruct (rep_at_nd _ _ _ _ _ _ (tree_rep_sub t c lf _ _ Hrep)) as (_ & Hc & _).
  unfold btree_end. rewrite Hrm, Hc.
  assert (0 < addr lf < next_addr (heap t))%nat as Ha.
  { apply (tr_bound _ _ _ _ Hrep). apply elem_of_addrs_plug. left. apply addr_in_addrs. }
  by destruct (Nat.eqb_spec (addr lf) 0); [lia|].
Qed.

Lemma ztake_succ_mid {A} (L : list A) x R : ztake (zlen L + 1) (L ++ x :: R) = L ++ [x].
Proof.
  pose proof (zlen_nonneg L). rewrite ztake_app_r by lia.
  replace (zlen L + 1 - zlen L) with 1 by lia. done.
Qed.

(** The step of [increment] from a value, and [decrement] back. *)
Lemma increment_step (t : btree) T it A x :
  tree_inv t T -> at_pos T it A x ->
  let it' := increment it (heap t) in
  decrement it' (heap t) = it /\
  ((exists y, at_pos T it' (A ++ [x]) y) \/ (inorder T = A ++ [x] /\ it' = btree_end t)).
Proof.
  intros Hinv (c & sub & <- & Hn & Hx & ->). destruct it as [n j]. cbn [node pos] in *. subst n.
  pose proof Hinv as [Hrep Hroot]. pose proof kNodeValues_pos as HK.
  pose proof (tree_rep_sub t c sub _ _ Hrep) as Hs.
  destruct (rep_at_nd _ _ _ _ _ _ Hs) as (Hl & Hc & _).
  apply zget_Some_lt in Hx as Hj.
  destruct sub as [a mc vs|a vs cs]; cbn [addr avals is_leaf val_before] in *.
  - (* a value of a leaf *)
    unfold increment. cbn [node pos]. rewrite Hl, Hc.
    destruct (Z.ltb_spec (j + 1) (zlen vs)) as [Hlt|Hge].
    { split; [apply decrement_in_leaf; [done|lia]|]. left.
      destruct (zget_is_Some vs (j + 1)) as [y Hy]; [lia|].
      exists y, c, (ALeaf a mc vs). cbn [node pos addr avals val_before].
      split; [done|]. split; [done|]. split; [done|].
      rewrite (ztake_snoc vs j x) by (done || lia). by rewrite app_assoc. }
    assert (j + 1 = zlen vs) as Hend by lia.
    assert (vs = ztake j vs ++ [x]) as Hvs.
    { rewrite (ztake_zdrop_mid vs j x Hx) at 1. by rewrite zdrop_all by lia. }
    unfold increment_slow. cbn [node pos]. rewrite Hl.
    destruct c as [|p pvs Ls Rs c0].
    + (* the root *)
      cbn [plug ctx_before app] in *.
      rewrite increment_slow_climb_root
        by (cbn [node]; by apply (is_root_root t (ALeaf a mc vs) _ _ Hrep)).
      cbn [node pos]. rewrite Hc. destruct (Z.eqb_spec (j + 1) (zlen vs)); [|lia].
      split; [apply decrement_in_leaf; [done|lia]|]. right. split; [exact Hvs|].
      rewrite (btree_end_last t CTop (ALeaf a mc vs) Hinv eq_refl eq_refl).
      cbn [addr avals]. by rewrite Hend.
    + (* a leaf below the root *)
      set (c := CNode p pvs Ls Rs c0) in *.
      destruct (up_end c (ALeaf a mc vs)) as [c' S'] eqn:Hup.
      pose proof (climb_to_up_end t c _ c' S' Hinv ltac:(done) Hup) as Hclimb.
      change (last_leaf (ALeaf a mc vs)) with a in Hclimb. rewrite Hc, <- Hend in Hclimb.
      rewrite Hclimb.
      destruct (focus_facts t c _ Hinv) as (Hlens & _ & _ & Hne).
      destruct (up_end_spec c _ c' S' Hup Hlens Hne) as (Q1 & Q2 & Q3 & _ & Q5).
      change (last_leaf (ALeaf a mc vs)) with a in Q2. cbn [inorder] in Q3.
      assert (tree_inv t (plug c' S')) as Hinv' by (by rewrite Q1).
      pose proof Hinv' as [Hrep' Hroot'].
      destruct Q5 as [->|(p' & pvs' & Ls' & r & Rs' & c0' & ->)]; cbn [node pos].
      * (* nothing follows *)
        cbn [plug ctx_before app] in *.
        destruct (rep_at_nd _ _ _ _ _ _ (tr_rep _ _ _ _ Hrep')) as (_ & Hc' & _).
        rewrite Hc', Z.eqb_refl.
        split; [apply decrement_in_leaf; [done|lia]|]. right. split.
        -- rewrite <- Q1, Q3, <- app_assoc. by rewrite <- Hvs.
        -- rewrite (btree_end_last t c (ALeaf a mc vs) Hinv eq_refl)
             by (by rewrite <- Q1, Q2).
           cbn [addr avals]. by rewrite Hend.
      * (* a value of an ancestor follows *)
        destruct (focus_facts t _ _ Hinv') as ([Hlen' _] & _).
        rewrite zlen_cons in Hlen'. pose proof (zlen_nonneg Rs'). pose proof (zlen_nonneg Ls').
        destruct (wf_plug_inv (CNode p' pvs' Ls' (r :: Rs') c0') S' ltac:(done) Hroot')
          as (h & Hcw & Hwf).
        pose proof (sub_height_fuel t _ S' _ _ _ _ Hrep' Hwf) as Hfuel.
        pose proof (tree_rep_sub t _ S' _ _ Hrep') as Hs'. cbn [hole_par hole_pos] in Hs'.
        cbn [plug] in Hrep', Q1.
        set (N := ANode p' pvs' (Ls' ++ S' :: r :: Rs')) in *.
        pose proof (tree_rep_sub t c0' N _ _ Hrep') as Hn.
        destruct (rep_at_nd _ _ _ _ _ _ Hn) as (Hln & Hcn & _).
        unfold N in Hln, Hcn. cbn [addr is_leaf avals] in Hln, Hcn.
        assert (zget (akids N) (zlen Ls') = Some S') as HS'.
        { unfold N. cbn [akids]. rewrite zget_app. destruct (Z.ltb_spec (zlen Ls') (zlen Ls')); [lia|].
          by rewrite Z.sub_diag. }
        pose proof (rep_at_child _ _ _ _ _ N _ S' Hn HS') as Hch.
        unfold N in Hch at 1. cbn [addr] in Hch.
        destruct Hcw as (Hp1 & _).
        rewrite Hcn. destruct (Z.eqb_spec (zlen Ls') (zlen pvs')); [lia|].
        split.
        -- unfold decrement, decrement_slow. cbn [node pos]. rewrite Hln.
           rewrite Hch by lia.
           replace (fuel_of (heap t))
             with (Datatypes.S h + (fuel_of (heap t) - Datatypes.S h))%nat by lia.
           rewrite (descend_last_spec (heap t) h S' _ _ _ _ _ Hs' Hwf), Q2, Hc.
           f_equal. lia.
        -- left. destruct (zget_is_Some pvs' (zlen Ls')) as [y Hy]; [lia|].
           exists y, c0', N. cbn [node pos]. split; [exact Q1|]. split; [done|].
           split; [exact Hy|].
           cbn [val_before N]. rewrite ztake_succ_mid, fmap_app. cbn [fmap list_fmap].
           rewrite inter_ipre
             by (rewrite length_fmap; pose proof (zlen_take (zlen Ls') pvs' ltac:(lia));
                 unfold zlen in *; lia).
           rewrite ipre_take by (rewrite zlen_fmap; lia).
           rewrite <- app_assoc, <- Hvs, <- Q3. cbn [ctx_before]. by rewrite <- app_assoc.
  - (* a value of an internal node *)
    destruct (focus_shape t c _ Hinv) as [(_ & ? & _)|(h & Hcw & Hwf)]; [done|].
    destruct h as [|h]; [by apply wf_node in Hwf as (_ & _ & ? & ? & _)|].
    pose proof (sub_height_fuel t c _ _ _ _ _ Hrep Hwf) as Hfuel.
    pose proof Hwf as (Hvs & Hcs & h' & [= <-] & Hkids)%wf_node.
    destruct (zget_is_Some cs (j + 1)) as [S Hget]; [lia|].
    assert (wf 1 h S) as HwfS.
    { rewrite Forall_forall in Hkids. apply Hkids. by eapply zget_elem_of. }
    pose proof (rep_at_child _ _ _ _ _ (ANode a vs cs) _ S Hs Hget ltac:(lia)) as Hch.
    cbn [addr] in Hch.
    pose proof Hs as [_ Hreps]%rep_at_node. pose proof (Hreps _ S Hget) as HrS.
    assert (leaf (nd (heap t) (first_leaf S)) = true) as Hlf.
    { apply (rep_at_leaves _ S _ _ _ _ HrS). unfold first_leaf.
      pose proof (leaves_nonempty _ _ _ HwfS). destruct (leaves S); [done|].
      apply list_elem_of_here. }
    unfold increment, increment_slow. cbn [node pos]. rewrite Hl, Hch.
    assert (exists f, fuel_of (heap t) = Datatypes.S h + f)%nat as [f Hf]
      by (exists (fuel_of (heap t) - Datatypes.S h)%nat; lia).
    rewrite Hf.
    rewrite (descend_first_spec (heap t) h S _ _ _ _ _ HrS HwfS).
    split.
    + unfold decrement. cbn [node pos]. rewrite Hlf. change (0 <=? 0 - 1) with false.
      cbv iota. unfold decrement_slow. cbn [node pos]. rewrite Hlf.
      change (0 - 1) with (-1). rewrite Hf.
      rewrite (decrement_climb_out (heap t) h S a (j + 1) _ _ _ HrS HwfS Hl).
      rewrite decrement_slow_climb_stop by (cbn [pos]; lia). cbn [pos].
      destruct (Z.ltb_spec (j + 1 - 1) 0); [lia|]. f_equal. lia.
    + left. pose proof (ztake_zdrop_mid cs _ _ Hget) as Hcut.
      destruct (first_leaf_focus h S (CNode a vs (ztake (j + 1) cs) (zdrop (j + 1 + 1) cs) c)
                  HwfS) as (c' & lf & R1 & R2 & R3 & R4 & R5).
      destruct (zget_is_Some (avals lf) 0) as [y Hy]; [lia|].
      exists y, c', lf. cbn [node pos]. split; [|split; [done|split; [exact Hy|]]].
      * rewrite R1. cbn [plug]. by rewrite <- Hcut.
      * rewrite R4. cbn [ctx_before]. destruct lf as [b mc ws|]; [|done].
        cbn [val_before]. rewrite ztake_0, app_nil_r, <- app_assoc. f_equal.
        symmetry. apply ipre_last; [|done]. rewrite zlen_fmap, zlen_take; lia.
Qed.

(** [begin()] is at the first value. *)
Lemma begin_pos (t : btree) T : tree_inv t T -> exists x, at_pos T (btree_begin t) [] x.
Proof.
  intros Hinv. pose proof Hinv as [Hrep Hroot].
  assert (btree_begin t = mk_iterator (first_leaf T) 0) as ->.
  { unfold btree_begin, btree_leftmost. rewrite (tr_root _ _ _ _ Hrep).
    destruct (rep_at_nd _ _ _ _ _ _ (tr_rep _ _ _ _ Hrep)) as (_ & _ & _ & -> & _).
    pose proof (tr_bound _ _ _ _ Hrep (addr T) (addr_in_addrs T)).
    by destruct (Nat.eqb_spec (addr T) 0); [lia|]. }
  destruct T as [a mc vs|a vs cs].
  - destruct Hroot as [Hvs Hmc].
    destruct (zget_is_Some vs 0) as [x Hx]; [lia|].
    exists x, CTop, (ALeaf a mc vs). by repeat split.
  - destruct Hroot as [h Hwf].
    destruct (first_leaf_focus h _ CTop Hwf) as (c' & lf & R1 & R2 & R3 & R4 & R5).
    destruct (zget_is_Some (avals lf) 0) as [y Hy]; [lia|].
    exists y, c', lf. cbn [node pos]. split; [exact R1|]. split; [by rewrite R3|].
    split; [exact Hy|]. rewrite R4. destruct lf as [b mc ws|]; [|done].
    cbn [ctx_before val_before app]. by rewrite ztake_0.
Qed.

(** The iterator after [n] steps from [begin()]. *)
Definition nth_iterator (t : btree) (n : nat) : iterator :=
  Nat.iter n (fun it => increment it (heap t)) (btree_begin t).

Lemma nth_pos (t : btree) T :
  tree_inv t T -> forall n, (n < length (inorder T))%nat ->
  exists A x, at_pos T (nth_iterator t n) A x /\ length A = n.
Proof.
  intros Hinv. induction n as [|n IH]; intros Hn.
  - destruct (begin_pos t T Hinv) as [x Hx]. by exists [], x.
  - destruct IH as (A & x & Hpos & Hlen); [lia|].
    destruct (increment_step t T _ A x Hinv Hpos) as [_ [[y Hy]|[Hin _]]].
    + exists (A ++ [x]), y. split; [exact Hy|]. rewrite length_app. cbn [length]. lia.
    + rewrite Hin, length_app in Hn. cbn [length] in Hn. lia.
Qed.

Lemma nth_value (t : btree) T n x :
  tree_inv t T -> inorder T !! n = Some x ->
  exists A, at_pos T (nth_iterator t n) A x /\ length A = n.
Proof.
  intros Hinv Hx. apply lookup_lt_Some in Hx as Hn.
  destruct (nth_pos t T Hinv n Hn) as (A & y & Hpos & Hlen).
  destruct (at_pos_inorder t T _ A y Hinv Hpos) as [B HB].
  rewrite HB in Hx. rewrite lookup_app_r in Hx by lia.
  rewrite Hlen, Nat.sub_diag in Hx. injection Hx as <-. by exists A.
Qed.

Lemma nth_end (t : btree) T :
  tree_inv t T -> nth_iterator t (length (inorder T)) = btree_end t.
Proof.
  intros Hinv. destruct (begin_pos t T Hinv) as [x0 H0].
  destruct (at_pos_inorder t T _ _ _ Hinv H0) as [B0 HB0].
  assert (exists n, length (inorder T) = S n) as [n Hn]
    by (rewrite HB0; cbn [app length]; eauto).
  rewrite Hn. destruct (nth_pos t T Hinv n ltac:(lia)) as (A & x & Hpos & Hlen).
  destruct (increment_step t T _ A x Hinv Hpos) as [_ [[y Hy]|[_ Hend]]]; [|exact Hend].
  destruct (at_pos_inorder t T _ _ _ Hinv Hy) as [B HB].
  rewrite HB, !length_app in Hn. cbn [length] in Hn. lia.
Qed.

(** X22. In a non-empty well-formed tree, [n] increments from [begin()]
    lead to the [n]-th value in order, and as many increments as there
    are values lead to [end()]. *)
Theorem increment_traversal (t : btree) T :
  tree_inv t T ->
  (forall n x, inorder T !! n = Some x ->
     let it := Nat.iter n (fun it => increment it (heap t)) (btree_begin t) in
     node it <> 0%nat /\ slot (nd (heap t) (node it)) (pos it) = Some x) /\
  Nat.iter (length (inorder T)) (fun it => increment it (heap t)) (btree_begin t) =
    btree_end t.
Proof.
  intros Hinv. split; [|by apply nth_end].
  intros n x Hx it. destruct (nth_value t T n x Hinv Hx) as (A & Hpos & _).
  by apply (at_pos_slot t T _ A x).
Qed.

(** X23. In a non-empty well-formed tree, at every iterator reached from
    [begin()] before [end()], [decrement] undoes [increment]. *)
Theorem decrement_increment (t : btree) T n :
  tree_inv t T -> (n < length (inorder T))%nat ->
  let it := Nat.iter n (fun it => increment it (heap t)) (btree_begin t) in
  decrement (increment it (heap t)) (heap t) = it.
Proof.
  intros Hinv Hn it. destruct (nth_pos t T Hinv n Hn) as (A & x & Hpos & _).
  by destruct (increment_step t T _ A x Hinv Hpos) as [Hd _].
Qed.

Lemma decrement_from_end (t : btree) T :
  tree_inv t T -> forall k, (k <= length (inorder T))%nat ->
  Nat.iter k (fun it => decrement it (heap t)) (btree_end t) =
    nth_iterator t (length (inorder T) - k).
Proof.
  intros Hinv. induction k as [|k IH]; intros Hk.
  - rewrite Nat.sub_0_r. symmetry. by apply nth_end.
  - rewrite Nat.iter_succ, IH by lia.
    replace (length (inorder T) - k)%nat with (S (length (inorder T) - S k)) by lia.
    change (nth_iterator t (S (length (inorder T) - S k)))
      with (increment (nth_iterator t (length (inorder T) - S k)) (heap t)).
    destruct (nth_pos t T Hinv (length (inorder T) - S k) ltac:(lia)) as (A & x & Hpos & _).
    by destruct (increment_step t T _ A x Hinv Hpos) as [Hd _].
Qed.

(** X24. In a non-empty well-formed tree, [k + 1] decrements from [end()]
    lead to the value that has [k] values after it in order, and as many
    decrements as there are values lead to [begin()]. *)
Theorem decrement_traversal (t : btree) T :
  tree_inv t T ->
  (forall k x, (k < length (inorder T))%nat ->
     inorder T !! (length (inorder T) - S k)%nat = Some x ->
     let it := Nat.iter (S k) (fun it => decrement it (heap t)) (btree_end t) in
     node it <> 0%nat /\ slot (nd (heap t) (node it)) (pos it) = Some x) /\
  Nat.iter (length (inorder T)) (fun it => decrement it (heap t)) (btree_end t) =
    btree_begin t.
Proof.
  intros Hinv. split.
  - intros k x Hk Hx it. unfold it. rewrite (decrement_from_end t T Hinv) by lia.
    destruct (nth_value t T _ x Hinv Hx) as (A & Hpos & _).
    by apply (at_pos_slot t T _ A x).
  - rewrite (decrement_from_end t T Hinv) by lia. by rewrite Nat.sub_diag.
Qed.

End Step.


(** * insert_multi *)

Section InsertMulti.
Context `{P : Params}.





Hypothesis Hstatic : static_assert_field.
Hypothesis Hplain : is_key_compare_to = false.




End InsertMulti.


(** * erase of a value of a leaf, without rebalancing *)

Section EraseLeaf.
Context `{P : Params}.
Hypothesis Hstatic : static_assert_field.

(** A value leaves a leaf of the tree. *)
Lemma tree_remove_value_leaf (t : btree) c a mc vs rm sz j :
  tree_rep t (plug c (ALeaf a mc vs)) rm sz ->
  zlen vs <= mc -> mc < field_modulus -> 0 <= j < zlen vs ->
  let t' := on_heap (remove_value a j) t in
  tree_rep t' (plug c (ALeaf a mc (remove_at j vs))) rm sz /\
  next_addr (heap t') = next_addr (heap t) /\ key_comp t' = key_comp t /\
  root t' = root t /\
  last_leaf (plug c (ALeaf a mc (remove_at j vs))) = last_leaf (plug c (ALeaf a mc vs)).
Proof using Type.
  intros Hrep Hroom Hmod Hj t'.
  pose proof (tree_rep_sub t c _ rm sz Hrep) as Hs. apply rep_at_leaf in Hs.
  pose proof (tr_nodup _ _ _ _ Hrep) as Hnd.
  pose proof (tr_bound _ _ _ _ Hrep) as Hb.
  assert (heap t' = set_cell a (leaf_cell (hole_par c (first_leaf (plug c (ALeaf a mc vs))))
                                  (hole_pos c 0) mc (remove_at j vs)) (heap t)) as Hheap.
  { unfold t', on_heap. cbn [heap with_heap].
    by apply (remove_value_leaf a (heap t) _ _ mc vs j (heap t)). }
  split; [|split; [|split; [|split]]].
  - apply (tree_rep_plug t t' c (ALeaf a mc vs) (ALeaf a mc (remove_at j vs)) rm sz Hrep);
      [reflexivity|reflexivity| | | | | | |].
    + apply rep_at_leaf. rewrite Hheap. apply lookup_set_cell_eq.
    + intros y Hy. rewrite Hheap. apply lookup_set_cell_ne. intros <-.
      apply (ctx_not_sub c (ALeaf a mc vs) a Hnd Hy). apply list_elem_of_here.
    + apply NoDup_singleton.
    + intros y Hy. apply NoDup_plug in Hnd as (_ & Hdisj & _). by apply Hdisj.
    + intros y Hy. rewrite Hheap, next_addr_set_cell. apply Hb.
      apply elem_of_addrs_plug. by left.
    + rewrite Hheap, next_addr_set_cell. lia.
    + by apply first_leaf_plug.
  - by rewrite Hheap, next_addr_set_cell.
  - reflexivity.
  - reflexivity.
  - unfold last_leaf. by rewrite !leaves_plug.
Qed.

Lemma zdrop_head {A} (l : list A) j y :
  zget l j = Some y -> zdrop j l = y :: zdrop (j + 1) l.
Proof using Type.
  intros Hy. apply zget_Some_lt in Hy as Hj.
  rewrite (ztake_zdrop_mid _ _ _ Hy) at 1. rewrite zdrop_app_r by (rewrite zlen_take; lia).
  rewrite zlen_take by lia. rewrite Z.sub_diag. apply zdrop_0.
Qed.

(** [erase] at a value of a leaf that keeps enough values: one when the
    leaf is the root, [kMinNodeValues] otherwise. *)
Lemma erase_leaf_spec (t : btree) c a mc vs j x :
  tree_inv t (plug c (ALeaf a mc vs)) -> zget vs j = Some x ->
  match c with CTop => 2 <= zlen vs | _ => kMinNodeValues + 1 <= zlen vs end ->
  exists it' t',
    erase (mk_iterator a j) t = (it', t') /\
    tree_inv t' (plug c (ALeaf a mc (remove_at j vs))) /\
    inorder (plug c (ALeaf a mc vs)) =
      (ctx_before c ++ ztake j vs) ++ x :: (zdrop (j + 1) vs ++ ctx_after c) /\
    inorder (plug c (ALeaf a mc (remove_at j vs))) =
      (ctx_before c ++ ztake j vs) ++ (zdrop (j + 1) vs ++ ctx_after c) /\
    btree_size t' = btree_size t - 1 /\ key_comp t' = key_comp t /\
    match zdrop (j + 1) vs ++ ctx_after c with
    | [] => it' = btree_end t'
    | y :: _ => node it' <> 0%nat /\ slot (nd (heap t') (node it')) (pos it') = Some y
    end.
Proof using Hstatic.
  intros Hinv Hx Henough. pose proof Hinv as [Hrep Hroot].
  pose proof kNodeValues_pos as HK. apply zget_Some_lt in Hx as Hj.
  pose proof Hstatic as Hst. unfold static_assert_field in Hst.
  assert (1 <= kMinNodeValues) as HkMin.
  { unfold kMinNodeValues. apply Z.div_le_lower_bound; lia. }
  set (T := plug c (ALeaf a mc vs)) in *.
  set (T' := plug c (ALeaf a mc (remove_at j vs))).
  destruct (focus_facts t c _ Hinv) as (Hlens & _ & Hcap & _). cbn [avals acap] in Hcap.
  pose proof (zlen_remove_at j vs Hj) as Hlen'.
  assert (mc <= kNodeValues /\ 2 <= zlen vs /\ wf_root T') as (Hmc & H2 & Hroot').
  { destruct c as [|p pvs Ls Rs c0].
    - cbn [plug] in *. destruct Hroot as [_ Hmc]. split; [done|]. split; [done|].
      unfold T'. cbn [plug wf_root]. lia.
    - destruct (wf_plug_inv (CNode p pvs Ls Rs c0) _ ltac:(done) Hroot) as (h & Hcw & Hwf).
      destruct Hwf as (-> & -> & _). split; [lia|]. split; [lia|].
      apply (wf_root_plug _ 0%nat); [done|done|]. apply wf_leaf. lia. }
  assert (inorder T = (ctx_before c ++ ztake j vs) ++ x :: (zdrop (j + 1) vs ++ ctx_after c))
    as HT.
  { unfold T. rewrite inorder_leaf_plug by done. rewrite (ztake_zdrop_mid vs j x Hx) at 1.
    by rewrite <- !app_assoc. }
  assert (inorder T' = (ctx_before c ++ ztake j vs) ++ (zdrop (j + 1) vs ++ ctx_after c))
    as HT'.
  { unfold T'. rewrite inorder_leaf_plug by done. unfold remove_at.
    by rewrite <- !app_assoc. }
  assert (zlen (inorder T') = zlen (inorder T) - 1) as Hsz.
  { rewrite HT', HT. rewrite !zlen_app, zlen_cons, !zlen_app. lia. }
  (* the size *)
  destruct (rep_at_nd _ _ _ _ _ _ (tr_rep _ _ _ _ Hrep)) as (HleafT & _).
  rewrite <- (tr_root _ _ _ _ Hrep) in HleafT.
  set (t1 := if negb (leaf (nd (heap t) (root t))) then add_size (-1) t else t).
  assert (tree_rep t1 T (last_leaf T) (zlen (inorder T')) /\
          next_addr (heap t1) = next_addr (heap t) /\ key_comp t1 = key_comp t /\
          root t1 = root t) as (Hrep1 & Hn1 & Hk1 & Hr1).
  { unfold t1. rewrite HleafT. destruct (is_leaf T) eqn:HlT; cbn [negb].
    - split; [by apply (tree_rep_leaf_fields t T (last_leaf T) (zlen (inorder T)))|done].
    - rewrite Hsz. split; [by apply tree_rep_add_size|].
      destruct (add_size_fields (-1) t) as (-> & -> & ->). done. }
  (* the value leaves the leaf *)
  destruct (tree_remove_value_leaf t1 c a mc vs _ _ j Hrep1 Hcap ltac:(lia) Hj)
    as (Hrep2 & Hn2 & Hk2 & Hr2 & Hlast).
  set (t2 := on_heap (remove_value a j) t1) in *. fold T T' in Hlast, Hrep2.
  rewrite <- Hlast in Hrep2.
  assert (tree_inv t2 T') as Hinv2 by (by split).
  pose proof (tree_rep_sub t2 c _ _ _ Hrep2) as Hs2.
  destruct (rep_at_nd _ _ _ _ _ _ Hs2) as (Hl2 & Hc2 & _). cbn [addr avals is_leaf] in Hl2, Hc2.
  pose proof (tree_rep_sub t c _ _ _ Hrep) as Hs.
  destruct (rep_at_nd _ _ _ _ _ _ Hs) as (Hl & _). cbn [addr is_leaf] in Hl.
  assert (0 < a < next_addr (heap t2))%nat as Ha.
  { apply (tr_bound _ _ _ _ Hrep2). apply elem_of_addrs_plug. left. apply list_elem_of_here. }
  (* the loop stops at once *)
  assert (erase_loop (fuel_of (heap t2)) (mk_iterator a j) (mk_iterator a j) t2 =
          (false, mk_iterator a j, t2)) as Hloop.
  { unfold fuel_of. cbn [erase_loop node]. rewrite (tr_root _ _ _ _ Hrep2).
    destruct c as [|p pvs Ls Rs c0].
    - unfold T'. cbn [plug addr]. rewrite Nat.eqb_refl.
      unfold try_shrink. rewrite (tr_root _ _ _ _ Hrep2). unfold T'. cbn [plug addr].
      rewrite Hc2. destruct (Z.ltb_spec 0 (zlen (remove_at j vs))); [|lia].
      unfold empty. rewrite (tr_root _ _ _ _ Hrep2). unfold T'. cbn [plug addr].
      by destruct (Nat.eqb_spec a 0); [lia|].
    - destruct (Nat.eqb_spec a (addr T')) as [Heq|_].
      { exfalso. apply (ctx_not_sub (CNode p pvs Ls Rs c0) (ALeaf a mc (remove_at j vs)) a
                          (tr_nodup _ _ _ _ Hrep2)); [|apply list_elem_of_here].
        rewrite Heq. by apply plug_root_in_ctx. }
      rewrite Hc2. by destruct (Z.leb_spec kMinNodeValues (zlen (remove_at j vs))); [|lia]. }
  unfold erase. cbn [node pos]. rewrite Hl. cbn [negb].
  assert ((if negb (leaf (nd (heap t) (root t)))
           then (mk_iterator a j, add_size (-1) t) else (mk_iterator a j, t)) =
          (mk_iterator a j, t1)) as -> by (unfold t1; by destruct (negb _)).
  cbn [node pos]. fold t2. rewrite Hloop. cbn [node pos]. rewrite Hc2.
  assert (btree_size t2 = btree_size t - 1) as Hsize.
  { rewrite (btree_size_inorder t2 T' Hrep2), (btree_size_inorder t T Hrep). exact Hsz. }
  destruct (Z.eqb_spec j (zlen (remove_at j vs))) as [Hjend|Hjin].
  - (* the last value of the leaf: the next value is outside *)
    assert (zdrop (j + 1) vs = []) as Hd by (apply zdrop_all; lia).
    assert (remove_at j vs = ztake j vs) as Hrem by (unfold remove_at; by rewrite Hd, app_nil_r).
    destruct (zget_is_Some (remove_at j vs) (j - 1)) as [x' Hx']; [lia|].
    assert (at_pos T' (mk_iterator a (zlen (remove_at j vs) - 1))
              (ctx_before c ++ ztake (j - 1) (remove_at j vs)) x') as Hpos.
    { exists c, (ALeaf a mc (remove_at j vs)). cbn [node pos addr avals val_before].
      rewrite <- Hjend. done. }
    assert ((ctx_before c ++ ztake (j - 1) (remove_at j vs)) ++ [x'] =
            ctx_before c ++ ztake j vs) as HA.
    { rewrite <- app_assoc. f_equal.
      rewrite <- (ztake_snoc (remove_at j vs) (j - 1) x') by (done || lia).
      replace (j - 1 + 1) with j by lia. rewrite ztake_all by lia. exact Hrem. }
    destruct (increment_step t2 T' _ _ x' Hinv2 Hpos) as [_ Hnext].
    rewrite HA in Hnext. rewrite Hd in *. cbn [app] in *.
    eexists _, t2. split; [reflexivity|]. split; [exact Hinv2|]. split; [exact HT|].
    split; [exact HT'|]. split; [exact Hsize|]. split; [congruence|].
    destruct Hnext as [[y Hy]|[Hin Hend]].
    + destruct (at_pos_inorder t2 T' _ _ y Hinv2 Hy) as [B HB].
      rewrite HT' in HB. apply app_inv_head in HB. rewrite HB.
      by apply (at_pos_slot t2 T' _ _ y Hinv2 Hy).
    + rewrite HT' in Hin. rewrite <- (app_nil_r (ctx_before c ++ ztake j vs)) in Hin at 2.
      apply app_inv_head in Hin. by rewrite Hin.
  - (* the next value is in the leaf *)
    destruct (zget_is_Some vs (j + 1)) as [y Hy]; [lia|].
    rewrite (zdrop_head vs (j + 1) y Hy) in HT, HT' |- *. cbn [app] in HT, HT' |- *.
    eexists _, t2. split; [reflexivity|]. split; [exact Hinv2|]. split; [exact HT|].
    split; [exact HT'|]. split; [exact Hsize|]. split; [congruence|].
    cbn [node pos]. split; [lia|].
    apply (rep_at_slot _ _ _ _ _ (ALeaf a mc (remove_at j vs)) _ _ Hs2); [|cbn [acap]; lia].
    cbn [avals]. rewrite zget_remove_at by lia. by destruct (Z.ltb_spec j j); [lia|].
Qed.

(** [erase] of the only value of a tree. *)
Lemma erase_only_value (t : btree) a mc x :
  tree_inv t (ALeaf a mc [x]) ->
  exists t',
    erase (mk_iterator a 0) t = (mk_iterator 0%nat 0, t') /\
    root t' = 0%nat /\ cells (heap t') !! a = None /\
    next_addr (heap t') = next_addr (heap t) /\ key_comp t' = key_comp t.
Proof using Hstatic.
  intros Hinv. pose proof Hinv as [Hrep Hroot]. cbn [wf_root] in Hroot.
  pose proof Hstatic as Hst. unfold static_assert_field in Hst.
  change (zlen [x]) with 1 in Hroot.
  pose proof (tr_root _ _ _ _ Hrep) as Hr. cbn [addr] in Hr.
  destruct (rep_at_nd _ _ _ _ _ _ (tr_rep _ _ _ _ Hrep)) as (Hl & _). cbn [addr is_leaf] in Hl.
  destruct (tree_remove_value_leaf t CTop a mc [x] _ _ 0 Hrep ltac:(change (zlen [x]) with 1; lia)
              ltac:(lia) ltac:(change (zlen [x]) with 1; lia))
    as (Hrep2 & Hn2 & Hk2 & Hr2 & _).
  set (t2 := on_heap (remove_value a 0) t) in *. cbn [plug] in Hrep2.
  change (remove_at 0 [x]) with (@nil value_type) in Hrep2.
  destruct (rep_at_nd _ _ _ _ _ _ (tr_rep _ _ _ _ Hrep2)) as (Hl2 & Hc2 & _).
  cbn [addr is_leaf avals] in Hl2, Hc2. change (zlen (@nil value_type)) with 0 in Hc2.
  assert (0 < a < next_addr (heap t))%nat as Ha.
  { apply (tr_bound _ _ _ _ Hrep). apply list_elem_of_here. }
  unfold erase. cbn [node pos]. rewrite Hl, Hr, Hl. cbn [negb node pos]. fold t2.
  unfold fuel_of. cbn [erase_loop node]. rewrite Hr2, Hr, Nat.eqb_refl.
  unfold try_shrink. rewrite Hr2, Hr, Hc2, Hl2. change (0 <? 0) with false. cbv iota.
  unfold delete_leaf_node, on_heap, with_root, with_heap, empty, btree_end, btree_rightmost.
  cbn [heap root key_comp Nat.eqb orb negb].
  eexists. split; [reflexivity|]. cbn [root heap key_comp].
  split; [reflexivity|]. split; [|split; [|exact Hk2]].
  - rewrite lookup_deallocate. by destruct (decide (a = a)).
  - rewrite destroy_empty by exact Hc2. unfold deallocate. cbn [next_addr]. exact Hn2.
Qed.


(** X27. [erase] of the only value of a tree empties it: the iterator
    returned is the [end()] of the empty tree, the root is null, the size
    is 0 and the root leaf is freed. *)
Theorem erase_last_value (t : btree) a mc x :
  tree_inv t (ALeaf a mc [x]) ->
  exists t',
    erase (btree_begin t) t = (btree_end t', t') /\
    empty t' = true /\ btree_size t' = 0 /\ btree_begin t' = btree_end t' /\
    cells (heap t') !! a = None /\ key_comp t' = key_comp t.
Proof using Hstatic.
  intros Hinv. pose proof Hinv as [Hrep _].
  destruct (erase_only_value t a mc x Hinv) as (t' & He & Hr & Hfree & _ & Hk).
  assert (btree_begin t = mk_iterator a 0) as ->.
  { pose proof (tr_root _ _ _ _ Hrep) as Hroot. cbn [addr] in Hroot.
    destruct (rep_at_nd _ _ _ _ _ _ (tr_rep _ _ _ _ Hrep)) as (_ & _ & _ & Hp & _).
    cbn [addr] in Hp. change (first_leaf (ALeaf a mc [x])) with a in Hp.
    assert (0 < a)%nat as Ha by (apply (tr_bound _ _ _ _ Hrep); apply list_elem_of_here).
    unfold btree_begin, btree_leftmost. rewrite Hroot, Hp.
    by destruct (Nat.eqb_spec a 0); [lia|]. }
  exists t'. unfold btree_end, btree_begin, btree_leftmost, btree_rightmost, btree_size, empty.
  rewrite Hr. cbn [Nat.eqb orb negb]. done.
Qed.

End EraseLeaf.


(** * erase_unique of a key that is not stored *)

Section EraseUnique.
Context `{P : Params}.
Hypothesis Hplain : is_key_compare_to = false.

(** X28. [erase_unique] of a key to which no stored key is equivalent, in
    a non-empty well-formed tree sorted by a transitive plain comparator:
    the count returned is 0 and the tree is left as it was. *)
Theorem erase_unique_absent (t : btree) T k :
  tree_inv t T -> transitive_comp (key_comp t) ->
  StronglySorted (key_lt (key_comp t)) (inorder T) ->
  Forall (fun y => ~ equivalent (key_comp t) k y) (inorder T) ->
  erase_unique k t = (0, t).
Proof using Hplain.
  intros Hinv Htr Hsort Hnone. unfold erase_unique.
  destruct (internal_find_unique_spec Hplain t T k Hinv Htr Hsort)
    as [(y & Hy & Heq & _)|[-> _]].
  - rewrite Forall_forall in Hnone. by destruct (Hnone y Hy).
  - reflexivity.
Qed.

End EraseUnique.


(** * erase followed by find_unique *)

Section EraseFind.
Context `{P : Params}.
Hypothesis Hstatic : static_assert_field.
Hypothesis Hplain : is_key_compare_to = false.

(** A sorted list without one of its values: it is sorted, and none of its
    values has a key equivalent to the key of the value left out. *)
Lemma sorted_remove comp X x Y :
  StronglySorted (key_lt comp) (X ++ x :: Y) ->
  StronglySorted (key_lt comp) (X ++ Y) /\
  Forall (fun y => ~ equivalent comp (params_key x) y) (X ++ Y).
Proof using Type.
  intros Hsort. pose proof Hsort as (Hxy & HsX & HsY)%sorting.StronglySorted_app.
  apply sorting.StronglySorted_cons in HsY as [HxY HsY]. split.
  - apply sorting.StronglySorted_app_2; [|exact HsX|exact HsY].
    intros x1 x2 Hx1 Hx2. apply Hxy; [exact Hx1|]. by apply list_elem_of_further.
  - apply Forall_app. split.
    + apply Forall_forall. intros y Hy [He _].
      pose proof (Hxy y x Hy ltac:(apply list_elem_of_here)) as Hlt.
      unfold key_lt in Hlt. congruence.
    + eapply Forall_impl; [exact HxY|]. intros y Hlt [_ He]. unfold key_lt in Hlt.
      congruence.
Qed.

(** X30. After [erase] at a value of a leaf that keeps enough values, in a
    tree sorted by a transitive plain comparator, the tree is still
    sorted, no stored key is equivalent to the key of the erased value,
    and [find_unique] of that key returns [end()]. *)
Theorem erase_then_find (t : btree) c a mc vs j x :
  tree_inv t (plug c (ALeaf a mc vs)) -> zget vs j = Some x ->
  match c with CTop => 2 <= zlen vs | _ => kMinNodeValues + 1 <= zlen vs end ->
  transitive_comp (key_comp t) ->
  StronglySorted (key_lt (key_comp t)) (inorder (plug c (ALeaf a mc vs))) ->
  exists it' t' T',
    erase (mk_iterator a j) t = (it', t') /\ tree_inv t' T' /\
    StronglySorted (key_lt (key_comp t')) (inorder T') /\
    Forall (fun y => ~ equivalent (key_comp t') (params_key x) y) (inorder T') /\
    find_unique (params_key x) t' = btree_end t'.
Proof using Hstatic Hplain.
  intros Hinv Hx Henough Htr Hsort.
  destruct (erase_leaf_spec Hstatic t c a mc vs j x Hinv Hx Henough)
    as (it' & t' & He & Hinv' & HT & HT' & _ & Hk & _).
  rewrite HT in Hsort. apply sorted_remove in Hsort as [Hsort' Hnone].
  rewrite <- HT', <- Hk in Hsort', Hnone. rewrite <- Hk in Htr.
  exists it', t', (plug c (ALeaf a mc (remove_at j vs))).
  split; [exact He|]. split; [exact Hinv'|]. split; [exact Hsort'|]. split; [exact Hnone|].
  destruct (find_unique_spec Hplain t' _ (params_key x) Hinv' Htr Hsort')
    as [(y & Hy & Heq & _)|[Hend _]]; [|exact Hend].
  rewrite Forall_forall in Hnone. by destruct (Hnone y Hy).
Qed.

End EraseFind.


(** * try_shrink *)

Section TryShrink.
Context `{P : Params}.
Hypothesis Hstatic : static_assert_field.

(** The root has lost its last value and has one child, a leaf: the leaf
    becomes the root. *)
Lemma try_shrink_leaf (t : btree) a c mc vs rm sz :
  tree_rep t (ANode a [] [ALeaf c mc vs]) rm sz ->
  let t' := try_shrink t in
  (forall rm' sz', tree_rep t' (ALeaf c mc vs) rm' sz') /\
  cells (heap t') !! a = None /\
  next_addr (heap t') = next_addr (heap t) /\ key_comp t' = key_comp t.
Proof using Type.
  intros Hrep t'. pose proof kNodeValues_pos as HK.
  pose proof (tr_root _ _ _ _ Hrep) as Hroot. cbn [addr] in Hroot.
  pose proof (tr_rep _ _ _ _ Hrep) as Hr.
  destruct (rep_at_nd _ _ _ _ _ _ Hr) as (Hl & Hc & _ & Hp & _).
  cbn [addr is_leaf avals] in Hl, Hc, Hp. change (zlen (@nil value_type)) with 0 in Hc.
  change (first_leaf (ANode a [] [ALeaf c mc vs])) with c in Hp.
  pose proof (rep_at_child _ _ _ _ _ (ANode a [] [ALeaf c mc vs]) 0 (ALeaf c mc vs) Hr
                eq_refl ltac:(lia)) as Hch. cbn [addr] in Hch.
  apply rep_at_node in Hr as [_ Hkids].
  pose proof (Hkids 0 (ALeaf c mc vs) eq_refl) as Hk. apply rep_at_leaf in Hk.
  pose proof (tr_nodup _ _ _ _ Hrep) as Hnd. cbn in Hnd.
  apply NoDup_cons in Hnd as [Hac _].
  assert (a <> c) as Hne by (intros ->; apply Hac; apply list_elem_of_here).
  assert (0 < c < next_addr (heap t))%nat as Hcb.
  { apply (tr_bound _ _ _ _ Hrep). cbn. apply list_elem_of_further, list_elem_of_here. }
  assert (t' = with_root c (on_heap (fun m => deallocate a m)
                              (on_heap (set_cell c (leaf_cell c 0 mc vs)) t))) as ->.
  { unfold t', try_shrink. rewrite Hroot, Hc, Hl, Hch. change (0 <? 0) with false. cbv iota.
    rewrite (nd_lookup _ _ _ Hk). change (leaf (leaf_cell a 0 mc vs)) with true. cbv iota.
    unfold delete_internal_root_node, on_heap, with_root, with_heap. cbn [heap root key_comp].
    rewrite Hroot. unfold make_root. rewrite upd_set_cell, (nd_lookup _ _ _ Hk).
    change (parent (leaf_cell a 0 mc vs)) with a. rewrite Hp.
    change (with_parent c (leaf_cell a 0 mc vs)) with (leaf_cell c 0 mc vs).
    rewrite destroy_empty; [done|]. by rewrite nd_set_cell_ne. }
  unfold on_heap, with_root, with_heap. cbn [heap root key_comp].
  split; [|split; [|split]].
  - intros rm' sz'. split.
    + reflexivity.
    + apply rep_at_leaf. cbn [heap]. rewrite lookup_deallocate.
      destruct (decide (c = a)); [congruence|]. apply lookup_set_cell_eq.
    + apply NoDup_singleton.
    + intros y Hy. cbn [addrs] in Hy. apply list_elem_of_singleton in Hy as ->.
      cbn [heap]. unfold deallocate. cbn [next_addr]. by rewrite next_addr_set_cell.
  - rewrite lookup_deallocate. by destruct (decide (a = a)).
  - unfold deallocate. cbn [next_addr]. by rewrite next_addr_set_cell.
  - reflexivity.
Qed.

(** The root has lost its last value and has one child, an internal node:
    the root takes the content of the child, which is freed. *)
Lemma try_shrink_internal (t : btree) a c vs cs rm sz :
  tree_rep t (ANode a [] [ANode c vs cs]) rm sz ->
  zlen vs <= kNodeValues -> zlen cs = zlen vs + 1 ->
  let t' := try_shrink t in
  tree_rep t' (ANode a vs cs) rm sz /\
  cells (heap t') !! c = None /\
  next_addr (heap t') = next_addr (heap t) /\ key_comp t' = key_comp t.
Proof using Hstatic.
  intros Hrep Hvs Hcs t'. pose proof kNodeValues_pos as HK.
  pose proof (tr_root _ _ _ _ Hrep) as Hroot. cbn [addr] in Hroot.
  pose proof (tr_rep _ _ _ _ Hrep) as Hr.
  destruct (rep_at_nd _ _ _ _ _ _ Hr) as (Hl & Hc & _).
  cbn [addr is_leaf avals] in Hl, Hc. change (zlen (@nil value_type)) with 0 in Hc.
  pose proof (rep_at_child _ _ _ _ _ (ANode a [] [ANode c vs cs]) 0 (ANode c vs cs) Hr
                eq_refl ltac:(lia)) as Hch. cbn [addr] in Hch.
  pose proof Hr as [_ Hkids]%rep_at_node.
  pose proof (Hkids 0 (ANode c vs cs) eq_refl) as Hk.
  destruct (rep_at_nd _ _ _ _ _ _ Hk) as (Hlc & _). cbn [addr is_leaf] in Hlc.
  pose proof (tr_nodup _ _ _ _ Hrep) as Hnd.
  destruct (swap_up_rep Hstatic (heap t) _ rm sz a c vs cs Hr Hnd Hvs Hcs)
    as (Hrep' & Hframe & Hnext & Hlc' & Hcc').
  assert (t' = on_heap (deallocate c) (on_heap (swap c a) t)) as ->.
  { unfold t', try_shrink. rewrite Hroot, Hc, Hl, Hch, Hlc. change (0 <? 0) with false.
    cbv iota. unfold delete_internal_node, on_heap, with_heap. cbn [heap root key_comp].
    rewrite Hroot. by rewrite destroy_empty. }
  unfold on_heap, with_heap. cbn [heap root key_comp].
  assert (c ∉ addrs (ANode a vs cs)) as Hca.
  { rewrite addrs_node in Hnd. cbn [fmap list_fmap concat] in Hnd. rewrite app_nil_r in Hnd.
    apply NoDup_cons in Hnd as [Ha Hnd]. rewrite addrs_node in Ha, Hnd.
    apply NoDup_cons in Hnd as [Hc' _]. rewrite addrs_node. intros [->|Hin]%elem_of_cons.
    - apply Ha. apply list_elem_of_here.
    - by apply Hc'. }
  split; [|split; [|split]].
  - split.
    + exact Hroot.
    + cbn [heap].
      replace (first_leaf (ANode a vs cs)) with (first_leaf (ANode a [] [ANode c vs cs]))
        by (unfold first_leaf; by rewrite leaves_single).
      apply (rep_at_frame _ _ _ _ _ _ _ Hrep'). intros y Hy. rewrite lookup_deallocate.
      destruct (decide (y = c)) as [->|]; [done|]. done.
    + rewrite addrs_node in Hnd. cbn [fmap list_fmap concat] in Hnd.
      rewrite app_nil_r in Hnd. apply NoDup_cons in Hnd as [Ha Hnd].
      rewrite addrs_node in Ha, Hnd. apply NoDup_cons in Hnd as [_ Hnd].
      rewrite addrs_node. apply NoDup_cons. split; [|done].
      intros Hin. apply Ha. by apply list_elem_of_further.
    + intros y Hy. cbn [heap]. unfold deallocate. cbn [next_addr]. rewrite Hnext.
      apply (tr_bound _ _ _ _ Hrep). rewrite addrs_node in Hy. rewrite !addrs_node.
      cbn [fmap list_fmap concat]. rewrite app_nil_r.
      apply elem_of_cons in Hy as [->|Hy]; [apply list_elem_of_here|].
      by do 2 apply list_elem_of_further.
  - rewrite lookup_deallocate. by destruct (decide (c = c)).
  - unfold deallocate. cbn [next_addr]. exact Hnext.
  - reflexivity.
Qed.

(** X29. [try_shrink] on a root that has lost its last value and has one
    child left takes a level off the tree: the store represents the child
    as the whole tree, with the same values in the same order; a leaf
    child becomes the root and the old root is freed, an internal child
    gives its content to the root and is freed itself. *)
Theorem try_shrink_tree (t : btree) a T1 minc h rm sz :
  tree_rep t (ANode a [] [T1]) rm sz -> wf minc h T1 ->
  let t' := try_shrink t in
  exists T',
    tree_rep t' T' (if is_leaf T1 then last_leaf T' else rm)
      (if is_leaf T1 then zlen (inorder T') else sz) /\
    inorder T' = inorder (ANode a [] [T1]) /\ wf minc h T' /\
    addr T' = (if is_leaf T1 then addr T1 else a) /\
    cells (heap t') !! (if is_leaf T1 then a else addr T1) = None /\
    next_addr (heap t') = next_addr (heap t) /\ key_comp t' = key_comp t.
Proof using Hstatic.
  intros Hrep Hwf t'. rewrite inorder_single_kid.
  destruct T1 as [c mc vs|c vs cs]; cbn [is_leaf addr].
  - destruct (try_shrink_leaf t a c mc vs rm sz Hrep) as (Hrep' & Hfree & Hn & Hk).
    exists (ALeaf c mc vs). split; [apply Hrep'|]. done.
  - pose proof Hwf as (Hvs & Hcs & h' & -> & Hkids)%wf_node.
    destruct (try_shrink_internal t a c vs cs rm sz Hrep ltac:(lia) Hcs)
      as (Hrep' & Hfree & Hn & Hk).
    exists (ANode a vs cs). split; [exact Hrep'|]. split; [by rewrite !inorder_node|].
    split; [|done]. apply wf_node. eauto 6.
Qed.

End TryShrink.


(** * Instances *)

Lemma static_assert_256 : @static_assert_field (map_int32_params 256).
Proof. vm_compute. reflexivity. Qed.

(** A tree made of a single leaf root of capacity 1. *)
Definition small_tree : @btree (map_int32_params 256) :=
  @mk_btree (map_int32_params 256)
    (@mk_memory (map_int32_params 256)
       {[ 1%nat := @leaf_cell (map_int32_params 256) 1%nat 0 1 [(5, 50)] ]} 2%nat)
    tt 1%nat.

Lemma small_root_doubling_witness :
  exists h',
    @internal_insert (map_int32_params 256) (mk_iterator 1%nat 0) (3, 30) small_tree =
      (mk_iterator 2%nat 0, @mk_btree (map_int32_params 256) h' tt 2%nat) /\
    cells h' !! 2%nat =
      Some (@leaf_cell (map_int32_params 256) 2%nat 0 2 [(3, 30); (5, 50)]) /\
    cells h' !! 1%nat = None.
Proof.
  destruct (@small_root_doubling (map_int32_params 256) static_assert_256
              small_tree 1%nat 1 [(5, 50)] 0 (3, 30))
    as (h' & H1 & H2 & H3 & _).
  - reflexivity.
  - reflexivity.
  - reflexivity.
  - vm_compute. split; [discriminate|reflexivity].
  - lia.
  - discriminate.
  - exists h'. split; [exact H1|]. split; [exact H2|exact H3].
Defined.


(** * A small instance: nodes of four values *)

Definition P48 : Params := map_int32_params 48.
#[local] Existing Instance P48.

Lemma static_assert_48 : @static_assert_field P48.
Proof. vm_compute. reflexivity. Qed.

Lemma kNodeValues_48 : @kNodeValues P48 = 4.
Proof. vm_compute. reflexivity. Qed.

(** A root with one value above two leaves, at the addresses 1, 2 and 3. *)
Definition kids23 (q : Z) : nat := if q =? 0 then 2%nat else if q =? 1 then 3%nat else 0%nat.

Definition two_leaves_heap (lv rv : list (Z * Z)) (d : Z * Z) (sz : Z) : memory :=
  set_cell 1%nat (internal_cell 2%nat 0 [d] kids23 3%nat sz)
    (set_cell 2%nat (leaf_cell 1%nat 0 4 lv)
       (set_cell 3%nat (leaf_cell 1%nat 1 4 rv) (mk_memory ∅ 4%nat))).

Definition two_leaves (lv rv : list (Z * Z)) (d : Z * Z) (sz : Z) : btree :=
  mk_btree (two_leaves_heap lv rv d sz) tt 1%nat.

Definition leaf48 (a : nat) (vs : list (Z * Z)) : atree := @ALeaf P48 a 4 vs.

Definition two_leaves_tree (lv rv : list (Z * Z)) (d : Z * Z) : atree :=
  ANode 1%nat [d] [leaf48 2%nat lv; leaf48 3%nat rv].

Lemma two_leaves_rep lv rv d sz :
  tree_rep (two_leaves lv rv d sz) (two_leaves_tree lv rv d) 3%nat sz.
Proof.
  split.
  - reflexivity.
  - apply rep_at_node. split.
    + exists kids23. split; [apply lookup_set_cell_eq|].
      intros q c. rewrite zget_cons. destruct (Z.eqb_spec q 0) as [->|]; [by intros [= <-]|].
      rewrite zget_cons. destruct (Z.eqb_spec (q - 1) 0) as [Hq|].
      * assert (q = 1) as -> by lia. by intros [= <-].
      * by rewrite zget_nil.
    + intros q c. rewrite zget_cons. destruct (Z.eqb_spec q 0) as [->|].
      * intros [= <-]. apply rep_at_leaf. unfold two_leaves, two_leaves_heap. cbn [heap].
        rewrite lookup_set_cell_ne by done. apply lookup_set_cell_eq.
      * rewrite zget_cons. destruct (Z.eqb_spec (q - 1) 0) as [Hq|]; [|by rewrite zget_nil].
        assert (q = 1) as -> by lia. intros [= <-]. apply rep_at_leaf.
        unfold two_leaves, two_leaves_heap. cbn [heap].
        rewrite !lookup_set_cell_ne by done. apply lookup_set_cell_eq.
  - unfold two_leaves_tree. cbn. repeat constructor; set_solver.
  - intros y Hy. unfold two_leaves_tree in Hy. cbn in Hy.
    unfold two_leaves, two_leaves_heap. cbn [heap]. rewrite !next_addr_set_cell. cbn.
    set_solver by lia.
Qed.

Lemma wf_leaf_48 k a vs : k <= zlen vs <= 4 -> wf k 0 (leaf48 a vs).
Proof. intros Hk. split; [done|]. split; [done|]. by rewrite kNodeValues_48. Qed.

(** * Instances of the theorems *)

Definition sample_leaf : btree_node := leaf_cell 1%nat 0 4 [(1, 10); (3, 30); (5, 50)].

Lemma linear_search_plain_compare_first_witness :
  first_not_before sample_leaf 3 Z.ltb 0 3
    (linear_search_plain_compare sample_leaf 3 0 3 Z.ltb).
Proof. apply (linear_search_plain_compare_first (P := P48)). lia. Defined.

Lemma sample_leaf_partitioned : partitioned sample_leaf 3 Z.ltb 0 3.
Proof.
  intros i j Hi Hij Hj.
  assert (i = 0 \/ i = 1 \/ i = 2) as Hi' by lia.
  assert (j = 0 \/ j = 1 \/ j = 2) as Hj' by lia.
  destruct Hi' as [-> | [-> | ->]], Hj' as [-> | [-> | ->]];
    vm_compute; intros; (congruence || lia).
Qed.

Lemma binary_search_plain_compare_linear_witness :
  binary_search_plain_compare sample_leaf 3 0 3 Z.ltb =
  linear_search_plain_compare sample_leaf 3 0 3 Z.ltb.
Proof.
  apply (binary_search_plain_compare_linear (P := P48)); [lia|exact sample_leaf_partitioned].
Defined.

Definition one_leaf_heap : memory :=
  mk_memory {[ 1%nat := leaf_cell 1%nat 0 4 [(1, 10); (5, 50)] ]} 2%nat.

Lemma insert_value_on_leaf_witness :
  insert_value 1%nat 1 (3, 30) one_leaf_heap =
  set_cell 1%nat (leaf_cell 1%nat 0 4 (insert_at 1 (3, 30) [(1, 10); (5, 50)])) one_leaf_heap.
Proof.
  apply (insert_value_on_leaf (P := P48) 1%nat 1%nat 0 4 [(1, 10); (5, 50)] 1 (3, 30));
    [reflexivity|vm_compute; reflexivity|vm_compute; reflexivity|].
  vm_compute. split; discriminate.
Defined.

Lemma remove_value_on_leaf_witness :
  remove_value 1%nat 0 one_leaf_heap =
  set_cell 1%nat (leaf_cell 1%nat 0 4 (remove_at 0 [(1, 10); (5, 50)])) one_leaf_heap.
Proof.
  apply (remove_value_on_leaf (P := P48) 1%nat 1%nat 0 4 [(1, 10); (5, 50)] 0);
    [reflexivity|vm_compute; discriminate|vm_compute; reflexivity|].
  vm_compute. split; [discriminate|reflexivity].
Defined.

Lemma remove_value_insert_value_witness :
  remove_value 1%nat 1 (insert_value 1%nat 1 (3, 30) one_leaf_heap) = one_leaf_heap.
Proof.
  apply (remove_value_insert_value (P := P48) 1%nat 1%nat 0 4 [(1, 10); (5, 50)]);
    [reflexivity|vm_compute; reflexivity|vm_compute; reflexivity|].
  vm_compute. split; discriminate.
Defined.

Lemma insert_value_remove_value_witness :
  insert_value 1%nat 0 (1, 10) (remove_value 1%nat 0 one_leaf_heap) = one_leaf_heap.
Proof.
  apply (insert_value_remove_value (P := P48) 1%nat 1%nat 0 4 [(1, 10); (5, 50)]);
    [reflexivity|vm_compute; discriminate|vm_compute; reflexivity|reflexivity].
Defined.

Definition no_tree : btree := btree_new tt (mk_memory ∅ 1%nat).

Lemma empty_tree_queries_witness :
  btree_begin no_tree = btree_end no_tree /\ btree_size no_tree = 0 /\
  find_unique 7 no_tree = btree_end no_tree /\ find_multi 7 no_tree = btree_end no_tree /\
  btree_lower_bound 7 no_tree = btree_end no_tree /\
  btree_upper_bound 7 no_tree = btree_end no_tree /\
  erase_unique 7 no_tree = (0, no_tree) /\ clear no_tree = no_tree.
Proof. apply (empty_tree_queries (P := P48)). reflexivity. Defined.

Lemma insert_unique_first_witness :
  let t' := mk_btree (set_cell 1%nat (leaf_cell 1%nat 0 1 [(7, 70)]) (bump (heap no_tree)))
              tt 1%nat in
  insert_unique 7 (7, 70) no_tree = ((mk_iterator 1%nat 0, true), t') /\
  btree_size t' = 1 /\
  find_unique 7 t' = mk_iterator 1%nat 0 /\
  btree_begin t' = mk_iterator 1%nat 0 /\ btree_end t' = mk_iterator 1%nat 1.
Proof.
  apply (insert_unique_first (P := P48) no_tree (7, 70)).
  - reflexivity.
  - vm_compute. lia.
  - vm_compute. repeat split.
Defined.

(** The siblings [2] and [3] of the small tree. *)
Definition lv0 : list (Z * Z) := [(1, 10); (2, 20)].
Definition rv0 : list (Z * Z) := [(4, 40); (5, 50); (6, 60)].
Definition d0 : Z * Z := (3, 30).

Lemma rebalance_right_to_left_tree_witness :
  let t := two_leaves lv0 rv0 d0 6 in
  let t' := with_heap (rebalance_right_to_left 2%nat 3%nat 1 (heap t)) t in
  exists lt' rt' x,
    tree_rep t' (plug CTop (ANode 1%nat (<[Z.to_nat (zlen (@nil atree)) := x]> [d0])
                              ([] ++ lt' :: rt' :: []))) 3%nat 6 /\
    addr lt' = 2%nat /\ addr rt' = 3%nat /\
    zlen (avals lt') = zlen lv0 + 1 /\ zlen (avals rt') = zlen rv0 - 1 /\
    inorder lt' ++ x :: inorder rt' = lv0 ++ d0 :: rv0 /\
    inorder (plug CTop (ANode 1%nat (<[Z.to_nat (zlen (@nil atree)) := x]> [d0])
                          ([] ++ lt' :: rt' :: []))) =
      inorder (two_leaves_tree lv0 rv0 d0) /\
    next_addr (heap t') = next_addr (heap t).
Proof.
  apply (rebalance_right_to_left_tree static_assert_48 (two_leaves lv0 rv0 d0 6) CTop 1%nat
           [d0] [] [] (leaf48 2%nat lv0) (leaf48 3%nat rv0) 0%nat 3%nat 6 1 1 d0).
  - apply two_leaves_rep.
  - exact I.
  - reflexivity.
  - vm_compute. discriminate.
  - apply wf_leaf_48. vm_compute. split; discriminate.
  - apply wf_leaf_48. vm_compute. split; discriminate.
  - reflexivity.
  - vm_compute. split; discriminate.
  - vm_compute. discriminate.
Defined.

Lemma rebalance_left_to_right_tree_witness :
  let t := two_leaves rv0 lv0 d0 6 in
  let t' := with_heap (rebalance_left_to_right 2%nat 3%nat 1 (heap t)) t in
  exists lt' rt' x,
    tree_rep t' (plug CTop (ANode 1%nat (<[Z.to_nat (zlen (@nil atree)) := x]> [d0])
                              ([] ++ lt' :: rt' :: []))) 3%nat 6 /\
    addr lt' = 2%nat /\ addr rt' = 3%nat /\
    zlen (avals lt') = zlen rv0 - 1 /\ zlen (avals rt') = zlen lv0 + 1 /\
    inorder lt' ++ x :: inorder rt' = rv0 ++ d0 :: lv0 /\
    inorder (plug CTop (ANode 1%nat (<[Z.to_nat (zlen (@nil atree)) := x]> [d0])
                          ([] ++ lt' :: rt' :: []))) =
      inorder (two_leaves_tree rv0 lv0 d0) /\
    next_addr (heap t') = next_addr (heap t).
Proof.
  apply (rebalance_left_to_right_tree static_assert_48 (two_leaves rv0 lv0 d0 6) CTop 1%nat
           [d0] [] [] (leaf48 2%nat rv0) (leaf48 3%nat lv0) 0%nat 3%nat 6 1 1 d0).
  - apply two_leaves_rep.
  - exact I.
  - reflexivity.
  - vm_compute. discriminate.
  - apply wf_leaf_48. vm_compute. split; discriminate.
  - apply wf_leaf_48. vm_compute. split; discriminate.
  - reflexivity.
  - vm_compute. split; discriminate.
  - vm_compute. discriminate.
Defined.

Lemma rebalance_right_to_left_undone_witness :
  let t := two_leaves lv0 rv0 d0 6 in
  let m1 := rebalance_right_to_left 2%nat 3%nat 2 (heap t) in
  let m2 := rebalance_left_to_right 2%nat 3%nat 2 m1 in
  tree_rep (with_heap m2 t) (two_leaves_tree lv0 rv0 d0) 3%nat 6.
Proof.
  apply (rebalance_right_to_left_undone static_assert_48 (two_leaves lv0 rv0 d0 6) CTop 1%nat
           [d0] [] [] (leaf48 2%nat lv0) (leaf48 3%nat rv0) 0%nat 3%nat 6 1 1 d0).
  - apply two_leaves_rep.
  - exact I.
  - reflexivity.
  - vm_compute. discriminate.
  - apply wf_leaf_48. vm_compute. split; discriminate.
  - apply wf_leaf_48. vm_compute. split; discriminate.
  - reflexivity.
  - vm_compute. split; discriminate.
  - vm_compute. discriminate.
Defined.

(** A full left leaf. *)
Definition fv0 : list (Z * Z) := [(1, 10); (2, 20); (3, 30); (4, 40)].
Definition g0 : Z * Z := (5, 50).
Definition hv0 : list (Z * Z) := [(6, 60)].

Lemma split_tree_witness :
  let t := two_leaves fv0 hv0 g0 6 in
  let t2 := with_heap (split 2%nat 4%nat 4
                         (set_cell 4%nat (leaf_cell 1%nat 0 4 []) (bump (heap t)))) t in
  exists lt' rt' x,
    tree_rep t2 (plug CTop (ANode 1%nat (insert_at (zlen (@nil atree)) x [g0])
                              ([] ++ lt' :: rt' :: [leaf48 3%nat hv0]))) 3%nat 6 /\
    addr lt' = 2%nat /\ addr rt' = 4%nat /\
    zlen (avals lt') = 4 - 0 - 1 /\ zlen (avals rt') = 0 /\
    inorder lt' ++ x :: inorder rt' = fv0 /\
    inorder (plug CTop (ANode 1%nat (insert_at (zlen (@nil atree)) x [g0])
                          ([] ++ lt' :: rt' :: [leaf48 3%nat hv0]))) =
      inorder (two_leaves_tree fv0 hv0 g0) /\
    next_addr (heap t2) = 5%nat.
Proof.
  apply (split_tree static_assert_48 (two_leaves fv0 hv0 g0 6) CTop 1%nat [g0] []
           [leaf48 3%nat hv0] (leaf48 2%nat fv0) 0%nat 3%nat 6).
  - apply two_leaves_rep.
  - split; [vm_compute; split; discriminate|]. split; [reflexivity|].
    split; [constructor|]. split; [|exact I].
    constructor; [|constructor]. apply wf_leaf_48. vm_compute. split; discriminate.
  - vm_compute. reflexivity.
  - apply wf_leaf_48. vm_compute. split; discriminate.
  - reflexivity.
  - vm_compute. split; discriminate.
  - exists 1%nat. reflexivity.
Defined.

Lemma merge_nodes_tree_witness :
  let t := two_leaves [(1, 10)] [(5, 50)] d0 3 in
  let t' := merge_nodes 2%nat 3%nat t in
  let T1 := plug CTop (ANode 1%nat (remove_at (zlen (@nil atree)) [d0])
                         ([] ++ merged (leaf48 2%nat [(1, 10)]) (leaf48 3%nat [(5, 50)]) d0
                             :: [])) in
  tree_rep t' T1 (last_leaf T1) 3 /\
  avals (merged (leaf48 2%nat [(1, 10)]) (leaf48 3%nat [(5, 50)]) d0) =
    [(1, 10)] ++ d0 :: [(5, 50)] /\
  inorder T1 = inorder (two_leaves_tree [(1, 10)] [(5, 50)] d0) /\
  cells (heap t') !! 3%nat = None /\
  next_addr (heap t') = next_addr (heap t) /\
  root t' = root t /\ key_comp t' = key_comp t.
Proof.
  apply (merge_nodes_tree static_assert_48 (two_leaves [(1, 10)] [(5, 50)] d0 3) CTop 1%nat
           [d0] [] [] (leaf48 2%nat [(1, 10)]) (leaf48 3%nat [(5, 50)]) 0%nat 3 1 1 d0).
  - apply two_leaves_rep.
  - exact I.
  - reflexivity.
  - vm_compute. discriminate.
  - apply wf_leaf_48. vm_compute. split; discriminate.
  - apply wf_leaf_48. vm_compute. split; discriminate.
  - reflexivity.
  - vm_compute. discriminate.
Defined.

(** The full left leaf under the root of the small tree. *)
Definition c_left : ctx := CNode 1%nat [g0] [] [leaf48 3%nat hv0] CTop.

Lemma two_leaves_full_rep :
  tree_rep (two_leaves fv0 hv0 g0 6) (plug c_left (leaf48 2%nat fv0))
    (last_leaf (plug c_left (leaf48 2%nat fv0)))
    (zlen (inorder (plug c_left (leaf48 2%nat fv0)))).
Proof. exact (two_leaves_rep fv0 hv0 g0 6). Qed.

Lemma c_left_wf : ctx_wf 1 c_left 0.
Proof.
  split; [vm_compute; split; discriminate|]. split; [reflexivity|].
  split; [constructor|]. split; [|exact I].
  constructor; [|constructor]. apply wf_leaf_48. vm_compute. split; discriminate.
Qed.


Lemma internal_insert_tree_witness :
  let t := two_leaves fv0 hv0 g0 6 in
  exists c' sub' ip' t',
    internal_insert (mk_iterator 2%nat 2) (2, 25) t = (mk_iterator (addr sub') ip', t') /\
    tree_rep t' (plug c' sub') (last_leaf (plug c' sub'))
      (zlen (inorder (plug c' sub'))) /\
    inorder (plug c_left (leaf48 2%nat fv0)) =
      (ctx_before c_left ++ ztake 2 fv0) ++ (zdrop 2 fv0 ++ ctx_after c_left) /\
    inorder (plug c' sub') =
      (ctx_before c_left ++ ztake 2 fv0) ++ (2, 25) :: (zdrop 2 fv0 ++ ctx_after c_left) /\
    is_leaf sub' = true /\ zget (avals sub') ip' = Some (2, 25) /\
    ctx_before c' ++ ztake ip' (avals sub') = ctx_before c_left ++ ztake 2 fv0 /\
    ctx_wf 1 c' 0 /\ wf 1 0 sub' /\
    btree_size t' = btree_size t + 1 /\ key_comp t' = key_comp t.
Proof.
  apply (internal_insert_tree static_assert_48 (two_leaves fv0 hv0 g0 6) c_left
           (leaf48 2%nat fv0) 0%nat 2 (2, 25)).
  - exact two_leaves_full_rep.
  - exact c_left_wf.
  - apply wf_leaf_48. vm_compute. split; discriminate.
  - reflexivity.
  - vm_compute. split; discriminate.
Defined.



(** * The small tree with the keys 1 to 6 *)

Definition t16 : btree := two_leaves lv0 rv0 d0 6.
Definition T16 : atree := two_leaves_tree lv0 rv0 d0.

Lemma T16_inorder :
  inorder T16 = [(1, 10); (2, 20); (3, 30); (4, 40); (5, 50); (6, 60)].
Proof. reflexivity. Qed.

Lemma t16_inv : tree_inv t16 T16.
Proof.
  split; [exact (two_leaves_rep lv0 rv0 d0 6)|].
  exists 1%nat. apply wf_node. split; [vm_compute; split; discriminate|].
  split; [reflexivity|]. exists 0%nat. split; [reflexivity|].
  constructor; [|constructor; [|constructor]]; apply wf_leaf_48; vm_compute; split; discriminate.
Qed.

Lemma ltb_transitive : transitive_comp (P := P48) tt.
Proof.
  intros a b c H1 H2. cbn in *. apply Z.ltb_lt in H1, H2. apply Z.ltb_lt. lia.
Qed.

Lemma T16_sorted : StronglySorted (key_lt (key_comp t16)) (inorder T16).
Proof. rewrite T16_inorder. repeat constructor. Qed.

Lemma insert_unique_absent_witness :
  exists it t' T' X Y,
    insert_unique (params_key (7, 70)) (7, 70) t16 = ((it, true), t') /\
    tree_inv t' T' /\ inorder T16 = X ++ Y /\ inorder T' = X ++ (7, 70) :: Y /\
    StronglySorted (key_lt (key_comp t')) (inorder T') /\
    node it <> 0%nat /\ slot (nd (heap t') (node it)) (pos it) = Some (7, 70) /\
    btree_size t' = btree_size t16 + 1 /\ key_comp t' = key_comp t16.
Proof.
  apply (insert_unique_absent static_assert_48 eq_refl t16 T16 (7, 70)).
  - exact t16_inv.
  - exact ltb_transitive.
  - exact T16_sorted.
  - rewrite T16_inorder. repeat constructor; intros [H1 H2]; vm_compute in H1, H2; discriminate.
Defined.

Lemma insert_unique_present_witness :
  insert_unique 3 (3, 99) t16 = ((find_unique 3 t16, false), t16).
Proof.
  apply (insert_unique_present static_assert_48 eq_refl t16 T16 3 (3, 99) (3, 30)).
  - exact t16_inv.
  - exact ltb_transitive.
  - exact T16_sorted.
  - rewrite T16_inorder. do 2 apply list_elem_of_further. apply list_elem_of_here.
  - split; reflexivity.
Defined.

Lemma find_unique_sorted_witness :
  let it := find_unique 4 t16 in
  (exists y, y ∈ inorder T16 /\ equivalent (key_comp t16) 4 y /\
     node it <> 0%nat /\ slot (nd (heap t16) (node it)) (pos it) = Some y) \/
  (it = btree_end t16 /\ Forall (fun y => ~ equivalent (key_comp t16) 4 y) (inorder T16)).
Proof.
  apply (find_unique_sorted (P := P48) eq_refl t16 T16 4).
  - exact t16_inv.
  - exact ltb_transitive.
  - exact T16_sorted.
Defined.

(** The tree after the insertion of the key 7. *)
Definition t17 : btree := snd (insert_unique 7 (7, 70) t16).
Definition it7 : iterator := fst (fst (insert_unique 7 (7, 70) t16)).

Lemma insert_unique_then_find_witness :
  let it2 := find_unique 7 t17 in
  node it2 <> 0%nat /\ slot (nd (heap t17) (node it2)) (pos it2) = Some (7, 70) /\
  insert_unique 7 (7, 71) t17 = ((it2, false), t17) /\
  btree_size t17 = btree_size t16 + 1.
Proof.
  apply (insert_unique_then_find static_assert_48 eq_refl t16 T16 (7, 70) (7, 71) it7 t17).
  - exact t16_inv.
  - exact ltb_transitive.
  - exact T16_sorted.
  - reflexivity.
  - vm_compute. reflexivity.
Defined.







(** * Walks, insertion of an equivalent key and erasure in the small tree *)

Lemma increment_traversal_witness :
  (let it := Nat.iter 3 (fun it => increment it (heap t16)) (btree_begin t16) in
   node it <> 0%nat /\ slot (nd (heap t16) (node it)) (pos it) = Some (4, 40)) /\
  Nat.iter 6 (fun it => increment it (heap t16)) (btree_begin t16) = btree_end t16.
Proof.
  pose proof (increment_traversal t16 T16 t16_inv) as [H1 H2]. split.
  - exact (H1 3%nat (4, 40) eq_refl).
  - exact H2.
Defined.

Lemma decrement_increment_witness :
  let it := Nat.iter 2 (fun it => increment it (heap t16)) (btree_begin t16) in
  decrement (increment it (heap t16)) (heap t16) = it.
Proof.
  apply (decrement_increment t16 T16 2 t16_inv). rewrite T16_inorder. cbn. lia.
Defined.

Lemma decrement_traversal_witness :
  (let it := Nat.iter 1 (fun it => decrement it (heap t16)) (btree_end t16) in
   node it <> 0%nat /\ slot (nd (heap t16) (node it)) (pos it) = Some (6, 60)) /\
  Nat.iter 6 (fun it => decrement it (heap t16)) (btree_end t16) = btree_begin t16.
Proof.
  pose proof (decrement_traversal t16 T16 t16_inv) as [H1 H2]. split.
  - apply (H1 0%nat (6, 60)); [rewrite T16_inorder; cbn; lia|reflexivity].
  - exact H2.
Defined.


(** The right leaf of the small tree, seen from the root. *)
Definition c_right : ctx := CNode 1%nat [d0] [leaf48 2%nat lv0] [] CTop.


Lemma erase_then_find_witness :
  exists it' t' T',
    erase (mk_iterator 3%nat 1) t16 = (it', t') /\ tree_inv t' T' /\
    StronglySorted (key_lt (key_comp t')) (inorder T') /\
    Forall (fun y => ~ equivalent (key_comp t') (params_key (5, 50)) y) (inorder T') /\
    find_unique (params_key (5, 50)) t' = btree_end t'.
Proof.
  apply (erase_then_find static_assert_48 eq_refl t16 c_right 3%nat 4 rv0 1 (5, 50)).
  - exact t16_inv.
  - reflexivity.
  - vm_compute. discriminate.
  - exact ltb_transitive.
  - exact T16_sorted.
Defined.

(** A tree of one value. *)
Definition t_one : btree :=
  mk_btree (set_cell 1%nat (leaf_cell 1%nat 0 1 [(5, 50)]) (mk_memory ∅ 2%nat)) tt 1%nat.

Lemma t_one_inv : tree_inv t_one (@ALeaf P48 1%nat 1 [(5, 50)]).
Proof.
  split; [split|].
  - reflexivity.
  - apply rep_at_leaf. apply lookup_set_cell_eq.
  - apply NoDup_singleton.
  - intros y Hy. cbn in Hy. apply list_elem_of_singleton in Hy as ->.
    unfold t_one. cbn [heap]. rewrite next_addr_set_cell. cbn. lia.
  - vm_compute. repeat split; discriminate.
Qed.

Lemma erase_last_value_witness :
  exists t',
    erase (btree_begin t_one) t_one = (btree_end t', t') /\
    empty t' = true /\ btree_size t' = 0 /\ btree_begin t' = btree_end t' /\
    cells (heap t') !! 1%nat = None /\ key_comp t' = key_comp t_one.
Proof.
  apply (erase_last_value static_assert_48 t_one 1%nat 1 (5, 50)). exact t_one_inv.
Defined.

Lemma erase_unique_absent_witness : erase_unique 7 t16 = (0, t16).
Proof.
  apply (erase_unique_absent (P := P48) eq_refl t16 T16 7).
  - exact t16_inv.
  - exact ltb_transitive.
  - exact T16_sorted.
  - rewrite T16_inorder. repeat constructor; intros [H1 H2]; vm_compute in H1, H2; discriminate.
Defined.

(** A root without value above one leaf, as [erase] leaves it after the
    merge of the last two leaves. *)
Definition t_tall : btree :=
  mk_btree
    (set_cell 1%nat (internal_cell 2%nat 0 [] kids23 2%nat 3)
       (set_cell 2%nat (leaf_cell 1%nat 0 4 rv0) (mk_memory ∅ 3%nat)))
    tt 1%nat.

Lemma t_tall_rep : tree_rep t_tall (ANode 1%nat [] [leaf48 2%nat rv0]) 2%nat 3.
Proof.
  split.
  - reflexivity.
  - apply rep_at_node. split.
    + exists kids23. split; [apply lookup_set_cell_eq|].
      intros q c. rewrite zget_cons. destruct (Z.eqb_spec q 0) as [->|]; [by intros [= <-]|].
      by rewrite zget_nil.
    + intros q c. rewrite zget_cons. destruct (Z.eqb_spec q 0) as [->|]; [|by rewrite zget_nil].
      intros [= <-]. apply rep_at_leaf. unfold t_tall. cbn [heap].
      rewrite lookup_set_cell_ne by done. apply lookup_set_cell_eq.
  - cbn. repeat constructor; set_solver.
  - intros y Hy. cbn in Hy. unfold t_tall. cbn [heap]. rewrite !next_addr_set_cell. cbn.
    set_solver by lia.
Qed.

Lemma try_shrink_tree_witness :
  exists T',
    tree_rep (try_shrink t_tall) T' (last_leaf T') (zlen (inorder T')) /\
    inorder T' = rv0 /\ wf 1 0 T' /\ addr T' = 2%nat /\
    cells (heap (try_shrink t_tall)) !! 1%nat = None /\
    next_addr (heap (try_shrink t_tall)) = next_addr (heap t_tall) /\
    key_comp (try_shrink t_tall) = key_comp t_tall.
Proof.
  apply (try_shrink_tree static_assert_48 t_tall 1%nat (leaf48 2%nat rv0) 1 0%nat 2%nat 3).
  - exact t_tall_rep.
  - apply wf_leaf_48. vm_compute. split; discriminate.
Defined.

